(** * FlowScript: semantic analyzer, bytecode loader and parallel scheduler

    A shallow embedding of the core of the FlowScript workflow
    orchestrator (packages [flowc] and [flowrun]) together with the
    properties its specification states about it.

    Conventions of the embedding.
    - A Python [str] is a [string]; each [ascii] stands for one code point
      below 256, so the order [String.compare] is the order Python uses to
      compare and sort strings.
    - [Optional[str]] is [option string]; a Python [int] is a [Z].
    - A [dict] keyed by step names is a [gmap string _]; where the source
      iterates over a dict the iteration order is given by an explicit
      list of keys.  A [set] of names is a [gset string].
    - A raised [SemanticError] is the [Raise] case of [result].
    - Loops that the source writes with [while] take a fuel argument and
      return [None] when the fuel runs out; the theorems show that the
      fuel the model supplies is always enough. *)

From Stdlib Require Import ZArith Ascii String.
From stdpp Require Import gmap strings list fin_maps sorting.

Local Open Scope Z_scope.
#[local] Set Warnings "-clear-no-such-hyp,-register-all".

(** ** Strings and their order *)

Definition str_le (a b : string) : Prop := String.leb a b = true.

#[global] Instance str_le_dec : RelDecision str_le.
Proof. intros a b. unfold str_le. apply _. Defined.

Lemma ascii_compare_N (a b : ascii) :
  Ascii.compare a b = N.compare (N_of_ascii a) (N_of_ascii b).
Proof. reflexivity. Qed.

Lemma ascii_compare_Lt_trans (a b c : ascii) :
  Ascii.compare a b = Lt → Ascii.compare b c = Lt → Ascii.compare a c = Lt.
Proof.
  rewrite !ascii_compare_N, !N.compare_lt_iff. apply N.lt_trans.
Qed.

Lemma string_compare_refl (a : string) : String.compare a a = Eq.
Proof.
  induction a as [|c a IH]; simpl; [done|].
  rewrite ascii_compare_N, N.compare_refl. exact IH.
Qed.

Lemma string_compare_Lt_trans (a b c : string) :
  String.compare a b = Lt → String.compare b c = Lt → String.compare a c = Lt.
Proof.
  revert b c. induction a as [|x a IH]; intros [|y b] [|z c]; simpl; try done.
  destruct (Ascii.compare x y) eqn:Hxy; try done.
  - apply Ascii.compare_eq_iff in Hxy as ->.
    destruct (Ascii.compare y z) eqn:Hyz; try done. apply IH.
  - destruct (Ascii.compare y z) eqn:Hyz; try done.
    + apply Ascii.compare_eq_iff in Hyz as <-. by rewrite Hxy.
    + by rewrite (ascii_compare_Lt_trans x y z).
Qed.

Lemma str_le_alt (a b : string) :
  str_le a b ↔ a = b ∨ String.compare a b = Lt.
Proof.
  unfold str_le, String.leb. split.
  - destruct (String.compare a b) eqn:H; try done; [|by right].
    left. by apply String.compare_eq_iff.
  - intros [->|H]; [by rewrite string_compare_refl | by rewrite H].
Qed.

#[global] Instance str_le_refl : Reflexive str_le.
Proof. intros a. apply str_le_alt. by left. Qed.

#[global] Instance str_le_trans : Transitive str_le.
Proof.
  intros a b c [->|Hab]%str_le_alt [->|Hbc]%str_le_alt; apply str_le_alt; eauto.
  right. by apply string_compare_Lt_trans with b.
Qed.

#[global] Instance str_le_total : Total str_le.
Proof. intros a b. apply String.leb_total. Qed.

#[global] Instance str_le_antisym : AntiSymm (=) str_le.
Proof. intros a b. apply String.leb_antisym. Qed.

(** [list.sort()] and [sorted(...)] on a list of strings. *)
Definition sort (l : list string) : list string := merge_sort str_le l.

(** ** Abstract syntax ([flowc/ast.py]) *)

Record Step := mkStep {
  name : string;
  run : option string;
  timeout : option string;
  retries : Z;
  depends_on : list string;
  on_error : option string
}.

Record Notify := mkNotify {
  notify_name : string;
  email : option string;
  subject : option string;
  body : option string
}.

Record Workflow := mkWorkflow {
  workflow_name : string;
  triggers : list (string * string);
  env : list (string * string);
  steps : list Step;
  notifies : list Notify
}.

(** ** Regular expressions

    The banned patterns of [flowc/semantic.py] are written in the syntax of
    Python's [re] module.  The fragment they use is embedded as a syntax
    tree, and [re_search] decides whether some substring of the subject
    matches, which is when [re.search] returns a match object.  [rmatch s r i]
    lists the positions at which a match of [r] that starts at position [i]
    of [s] can end. *)

Inductive regex :=
| Eps
| Lit (c : ascii)
| Space
| Bol
| Eol
| Cat (r1 r2 : regex)
| Alt (r1 r2 : regex)
| Plus (r : regex).

(** [\s] on a [str] pattern: the code points for which [str.isspace] holds. *)
Definition is_space (c : ascii) : bool :=
  let n := nat_of_ascii c in
  ((9 <=? n)%nat && (n <=? 13)%nat) || ((28 <=? n)%nat && (n <=? 32)%nat)
  || (n =? 133)%nat || (n =? 160)%nat.

Definition newline : ascii := ascii_of_nat 10.

Fixpoint rmatch (s : list ascii) (r : regex) (i : nat) : list nat :=
  match r with
  | Eps => [i]
  | Lit c =>
      match s !! i with
      | Some d => if Ascii.eqb c d then [S i] else []
      | None => []
      end
  | Space =>
      match s !! i with
      | Some d => if is_space d then [S i] else []
      | None => []
      end
  | Bol => if (i =? 0)%nat then [i] else []
  | Eol =>
      if (i =? length s)%nat then [i]
      else if (S i =? length s)%nat && bool_decide (s !! i = Some newline)
           then [i] else []
  | Cat r1 r2 => j ← rmatch s r1 i; rmatch s r2 j
  | Alt r1 r2 => rmatch s r1 i ++ rmatch s r2 i
  | Plus r1 =>
      (fix iter (fuel : nat) (i : nat) {struct fuel} : list nat :=
         match fuel with
         | O => []
         | S fuel' =>
             let ends := rmatch s r1 i in
             ends ++ (j ← ends; if (i <? j)%nat then iter fuel' j else [])
         end) (S (length s)) i
  end.

Definition chars (s : string) : list ascii := list_ascii_of_string s.

Definition re_search (r : regex) (s : string) : bool :=
  existsb (λ i, match rmatch (chars s) r i with [] => false | _ => true end)
          (seq 0 (S (length (chars s)))).

Fixpoint lit_str (s : string) : regex :=
  match s with
  | EmptyString => Eps
  | String c EmptyString => Lit c
  | String c s' => Cat (Lit c) (lit_str s')
  end.

(** ** Semantic analysis ([flowc/semantic.py]) *)

Definition BANNED_PATTERNS : list regex :=
  [ Cat (lit_str "rm") (Cat (Plus Space) (lit_str "-rf"));
    Cat (Alt Bol (Alt (Lit ";") Space)) (Cat (Lit "|") (Alt Space Eol));
    lit_str ">>";
    Cat (Alt Bol (Alt (Lit ";") Space)) (Cat (Lit "&") (Alt Space Eol));
    Lit "`" ].

(** The places where the analyzer raises [SemanticError]; the message the
    source formats is represented by the data it is formatted from. *)
Inductive SemanticError :=
| DuplicateStepName (n : string)
| MissingDependency (s d : string)
| CycleDetected
| BannedPattern (s : string) (pat : regex)
| CycleBuildingDag
| UnknownBytecodeDependency (s d : string).

Inductive outcome (A : Type) :=
| Return (a : A)
| Raise (e : SemanticError)
| OutOfFuel.
Arguments Return {A} a.
Arguments Raise {A} e.
Arguments OutOfFuel {A}.

Definition bind {A B} (m : outcome A) (k : A → outcome B) : outcome B :=
  match m with
  | Return a => k a
  | Raise e => Raise e
  | OutOfFuel => OutOfFuel
  end.

#[global] Instance outcome_bind : MBind outcome := λ A B k m, bind m k.

Fixpoint check_duplicates_loop (names : gset string) (steps : list Step)
  : outcome unit :=
  match steps with
  | [] => Return ()
  | s :: rest =>
      if decide (name s ∈ names) then Raise (DuplicateStepName (name s))
      else check_duplicates_loop ({[name s]} ∪ names) rest
  end.

Definition check_duplicates (steps : list Step) : outcome unit :=
  check_duplicates_loop ∅ steps.

Fixpoint first_missing (names : gset string) (deps : list string)
  : option string :=
  match deps with
  | [] => None
  | d :: ds => if decide (d ∈ names) then first_missing names ds else Some d
  end.

Fixpoint check_missing_loop (names : gset string) (steps : list Step)
  : outcome unit :=
  match steps with
  | [] => Return ()
  | s :: rest =>
      match first_missing names (depends_on s) with
      | Some d => Raise (MissingDependency (name s) d)
      | None => check_missing_loop names rest
      end
  end.

Definition check_missing_dependencies (steps : list Step) : outcome unit :=
  check_missing_loop (list_to_set (name <$> steps)) steps.

(** *** Kahn's algorithm, as [detect_cycle] and [build_dag] write it *)

(** [{s.name: set(s.depends_on) for s in steps}]: a later step of the same
    name overwrites the value and keeps the position of the key. *)
Definition graph_of (steps : list Step) : gmap string (gset string) :=
  foldl (λ g s, <[name s := list_to_set (depends_on s)]> g) ∅ steps.

Fixpoint first_occurrences (seen : gset string) (l : list string)
  : list string :=
  match l with
  | [] => []
  | x :: l' =>
      if decide (x ∈ seen) then first_occurrences seen l'
      else x :: first_occurrences ({[x]} ∪ seen) l'
  end.

(** [list(graph.keys())], in insertion order. *)
Definition graph_keys (steps : list Step) : list string :=
  first_occurrences ∅ (name <$> steps).

Record kahn_state := mkKahn {
  graph : gmap string (gset string);
  indeg : gmap string Z;
  queue : list string;
  order : list string
}.

(** The body of [for m in list(graph.keys())] for the popped node [n]. *)
Definition relax (n : string) (st : kahn_state) (m : string) : kahn_state :=
  match graph st !! m with
  | Some ds =>
      if decide (n ∈ ds) then
        let indeg' := alter (λ d, d - 1) m (indeg st) in
        mkKahn (<[m := ds ∖ {[n]}]> (graph st)) indeg'
               (if decide (indeg' !! m = Some 0) then queue st ++ [m]
                else queue st)
               (order st)
      else st
  | None => st
  end.

(** One iteration of [while queue]. *)
Definition kahn_step (keys : list string) (n : string) (q : list string)
    (st : kahn_state) : kahn_state :=
  let st1 := mkKahn (graph st) (indeg st) q (order st ++ [n]) in
  let st2 := foldl (relax n) st1 keys in
  mkKahn (graph st2) (indeg st2) (sort (queue st2)) (order st2).

Fixpoint kahn_loop (fuel : nat) (keys : list string) (st : kahn_state)
  : option kahn_state :=
  match queue st with
  | [] => Some st
  | n :: q =>
      match fuel with
      | O => None
      | S fuel' => kahn_loop fuel' keys (kahn_step keys n q st)
      end
  end.

Definition kahn_init (steps : list Step) : kahn_state :=
  let graph := graph_of steps in
  let indeg := (λ ds : gset string, Z.of_nat (size ds)) <$> graph in
  let queue := filter (λ n, indeg !! n = Some 0) (graph_keys steps) in
  mkKahn graph indeg (sort queue) [].

Definition kahn (steps : list Step) : option (list string) :=
  order <$> kahn_loop (length steps) (graph_keys steps) (kahn_init steps).

Definition detect_cycle (steps : list Step) : outcome unit :=
  match kahn steps with
  | None => OutOfFuel
  | Some order =>
      if decide (length order ≠ length steps) then Raise CycleDetected
      else Return ()
  end.

Fixpoint first_banned (pats : list regex) (cmd : string) : option regex :=
  match pats with
  | [] => None
  | pat :: pats' =>
      if re_search pat cmd then Some pat else first_banned pats' cmd
  end.

Fixpoint check_banned_commands (steps : list Step) : outcome unit :=
  match steps with
  | [] => Return ()
  | s :: rest =>
      match run s with
      | Some cmd =>
          if decide (cmd = EmptyString) then check_banned_commands rest
          else match first_banned BANNED_PATTERNS cmd with
               | Some pat => Raise (BannedPattern (name s) pat)
               | None => check_banned_commands rest
               end
      | None => check_banned_commands rest
      end
  end.

Definition build_dag (steps : list Step) : outcome (list string) :=
  match kahn steps with
  | None => OutOfFuel
  | Some order =>
      if decide (length order ≠ length steps) then Raise CycleBuildingDag
      else Return order
  end.

Definition semantic_check (workflow : Workflow) : outcome (list string) :=
  check_duplicates (steps workflow);;
  check_missing_dependencies (steps workflow);;
  detect_cycle (steps workflow);;
  check_banned_commands (steps workflow);;
  build_dag (steps workflow).

(** * Properties of the semantic analyzer *)

(** ** The dependency dict *)

Lemma graph_of_snoc (steps : list Step) (s : Step) :
  graph_of (steps ++ [s])
  = <[name s := list_to_set (depends_on s)]> (graph_of steps).
Proof. unfold graph_of. by rewrite foldl_app. Qed.

Lemma graph_of_is_Some (steps : list Step) (m : string) :
  is_Some (graph_of steps !! m) ↔ m ∈ name <$> steps.
Proof.
  induction steps as [|s steps IH] using rev_ind.
  - unfold graph_of; simpl. rewrite lookup_empty, is_Some_alt. set_solver.
  - rewrite graph_of_snoc, fmap_app, elem_of_app, <- IH; simpl.
    rewrite lookup_insert_is_Some, list_elem_of_singleton.
    destruct (decide (name s = m)); naive_solver.
Qed.

Lemma graph_of_lookup (steps : list Step) (m : string) (ds : gset string) :
  graph_of steps !! m = Some ds →
  ∃ s, s ∈ steps ∧ name s = m ∧ ds = list_to_set (depends_on s).
Proof.
  induction steps as [|s steps IH] using rev_ind.
  - unfold graph_of; simpl. by rewrite lookup_empty.
  - rewrite graph_of_snoc. intros H.
    destruct (decide (name s = m)) as [<-|Hne].
    + rewrite lookup_insert_eq in H. injection H as <-.
      exists s. set_solver.
    + rewrite lookup_insert_ne in H by done.
      destruct (IH H) as (s' & ? & ? & ?). exists s'. set_solver.
Qed.

Lemma graph_of_lookup_unique (steps : list Step) (s : Step) :
  NoDup (name <$> steps) → s ∈ steps →
  graph_of steps !! name s = Some (list_to_set (depends_on s)).
Proof.
  induction steps as [|s' steps IH] using rev_ind; [set_solver|].
  rewrite fmap_app, NoDup_app, graph_of_snoc; simpl.
  intros (Hnd & Hdisj & _) [Hin| ->%list_elem_of_singleton]%elem_of_app.
  - rewrite lookup_insert_ne; [by apply IH|].
    intros Heq. apply (Hdisj (name s)); [|set_solver].
    apply list_elem_of_fmap. eauto.
  - by rewrite lookup_insert_eq.
Qed.

Lemma first_occurrences_spec (seen : gset string) (l : list string) :
  NoDup (first_occurrences seen l)
  ∧ ∀ x, x ∈ first_occurrences seen l ↔ x ∈ l ∧ x ∉ seen.
Proof.
  revert seen. induction l as [|y l IH]; intros seen; simpl.
  - split; [constructor|set_solver].
  - destruct (decide (y ∈ seen)) as [Hy|Hy].
    + destruct (IH seen) as [? Hin]. split; [done|]. set_solver.
    + destruct (IH ({[y]} ∪ seen)) as [? Hin]. split.
      * constructor; [|done]. rewrite Hin. set_solver.
      * intros x. rewrite elem_of_cons, Hin, elem_of_cons.
        destruct (decide (x = y)); set_solver.
Qed.

Lemma first_occurrences_NoDup (seen : gset string) (l : list string) :
  NoDup l → (∀ x, x ∈ l → x ∉ seen) → first_occurrences seen l = l.
Proof.
  revert seen. induction l as [|y l IH]; intros seen Hnd Hseen; [done|].
  simpl. apply NoDup_cons in Hnd as [Hy Hnd].
  rewrite decide_False by set_solver. f_equal. apply IH; [done|].
  intros x Hx. specialize (Hseen x). set_solver.
Qed.

Lemma graph_keys_NoDup (steps : list Step) : NoDup (graph_keys steps).
Proof. apply first_occurrences_spec. Qed.

Lemma elem_of_graph_keys (steps : list Step) (m : string) :
  m ∈ graph_keys steps ↔ is_Some (graph_of steps !! m).
Proof.
  unfold graph_keys. rewrite graph_of_is_Some.
  destruct (first_occurrences_spec ∅ (name <$> steps)) as [_ ->]. set_solver.
Qed.

Lemma graph_keys_unique (steps : list Step) :
  NoDup (name <$> steps) → graph_keys steps = name <$> steps.
Proof. intros. apply first_occurrences_NoDup; [done|set_solver]. Qed.

Lemma graph_keys_length (steps : list Step) :
  (length (graph_keys steps) ≤ length steps)%nat.
Proof.
  rewrite <- (length_fmap name steps). apply submseteq_length.
  apply NoDup_submseteq; [apply graph_keys_NoDup|].
  intros x. unfold graph_keys.
  destruct (first_occurrences_spec ∅ (name <$> steps)) as [_ ->]. tauto.
Qed.

(** ** The inner loop of Kahn's algorithm *)

Definition size_map (g : gmap string (gset string)) : gmap string Z :=
  (λ ds : gset string, Z.of_nat (size ds)) <$> g.

Definition drop_node (n : string) (g : gmap string (gset string))
  : gmap string (gset string) :=
  (λ ds : gset string, ds ∖ {[n]}) <$> g.

(** Nodes whose last unresolved dependency is [n]. *)
Definition freed_by (n : string) (g : gmap string (gset string)) (m : string)
  : Prop :=
  g !! m = Some {[n]}.

Lemma size_remove (n : string) (ds : gset string) :
  n ∈ ds → Z.of_nat (size (ds ∖ {[n]})) = Z.of_nat (size ds) - 1.
Proof.
  intros Hn. rewrite size_difference by set_solver. rewrite size_singleton.
  assert (size ds ≠ 0%nat) by (apply size_non_empty_iff; set_solver). lia.
Qed.

Lemma size_remove_zero (n : string) (ds : gset string) :
  n ∈ ds → Z.of_nat (size (ds ∖ {[n]})) = 0 ↔ ds = {[n]}.
Proof.
  intros Hn. split.
  - intros H. assert (size (ds ∖ {[n]}) = 0%nat) as H0 by lia.
    assert (ds ∖ {[n]} ≡ ∅) as HH by (by apply size_empty_iff). clear H H0.
    apply set_eq. intros x. rewrite elem_of_singleton. split.
    + intros Hx. destruct (decide (x = n)); [done|]. exfalso.
      apply (not_elem_of_empty (C:=gset string) x). rewrite <- HH. set_solver.
    + by intros ->.
  - intros ->. replace ({[n]} ∖ {[n]} : gset string) with (∅ : gset string)
      by set_solver. by rewrite size_empty.
Qed.

Lemma relax_fold (n : string) (ks : list string) (st : kahn_state) :
  NoDup ks →
  indeg st = size_map (graph st) →
  let st' := foldl (relax n) st ks in
  (∀ m, graph st' !! m
        = if decide (m ∈ ks) then (λ ds, ds ∖ {[n]}) <$> graph st !! m
          else graph st !! m)
  ∧ indeg st' = size_map (graph st')
  ∧ order st' = order st
  ∧ ∃ new, queue st' = queue st ++ new ∧ NoDup new
      ∧ ∀ m, m ∈ new ↔ m ∈ ks ∧ freed_by n (graph st) m.
Proof.
  intros Hnd Hsz. induction ks as [|k ks IH] using rev_ind; simpl.
  - split_and!; try done. exists []. rewrite app_nil_r.
    split_and!; [done|constructor|set_solver].
  - apply NoDup_app in Hnd as (Hnd & Hk & _).
    assert (k ∉ ks) as Hk' by (intros ?; eapply Hk; [done|set_solver]).
    destruct (IH Hnd) as (Hg & Hi & Ho & new & Hq & Hnew & Hin). clear IH.
    rewrite foldl_app; simpl.
    set (cur := foldl (relax n) st ks) in *.
    assert (graph cur !! k = graph st !! k) as Hgk
      by (by rewrite Hg, decide_False).
    unfold relax. rewrite Hgk.
    destruct (graph st !! k) as [ds|] eqn:Hds.
    + destruct (decide (n ∈ ds)) as [Hn|Hn]; simpl.
      * split_and!.
        -- intros m. destruct (decide (m = k)) as [->|Hne].
           ++ rewrite lookup_insert_eq, decide_True by set_solver.
              by rewrite Hds.
           ++ rewrite lookup_insert_ne, Hg by done.
              destruct (decide (m ∈ ks)).
              ** by rewrite decide_True by set_solver.
              ** by rewrite decide_False by set_solver.
        -- rewrite Hi. unfold size_map. apply map_eq. intros m.
           destruct (decide (m = k)) as [->|Hne].
           ++ rewrite lookup_alter_eq, !lookup_fmap, lookup_insert_eq, Hgk.
              simpl. by rewrite size_remove.
           ++ by rewrite lookup_alter_ne, !lookup_fmap, lookup_insert_ne.
        -- done.
        -- rewrite lookup_alter_eq, Hi. unfold size_map.
           rewrite lookup_fmap, Hgk; simpl. rewrite <- (size_remove n) by done.
           destruct (decide (Some (Z.of_nat (size (ds ∖ {[n]}))) = Some 0))
             as [Hz|Hz].
           ++ assert (ds = {[n]}) as ->
                by (apply (size_remove_zero n); [done|congruence]).
              exists (new ++ [k]). rewrite Hq, app_assoc. split_and!; [done| |].
              ** apply NoDup_app. split_and!; [done| |apply NoDup_singleton].
                 intros x Hx ->%list_elem_of_singleton. apply Hin in Hx.
                 tauto.
              ** intros m. rewrite !elem_of_app, Hin, list_elem_of_singleton.
                 unfold freed_by. naive_solver.
           ++ exists new. split_and!; [done..|].
              intros m. rewrite elem_of_app, Hin, list_elem_of_singleton.
              unfold freed_by. split; [naive_solver|].
              intros [[?| ->] Hf]; [done|]. exfalso. apply Hz.
              rewrite Hds in Hf. injection Hf as ->. f_equal.
              by apply size_remove_zero.
      * split_and!; [|done..|].
        -- intros m. rewrite Hg. destruct (decide (m = k)) as [->|Hne].
           ++ rewrite decide_False, decide_True, Hds by set_solver. simpl.
              f_equal. set_solver.
           ++ destruct (decide (m ∈ ks)).
              ** by rewrite decide_True by set_solver.
              ** by rewrite decide_False by set_solver.
        -- exists new. split_and!; [done..|].
           intros m. rewrite elem_of_app, Hin, list_elem_of_singleton.
           unfold freed_by. split; [naive_solver|].
           intros [[?| ->] Hf]; [done|]. rewrite Hds in Hf. set_solver.
    + split_and!; [|done..|].
      * intros m. rewrite Hg. destruct (decide (m = k)) as [->|Hne].
        -- by rewrite decide_False, decide_True, Hds by set_solver.
        -- destruct (decide (m ∈ ks)).
           ++ by rewrite decide_True by set_solver.
           ++ by rewrite decide_False by set_solver.
      * exists new. split_and!; [done..|].
        intros m. rewrite elem_of_app, Hin, list_elem_of_singleton.
        unfold freed_by. split; [naive_solver|].
        intros [[?| ->] Hf]; [done|]. by rewrite Hds in Hf.
Qed.

(** ** The invariant of the outer loop *)

Section kahn_invariant.
Variable G0 : gmap string (gset string).

(** [m] is ready once the nodes of [pre] are emitted: it is not emitted
    itself and none of its dependencies is unresolved. *)
Definition ready (pre : list string) (m : string) : Prop :=
  (m ∉ pre) ∧ ∃ ds, G0 !! m = Some ds ∧ ds ⊆ list_to_set pre.

(** Every node of [o] was, when it was emitted, the smallest ready one. *)
Definition canonical (o : list string) : Prop :=
  ∀ pre n post, o = pre ++ n :: post →
    ready pre n ∧ ∀ m, ready pre m → str_le n m.

Definition remaining (emitted : list string) : gmap string (gset string) :=
  (λ ds : gset string, ds ∖ list_to_set emitted) <$> G0.

Record kahn_inv (st : kahn_state) : Prop := {
  inv_graph : graph st = remaining (order st);
  inv_indeg : indeg st = size_map (graph st);
  inv_queue_NoDup : NoDup (queue st);
  inv_queue : ∀ m, m ∈ queue st ↔ ready (order st) m;
  inv_sorted : StronglySorted str_le (queue st);
  inv_canon : canonical (order st)
}.

Lemma canonical_nil : canonical [].
Proof. intros [|??] ?? H; discriminate H. Qed.

Lemma canonical_prefix (o r : list string) : canonical (o ++ r) → canonical o.
Proof.
  intros H pre n post ->. apply (H pre n (post ++ r)).
  by rewrite <- app_assoc.
Qed.

Lemma canonical_snoc (o : list string) (n : string) :
  canonical o → ready o n → (∀ m, ready o m → str_le n m) →
  canonical (o ++ [n]).
Proof.
  intros Ho Hn Hmin pre x post Heq.
  destruct post as [|y post _] using rev_ind.
  - apply app_inj_tail in Heq as [-> ->]. done.
  - rewrite app_comm_cons, app_assoc in Heq.
    apply app_inj_tail in Heq as [-> _]. by eapply Ho.
Qed.

Lemma canonical_NoDup (o : list string) : canonical o → NoDup o.
Proof.
  induction o as [|x o IH] using rev_ind; [constructor|].
  intros H. apply NoDup_app. split_and!.
  - eapply IH, canonical_prefix, H.
  - intros y Hy ->%list_elem_of_singleton.
    destruct (H o x [] eq_refl) as [[Hx _] _]. done.
  - apply NoDup_singleton.
Qed.

Lemma canonical_resolved (o : list string) (m : string) :
  canonical o → m ∈ o →
  ∃ ds, G0 !! m = Some ds ∧ ds ⊆ list_to_set o.
Proof.
  intros H (pre & post & ->)%list_elem_of_split.
  destruct (H pre m post eq_refl) as [[_ (ds & Hds & Hsub)] _].
  exists ds. split; [done|]. rewrite list_to_set_app_L. set_solver.
Qed.

Lemma remaining_lookup (o : list string) (m : string) :
  remaining o !! m = (λ ds : gset string, ds ∖ list_to_set o) <$> G0 !! m.
Proof. unfold remaining. by rewrite lookup_fmap. Qed.

Lemma remaining_empty (o : list string) (m : string) :
  remaining o !! m = Some ∅ ↔ ∃ ds, G0 !! m = Some ds ∧ ds ⊆ list_to_set o.
Proof.
  rewrite remaining_lookup. destruct (G0 !! m) as [ds|]; simpl.
  - split.
    + intros [= H]. exists ds. split; [done|].
      intros x Hx. destruct (decide (x ∈ (list_to_set o : gset string)));
        [done|]. exfalso. apply (not_elem_of_empty (C:=gset string) x).
      rewrite <- H. set_solver.
    + intros (ds' & [= <-] & Hsub). f_equal. set_solver.
  - split; [done|]. by intros (? & ? & _).
Qed.

Lemma ready_remaining (o : list string) (m : string) :
  ready o m ↔ (m ∉ o) ∧ remaining o !! m = Some ∅.
Proof. unfold ready. by rewrite remaining_empty. Qed.

Lemma remaining_snoc (o : list string) (n : string) :
  drop_node n (remaining o) = remaining (o ++ [n]).
Proof.
  apply map_eq. intros m. unfold drop_node.
  rewrite lookup_fmap, !remaining_lookup.
  destruct (G0 !! m) as [ds|]; simpl; [|done]. f_equal.
  rewrite list_to_set_app_L. set_solver.
Qed.

Lemma freed_by_ready (o : list string) (n m : string) :
  n ∉ o → m ≠ n → m ∉ o →
  (freed_by n (remaining o) m ∨ ready o m ↔ ready (o ++ [n]) m).
Proof.
  intros Hn Hmn Hm. unfold freed_by, ready.
  rewrite remaining_lookup, list_to_set_app_L.
  destruct (G0 !! m) as [ds|]; simpl; [|naive_solver].
  split.
  - intros [[= H]|(_ & ds' & [= <-] & Hsub)].
    + split; [set_solver|]. exists ds. split; [done|].
      intros x Hx. destruct (decide (x ∈ (list_to_set o : gset string)));
        [set_solver|]. assert (x ∈ ds ∖ list_to_set o) as Hx' by set_solver.
      rewrite H in Hx'. set_solver.
    + split; [set_solver|]. exists ds. set_solver.
  - intros (_ & ds' & [= <-] & Hsub).
    destruct (decide (n ∈ ds)) as [Hin|Hin].
    + left. f_equal. apply set_eq. intros x. split.
      * intros Hx. specialize (Hsub x). set_solver.
      * intros ->%elem_of_singleton. set_solver.
    + right. split; [done|]. exists ds. split; [done|].
      intros x Hx. specialize (Hsub x). set_solver.
Qed.

(** The keys of the dict, in the order the inner loop visits them. *)
Variable keys : list string.
Hypothesis keys_NoDup : NoDup keys.
Hypothesis keys_dom : ∀ m, m ∈ keys ↔ is_Some (G0 !! m).

Lemma kahn_inv_step (st : kahn_state) (n : string) (q : list string) :
  kahn_inv st → queue st = n :: q → kahn_inv (kahn_step keys n q st).
Proof.
  intros [Hgr Hind Hqnd Hqu Hso Hca] Hq. rewrite Hq in *.
  set (o := order st) in *.
  assert (ready o n) as Hrn by (apply Hqu; set_solver).
  assert (n ∉ o) as Hno by apply Hrn.
  apply NoDup_cons in Hqnd as [Hnq Hqnd].
  apply StronglySorted_inv in Hso as [Hso Hmin].
  assert (∀ m, m ∈ o → remaining o !! m = Some ∅) as Hemitted.
  { intros m Hm. apply remaining_empty. by apply canonical_resolved. }
  unfold kahn_step.
  destruct (relax_fold n keys
              (mkKahn (graph st) (indeg st) q (order st ++ [n]))
              keys_NoDup Hind) as (Hg & Hi & Ho & new & Hqn & Hnew & Hin).
  cbn [graph indeg queue order] in Hg, Hi, Ho, Hqn, Hin.
  set (st2 := foldl (relax n) _ keys) in *.
  assert (∀ m, m ∈ new → (m ∉ o) ∧ m ≠ n ∧ (m ∉ q)) as Hfresh.
  { intros m [_ Hf]%Hin. unfold freed_by in Hf. rewrite Hgr in Hf.
    assert (∀ x, remaining o !! x = Some ∅ → x ≠ m) as Hne.
    { intros x Hx ->. rewrite Hx in Hf.
      assert ((∅ : gset string) = {[n]}) as Hf' by congruence.
      apply (not_elem_of_empty (C:=gset string) n). rewrite Hf'.
      set_solver. }
    split_and!.
    - intros Hm. by eapply Hne; [apply Hemitted|].
    - intros ->. by eapply Hne; [apply ready_remaining, Hrn|].
    - intros Hm. eapply Hne; [|done]. apply ready_remaining, Hqu.
      set_solver. }
  subst o. constructor; cbn [graph indeg queue order].
  - rewrite Ho. rewrite <- remaining_snoc, <- Hgr.
    apply map_eq. intros m. rewrite Hg. unfold drop_node.
    rewrite lookup_fmap. destruct (decide (m ∈ keys)) as [|Hm]; [done|].
    rewrite keys_dom, <- eq_None_not_Some in Hm.
    by rewrite Hgr, remaining_lookup, Hm.
  - done.
  - unfold sort. rewrite merge_sort_Permutation, Hqn.
    apply NoDup_app. split_and!; [done| |done].
    intros x Hx Hx'. apply Hfresh in Hx' as (_ & _ & Hx'). done.
  - intros m. unfold sort. rewrite merge_sort_Permutation, Hqn, Ho.
    rewrite elem_of_app, Hin. split.
    + intros [Hm|[Hk Hf]].
      * apply freed_by_ready; [done| | |].
        -- by intros ->.
        -- apply Hqu. set_solver.
        -- right. apply Hqu. set_solver.
      * destruct (Hfresh m) as (? & ? & ?); [by apply Hin|].
        apply freed_by_ready; [done..|]. left. by rewrite <- Hgr.
    + intros Hr. assert ((m ∉ order st) ∧ m ≠ n) as [Hmo Hmn].
      { destruct Hr as [Hr _]. set_solver. }
      apply freed_by_ready in Hr as [Hf|Hr]; [|..|done|done|done].
      * right. split; [|by rewrite Hgr].
        apply keys_dom. unfold freed_by in Hf.
        rewrite remaining_lookup in Hf.
        destruct (G0 !! m); [done|discriminate Hf].
      * left. apply Hqu in Hr. set_solver.
  - apply StronglySorted_merge_sort; apply _.
  - rewrite Ho. apply canonical_snoc; [done..|].
    intros m [->|Hm]%Hqu%elem_of_cons; [done|].
    by eapply Forall_forall in Hmin.
Qed.

Lemma kahn_inv_bound (st : kahn_state) :
  kahn_inv st → (length (queue st) + length (order st) ≤ length keys)%nat.
Proof.
  intros [_ _ Hqnd Hqu _ Hca]. rewrite <- length_app.
  apply submseteq_length, NoDup_submseteq.
  - apply NoDup_app. split_and!; [done| |by apply canonical_NoDup].
    intros x Hx%Hqu. apply Hx.
  - intros x [Hx%Hqu|Hx]%elem_of_app; apply keys_dom.
    + destruct Hx as (_ & ds & -> & _). done.
    + destruct (canonical_resolved _ _ Hca Hx) as (ds & -> & _). done.
Qed.

Lemma kahn_loop_total (fuel : nat) (st : kahn_state) :
  kahn_inv st → (length keys ≤ length (order st) + fuel)%nat →
  ∃ st', kahn_loop fuel keys st = Some st' ∧ kahn_inv st' ∧ queue st' = [].
Proof.
  revert st. induction fuel as [|fuel IH]; intros st Hinv Hfuel.
  - pose proof (kahn_inv_bound st Hinv) as Hb.
    destruct (queue st) as [|n q] eqn:Hq; simpl in *; [|lia].
    rewrite Hq. eauto.
  - simpl. destruct (queue st) as [|n q] eqn:Hq; [eauto|].
    apply IH; [by apply kahn_inv_step|].
    unfold kahn_step.
    destruct (relax_fold n keys
                (mkKahn (graph st) (indeg st) q (order st ++ [n]))
                keys_NoDup (inv_indeg _ Hinv)) as (_ & _ & Ho & _).
    cbn [graph indeg queue order] in *. rewrite Ho, length_app. simpl. lia.
Qed.
End kahn_invariant.

(** ** Kahn's algorithm terminates with the canonical order *)

Lemma kahn_inv_init (steps : list Step) :
  kahn_inv (graph_of steps) (kahn_init steps).
Proof.
  unfold kahn_init. constructor; cbn [graph indeg queue order].
  - apply map_eq. intros m. rewrite remaining_lookup.
    destruct (graph_of steps !! m) as [ds|]; simpl; [|done].
    f_equal. set_solver.
  - done.
  - unfold sort. rewrite merge_sort_Permutation.
    apply NoDup_filter, graph_keys_NoDup.
  - intros m. unfold sort. rewrite merge_sort_Permutation.
    rewrite list_elem_of_filter, elem_of_graph_keys, lookup_fmap.
    unfold ready. destruct (graph_of steps !! m) as [ds|]; simpl.
    + split.
      * intros [[= H] _]. split; [set_solver|]. exists ds. split; [done|].
        assert (size ds = 0%nat) as H0 by lia.
        assert (ds ≡ ∅) as H1 by (by apply size_empty_iff).
        clear H H0. set_solver.
      * intros (_ & ds' & [= <-] & Hsub). split; [|done]. f_equal.
        assert (size ds = 0%nat) as ->; [|done].
        apply size_empty_iff. set_solver.
    + split; [by intros [[=] _]|]. by intros (_ & ? & ? & _).
  - apply StronglySorted_merge_sort; apply _.
  - apply canonical_nil.
Qed.

(** No node is ready after the nodes of [o]: the queue has run empty. *)
Definition exhausted (G0 : gmap string (gset string)) (o : list string)
  : Prop :=
  ∀ m, ¬ ready G0 o m.

Lemma kahn_spec (steps : list Step) :
  ∃ o, kahn steps = Some o
       ∧ canonical (graph_of steps) o ∧ exhausted (graph_of steps) o.
Proof.
  destruct (kahn_loop_total (graph_of steps) (graph_keys steps)
              (graph_keys_NoDup steps) (elem_of_graph_keys steps)
              (length steps) (kahn_init steps) (kahn_inv_init steps))
    as (st & Hloop & Hinv & Hq).
  { pose proof (graph_keys_length steps). simpl. lia. }
  exists (order st). unfold kahn. rewrite Hloop. split_and!; [done| |].
  - apply Hinv.
  - intros m Hm. apply (inv_queue _ _ Hinv) in Hm. rewrite Hq in Hm.
    by apply not_elem_of_nil in Hm.
Qed.

(** The canonical order of a graph is unique: it depends on the graph alone,
    not on the order in which the steps or their dependencies are listed. *)
Lemma canonical_unique (G0 : gmap string (gset string)) (o1 o2 : list string) :
  canonical G0 o1 → exhausted G0 o1 →
  canonical G0 o2 → exhausted G0 o2 → o1 = o2.
Proof.
  intros Hc1 He1 Hc2 He2.
  assert (∀ r1 pre r2, o1 = pre ++ r1 → o2 = pre ++ r2 → r1 = r2) as H.
  { induction r1 as [|n1 r1 IH]; intros pre [|n2 r2] H1 H2.
    - done.
    - exfalso. rewrite app_nil_r in H1. subst pre.
      destruct (Hc2 _ _ _ H2) as [Hr _]. by apply (He1 n2).
    - exfalso. rewrite app_nil_r in H2. subst pre.
      destruct (Hc1 _ _ _ H1) as [Hr _]. by apply (He2 n1).
    - destruct (Hc1 _ _ _ H1) as [Hr1 Hm1].
      destruct (Hc2 _ _ _ H2) as [Hr2 Hm2].
      assert (n1 = n2) as <-.
      { apply (anti_symm str_le); [by apply Hm1|by apply Hm2]. }
      f_equal. apply (IH (pre ++ [n1])); by rewrite <- app_assoc. }
  by apply (H o1 [] o2).
Qed.

(** ** Dependency graphs and cycles *)

(** The edge [n → d] of the dependency graph: some step named [n] lists [d]
    in its [depends_on]. *)
Definition depends (steps : list Step) (n d : string) : Prop :=
  ∃ s, s ∈ steps ∧ name s = n ∧ d ∈ depends_on s.

Definition unique_names (steps : list Step) : Prop := NoDup (name <$> steps).

Definition resolved (steps : list Step) : Prop :=
  ∀ s d, s ∈ steps → d ∈ depends_on s → d ∈ name <$> steps.

Definition acyclic (steps : list Step) : Prop :=
  ∀ n, ¬ tc (depends steps) n n.

Section paths.
Context {A : Type} `{EqDecision A} (R : relation A).

Fixpoint chain (x : A) (p : list A) : Prop :=
  match p with
  | [] => True
  | y :: p' => R x y ∧ chain y p'
  end.

Lemma chain_tc (x y : A) (p1 p2 : list A) :
  chain x (p1 ++ y :: p2) → tc R x y.
Proof.
  revert x. induction p1 as [|z p1 IH]; intros x; simpl.
  - intros [H _]. by apply tc_once.
  - intros [H Hc]. eapply tc_l; [done|]. by apply IH.
Qed.

Lemma chain_repeat (x : A) (p : list A) :
  chain x p → ¬ NoDup (x :: p) → ∃ z, tc R z z.
Proof.
  revert x. induction p as [|y p IH]; intros x Hc Hnd.
  - exfalso. apply Hnd, NoDup_singleton.
  - destruct (decide (x ∈ y :: p)) as [Hx|Hx].
    + apply list_elem_of_split in Hx as (p1 & p2 & Heq).
      exists x. apply chain_tc with p1 p2. by rewrite <- Heq.
    + destruct Hc as [_ Hc]. apply (IH y Hc).
      intros Hnd'. apply Hnd. by constructor.
Qed.

Lemma chain_extend (l : list A) :
  (∀ x, x ∈ l → ∃ y, y ∈ l ∧ R x y) →
  ∀ k x, x ∈ l →
    ∃ p, length p = k ∧ (∀ y, y ∈ p → y ∈ l) ∧ chain x p.
Proof.
  intros Hsucc. induction k as [|k IH]; intros x Hx.
  - exists []. split_and!; [done|set_solver|done].
  - destruct (Hsucc x Hx) as (y & Hy & Hxy).
    destruct (IH y Hy) as (p & Hlen & Hin & Hc).
    exists (y :: p). split_and!; [by rewrite <- Hlen|set_solver|done].
Qed.

(** In a finite non-empty set where every node has a successor there is a
    cycle. *)
Lemma no_sink_cycle (l : list A) (x0 : A) :
  x0 ∈ l → (∀ x, x ∈ l → ∃ y, y ∈ l ∧ R x y) → ∃ z, tc R z z.
Proof.
  intros Hx0 Hsucc.
  destruct (chain_extend l Hsucc (length l) x0 Hx0) as (p & Hlen & Hin & Hc).
  apply (chain_repeat x0 p Hc). intros Hnd.
  assert (length (x0 :: p) ≤ length l)%nat as Hle.
  { apply submseteq_length, NoDup_submseteq; [done|set_solver]. }
  simpl in Hle. lia.
Qed.
End paths.

(** [d] occurs before [n] in [o]. *)
Definition before (o : list string) (d n : string) : Prop :=
  ∃ i j, o !! i = Some d ∧ o !! j = Some n ∧ (i < j)%nat.

Lemma before_split (pre post : list string) (d n : string) :
  d ∈ pre → before (pre ++ n :: post) d n.
Proof.
  intros (i & Hi)%list_elem_of_lookup. exists i, (length pre).
  split_and!.
  - by apply lookup_app_l_Some.
  - by rewrite list_lookup_middle.
  - by eapply lookup_lt_Some.
Qed.

Lemma before_trans (o : list string) (x y z : string) :
  NoDup o → before o x y → before o y z → before o x z.
Proof.
  intros Hnd (i & j & Hi & Hj & Hij) (j' & k & Hj' & Hk & Hjk).
  assert (j = j') as <- by (by eapply NoDup_lookup).
  exists i, k. split_and!; [done..|lia].
Qed.

Lemma before_irrefl (o : list string) (x : string) :
  NoDup o → ¬ before o x x.
Proof.
  intros Hnd (i & j & Hi & Hj & Hij).
  assert (i = j) by (by eapply NoDup_lookup). lia.
Qed.

(** ** Acyclic graphs are exactly those Kahn's algorithm exhausts *)

Lemma canonical_in_graph (G0 : gmap string (gset string)) (o : list string)
    (m : string) :
  canonical G0 o → m ∈ o → is_Some (G0 !! m).
Proof.
  intros Hc Hm. destruct (canonical_resolved G0 o m Hc Hm) as (ds & -> & _).
  done.
Qed.

Lemma kahn_complete (steps : list Step) (o : list string) :
  resolved steps → acyclic steps →
  canonical (graph_of steps) o → exhausted (graph_of steps) o →
  ∀ m, m ∈ name <$> steps → m ∈ o.
Proof.
  intros Hres Hacyc Hcan Hex m Hm.
  destruct (decide (m ∈ o)) as [|Hmo]; [done|]. exfalso.
  set (l := filter (λ x, x ∉ o) (name <$> steps)).
  assert (m ∈ l) as Hml by (by apply list_elem_of_filter).
  destruct (no_sink_cycle (depends steps) l m Hml) as [z Hz];
    [|by apply (Hacyc z)].
  intros x [Hxo Hx]%list_elem_of_filter.
  apply graph_of_is_Some in Hx as [ds Hds].
  destruct (set_choose_or_empty (ds ∖ list_to_set o)) as [[d Hd]|Hempty].
  - apply graph_of_lookup in Hds as (s & Hs & <- & ->).
    assert (d ∈ depends_on s) as Hdep by set_solver.
    exists d. split; [|by exists s].
    apply list_elem_of_filter. split; [set_solver|by eapply Hres].
  - exfalso. apply (Hex x). split; [done|]. exists ds. split; [done|].
    intros d Hd. destruct (decide (d ∈ (list_to_set o : gset string)));
      [done|]. exfalso. apply (not_elem_of_empty (C:=gset string) d).
    rewrite <- Hempty. set_solver.
Qed.

Lemma canonical_before (steps : list Step) (o : list string) (n d : string) :
  unique_names steps → canonical (graph_of steps) o →
  n ∈ o → depends steps n d → before o d n.
Proof.
  intros Hun Hcan (pre & post & ->)%list_elem_of_split (s & Hs & <- & Hd).
  apply before_split.
  destruct (Hcan pre (name s) post eq_refl) as [(_ & ds & Hds & Hsub) _].
  rewrite graph_of_lookup_unique in Hds by done. injection Hds as <-.
  set_solver.
Qed.

Lemma kahn_sound (steps : list Step) (o : list string) :
  unique_names steps → canonical (graph_of steps) o →
  (∀ m, m ∈ name <$> steps → m ∈ o) → acyclic steps.
Proof.
  intros Hun Hcan Hall n Hn.
  assert (∀ x y, tc (depends steps) x y → before o y x) as Htc.
  { intros x y H.
    assert (∀ a b, depends steps a b → before o b a) as Hedge.
    { intros a b Hab. apply (canonical_before steps); [done..| |done].
      destruct Hab as (s & Hs & <- & _). apply Hall.
      apply list_elem_of_fmap. eauto. }
    induction H as [x y H|x y z H _ IH]; [by apply Hedge|].
    eapply before_trans; [by eapply canonical_NoDup|done|by apply Hedge]. }
  eapply before_irrefl; [by eapply canonical_NoDup|by apply Htc].
Qed.

Lemma canonical_length (steps : list Step) (o : list string) :
  unique_names steps → canonical (graph_of steps) o →
  length o = length steps ↔ ∀ m, m ∈ name <$> steps → m ∈ o.
Proof.
  intros Hun Hcan.
  assert (o ⊆+ name <$> steps) as Hsub.
  { apply NoDup_submseteq; [by eapply canonical_NoDup|].
    intros x Hx. eapply graph_of_is_Some, canonical_in_graph; done. }
  rewrite <- (length_fmap name steps). split.
  - intros Hlen m Hm.
    rewrite (submseteq_length_Permutation _ _ Hsub); [done|lia].
  - intros Hall. apply Nat.le_antisymm; [by apply submseteq_length|].
    apply submseteq_length, NoDup_submseteq; done.
Qed.

(** ** Ways to establish the hypotheses on a given workflow *)

Lemma acyclic_by_rank (steps : list Step) (rank : string → nat) :
  (∀ s d, s ∈ steps → d ∈ depends_on s → (rank d < rank (name s))%nat) →
  acyclic steps.
Proof.
  intros Hrank n Hn.
  assert (∀ x y, tc (depends steps) x y → (rank y < rank x)%nat) as H.
  { intros x y Hxy. induction Hxy as [x y (s & Hs & <- & Hd)
                                      |x y z (s & Hs & <- & Hd) _ IH].
    - by apply Hrank.
    - specialize (Hrank s y Hs Hd). lia. }
  specialize (H n n Hn). lia.
Qed.

Definition resolvedb (steps : list Step) : bool :=
  forallb (λ s, forallb (λ d, bool_decide (d ∈ name <$> steps))
                        (depends_on s)) steps.

Lemma resolvedb_correct (steps : list Step) :
  resolvedb steps = true → resolved steps.
Proof.
  unfold resolvedb. rewrite forallb_forall. intros H s d Hs Hd.
  apply list_elem_of_In in Hs. specialize (H s Hs).
  rewrite forallb_forall in H. apply list_elem_of_In in Hd.
  specialize (H d Hd). by apply bool_decide_eq_true in H.
Qed.

(** ** The canonical order of [build_dag] *)

Lemma build_dag_kahn (steps : list Step) (o : list string) :
  kahn steps = Some o → length o = length steps → build_dag steps = Return o.
Proof.
  intros Hk Hlen. unfold build_dag. rewrite Hk. by rewrite decide_False by lia.
Qed.

(** C2.  On a workflow with unique step names, resolved dependencies and an
    acyclic dependency graph, [build_dag] returns an order that lists every
    step name exactly once, in which every step comes after all of its
    dependencies, and in which every name is the smallest, in the order of
    strings, among the steps that were not emitted yet and had no unresolved
    dependency left.  The order depends on the dependency graph alone: any
    other listing of the same graph gives the same order. *)
Theorem build_dag_canonical_order (steps : list Step) :
  unique_names steps → resolved steps → acyclic steps →
  ∃ o,
    build_dag steps = Return o
    ∧ length o = length steps
    ∧ o ≡ₚ name <$> steps
    ∧ (∀ pre n post, o = pre ++ n :: post →
         (∀ s d, s ∈ steps → name s = n → d ∈ depends_on s → d ∈ pre)
         ∧ (∀ s, s ∈ steps → name s ∉ pre →
                 (∀ d, d ∈ depends_on s → d ∈ pre) → str_le n (name s)))
    ∧ (∀ steps', unique_names steps' → graph_of steps' = graph_of steps →
                 build_dag steps' = Return o).
Proof.
  intros Hun Hres Hacyc.
  destruct (kahn_spec steps) as (o & Hk & Hcan & Hex). exists o.
  pose proof (kahn_complete steps o Hres Hacyc Hcan Hex) as Hall.
  assert (length o = length steps) as Hlen by (by apply canonical_length).
  split_and!.
  - by apply build_dag_kahn.
  - done.
  - apply NoDup_Permutation; [by eapply canonical_NoDup|done|].
    intros m. split; [|by apply Hall].
    intros Hm. eapply graph_of_is_Some, canonical_in_graph; done.
  - intros pre n post Heq. destruct (Hcan pre n post Heq) as [Hr Hmin].
    split.
    + intros s d Hs <- Hd. destruct Hr as (_ & ds & Hds & Hsub).
      rewrite graph_of_lookup_unique in Hds by done. injection Hds as <-.
      set_solver.
    + intros s Hs Hpre Hdeps. apply Hmin. split; [done|].
      exists (list_to_set (depends_on s)).
      split; [by apply graph_of_lookup_unique|]. set_solver.
  - intros steps' Hun' Hg.
    destruct (kahn_spec steps') as (o' & Hk' & Hcan' & Hex').
    rewrite Hg in Hcan', Hex'.
    assert (o' = o) as -> by (by eapply canonical_unique).
    apply build_dag_kahn; [done|].
    apply canonical_length; [done|by rewrite Hg|].
    intros m Hm. apply Hall. by rewrite <- graph_of_is_Some, <- Hg,
      graph_of_is_Some.
Qed.

Definition linear_steps : list Step :=
  [ mkStep "b" (Some "true") None 0 ["a"] None;
    mkStep "a" (Some "true") None 0 [] None ].

Lemma build_dag_canonical_order_witness :
  ∃ o, build_dag linear_steps = Return o ∧ o = ["a"; "b"]%string.
Proof.
  destruct (build_dag_canonical_order linear_steps) as (o & Hb & _).
  - unfold unique_names. apply (bool_decide_unpack _). vm_compute. exact I.
  - apply resolvedb_correct. vm_compute. reflexivity.
  - apply (acyclic_by_rank _ (λ n, if decide (n = "a"%string) then 0 else 1)%nat).
    intros s d Hs Hd. unfold linear_steps in Hs.
    repeat (apply elem_of_cons in Hs as [->|Hs]); simpl in *.
    + apply list_elem_of_singleton in Hd as ->. vm_compute. lia.
    + by apply not_elem_of_nil in Hd.
    + by apply not_elem_of_nil in Hs.
  - exists o. split; [done|]. vm_compute in Hb. congruence.
Defined.

(** ** What each validation accepts *)

Lemma check_duplicates_loop_ok (names : gset string) (steps : list Step) :
  NoDup (name <$> steps) → (∀ s, s ∈ steps → name s ∉ names) →
  check_duplicates_loop names steps = Return ().
Proof.
  revert names. induction steps as [|s steps IH]; intros names Hnd Hdisj;
    simpl; [done|].
  apply NoDup_cons in Hnd as [Hs Hnd].
  rewrite decide_False by (apply Hdisj; set_solver).
  apply IH; [done|]. intros s' Hs'.
  assert (name s' ≠ name s).
  { intros Heq. apply Hs. rewrite <- Heq. apply list_elem_of_fmap. eauto. }
  specialize (Hdisj s'). set_solver.
Qed.

Lemma check_duplicates_loop_raise (names : gset string) (steps : list Step) :
  ¬ (NoDup (name <$> steps) ∧ ∀ s, s ∈ steps → name s ∉ names) →
  ∃ n, check_duplicates_loop names steps = Raise (DuplicateStepName n).
Proof.
  revert names. induction steps as [|s steps IH]; intros names Hnot; simpl.
  - exfalso. apply Hnot. split; [constructor|set_solver].
  - destruct (decide (name s ∈ names)) as [|Hs]; [eauto|].
    apply IH. intros [Hnd Hdisj]. apply Hnot. split.
    + constructor; [|done]. intros (s' & Heq & Hs')%list_elem_of_fmap.
      apply (Hdisj s' Hs'). rewrite <- Heq. set_solver.
    + intros s' [->|Hs']%elem_of_cons; [done|].
      specialize (Hdisj s' Hs'). set_solver.
Qed.

Lemma check_duplicates_ok (steps : list Step) :
  unique_names steps → check_duplicates steps = Return ().
Proof. intros H. apply check_duplicates_loop_ok; [done|set_solver]. Qed.

Lemma check_duplicates_raise (steps : list Step) :
  ¬ unique_names steps →
  ∃ n, check_duplicates steps = Raise (DuplicateStepName n).
Proof. intros H. apply check_duplicates_loop_raise. tauto. Qed.

Lemma first_missing_None (names : gset string) (deps : list string) :
  first_missing names deps = None ↔ ∀ d, d ∈ deps → d ∈ names.
Proof.
  induction deps as [|d deps IH]; simpl; [set_solver|].
  destruct (decide (d ∈ names)); [rewrite IH|]; set_solver.
Qed.

Lemma check_missing_loop_ok (names : gset string) (steps : list Step) :
  (∀ s d, s ∈ steps → d ∈ depends_on s → d ∈ names) →
  check_missing_loop names steps = Return ().
Proof.
  induction steps as [|s steps IH]; intros H; simpl; [done|].
  assert (first_missing names (depends_on s) = None) as ->.
  { apply first_missing_None. intros d. apply H. set_solver. }
  apply IH. intros s' d Hs'. apply H. set_solver.
Qed.

Lemma check_missing_loop_raise (names : gset string) (steps : list Step) :
  ¬ (∀ s d, s ∈ steps → d ∈ depends_on s → d ∈ names) →
  ∃ s d, check_missing_loop names steps = Raise (MissingDependency s d).
Proof.
  induction steps as [|s steps IH]; intros Hnot; simpl.
  - exfalso. apply Hnot. set_solver.
  - destruct (first_missing names (depends_on s)) as [d|] eqn:Hfm; [eauto|].
    apply IH. intros H. apply Hnot.
    intros s' d [->|Hs']%elem_of_cons; [|by apply H].
    by apply first_missing_None.
Qed.

Lemma check_missing_dependencies_ok (steps : list Step) :
  resolved steps → check_missing_dependencies steps = Return ().
Proof.
  intros H. apply check_missing_loop_ok. intros s d Hs Hd.
  apply elem_of_list_to_set. by eapply H.
Qed.

Lemma check_missing_dependencies_raise (steps : list Step) :
  ¬ resolved steps →
  ∃ s d, check_missing_dependencies steps = Raise (MissingDependency s d).
Proof.
  intros Hnot. apply check_missing_loop_raise. intros H. apply Hnot.
  intros s d Hs Hd. specialize (H s d Hs Hd).
  by apply elem_of_list_to_set in H.
Qed.

Lemma detect_cycle_ok (steps : list Step) :
  unique_names steps → resolved steps → acyclic steps →
  detect_cycle steps = Return ().
Proof.
  intros Hun Hres Hacyc. destruct (kahn_spec steps) as (o & Hk & Hcan & Hex).
  unfold detect_cycle. rewrite Hk. rewrite decide_False; [done|].
  intros Hne. apply Hne. apply canonical_length; [done..|].
  by apply kahn_complete.
Qed.

Lemma detect_cycle_raise (steps : list Step) :
  unique_names steps → ¬ acyclic steps →
  detect_cycle steps = Raise CycleDetected.
Proof.
  intros Hun Hcyc. destruct (kahn_spec steps) as (o & Hk & Hcan & Hex).
  unfold detect_cycle. rewrite Hk.
  destruct (decide (length o ≠ length steps)) as [|Hlen]; [done|].
  exfalso. apply Hcyc. apply (kahn_sound steps o); [done..|].
  apply canonical_length; [done..|]. by apply dec_stable.
Qed.

Lemma detect_cycle_build_dag (steps : list Step) :
  detect_cycle steps = Return () → ∃ o, build_dag steps = Return o.
Proof.
  unfold detect_cycle, build_dag. destruct (kahn steps) as [o|]; [|done].
  destruct (decide (length o ≠ length steps)); [done|eauto].
Qed.

(** A step whose command matches one of the banned patterns. *)
Definition banned_step (s : Step) : Prop :=
  ∃ cmd pat, run s = Some cmd ∧ pat ∈ BANNED_PATTERNS
             ∧ re_search pat cmd = true.

Lemma first_banned_None (pats : list regex) (cmd : string) :
  first_banned pats cmd = None ↔ ∀ pat, pat ∈ pats → re_search pat cmd = false.
Proof.
  induction pats as [|pat pats IH]; simpl; [set_solver|].
  destruct (re_search pat cmd) eqn:Hp.
  - split; [done|]. intros H. specialize (H pat). rewrite Hp in H.
    by discriminate H; set_solver.
  - rewrite IH. set_solver.
Qed.

Lemma banned_patterns_nonempty (pat : regex) :
  pat ∈ BANNED_PATTERNS → re_search pat EmptyString = false.
Proof.
  unfold BANNED_PATTERNS. intros H.
  repeat (apply elem_of_cons in H as [->|H]; [by vm_compute|]).
  by apply not_elem_of_nil in H.
Qed.

Lemma check_banned_commands_cons (s : Step) (rest : list Step) :
  check_banned_commands (s :: rest)
  = match run s with
    | Some cmd =>
        if decide (cmd = EmptyString) then check_banned_commands rest
        else match first_banned BANNED_PATTERNS cmd with
             | Some pat => Raise (BannedPattern (name s) pat)
             | None => check_banned_commands rest
             end
    | None => check_banned_commands rest
    end.
Proof. reflexivity. Qed.

Lemma check_banned_commands_ok (steps : list Step) :
  (∀ s, s ∈ steps → ¬ banned_step s) →
  check_banned_commands steps = Return ().
Proof.
  induction steps as [|s steps IH]; intros H; [done|].
  rewrite check_banned_commands_cons.
  assert (check_banned_commands steps = Return ()) as Hrest
    by (apply IH; intros s' Hs'; apply H; set_solver).
  destruct (run s) as [cmd|] eqn:Hrun; [|done].
  destruct (decide (cmd = EmptyString)); [done|].
  destruct (first_banned BANNED_PATTERNS cmd) as [pat|] eqn:Hfb; [|done].
  exfalso. apply (H s); [set_solver|]. exists cmd.
  assert (first_banned BANNED_PATTERNS cmd ≠ None) as Hne by congruence.
  rewrite first_banned_None in Hne.
  destruct (decide (Forall (λ pat, re_search pat cmd = false) BANNED_PATTERNS))
    as [Hall|Hex].
  - exfalso. apply Hne. by apply Forall_forall.
  - apply not_Forall_Exists, Exists_exists in Hex as (p & Hp & Hs); [|apply _].
    exists p. split_and!; [done..|].
    destruct (re_search p cmd) eqn:Hm; [done|]. exfalso. by apply Hs.
Qed.

Lemma check_banned_commands_raise (steps : list Step) :
  (∃ s, s ∈ steps ∧ banned_step s) →
  ∃ n pat, check_banned_commands steps = Raise (BannedPattern n pat).
Proof.
  induction steps as [|s steps IH]; intros (s' & Hs' & Hb);
    [by apply not_elem_of_nil in Hs'|].
  rewrite check_banned_commands_cons.
  assert (¬ banned_step s →
          ∃ n pat, check_banned_commands steps = Raise (BannedPattern n pat))
    as Hrest.
  { intros Hnb. apply IH. exists s'. split; [|done].
    apply elem_of_cons in Hs' as [->|]; done. }
  destruct (run s) as [cmd|] eqn:Hrun.
  - destruct (decide (cmd = EmptyString)) as [->|Hne].
    + apply Hrest. intros (cmd & pat & Hr & Hpat & Hm).
      rewrite Hrun in Hr. injection Hr as <-.
      rewrite banned_patterns_nonempty in Hm; done.
    + destruct (first_banned BANNED_PATTERNS cmd) as [p|] eqn:Hfb; [eauto|].
      apply Hrest. intros (cmd' & pat & Hr & Hpat & Hm).
      rewrite Hrun in Hr. injection Hr as <-.
      rewrite first_banned_None in Hfb. rewrite Hfb in Hm; done.
  - apply Hrest. intros (cmd & pat & Hr & _). by rewrite Hrun in Hr.
Qed.

Lemma semantic_check_unfold (w : Workflow) :
  semantic_check w
  = bind (check_duplicates (steps w)) (λ _,
    bind (check_missing_dependencies (steps w)) (λ _,
    bind (detect_cycle (steps w)) (λ _,
    bind (check_banned_commands (steps w)) (λ _,
    build_dag (steps w))))).
Proof. reflexivity. Qed.

(** The banned patterns on sample commands. *)
Example banned_patterns_samples :
  map (λ cmd, map (λ pat, re_search pat cmd) BANNED_PATTERNS)
      [ "rm -rf /tmp/x"; "RM -rf x"; "rm-rf"; "a | b"; "a|b"; ";| y";
        "a >> b"; "a > b"; "a &"; "a && b"; "`x`"; "true" ]%string
  = [ [true; false; false; false; false]; [false; false; false; false; false];
      [false; false; false; false; false]; [false; true; false; false; false];
      [false; false; false; false; false]; [false; true; false; false; false];
      [false; false; true; false; false]; [false; false; false; false; false];
      [false; false; false; true; false]; [false; false; false; false; false];
      [false; false; false; false; true]; [false; false; false; false; false] ].
Proof. vm_compute. reflexivity. Qed.

(** ** What the banned patterns find *)

Lemma re_search_spec (r : regex) (s : string) :
  re_search r s = true
  ↔ ∃ i k, (i ≤ length (chars s))%nat ∧ k ∈ rmatch (chars s) r i.
Proof.
  unfold re_search. rewrite existsb_exists. split.
  - intros (i & Hi%in_seq & Hm). exists i.
    destruct (rmatch (chars s) r i) as [|k l] eqn:Hr; [done|].
    exists k. split; [lia|left].
  - intros (i & k & Hi & Hk). exists i. split; [apply in_seq; lia|].
    destruct (rmatch (chars s) r i); [by apply not_elem_of_nil in Hk|done].
Qed.

Lemma rmatch_lit (s : list ascii) (c : ascii) (i k : nat) :
  k ∈ rmatch s (Lit c) i ↔ s !! i = Some c ∧ k = S i.
Proof.
  simpl. destruct (s !! i) as [d|] eqn:Hd.
  - destruct (Ascii.eqb c d) eqn:Hc.
    + apply Ascii.eqb_eq in Hc as ->. rewrite list_elem_of_singleton.
      naive_solver.
    + apply Ascii.eqb_neq in Hc. split; [by intros ?%not_elem_of_nil|].
      intros [[= ->] _]. done.
  - split; [by intros ?%not_elem_of_nil|]. by intros [? _].
Qed.

Lemma rmatch_space (s : list ascii) (i k : nat) :
  k ∈ rmatch s Space i ↔ ∃ d, s !! i = Some d ∧ is_space d = true ∧ k = S i.
Proof.
  simpl. destruct (s !! i) as [d|] eqn:Hd.
  - destruct (is_space d) eqn:Hc.
    + rewrite list_elem_of_singleton. naive_solver.
    + split; [by intros ?%not_elem_of_nil|]. intros (d' & [= <-] & ? & _).
      congruence.
  - split; [by intros ?%not_elem_of_nil|]. by intros (? & ? & _).
Qed.

Lemma rmatch_bol (s : list ascii) (i k : nat) :
  k ∈ rmatch s Bol i ↔ i = 0%nat ∧ k = 0%nat.
Proof.
  simpl. destruct (i =? 0)%nat eqn:Hi.
  - apply Nat.eqb_eq in Hi as ->. rewrite list_elem_of_singleton.
    naive_solver.
  - apply Nat.eqb_neq in Hi. split; [by intros ?%not_elem_of_nil|].
    by intros [? _].
Qed.

Lemma rmatch_eol (s : list ascii) (i k : nat) :
  k ∈ rmatch s Eol i
  ↔ k = i ∧ (i = length s ∨ (S i = length s ∧ s !! i = Some newline)).
Proof.
  cbn [rmatch]. destruct (Nat.eqb_spec i (length s)) as [Hi|Hi].
  - rewrite list_elem_of_singleton. naive_solver.
  - destruct (Nat.eqb_spec (S i) (length s)) as [Hi'|Hi']; cbn [andb].
    + destruct (bool_decide (s !! i = Some newline)) eqn:Hn.
      * apply bool_decide_eq_true in Hn. rewrite list_elem_of_singleton.
        naive_solver.
      * apply bool_decide_eq_false in Hn.
        split; [by intros ?%not_elem_of_nil|]. naive_solver.
    + split; [by intros ?%not_elem_of_nil|]. naive_solver.
Qed.

Lemma rmatch_cat (s : list ascii) (r1 r2 : regex) (i k : nat) :
  k ∈ rmatch s (Cat r1 r2) i ↔ ∃ j, j ∈ rmatch s r1 i ∧ k ∈ rmatch s r2 j.
Proof. simpl. rewrite list_elem_of_bind. naive_solver. Qed.

Lemma rmatch_alt (s : list ascii) (r1 r2 : regex) (i k : nat) :
  k ∈ rmatch s (Alt r1 r2) i ↔ k ∈ rmatch s r1 i ∨ k ∈ rmatch s r2 i.
Proof. simpl. apply elem_of_app. Qed.

(** The operator [op] stands at a position that follows the start of the
    command, a semicolon or whitespace and precedes whitespace or the end
    of the command. *)
Definition separated (op : ascii) (s : list ascii) : Prop :=
  ∃ j, s !! j = Some op
       ∧ (j = 0%nat
          ∨ ∃ p, s !! pred j = Some p ∧ (0 < j)%nat
                 ∧ (p = ";"%char ∨ is_space p = true))
       ∧ (S j = length s ∨ ∃ q, s !! S j = Some q ∧ is_space q = true).

Lemma separated_pattern (op : ascii) (s : string) :
  re_search (Cat (Alt Bol (Alt (Lit ";") Space)) (Cat (Lit op) (Alt Space Eol)))
            s = true
  ↔ separated op (chars s).
Proof.
  rewrite re_search_spec. unfold separated. split.
  - intros (i & k & Hi & (j & Hj & (m & Hm & Hk)%rmatch_cat)%rmatch_cat).
    apply rmatch_lit in Hm as [Hop ->]. exists j. split; [done|]. split.
    + apply rmatch_alt in Hj as [[-> ->]%rmatch_bol|Hj]; [by left|].
      right. apply rmatch_alt in Hj as [[Hp ->]%rmatch_lit|Hj].
      * exists ";"%char. split_and!; [done|lia|by left].
      * apply rmatch_space in Hj as (d & Hd & Hs & ->).
        exists d. split_and!; [done|lia|by right].
    + apply rmatch_alt in Hk as [Hk|Hk].
      * apply rmatch_space in Hk as (d & Hd & Hs & _). right. by exists d.
      * apply rmatch_eol in Hk as [_ [?|[Hlen Hn]]]; [by left|].
        right. exists newline. split; [done|]. reflexivity.
  - intros (j & Hop & Hbefore & Hafter).
    assert (j < length (chars s))%nat as Hlt by (by eapply lookup_lt_Some).
    assert (∃ k, k ∈ rmatch (chars s) (Alt Space Eol) (S j)) as [k Hk].
    { destruct Hafter as [Hlen|(q & Hq & Hs)].
      - exists (S j). apply rmatch_alt. right. apply rmatch_eol.
        split; [done|by left].
      - exists (S (S j)). apply rmatch_alt. left. apply rmatch_space.
        by exists q. }
    destruct Hbefore as [->|(p & Hp & Hpos & Hsep)].
    + exists 0%nat, k. split; [lia|]. apply rmatch_cat. exists 0%nat.
      split; [apply rmatch_alt; left; by apply rmatch_bol|].
      apply rmatch_cat. exists 1%nat. split; [by apply rmatch_lit|done].
    + exists (pred j), k. split; [lia|]. apply rmatch_cat. exists j. split.
      * apply rmatch_alt. right. apply rmatch_alt.
        destruct Hsep as [->|Hs].
        -- left. apply rmatch_lit. split; [done|lia].
        -- right. apply rmatch_space. exists p. split_and!; [done..|lia].
      * apply rmatch_cat. exists (S j). split; [by apply rmatch_lit|done].
Qed.

(** The two patterns made of literal characters find the characters. *)
Lemma append_pattern (s : string) :
  re_search (lit_str ">>") s = true
  ↔ ∃ j, chars s !! j = Some ">"%char ∧ chars s !! S j = Some ">"%char.
Proof.
  rewrite re_search_spec. change (lit_str ">>") with (Cat (Lit ">") (Lit ">")).
  split.
  - intros (i & k & _ & (j & [H1 ->]%rmatch_lit & [H2 _]%rmatch_lit)%rmatch_cat).
    by exists i.
  - intros (j & H1 & H2). exists j, (S (S j)).
    split; [apply lookup_lt_Some in H1; lia|].
    apply rmatch_cat. exists (S j). split; by apply rmatch_lit.
Qed.

Lemma backtick_pattern (s : string) :
  re_search (Lit "`") s = true ↔ "`"%char ∈ chars s.
Proof.
  rewrite re_search_spec. split.
  - intros (i & k & _ & [H _]%rmatch_lit). by eapply list_elem_of_lookup_2.
  - intros (i & Hi)%list_elem_of_lookup. exists i, (S i).
    split; [apply lookup_lt_Some in Hi; lia|]. by apply rmatch_lit.
Qed.

(** C6, as the code has it.  A workflow that passes the three structural
    checks and has a step in whose command [re.search] finds one of the
    banned patterns is rejected with the banned-pattern error.  The patterns
    find: [rm], whitespace and [-rf]; a pipe that follows the start of the
    command, a semicolon or whitespace and precedes whitespace or the end;
    two [>] in a row; an ampersand placed as the pipe; a backtick.  Quotes
    play no part. *)
Theorem banned_command_rejected :
  (∀ (w : Workflow) (s : Step) (cmd : string) (pat : regex),
     check_duplicates (steps w) = Return () →
     check_missing_dependencies (steps w) = Return () →
     detect_cycle (steps w) = Return () →
     s ∈ steps w → run s = Some cmd →
     pat ∈ BANNED_PATTERNS → re_search pat cmd = true →
     ∃ n p, semantic_check w = Raise (BannedPattern n p))
  ∧ (∀ cmd : string,
       (∃ pat, pat ∈ BANNED_PATTERNS ∧ re_search pat cmd = true)
       ↔ re_search (Cat (lit_str "rm") (Cat (Plus Space) (lit_str "-rf")))
                   cmd = true
         ∨ separated "|" (chars cmd)
         ∨ (∃ j, chars cmd !! j = Some ">"%char
                 ∧ chars cmd !! S j = Some ">"%char)
         ∨ separated "&" (chars cmd)
         ∨ "`"%char ∈ chars cmd).
Proof.
  split.
  - intros w s cmd pat Hdup Hmiss Hcyc Hs Hrun Hpat Hm.
    destruct (check_banned_commands_raise (steps w)) as (n & p & Hb).
    { exists s. split; [done|]. by exists cmd, pat. }
    exists n, p. rewrite semantic_check_unfold, Hdup, Hmiss, Hcyc, Hb. done.
  - intros cmd. rewrite <- !separated_pattern, <- append_pattern,
      <- backtick_pattern.
    unfold BANNED_PATTERNS. split.
    + intros (pat & Hpat & Hm).
      repeat (apply elem_of_cons in Hpat as [->|Hpat]); [tauto..|].
      by apply not_elem_of_nil in Hpat.
    + intros [H|[H|[H|[H|H]]]]; eexists; (split; [|exact H]); set_solver.
Qed.

Definition rm_rf_workflow : Workflow :=
  mkWorkflow "w" [] []
    [ mkStep "clean" (Some "rm -rf /tmp/x") None 0 [] None ] [].

Lemma banned_command_rejected_witness :
  ∃ n p, semantic_check rm_rf_workflow = Raise (BannedPattern n p).
Proof.
  destruct banned_command_rejected as [H _].
  apply (H rm_rf_workflow
           (mkStep "clean" (Some "rm -rf /tmp/x") None 0 [] None)
           "rm -rf /tmp/x"
           (Cat (lit_str "rm") (Cat (Plus Space) (lit_str "-rf")))).
  - vm_compute. reflexivity.
  - vm_compute. reflexivity.
  - vm_compute. reflexivity.
  - simpl. apply list_elem_of_singleton. reflexivity.
  - reflexivity.
  - unfold BANNED_PATTERNS. apply list_elem_of_here.
  - vm_compute. reflexivity.
Defined.

(** A workflow of one step with the given command. *)
Definition one_step_workflow (cmd : string) : Workflow :=
  mkWorkflow "w" [] [] [ mkStep "x" (Some cmd) None 0 [] None ] [].

(** The command [echo "x | y"]. *)
Definition quoted_pipe_cmd : string :=
  "echo " +:+ String (ascii_of_nat 34)
                ("x | y" +:+ String (ascii_of_nat 34) EmptyString).

(** C6, as stated, fails: the patterns do not look at quotes, and they find
    a pipe or a background operator only after the start of the command, a
    semicolon or whitespace and before whitespace or the end.  The unquoted
    pipe of [cat /etc/passwd|sh] and the unquoted background operator of
    [sleep 100&] are accepted, and the quoted pipe of [echo "x | y"] is
    rejected. *)
Lemma banned_patterns_ignore_quotes :
  semantic_check (one_step_workflow "cat /etc/passwd|sh") = Return ["x"%string]
  ∧ semantic_check (one_step_workflow "sleep 100&") = Return ["x"%string]
  ∧ ∃ p, semantic_check (one_step_workflow quoted_pipe_cmd)
         = Raise (BannedPattern "x" p).
Proof.
  split_and!; [vm_compute; reflexivity..|].
  eexists. vm_compute. reflexivity.
Qed.

(** C9.  The validations apply in the order duplicate names, unresolved
    dependencies, cycle, banned commands, and the error reported is that of
    the first validation that fails: a workflow with a duplicate step name
    is rejected with the duplicate-name error whatever else is wrong with
    it, and so on down the list; a workflow that passes all four gets its
    order. *)
Theorem semantic_check_first_error (w : Workflow) :
  (¬ unique_names (steps w) →
     ∃ n, semantic_check w = Raise (DuplicateStepName n))
  ∧ (unique_names (steps w) → ¬ resolved (steps w) →
     ∃ s d, semantic_check w = Raise (MissingDependency s d))
  ∧ (unique_names (steps w) → resolved (steps w) → ¬ acyclic (steps w) →
     semantic_check w = Raise CycleDetected)
  ∧ (unique_names (steps w) → resolved (steps w) → acyclic (steps w) →
     (∃ s, s ∈ steps w ∧ banned_step s) →
     ∃ n pat, semantic_check w = Raise (BannedPattern n pat))
  ∧ (unique_names (steps w) → resolved (steps w) → acyclic (steps w) →
     (∀ s, s ∈ steps w → ¬ banned_step s) →
     ∃ o, semantic_check w = Return o).
Proof.
  rewrite semantic_check_unfold. split_and!.
  - intros (n & ->)%check_duplicates_raise. by exists n.
  - intros ->%check_duplicates_ok (s & d & ->)%check_missing_dependencies_raise.
    by exists s, d.
  - intros Hun Hres Hcyc.
    rewrite check_duplicates_ok, check_missing_dependencies_ok by done.
    by rewrite detect_cycle_raise.
  - intros Hun Hres Hacyc (n & pat & Hb)%check_banned_commands_raise.
    rewrite check_duplicates_ok, check_missing_dependencies_ok,
      detect_cycle_ok, Hb by done. by exists n, pat.
  - intros Hun Hres Hacyc Hb%check_banned_commands_ok.
    destruct (detect_cycle_build_dag (steps w)) as [o Ho];
      [by apply detect_cycle_ok|].
    rewrite check_duplicates_ok, check_missing_dependencies_ok,
      detect_cycle_ok, Hb, Ho by done. by exists o.
Qed.

Definition duplicate_and_banned_workflow : Workflow :=
  mkWorkflow "w" [] []
    [ mkStep "a" (Some "rm -rf /tmp/x") None 0 ["missing"] None;
      mkStep "a" (Some "true") None 0 ["a"] None ] [].

Lemma semantic_check_first_error_witness :
  ∃ n, semantic_check duplicate_and_banned_workflow
       = Raise (DuplicateStepName n).
Proof.
  apply (semantic_check_first_error duplicate_and_banned_workflow).
  unfold unique_names. intros H. apply (bool_decide_pack _) in H.
  vm_compute in H. exact H.
Defined.

(** * The runtime ([flowrun/vm.py], [flowrun/runtime_parallel.py]) *)

(** ** Parsing a timeout *)

(** [str.rstrip] with the set of characters [p]. *)
Fixpoint rstrip (p : ascii → bool) (l : list ascii) : list ascii :=
  match l with
  | [] => []
  | c :: l' =>
      match rstrip p l' with
      | [] => if p c then [] else [c]
      | r => c :: r
      end
  end.

Fixpoint lstrip (p : ascii → bool) (l : list ascii) : list ascii :=
  match l with
  | [] => []
  | c :: l' => if p c then lstrip p l' else l
  end.

Definition is_digit (c : ascii) : bool :=
  let n := nat_of_ascii c in (48 <=? n)%nat && (n <=? 57)%nat.

Definition digit_value (c : ascii) : Z := Z.of_nat (nat_of_ascii c) - 48.

(** The whitespace [int] skips around a literal. *)
Definition is_int_space (c : ascii) : bool :=
  let n := nat_of_ascii c in
  ((9 <=? n)%nat && (n <=? 13)%nat) || (n =? 32)%nat
  || (n =? 133)%nat || (n =? 160)%nat.

(** Decimal digits with single underscores between them. *)
Fixpoint int_digits (acc : Z) (after_digit : bool) (l : list ascii)
  : option Z :=
  match l with
  | [] => if after_digit then Some acc else None
  | c :: l' =>
      if is_digit c then int_digits (10 * acc + digit_value c) true l'
      else if Ascii.eqb c "_" && after_digit then int_digits acc false l'
      else None
  end.

(** [sys.get_int_max_str_digits()]: the number of digits beyond which [int]
    refuses a decimal literal.  The repository leaves it at its default. *)
Definition int_max_str_digits : Z := 4300.

(** The digits of a literal; underscores do not count. *)
Definition count_digits (l : list ascii) : Z :=
  Z.of_nat (length (List.filter is_digit l)).

(** The built-in [int] on a [str], base ten: [None] stands for the
    [ValueError] it raises on anything that is not an integer literal, and
    on a literal of more than [int_max_str_digits] digits. *)
Definition py_int (s : list ascii) : option Z :=
  match rstrip is_int_space (lstrip is_int_space s) with
  | c :: l =>
      let signed := Ascii.eqb c "-" || Ascii.eqb c "+" in
      let literal := if signed then l else c :: l in
      match int_digits 0 false literal with
      | Some z =>
          if int_max_str_digits <? count_digits literal then None
          else Some (if Ascii.eqb c "-" then - z else z)
      | None => None
      end
  | [] => None
  end.

Definition is_s (c : ascii) : bool := Ascii.eqb c "s".

Definition _parse_timeout (timeout_raw : option string) : option Z :=
  match timeout_raw with
  | None => None
  | Some t =>
      match chars t with
      | [] => None
      | l => py_int (rstrip is_s l)
      end
  end.

(** The value of a string of decimal digits. *)
Definition decimal (ds : list ascii) : Z :=
  foldl (λ acc c, 10 * acc + digit_value c) 0 ds.

(** A non-empty string of digits followed by any number of [s]. *)
Definition digits_then_s (t : string) : Prop :=
  ∃ ds k, ds ≠ [] ∧ forallb is_digit ds = true
          ∧ chars t = ds ++ replicate k ("s" : ascii).

Lemma rstrip_keep (p : ascii → bool) (l : list ascii) (c : ascii) :
  p c = false → rstrip p (l ++ [c]) = l ++ [c].
Proof.
  intros Hc. induction l as [|x l IH]; simpl; [by rewrite Hc|].
  rewrite IH. by destruct l.
Qed.

Lemma rstrip_replicate (p : ascii → bool) (l : list ascii) (c : ascii)
    (k : nat) :
  p c = true → rstrip p (l ++ replicate k c) = rstrip p l.
Proof.
  intros Hc. induction l as [|x l IH]; simpl.
  - induction k as [|k IHk]; simpl; [done|]. by rewrite IHk, Hc.
  - by rewrite IH.
Qed.

Lemma rstrip_digits (p : ascii → bool) (ds : list ascii) :
  (∀ c, is_digit c = true → p c = false) →
  forallb is_digit ds = true → rstrip p ds = ds.
Proof.
  intros Hp. destruct ds as [|c ds _] using rev_ind; [done|].
  rewrite forallb_app; simpl. intros [_ [Hc _]%andb_prop]%andb_prop.
  apply rstrip_keep. by apply Hp.
Qed.

Lemma int_digits_decimal (acc : Z) (after : bool) (ds : list ascii) :
  forallb is_digit ds = true → (ds ≠ [] ∨ after = true) →
  int_digits acc after ds
  = Some (foldl (λ acc c, 10 * acc + digit_value c) acc ds).
Proof.
  revert acc after. induction ds as [|c ds IH]; intros acc after; simpl.
  - intros _ [?| ->]; done.
  - intros [-> Hds]%andb_prop _. apply IH; [done|by right].
Qed.

Lemma digit_not_special (c : ascii) :
  is_digit c = true →
  is_int_space c = false ∧ is_s c = false
  ∧ Ascii.eqb c "-" = false ∧ Ascii.eqb c "+" = false.
Proof.
  unfold is_digit, is_int_space, is_s. intros [H1 H2]%andb_prop.
  apply Nat.leb_le in H1, H2.
  assert (∀ d : ascii, nat_of_ascii d ≠ nat_of_ascii c → Ascii.eqb c d = false)
    as Hne.
  { intros d Hd. apply Ascii.eqb_neq. intros ->. done. }
  split_and!.
  - repeat (apply orb_false_intro); try (apply Nat.eqb_neq; lia).
    apply andb_false_intro2, Nat.leb_gt. lia.
  - apply Hne. change (nat_of_ascii "s") with 115%nat. lia.
  - apply Hne. change (nat_of_ascii "-") with 45%nat. lia.
  - apply Hne. change (nat_of_ascii "+") with 43%nat. lia.
Qed.

Lemma count_digits_all (ds : list ascii) :
  forallb is_digit ds = true → count_digits ds = Z.of_nat (length ds).
Proof.
  unfold count_digits. intros Hds. f_equal.
  induction ds as [|c ds IH]; simpl in *; [done|].
  apply andb_prop in Hds as [-> Hds]. simpl. by rewrite IH.
Qed.

Lemma py_int_digits (ds : list ascii) :
  ds ≠ [] → forallb is_digit ds = true →
  py_int ds = if decide (Z.of_nat (length ds) ≤ int_max_str_digits)
              then Some (decimal ds) else None.
Proof.
  intros Hne Hds. unfold py_int.
  assert (lstrip is_int_space ds = ds) as ->.
  { destruct ds as [|c ds]; [done|]. simpl in *.
    apply andb_prop in Hds as [Hc _].
    by destruct (digit_not_special c Hc) as (-> & _). }
  rewrite rstrip_digits; [|intros c Hc; by apply digit_not_special|done].
  destruct ds as [|c ds]; [done|].
  assert (is_digit c = true) as Hc
    by (simpl in Hds; by apply andb_prop in Hds as [? _]).
  destruct (digit_not_special c Hc) as (_ & _ & -> & ->). cbn [orb].
  rewrite (int_digits_decimal 0 false (c :: ds)) by (done || by left).
  rewrite count_digits_all by done. fold (decimal (c :: ds)).
  destruct (decide _) as [Hle|Hgt].
  - by rewrite (proj2 (Z.ltb_ge _ _) Hle).
  - rewrite (proj2 (Z.ltb_lt _ _)); [done|lia].
Qed.

(** What [int] accepts is made of digits, underscores, a sign and
    whitespace. *)
Definition int_char (c : ascii) : bool :=
  is_digit c || Ascii.eqb c "_" || Ascii.eqb c "+" || Ascii.eqb c "-"
  || is_int_space c.

Lemma lstrip_elem (p : ascii → bool) (l : list ascii) (c : ascii) :
  c ∈ l → p c = true ∨ c ∈ lstrip p l.
Proof.
  induction l as [|x l IH]; [by intros ?%not_elem_of_nil|].
  simpl. destruct (p x) eqn:Hx.
  - intros [->|Hc]%elem_of_cons; [by left|by apply IH].
  - by right.
Qed.

Lemma rstrip_elem (p : ascii → bool) (l : list ascii) (c : ascii) :
  c ∈ l → p c = true ∨ c ∈ rstrip p l.
Proof.
  induction l as [|x l IH]; [by intros ?%not_elem_of_nil|].
  intros Hc. simpl. destruct (rstrip p l) as [|y r] eqn:Hr.
  - apply elem_of_cons in Hc as [->|Hc].
    + destruct (p x) eqn:Hx; [by left|right; left].
    + destruct (IH Hc) as [?|Hn]; [by left|by apply not_elem_of_nil in Hn].
  - apply elem_of_cons in Hc as [->|Hc]; [right; left|].
    destruct (IH Hc) as [?|?]; [by left|right; by right].
Qed.

Lemma int_digits_chars (acc : Z) (after : bool) (l : list ascii) (z : Z)
    (c : ascii) :
  int_digits acc after l = Some z → c ∈ l →
  is_digit c = true ∨ c = "_"%char.
Proof.
  revert acc after. induction l as [|x l IH]; intros acc after;
    [by intros _ ?%not_elem_of_nil|].
  simpl. destruct (is_digit x) eqn:Hx.
  - intros H [->|Hc]%elem_of_cons; [by left|by eapply IH].
  - destruct (Ascii.eqb x "_" && after) eqn:Hu; [|done].
    apply andb_prop in Hu as [Hu%Ascii.eqb_eq _].
    intros H [->|Hc]%elem_of_cons; [by right|by eapply IH].
Qed.

Lemma py_int_chars (l : list ascii) (z : Z) (c : ascii) :
  py_int l = Some z → c ∈ l → int_char c = true.
Proof.
  unfold py_int, int_char. intros H Hc.
  destruct (lstrip_elem is_int_space l c Hc) as [Hs|Hc1];
    [rewrite Hs; by rewrite !orb_true_r|].
  destruct (rstrip_elem is_int_space _ c Hc1) as [Hs|Hc2];
    [rewrite Hs; by rewrite !orb_true_r|].
  destruct (rstrip is_int_space (lstrip is_int_space l)) as [|x r]; [done|].
  cbv zeta in H.
  destruct (int_digits 0 false
              (if Ascii.eqb x "-" || Ascii.eqb x "+" then r else x :: r))
    as [v|] eqn:Hd; [|done].
  assert (c ∈ (if Ascii.eqb x "-" || Ascii.eqb x "+" then r else x :: r)
          ∨ (c = x ∧ Ascii.eqb x "-" || Ascii.eqb x "+" = true)) as [Hin|[-> Hx]].
  { destruct (Ascii.eqb x "-" || Ascii.eqb x "+") eqn:Hsign.
    - apply elem_of_cons in Hc2 as [->|?]; [by right|by left].
    - by left. }
  - destruct (int_digits_chars _ _ _ _ c Hd Hin) as [-> | ->]; [done|].
    by rewrite orb_true_r.
  - apply orb_prop in Hx as [-> | ->]; by rewrite ?orb_true_r.
Qed.

Lemma parse_timeout_nonempty (t : string) :
  t ≠ EmptyString → _parse_timeout (Some t) = py_int (rstrip is_s (chars t)).
Proof. destruct t; [done|]. reflexivity. Qed.

(** C10, as the code has it.  [_parse_timeout] is total: it returns [None]
    for [None] and for the empty string; for a non-empty string of digits
    followed by any number of [s] it returns the number when the digits are
    at most [int_max_str_digits], and [None] when they are more; it returns
    [None] for every value that, without its trailing [s], holds a character
    that is not a digit, an underscore, a sign or whitespace, such as
    [5x]. *)
Theorem parse_timeout_spec :
  _parse_timeout None = None
  ∧ _parse_timeout (Some EmptyString) = None
  ∧ (∀ t ds k, ds ≠ [] → forallb is_digit ds = true →
       chars t = ds ++ replicate k ("s" : ascii) →
       _parse_timeout (Some t)
       = if decide (Z.of_nat (length ds) ≤ int_max_str_digits)
         then Some (decimal ds) else None)
  ∧ (∀ t c, c ∈ rstrip is_s (chars t) → int_char c = false →
       _parse_timeout (Some t) = None)
  ∧ _parse_timeout (Some "5x"%string) = None.
Proof.
  split_and!; [done|done| | |done].
  - intros t ds k Hne Hds Ht. rewrite parse_timeout_nonempty.
    + rewrite Ht, rstrip_replicate by done.
      rewrite rstrip_digits; [by apply py_int_digits| |done].
      intros c Hc. by apply digit_not_special.
    + intros ->. simpl in Ht. by destruct ds.
  - intros t c Hc Hbad. rewrite parse_timeout_nonempty.
    + destruct (py_int (rstrip is_s (chars t))) as [z|] eqn:Hz; [|done].
      by rewrite (py_int_chars _ z c Hz Hc) in Hbad.
    + intros ->. by apply not_elem_of_nil in Hc.
Qed.

Lemma parse_timeout_spec_witness :
  _parse_timeout (Some "30ss"%string) = Some 30
  ∧ _parse_timeout (Some "1.5s"%string) = None.
Proof.
  destruct parse_timeout_spec as (_ & _ & H & Hbad & _). split.
  - rewrite (H "30ss"%string ["3"; "0"]%char 2%nat);
      [done|done|reflexivity|reflexivity].
  - apply (Hbad "1.5s"%string "."%char); [|reflexivity].
    change ("."%char ∈ ["1"; "."; "5"]%char). set_solver.
Defined.

(** The claim as the specification words it fails on a signed number: the
    value [+5s] is not a string of digits followed by [s], and the parser
    returns five seconds for it. *)
Lemma parse_timeout_accepts_sign :
  ¬ digits_then_s "+5s" ∧ _parse_timeout (Some "+5s"%string) = Some 5.
Proof.
  split; [|reflexivity].
  intros (ds & k & Hne & Hds & Ht). destruct ds as [|c ds]; [done|].
  simpl in Ht. injection Ht as <- _. discriminate Hds.
Qed.

(** ** Bytecode documents

    A bytecode file holds one JSON document.  An object keeps its fields in
    the order they were inserted, as a Python [dict] does. *)

Inductive json :=
| JNull
| JBool (b : bool)
| JInt (z : Z)
| JStr (s : string)
| JList (l : list json)
| JObj (fields : list (string * json)).

Fixpoint assoc (k : string) (fields : list (string * json)) : option json :=
  match fields with
  | [] => None
  | (k', v) :: fields' => if decide (k' = k) then Some v else assoc k fields'
  end.

(** [d.get(k, dflt)]; [d.get(k)] is [dict_get d k JNull]. *)
Definition dict_get (d : json) (k : string) (dflt : json) : json :=
  match d with
  | JObj fields => default dflt (assoc k fields)
  | _ => dflt
  end.

(** The views of a value at the types the bytecode format gives its
    fields: [Optional[str]], [int] (where [v or 0] is meant) and a list of
    names (where [v or []] is meant).  They give what the code reads on the
    documents of that format, which [typed_bytecode] below describes. *)
Definition as_str (v : json) : option string :=
  match v with JStr s => Some s | _ => None end.

Definition as_int (v : json) : Z :=
  match v with JInt z => z | _ => 0 end.

Definition as_list (v : json) : list json :=
  match v with JList l => l | _ => [] end.

Definition as_names (v : json) : list string := omap as_str (as_list v).

Definition of_opt_str (o : option string) : json :=
  match o with Some s => JStr s | None => JNull end.

(** *** [flowc/ir.py] *)

Definition instr_of (s : Step) : json :=
  JObj [ ("op", JStr "RUN");
         ("step", JStr (name s));
         ("cmd", of_opt_str (run s));
         ("timeout", of_opt_str (timeout s));
         ("retries", JInt (retries s));
         ("depends_on", JList (JStr <$> depends_on s));
         ("on_error", of_opt_str (on_error s)) ]%string.

Definition workflow_to_ir (workflow : Workflow) : list json :=
  instr_of <$> steps workflow.

(** The dicts [do_emit_bytecode] of [cli.py] makes of the notifiers. *)
Definition notify_dict (n : Notify) : json :=
  JObj [ ("name", JStr (notify_name n));
         ("email", of_opt_str (email n));
         ("subject", of_opt_str (subject n));
         ("body", of_opt_str (body n)) ]%string.

(** *** [flowc/bytecode.py]: the document [emit_bytecode] serializes *)

Definition bytecode_document (workflow_name : string) (ir : list json)
    (notifies : list json) : json :=
  JObj ([ ("workflow", JStr workflow_name); ("steps", JList ir) ]%string
        ++ match notifies with
           | [] => []
           | _ => [ ("notifies", JList notifies) ]%string
           end).

(** ** The bytecode format

    The runtimes read the fields of a step without checking their types.
    The embedding follows the code on documents of the format
    [emit_bytecode] writes: every step is an object whose [step] is a
    string, whose [cmd], [timeout] and [on_error] are strings or [null],
    whose [retries] is an integer and whose [depends_on] is a list of
    strings, each field possibly missing except [step]; every notifier is
    an object whose [name] is a string and whose other fields are strings
    or [null].  On other documents the code raises exceptions ([TypeError]
    on [retries + 1] or in [sorted(ready)], say) that the embedding does
    not have. *)

Definition opt_str (v : option json) : bool :=
  match v with
  | None | Some JNull | Some (JStr _) => true
  | _ => false
  end.

Definition is_str (v : json) : bool :=
  match v with JStr _ => true | _ => false end.

Definition typed_step (s : json) : bool :=
  match s with
  | JObj fields =>
      match assoc "step" fields with Some (JStr _) => true | _ => false end
      && opt_str (assoc "cmd" fields) && opt_str (assoc "timeout" fields)
      && match assoc "retries" fields with
         | None | Some (JInt _) => true
         | _ => false
         end
      && match assoc "depends_on" fields with
         | None | Some JNull => true
         | Some (JList l) => forallb is_str l
         | _ => false
         end
      && opt_str (assoc "on_error" fields)
  | _ => false
  end.

Definition typed_notify (n : json) : bool :=
  match n with
  | JObj fields =>
      match assoc "name" fields with Some (JStr _) => true | _ => false end
      && opt_str (assoc "email" fields) && opt_str (assoc "subject" fields)
      && opt_str (assoc "body" fields)
  | _ => false
  end.

Definition typed_ir (ir : list json) : bool := forallb typed_step ir.

Definition typed_bytecode (bytecode : json) : bool :=
  match bytecode with
  | JObj fields =>
      match assoc "steps" fields with
      | None => true
      | Some (JList l) => typed_ir l
      | _ => false
      end
      && match assoc "notifies" fields with
         | None | Some JNull => true
         | Some (JList l) => forallb typed_notify l
         | _ => false
         end
  | _ => false
  end.

(** ** Workers and the scheduler of [ParallelVM] and [ParallelRuntime] *)

Inductive status := Queued | Running | Succeeded | Failed.

(** The retry loop both runtimes share: [todo] attempts are left, [attempt]
    is the index of the next one, [stop] tells whether the check at the top
    of an attempt finds cancellation or abort signalled, and [sandbox] is
    the result of [run_cmd_sandbox] at an attempt.  The result is the value
    returned and the number of times the sandbox was invoked. *)
Fixpoint attempt_loop (stop sandbox : nat → bool) (todo attempt : nat)
  : bool * nat :=
  match todo with
  | O => (false, O)
  | S todo' =>
      if stop attempt then (false, O)
      else if sandbox attempt then (true, 1%nat)
      else let '(ok, calls) := attempt_loop stop sandbox todo' (S attempt) in
           (ok, S calls)
  end.

(** [range(retries + 1)] has this many elements. *)
Definition range_len (retries : Z) : nat := Z.to_nat (retries + 1).

(** [str.replace(old, new)] for a non-empty [old]: the occurrences of [old]
    are replaced from left to right and do not overlap; [skip] counts the
    characters of a matched occurrence that are still to be passed over. *)
Fixpoint replace_from (old new : string) (skip : nat) (s : string) : string :=
  match s with
  | EmptyString => EmptyString
  | String c s' =>
      match skip with
      | S k => replace_from old new k s'
      | O =>
          if String.prefix old s
          then new +:+ replace_from old new (String.length old - 1) s'
          else String c (replace_from old new O s')
      end
  end.

Definition str_replace (old new s : string) : string := replace_from old new 0 s.

(** What an f-string makes of an [Optional[str]]. *)
Definition fmt (o : option string) : string := default "None"%string o.

Definition nl : string := String newline EmptyString.

(** [indeg[n]] for a key [n] of the dict; the runtimes read the counter only
    of steps, which are its keys. *)
Definition counter (indeg : gmap string Z) (n : string) : Z :=
  default 0 (indeg !! n).

(** The decrement loop over the successors of a finished step, which both
    runtimes run: [indeg[neigh] -= 1] for each [neigh] in [adj.get(step, [])],
    collecting in [newly_ready] those whose counter becomes zero. *)
Definition release_one (acc : gmap string Z * list string) (neigh : string)
  : gmap string Z * list string :=
  let d := counter acc.1 neigh - 1 in
  (<[neigh := d]> acc.1, if decide (d = 0) then acc.2 ++ [neigh] else acc.2).

Definition release (adj : gmap string (list string)) (step : string)
    (indeg : gmap string Z) : gmap string Z * list string :=
  foldl release_one (indeg, []) (default [] (adj !! step)).

(** [running_futures.pop(fut)]: the entry of the future of [x] is removed. *)
Fixpoint remove_first (x : string) (l : list string) : list string :=
  match l with
  | [] => []
  | y :: l' => if decide (y = x) then l' else y :: remove_first x l'
  end.

(** The graph both runtimes keep: forward adjacency and unresolved counters. *)
Definition graph_t : Type := gmap string (list string) * gmap string Z.

(** [adj.setdefault(dep, []).append(name)] and
    [indeg[name] = indeg.get(name, 0) + 1]. *)
Definition add_edge (g : graph_t) (name dep : string) : graph_t :=
  (<[dep := default [] (g.1 !! dep) ++ [name]]> g.1,
   <[name := default 0 (g.2 !! name) + 1]> g.2).

Module vm.

Record cancel_event_t := mkCancelEvent {
  (** [is_set()] as the worker of a step finds it at the top of an attempt *)
  is_set_in_worker : string → nat → bool;
  (** [is_set()] as the scheduler finds it after so many completions *)
  is_set_in_scheduler : nat → bool
}.

(** What a run of the VM depends on besides its bytecode. *)
Record environment := mkEnv {
  (** the boolean [run_cmd_sandbox] returns for a step, its command and
      timeout, at an attempt; runs in which a call raises or never returns
      are outside the embedding *)
  run_cmd_sandbox : string → string → option Z → nat → bool;
  cancel_event : option cancel_event_t;
  (** the order in which [as_completed] yields the futures of a snapshot:
      the index, in what is left of the snapshot, of the future that
      completes next *)
  as_completed : nat → list string → nat;
  (** [time.strftime] when the n-th completion is handled *)
  strftime : nat → string
}.

Definition steps_raw (bytecode : json) : list json :=
  as_list (dict_get bytecode "steps" (JList [])).

Definition notifies_raw (bytecode : json) : list json :=
  as_list (dict_get bytecode "notifies" (JList [])).

Definition raw_name (s : json) : string :=
  default EmptyString (as_str (dict_get s "step" JNull)).

Definition step_of_raw (s : json) : Step :=
  mkStep (raw_name s)
         (as_str (dict_get s "cmd" JNull))
         (as_str (dict_get s "timeout" JNull))
         (as_int (dict_get s "retries" (JInt 0)))
         (as_names (dict_get s "depends_on" (JList [])))
         (as_str (dict_get s "on_error" JNull)).

Definition step_objs (bytecode : json) : list Step :=
  step_of_raw <$> steps_raw bytecode.

Definition name_to_raw (bytecode : json) : gmap string json :=
  foldl (λ m s, <[raw_name s := s]> m) ∅ (steps_raw bytecode).

Definition notify_map (bytecode : json) : gmap string json :=
  foldl (λ m n, <[default EmptyString (as_str (dict_get n "name" JNull)) := n]> m)
        ∅ (notifies_raw bytecode).

Definition steps_set (bytecode : json) : gset string :=
  list_to_set (name <$> step_objs bytecode).

Fixpoint add_edges (known : gset string) (name : string) (deps : list string)
    (g : graph_t) : outcome graph_t :=
  match deps with
  | [] => Return g
  | dep :: deps' =>
      if decide (dep ∈ known) then add_edges known name deps' (add_edge g name dep)
      else Raise (UnknownBytecodeDependency name dep)
  end.

Fixpoint add_steps (known : gset string) (objs : list Step) (g : graph_t)
  : outcome graph_t :=
  match objs with
  | [] => Return g
  | s :: objs' =>
      g' ← add_edges known (name s) (depends_on s) g;
      add_steps known objs' g'
  end.

Definition _build_graph (bytecode : json) : outcome graph_t :=
  let known := steps_set bytecode in
  add_steps known (step_objs bytecode)
            (gset_to_gmap [] known, gset_to_gmap 0 known).

Definition raw_of (bytecode : json) (step_name : string) : json :=
  default (JObj []) (name_to_raw bytecode !! step_name).

(** The worker.  Its result is the value returned, the number of sandbox
    invocations and the status events reported. *)
Definition _execute_step (env : environment) (bytecode : json)
    (cancelled : bool) (step_name : string)
  : bool * nat * list (string * status) :=
  let raw := raw_of bytecode step_name in
  let cmd := default EmptyString (as_str (dict_get raw "cmd" JNull)) in
  let timeout := _parse_timeout (as_str (dict_get raw "timeout" JNull)) in
  let retries := as_int (dict_get raw "retries" (JInt 0)) in
  let stop attempt :=
    match cancel_event env with
    | Some ev => is_set_in_worker ev step_name attempt
    | None => false
    end || cancelled in
  let '(ok, calls) :=
    attempt_loop stop (run_cmd_sandbox env step_name cmd timeout)
                 (range_len retries) 0 in
  (ok, calls,
   [(step_name, Running); (step_name, if ok then Succeeded else Failed)]).

Definition is_nonempty_dict (v : json) : bool :=
  match v with JObj (_ :: _) => true | _ => false end.

(** The line notifier dispatch writes, without its line break. *)
Definition notify_line (bytecode : json) (timestamp : string)
    (notify_name : string) (failed_step : option string) : string :=
  let n := default JNull (notify_map bytecode !! notify_name) in
  if is_nonempty_dict n then
    let email := as_str (dict_get n "email" JNull) in
    let subject := as_str (dict_get n "subject" JNull) in
    let body := as_str (dict_get n "body" JNull) in
    let body :=
      match failed_step, body with
      | Some f, Some b =>
          if decide (f = EmptyString ∨ b = EmptyString) then body
          else Some (str_replace "${failed_step}" f b)
      | _, _ => body
      end in
    "[" +:+ timestamp +:+ "] NOTIFY " +:+ notify_name +:+ " -> email: "
      +:+ fmt email +:+ " subject: " +:+ fmt subject +:+ " body: "
      +:+ fmt body
  else
    "[" +:+ timestamp +:+ "] NOTIFY-MISSING " +:+ notify_name
      +:+ " for failed_step=" +:+ fmt failed_step.

(** Notifier dispatch: [notifications_log] is the content of the log file,
    which is opened for appending. *)
Definition _emit_notify (bytecode : json) (timestamp : string)
    (notify_name : string) (failed_step : option string)
    (notifications_log : string) : string :=
  notifications_log
    +:+ notify_line bytecode timestamp notify_name failed_step +:+ nl.

Record state := mkState {
  completed : gset string;
  failed : gset string;
  running_futures : list string;
  cancelled : bool;
  indeg : gmap string Z;
  (** the status events reported by the scheduler and by the workers whose
      futures it has handled, oldest first *)
  events : list (string * status);
  (** the content of [notifications.log] *)
  notifications_log : string;
  (** every step handed to [ex.submit], oldest first *)
  submitted : list string
}.

(** The [return] statement at which [execute] leaves. *)
Inductive exit :=
| BadGraph (e : SemanticError)
| NoReadySteps
| Aborted (step : string)
| CancelDetected
| FinishedWithFailures
| FinishedSuccessfully.

Definition return_value (x : exit) : bool :=
  match x with FinishedSuccessfully => true | _ => false end.

Definition submit (nr : string) (st : state) : state :=
  mkState (completed st) (failed st) (running_futures st ++ [nr])
          (cancelled st) (indeg st) (events st) (notifications_log st)
          (submitted st ++ [nr]).

Definition submit_ready (st : state) (nr : string) : state :=
  if decide (nr ∈ completed st ∨ nr ∈ failed st) then st else submit nr st.

(** The successors of a finished step: decrement, report [queued], submit. *)
Definition release_successors (adj : gmap string (list string))
    (step : string) (st : state) : state :=
  let '(indeg', newly_ready) := release adj step (indeg st) in
  let st1 :=
    mkState (completed st) (failed st) (running_futures st) (cancelled st)
            indeg' (events st ++ ((λ n, (n, Queued)) <$> newly_ready))
            (notifications_log st) (submitted st) in
  foldl submit_ready st1 (sort newly_ready).

(** The body of [for fut in done_iter] for the future of [step]; the left
    case is the [return False] of the abort. *)
Definition handle_completion (env : environment) (bytecode : json)
    (adj : gmap string (list string)) (tick : nat) (step : string)
    (st : state) : state + state :=
  let st := mkState (completed st) (failed st)
                    (remove_first step (running_futures st)) (cancelled st)
                    (indeg st) (events st) (notifications_log st)
                    (submitted st) in
  let '(ok, _, evs) := _execute_step env bytecode (cancelled st) step in
  let st := mkState (completed st) (failed st) (running_futures st)
                    (cancelled st) (indeg st) (events st ++ evs)
                    (notifications_log st) (submitted st) in
  if ok then
    inr (release_successors adj step
           (mkState ({[step]} ∪ completed st) (failed st) (running_futures st)
                    (cancelled st) (indeg st) (events st)
                    (notifications_log st) (submitted st)))
  else
    let st := mkState (completed st) ({[step]} ∪ failed st)
                      (running_futures st) (cancelled st) (indeg st)
                      (events st) (notifications_log st) (submitted st) in
    match as_str (dict_get (raw_of bytecode step) "on_error" JNull) with
    | Some notify_name =>
        if decide (notify_name = EmptyString) then
          inl (mkState (completed st) (failed st) [] true (indeg st)
                       (events st) (notifications_log st) (submitted st))
        else
          inr (release_successors adj step
                 (mkState (completed st) (failed st) (running_futures st)
                          (cancelled st) (indeg st) (events st)
                          (_emit_notify bytecode (strftime env tick)
                             notify_name (Some step) (notifications_log st))
                          (submitted st)))
    | None =>
        inl (mkState (completed st) (failed st) [] true (indeg st)
                     (events st) (notifications_log st) (submitted st))
    end.

(** [for fut in done_iter]: [snapshot] is what is left of the futures the
    iterator was created with. *)
Fixpoint for_done (env : environment) (bytecode : json)
    (adj : gmap string (list string)) (n : nat) (tick : nat)
    (snapshot : list string) (st : state) : option exit * state * nat :=
  match n with
  | O => (None, st, tick)
  | S n' =>
      let i := (as_completed env tick snapshot `mod` length snapshot)%nat in
      match snapshot !! i with
      | None => (None, st, tick)
      | Some step =>
          match handle_completion env bytecode adj tick step st with
          | inl st' => (Some (Aborted step), st', S tick)
          | inr st' =>
              for_done env bytecode adj n' (S tick) (delete i snapshot) st'
          end
      end
  end.

Definition cancel_requested (env : environment) (tick : nat) (st : state)
  : bool :=
  match cancel_event env with
  | Some ev => is_set_in_scheduler ev tick
  | None => false
  end || cancelled st.

(** [while self.running_futures]. *)
Fixpoint while_running (env : environment) (bytecode : json)
    (adj : gmap string (list string)) (fuel : nat) (tick : nat) (st : state)
  : option (exit * state) :=
  match running_futures st with
  | [] =>
      Some (if decide (failed st = ∅) then FinishedSuccessfully
            else FinishedWithFailures, st)
  | snapshot =>
      match fuel with
      | O => None
      | S fuel' =>
          match for_done env bytecode adj (length snapshot) tick snapshot st
          with
          | (Some x, st', _) => Some (x, st')
          | (None, st', tick') =>
              if cancel_requested env tick' st' then
                Some (CancelDetected,
                      mkState (completed st') (failed st') [] (cancelled st')
                              (indeg st') (events st') (notifications_log st')
                              (submitted st'))
              else while_running env bytecode adj fuel' tick' st'
          end
      end
  end.

Definition initial_state (indeg : gmap string Z) : state :=
  mkState ∅ ∅ [] false indeg [] EmptyString [].

(** [execute]: the exit taken and the final state; [None] if the model ran
    out of fuel. *)
Definition execute (env : environment) (bytecode : json)
  : option (exit * state) :=
  match _build_graph bytecode with
  | Raise e => Some (BadGraph e, initial_state ∅)
  | OutOfFuel => None
  | Return (adj, indeg) =>
      let ready := filter (λ n, indeg !! n = Some 0)
                          (elements (steps_set bytecode)) in
      let st := initial_state indeg in
      let st := mkState (completed st) (failed st) (running_futures st)
                        (cancelled st) (vm.indeg st)
                        ((λ n, (n, Queued)) <$> ready)
                        (notifications_log st) (submitted st) in
      if bool_decide (ready = [] ∧ steps_set bytecode ≠ ∅)
      then Some (NoReadySteps, st)
      else while_running env bytecode adj (S (size (steps_set bytecode))) O
                         (foldl (λ st n, submit n st) st (sort ready))
  end.

End vm.

Module runtime_parallel.

(** What a run of the runtime depends on besides its instruction list. *)
Record environment := mkEnv {
  run_cmd_sandbox : string → string → option Z → nat → bool;
  as_completed : nat → list string → nat
}.

Definition instr_name (instr : json) : string :=
  default EmptyString (as_str (dict_get instr "step" JNull)).

Definition name_to_instr (ir : list json) : gmap string json :=
  foldl (λ m instr, <[instr_name instr := instr]> m) ∅ ir.

(** The keys of [name_to_instr], in insertion order. *)
Definition instr_keys (ir : list json) : list string :=
  first_occurrences ∅ (instr_name <$> ir).

Definition steps (ir : list json) : gset string := dom (name_to_instr ir).

(** The graph [__init__] builds. *)
Definition build_graph (ir : list json) : graph_t :=
  foldl (λ g name,
           let instr := default JNull (name_to_instr ir !! name) in
           foldl (λ g dep, add_edge g name dep) g
                 (as_names (dict_get instr "depends_on" (JList []))))
        (gset_to_gmap [] (steps ir), gset_to_gmap 0 (steps ir))
        (instr_keys ir).

Definition instr_of_name (ir : list json) (step_name : string) : json :=
  default JNull (name_to_instr ir !! step_name).

(** The worker: the value returned and the number of sandbox invocations. *)
Definition _execute_step (env : environment) (ir : list json)
    (cancelled : bool) (step_name : string) : bool * nat :=
  let instr := instr_of_name ir step_name in
  let cmd := default EmptyString (as_str (dict_get instr "cmd" JNull)) in
  let timeout := _parse_timeout (as_str (dict_get instr "timeout" JNull)) in
  let retries := as_int (dict_get instr "retries" (JInt 0)) in
  attempt_loop (λ _, cancelled) (run_cmd_sandbox env step_name cmd timeout)
               (range_len retries) 0.

Record state := mkState {
  completed : gset string;
  failed : gset string;
  running_futures : list string;
  cancelled : bool;
  indeg : gmap string Z;
  (** every step handed to [ex.submit], oldest first *)
  submitted : list string
}.

Inductive exit :=
| NoReadySteps
| Aborted (step : string)
| FinishedWithFailures
| FinishedSuccessfully.

Definition return_value (x : exit) : bool :=
  match x with FinishedSuccessfully => true | _ => false end.

Definition submit (nr : string) (st : state) : state :=
  mkState (completed st) (failed st) (running_futures st ++ [nr])
          (cancelled st) (indeg st) (submitted st ++ [nr]).

Definition submit_ready (st : state) (nr : string) : state :=
  if decide (nr ∈ completed st ∨ nr ∈ failed st) then st else submit nr st.

Definition release_successors (adj : gmap string (list string))
    (step : string) (st : state) : state :=
  let '(indeg', newly_ready) := release adj step (indeg st) in
  foldl submit_ready
        (mkState (completed st) (failed st) (running_futures st)
                 (cancelled st) indeg' (submitted st))
        newly_ready.

Definition handle_completion (env : environment) (ir : list json)
    (adj : gmap string (list string)) (step : string) (st : state)
  : state + state :=
  let st := mkState (completed st) (failed st)
                    (remove_first step (running_futures st)) (cancelled st)
                    (indeg st) (submitted st) in
  let '(ok, _) := _execute_step env ir (cancelled st) step in
  if ok then
    inr (release_successors adj step
           (mkState ({[step]} ∪ completed st) (failed st) (running_futures st)
                    (cancelled st) (indeg st) (submitted st)))
  else
    let st := mkState (completed st) ({[step]} ∪ failed st)
                      (running_futures st) (cancelled st) (indeg st)
                      (submitted st) in
    match as_str (dict_get (instr_of_name ir step) "on_error" JNull) with
    | Some handler =>
        if decide (handler = EmptyString) then
          inl (mkState (completed st) (failed st) [] true (indeg st)
                       (submitted st))
        else inr st
    | None =>
        inl (mkState (completed st) (failed st) [] true (indeg st)
                     (submitted st))
    end.

Fixpoint for_done (env : environment) (ir : list json)
    (adj : gmap string (list string)) (n : nat) (tick : nat)
    (snapshot : list string) (st : state) : option exit * state * nat :=
  match n with
  | O => (None, st, tick)
  | S n' =>
      let i := (as_completed env tick snapshot `mod` length snapshot)%nat in
      match snapshot !! i with
      | None => (None, st, tick)
      | Some step =>
          match handle_completion env ir adj step st with
          | inl st' => (Some (Aborted step), st', S tick)
          | inr st' => for_done env ir adj n' (S tick) (delete i snapshot) st'
          end
      end
  end.

Fixpoint while_running (env : environment) (ir : list json)
    (adj : gmap string (list string)) (fuel : nat) (tick : nat) (st : state)
  : option (exit * state) :=
  match running_futures st with
  | [] =>
      Some (if decide (failed st = ∅) then FinishedSuccessfully
            else FinishedWithFailures, st)
  | snapshot =>
      match fuel with
      | O => None
      | S fuel' =>
          match for_done env ir adj (length snapshot) tick snapshot st with
          | (Some x, st', _) => Some (x, st')
          | (None, st', tick') => while_running env ir adj fuel' tick' st'
          end
      end
  end.

Definition execute (env : environment) (ir : list json)
  : option (exit * state) :=
  let '(adj, indeg) := build_graph ir in
  let ready := filter (λ n, indeg !! n = Some 0) (elements (steps ir)) in
  let st := mkState ∅ ∅ [] false indeg [] in
  if bool_decide (ready = [] ∧ steps ir ≠ ∅) then Some (NoReadySteps, st)
  else while_running env ir adj (S (size (steps ir))) O
                     (foldl (λ st n, submit n st) st ready).

End runtime_parallel.

(** * Properties of the runtime *)

(** ** Retries *)

Lemma attempt_loop_all_fail (stop sandbox : nat → bool) (todo attempt : nat) :
  (∀ i, stop i = false) → (∀ i, sandbox i = false) →
  attempt_loop stop sandbox todo attempt = (false, todo).
Proof.
  intros Hstop Hsb. revert attempt.
  induction todo as [|todo IH]; intros attempt; simpl; [done|].
  by rewrite Hstop, Hsb, IH.
Qed.

Lemma attempt_loop_first_success (stop sandbox : nat → bool)
    (todo attempt i : nat) :
  (i < todo)%nat →
  (∀ j, (j ≤ i)%nat → stop (attempt + j)%nat = false) →
  (∀ j, (j < i)%nat → sandbox (attempt + j)%nat = false) →
  sandbox (attempt + i)%nat = true →
  attempt_loop stop sandbox todo attempt = (true, S i).
Proof.
  revert todo attempt.
  induction i as [|i IH]; intros todo attempt Hlt Hstop Hf Hs;
    (destruct todo as [|todo]; [lia|]); simpl;
    pose proof (Hstop 0%nat) as H0; rewrite Nat.add_0_r in H0;
    rewrite H0 by lia.
  - rewrite Nat.add_0_r in Hs. by rewrite Hs.
  - pose proof (Hf 0%nat) as H1. rewrite Nat.add_0_r in H1.
    rewrite H1 by lia.
    rewrite (IH todo (S attempt)); [done|lia| | |].
    + intros j Hj. replace (S attempt + j)%nat with (attempt + S j)%nat by lia.
      apply Hstop. lia.
    + intros j Hj. replace (S attempt + j)%nat with (attempt + S j)%nat by lia.
      apply Hf. lia.
    + by replace (S attempt + i)%nat with (attempt + S i)%nat by lia.
Qed.

(** Neither the cancel event nor the abort flag is found set by the worker
    of [step_name]. *)
Definition vm_not_signalled (env : vm.environment) (cancelled : bool)
    (step_name : string) : Prop :=
  cancelled = false
  ∧ ∀ ev, vm.cancel_event env = Some ev →
          ∀ i, vm.is_set_in_worker ev step_name i = false.

(** The results of the sandbox for the attempts of a step. *)
Definition vm_sandbox (env : vm.environment) (bytecode : json)
    (step_name : string) : nat → bool :=
  let raw := vm.raw_of bytecode step_name in
  vm.run_cmd_sandbox env step_name
    (default EmptyString (as_str (dict_get raw "cmd" JNull)))
    (_parse_timeout (as_str (dict_get raw "timeout" JNull))).

Definition vm_retries (bytecode : json) (step_name : string) : Z :=
  as_int (dict_get (vm.raw_of bytecode step_name) "retries" (JInt 0)).

Definition rt_sandbox (env : runtime_parallel.environment) (ir : list json)
    (step_name : string) : nat → bool :=
  let instr := runtime_parallel.instr_of_name ir step_name in
  runtime_parallel.run_cmd_sandbox env step_name
    (default EmptyString (as_str (dict_get instr "cmd" JNull)))
    (_parse_timeout (as_str (dict_get instr "timeout" JNull))).

Definition rt_retries (ir : list json) (step_name : string) : Z :=
  as_int (dict_get (runtime_parallel.instr_of_name ir step_name) "retries"
                   (JInt 0)).

Lemma vm_stop_never (env : vm.environment) (cancelled : bool)
    (step_name : string) (i : nat) :
  vm_not_signalled env cancelled step_name →
  match vm.cancel_event env with
  | Some ev => vm.is_set_in_worker ev step_name i
  | None => false
  end || cancelled = false.
Proof.
  intros [-> Hev]. destruct (vm.cancel_event env) as [ev|]; [|done].
  by rewrite (Hev ev eq_refl).
Qed.

(** C4.  The worker of a step with [retries = k], [k >= 0], that finds
    neither cancellation nor abort signalled invokes the sandbox [k + 1]
    times and returns failure when every attempt fails, and returns success
    right after the first attempt that succeeds, having invoked the sandbox
    once per attempt up to that one.  This holds of the worker of
    [ParallelVM] and of the worker of [ParallelRuntime]. *)
Theorem worker_attempts (k : Z) (step_name : string) :
  0 ≤ k →
  (∀ env bytecode cancelled,
     vm_retries bytecode step_name = k →
     vm_not_signalled env cancelled step_name →
     ((∀ i, vm_sandbox env bytecode step_name i = false) →
      ∃ calls evs,
        vm._execute_step env bytecode cancelled step_name = (false, calls, evs)
        ∧ Z.of_nat calls = k + 1)
     ∧ (∀ i, Z.of_nat i ≤ k →
          (∀ j, (j < i)%nat → vm_sandbox env bytecode step_name j = false) →
          vm_sandbox env bytecode step_name i = true →
          ∃ evs, vm._execute_step env bytecode cancelled step_name
                 = (true, S i, evs)))
  ∧ (∀ env ir,
       rt_retries ir step_name = k →
       ((∀ i, rt_sandbox env ir step_name i = false) →
        ∃ calls,
          runtime_parallel._execute_step env ir false step_name = (false, calls)
          ∧ Z.of_nat calls = k + 1)
       ∧ (∀ i, Z.of_nat i ≤ k →
            (∀ j, (j < i)%nat → rt_sandbox env ir step_name j = false) →
            rt_sandbox env ir step_name i = true →
            runtime_parallel._execute_step env ir false step_name
            = (true, S i))).
Proof.
  intros Hk. split.
  - intros env bytecode cancelled Hret Hsig.
    unfold vm._execute_step. fold (vm_retries bytecode step_name).
    change (vm.run_cmd_sandbox env step_name _ _)
      with (vm_sandbox env bytecode step_name).
    rewrite Hret. split.
    + intros Hfail. rewrite attempt_loop_all_fail;
        [|intros i; by apply vm_stop_never|done].
      eexists _, _. split; [done|]. unfold range_len. lia.
    + intros i Hi Hf Hs.
      rewrite (attempt_loop_first_success _ _ _ _ i);
        [by eexists|unfold range_len; lia| | |done].
      * intros j _. by apply vm_stop_never.
      * intros j Hj. by apply Hf.
  - intros env ir Hret. unfold runtime_parallel._execute_step.
    fold (rt_retries ir step_name).
    change (runtime_parallel.run_cmd_sandbox env step_name _ _)
      with (rt_sandbox env ir step_name).
    rewrite Hret. split.
    + intros Hfail. rewrite attempt_loop_all_fail by done.
      eexists. split; [done|]. unfold range_len. lia.
    + intros i Hi Hf Hs.
      apply attempt_loop_first_success; [unfold range_len; lia|done| |done].
      intros j Hj. by apply Hf.
Qed.

Definition retry_bytecode : json :=
  bytecode_document "w"
    [ instr_of (mkStep "a" (Some "flaky") (Some "5s") 2 [] None) ] [].

(** The command fails on the first two attempts and succeeds on the third. *)
Definition retry_env : vm.environment :=
  vm.mkEnv (λ _ _ _ attempt, (2 <=? attempt)%nat) None (λ _ _, 0%nat)
           (λ _, "2024-01-01 00:00:00"%string).

Lemma worker_attempts_witness :
  ∃ evs, vm._execute_step retry_env retry_bytecode false "a"
         = (true, 3%nat, evs).
Proof.
  destruct (worker_attempts 2 "a") as [Hvm _]; [lia|].
  destruct (Hvm retry_env retry_bytecode false) as [_ H].
  - reflexivity.
  - split; [reflexivity|]. intros ev Hev. discriminate Hev.
  - apply (H 2%nat); [lia| |reflexivity].
    intros j Hj. destruct j as [|[|j]]; [reflexivity|reflexivity|lia].
Defined.

(** ** Notifier dispatch *)

Definition notifier_key (n : json) : string :=
  default EmptyString (as_str (dict_get n "name" JNull)).

Lemma notify_map_key (bytecode : json) (h : string) (n : json) :
  vm.notify_map bytecode !! h = Some n → notifier_key n = h.
Proof.
  unfold vm.notify_map. fold notifier_key.
  assert (∀ l (m0 : gmap string json),
            (∀ k x, m0 !! k = Some x → notifier_key x = k) →
            ∀ k x, foldl (λ m n, <[notifier_key n := n]> m) m0 l !! k = Some x →
                   notifier_key x = k) as H.
  { induction l as [|y l IH]; intros m0 Hm0 k x; simpl; [by apply Hm0|].
    apply IH. intros k' x'. destruct (decide (notifier_key y = k')) as [<-|Hne].
    - rewrite lookup_insert_eq. by intros [= <-].
    - rewrite lookup_insert_ne by done. apply Hm0. }
  apply H. intros k x. by rewrite lookup_empty.
Qed.

Lemma known_notifier_nonempty (bytecode : json) (h : string) (n : json) :
  vm.notify_map bytecode !! h = Some n → h ≠ EmptyString →
  vm.is_nonempty_dict n = true.
Proof.
  intros Hn%notify_map_key Hh. subst h. unfold notifier_key in Hh.
  destruct n as [| | | | |[|f fs]]; done.
Qed.

(** A string without a line break. *)
Definition one_line (s : string) : Prop := newline ∉ chars s.

Lemma chars_app (a b : string) : chars (a +:+ b) = chars a ++ chars b.
Proof. induction a as [|c a IH]; simpl; [done|]. by rewrite IH. Qed.

Lemma one_line_app (a b : string) :
  one_line (a +:+ b) ↔ one_line a ∧ one_line b.
Proof. unfold one_line. rewrite chars_app, not_elem_of_app. done. Qed.

Lemma replace_from_chars (old new : string) (k : nat) (s : string) (c : ascii) :
  c ∈ chars (replace_from old new k s) → c ∈ chars new ∨ c ∈ chars s.
Proof.
  revert k. induction s as [|x s IH]; intros k; [by right|].
  change (chars (String x s)) with (x :: chars s). rewrite elem_of_cons.
  cbn [replace_from]. destruct k as [|k].
  - destruct (String.prefix old (String x s)).
    + rewrite chars_app, elem_of_app. intros [?|H%IH]; tauto.
    + change (chars (String x ?t)) with (x :: chars t). rewrite elem_of_cons.
      intros [->|H%IH]; tauto.
  - intros H%IH. tauto.
Qed.

Lemma one_line_replace (old new s : string) :
  one_line new → one_line s → one_line (str_replace old new s).
Proof.
  unfold one_line, str_replace. intros Hn Hs H.
  apply replace_from_chars in H. tauto.
Qed.

Ltac literal_line :=
  unfold one_line; apply (bool_decide_unpack _); vm_compute; exact I.

Definition notifier_email (n : json) : option string :=
  as_str (dict_get n "email" JNull).
Definition notifier_subject (n : json) : option string :=
  as_str (dict_get n "subject" JNull).
Definition notifier_body (n : json) : option string :=
  as_str (dict_get n "body" JNull).

(** C8, as the code has it.  Dispatch for a handler name and the name of a
    failed step appends one record and a line break to the log.  For a known
    notifier the record holds the timestamp, the notifier's name, its email,
    its subject and its body with every [${failed_step}] replaced by the
    step's name; for an unknown handler it is the [NOTIFY-MISSING] record.
    The record is a single line when none of the parts holds a line
    break. *)
Theorem notifier_dispatch_appends_line (bytecode : json)
    (timestamp notify_name failed_step notifications_log : string) :
  notify_name ≠ EmptyString → failed_step ≠ EmptyString →
  ∃ line,
    vm._emit_notify bytecode timestamp notify_name (Some failed_step)
                    notifications_log
    = notifications_log +:+ line +:+ nl
    ∧ (∀ n, vm.notify_map bytecode !! notify_name = Some n →
         line = "[" +:+ timestamp +:+ "] NOTIFY " +:+ notify_name
                +:+ " -> email: " +:+ fmt (notifier_email n)
                +:+ " subject: " +:+ fmt (notifier_subject n)
                +:+ " body: "
                +:+ fmt (str_replace "${failed_step}" failed_step
                           <$> notifier_body n))
    ∧ (vm.notify_map bytecode !! notify_name = None →
         line = "[" +:+ timestamp +:+ "] NOTIFY-MISSING " +:+ notify_name
                +:+ " for failed_step=" +:+ failed_step)
    ∧ (one_line timestamp → one_line notify_name → one_line failed_step →
       (∀ n, vm.notify_map bytecode !! notify_name = Some n →
             one_line (fmt (notifier_email n))
             ∧ one_line (fmt (notifier_subject n))
             ∧ one_line (fmt (notifier_body n))) →
       one_line line).
Proof.
  intros Hh Hf.
  exists (vm.notify_line bytecode timestamp notify_name (Some failed_step)).
  split; [done|]. unfold vm.notify_line.
  fold (notifier_email (default JNull (vm.notify_map bytecode !! notify_name))).
  fold (notifier_subject (default JNull (vm.notify_map bytecode !! notify_name))).
  fold (notifier_body (default JNull (vm.notify_map bytecode !! notify_name))).
  destruct (vm.notify_map bytecode !! notify_name) as [n|] eqn:Hn; simpl.
  - rewrite (known_notifier_nonempty bytecode notify_name n Hn Hh).
    assert (match notifier_body n with
            | Some b =>
                if decide (failed_step = EmptyString ∨ b = EmptyString)
                then notifier_body n
                else Some (str_replace "${failed_step}" failed_step b)
            | None => notifier_body n
            end = str_replace "${failed_step}" failed_step <$> notifier_body n)
      as ->.
    { destruct (notifier_body n) as [b|]; simpl; [|done].
      destruct (decide (failed_step = EmptyString ∨ b = EmptyString))
        as [[?| ->]|]; done. }
    split_and!.
    + by intros ? [= <-].
    + done.
    + intros Hts Hnn Hfs Hfields.
      destruct (Hfields n eq_refl) as (He & Hs & Hb).
      repeat (apply one_line_app; split); try done; try literal_line.
      destruct (notifier_body n) as [b|]; simpl in *; [|done].
      by apply one_line_replace.
  - split_and!; [done|done|].
    intros Hts Hnn Hfs _.
    repeat (apply one_line_app; split); try done; literal_line.
Qed.

Definition notify_bytecode : json :=
  bytecode_document "w"
    [ instr_of (mkStep "a" (Some "false") None 0 [] (Some "notify_ops")) ]
    [ notify_dict (mkNotify "notify_ops" (Some "ops@example.com")
                     (Some "step failed")
                     (Some "step ${failed_step} failed; see ${failed_step}")) ].

Lemma notifier_dispatch_appends_line_witness :
  vm._emit_notify notify_bytecode "T" "notify_ops" (Some "a"%string) "old
"
  = "old
[T] NOTIFY notify_ops -> email: ops@example.com subject: step failed body: step a failed; see a
"%string.
Proof.
  destruct (notifier_dispatch_appends_line notify_bytecode "T" "notify_ops"
              "a" ("old" +:+ nl)) as (line & Heq & Hknown & _); [done|done|].
  change ("old" +:+ nl) with "old
"%string in Heq. rewrite Heq.
  rewrite (Hknown _ eq_refl). reflexivity.
Defined.

(** A notifier whose body has two lines. *)
Definition two_line_bytecode : json :=
  bytecode_document "w"
    [ instr_of (mkStep "a" (Some "false") None 0 [] (Some "notify_ops")) ]
    [ notify_dict (mkNotify "notify_ops" (Some "ops@example.com")
                     (Some "failed") (Some ("first" +:+ nl +:+ "second"))) ].

(** C8, as stated, fails: what a dispatch appends ends with a line break,
    but it is more than one line when a part of it holds a line break, here
    the body of the notifier. *)
Lemma notifier_dispatch_two_lines :
  vm._emit_notify two_line_bytecode "T" "notify_ops" (Some "a"%string)
                  EmptyString
  = ("[T] NOTIFY notify_ops -> email: ops@example.com subject: failed body: first"
     +:+ nl) +:+ ("second" +:+ nl)
  ∧ ¬ one_line
        (vm.notify_line two_line_bytecode "T" "notify_ops" (Some "a"%string)).
Proof.
  split; [vm_compute; reflexivity|].
  unfold one_line. intros H. apply H.
  apply (bool_decide_unpack _). vm_compute. exact I.
Qed.

(** ** The unresolved counters

    [edges objs] lists the pairs (step, dependency) in the order the graph
    builders meet them, with their repetitions. *)

Definition edges (objs : list Step) : list (string * string) :=
  objs ≫= λ s, (λ d, (name s, d)) <$> depends_on s.

(** The successors of [d], as [adj[d]] lists them. *)
Definition dependents (E : list (string * string)) (d : string) : list string :=
  (filter (λ e, e.2 = d) E).*1.

(** The number of dependencies of [n] not in [R]. *)
Definition pending (E : list (string * string)) (R : gset string) (n : string)
  : nat :=
  length (filter (λ e, e.1 = n ∧ e.2 ∉ R) E).

Definition occ (n : string) (l : list string) : nat :=
  length (filter (λ x, x = n) l).

Lemma occ_snoc (n x : string) (l : list string) :
  occ n (l ++ [x]) = (occ n l + if decide (x = n) then 1 else 0)%nat.
Proof.
  unfold occ. rewrite filter_app, length_app. f_equal.
  rewrite filter_cons, filter_nil. by destruct (decide (x = n)).
Qed.

Lemma release_fold (l : list string) (indeg0 : gmap string Z) :
  ∃ indeg' nr,
    foldl release_one (indeg0, []) l = (indeg', nr)
    ∧ (∀ n, counter indeg' n = counter indeg0 n - Z.of_nat (occ n l))
    ∧ NoDup nr
    ∧ ∀ n, n ∈ nr ↔ 1 ≤ counter indeg0 n ≤ Z.of_nat (occ n l).
Proof.
  induction l as [|x l IH] using rev_ind.
  - exists indeg0, []. simpl. split_and!; [done| |constructor|].
    + intros n. unfold occ. simpl. lia.
    + intros n. unfold occ. simpl. split; [by intros ?%not_elem_of_nil|lia].
  - destruct IH as (indeg1 & nr1 & Hf & Hi & Hnd & Hnr).
    rewrite foldl_app, Hf. simpl. unfold release_one at 1. simpl.
    eexists _, _. split; [done|]. rewrite Hi.
    assert (∀ n, counter indeg0 x - Z.of_nat (occ x l) - 1 = 0 →
                 (n ∈ nr1 ++ [x] ↔ 1 ≤ counter indeg0 n ≤ Z.of_nat (occ n (l ++ [x]))))
      as Hyes.
    { intros n Hz. rewrite elem_of_app, list_elem_of_singleton, Hnr, occ_snoc.
      destruct (decide (x = n)) as [->|Hne].
      - split; [intros _; lia|intros _; by right].
      - split; [intros [?| ->]; [lia|done]|intros ?; left; lia]. }
    assert (∀ n, counter indeg0 x - Z.of_nat (occ x l) - 1 ≠ 0 →
                 (n ∈ nr1 ↔ 1 ≤ counter indeg0 n ≤ Z.of_nat (occ n (l ++ [x]))))
      as Hno.
    { intros n Hz. rewrite Hnr, occ_snoc.
      destruct (decide (x = n)) as [->|Hne]; lia. }
    split_and!.
    + intros n. rewrite occ_snoc. unfold counter at 1.
      destruct (decide (x = n)) as [->|Hne].
      * rewrite lookup_insert_eq. simpl. lia.
      * rewrite lookup_insert_ne by done. fold (counter indeg1 n).
        rewrite Hi. lia.
    + destruct (decide (counter indeg0 x - Z.of_nat (occ x l) - 1 = 0)); [|done].
      apply NoDup_app. split_and!; [done| |apply NoDup_singleton].
      intros n Hn ->%list_elem_of_singleton. apply Hnr in Hn. lia.
    + intros n.
      destruct (decide (counter indeg0 x - Z.of_nat (occ x l) - 1 = 0));
        [by apply Hyes|by apply Hno].
Qed.

Lemma pending_mono (E : list (string * string)) (R R' : gset string)
    (n : string) :
  R ⊆ R' → (pending E R' n ≤ pending E R n)%nat.
Proof.
  intros Hsub. unfold pending. induction E as [|e E IH]; simpl; [done|].
  rewrite !filter_cons.
  destruct (decide (e.1 = n ∧ e.2 ∉ R')) as [[? ?]|];
    destruct (decide (e.1 = n ∧ e.2 ∉ R)) as [|Hn]; simpl; try lia.
  exfalso. apply Hn. set_solver.
Qed.

Lemma pending_release (E : list (string * string)) (R : gset string)
    (step n : string) :
  step ∉ R →
  pending E R n
  = (pending E ({[step]} ∪ R) n + occ n (dependents E step))%nat.
Proof.
  intros Hstep. unfold pending, occ, dependents.
  induction E as [|[a d] E IH]; [done|].
  rewrite !filter_cons. cbn [fst snd].
  destruct (decide (d = step)) as [->|Hd].
  - rewrite fmap_cons, filter_cons. cbn [fst].
    destruct (decide (a = n)) as [->|Ha].
    + rewrite decide_True by done.
      rewrite decide_False by set_solver. cbn [length]. rewrite IH. lia.
    + rewrite decide_False by tauto.
      rewrite decide_False by tauto. done.
  - destruct (decide (a = n ∧ d ∉ R)) as [[-> ?]|Hn].
    + rewrite decide_True by set_solver. cbn [length]. rewrite IH. lia.
    + rewrite decide_False; [done|]. intros [? ?]. apply Hn. set_solver.
Qed.

Lemma pending_zero (E : list (string * string)) (R : gset string) (n d : string) :
  pending E R n = 0%nat → (n, d) ∈ E → d ∈ R.
Proof.
  unfold pending. intros H Hin.
  destruct (decide (d ∈ R)) as [|Hd]; [done|]. exfalso.
  assert ((n, d) ∈ filter (λ e, e.1 = n ∧ e.2 ∉ R) E) as Hf
    by (by apply list_elem_of_filter).
  apply length_zero_iff_nil in H. rewrite H in Hf.
  by apply not_elem_of_nil in Hf.
Qed.

Lemma elem_of_dependents (E : list (string * string)) (d n : string) :
  n ∈ dependents E d ↔ (n, d) ∈ E.
Proof.
  unfold dependents. rewrite list_elem_of_fmap. split.
  - intros ([a b] & -> & [Hb Hin]%list_elem_of_filter). simpl in *. by subst.
  - intros Hin. exists (n, d). split; [done|]. by apply list_elem_of_filter.
Qed.

Lemma elem_of_edges (objs : list Step) (n d : string) :
  (n, d) ∈ edges objs ↔ depends objs n d.
Proof.
  unfold edges, depends. rewrite list_elem_of_bind. split.
  - intros (s & (d' & [= -> ->] & Hd)%list_elem_of_fmap & Hs). eauto.
  - intros (s & Hs & <- & Hd). exists s. split; [|done].
    apply list_elem_of_fmap. eauto.
Qed.

(** The decrement loop, in terms of the pending dependencies. *)
Lemma release_spec (E : list (string * string))
    (adj : gmap string (list string)) (indeg : gmap string Z)
    (R : gset string) (step : string) :
  default [] (adj !! step) = dependents E step →
  step ∉ R →
  (∀ n, counter indeg n = Z.of_nat (pending E R n)) →
  ∃ indeg' nr,
    release adj step indeg = (indeg', nr)
    ∧ (∀ n, counter indeg' n = Z.of_nat (pending E ({[step]} ∪ R) n))
    ∧ NoDup nr
    ∧ ∀ n, n ∈ nr ↔ pending E ({[step]} ∪ R) n = 0%nat
                     ∧ pending E R n ≠ 0%nat.
Proof.
  intros Hadj Hstep Hind. unfold release. rewrite Hadj.
  destruct (release_fold (dependents E step) indeg)
    as (indeg' & nr & Hf & Hi & Hnd & Hnr).
  exists indeg', nr. split_and!; [done| |done|].
  - intros n. rewrite Hi, Hind, (pending_release E R step n) by done. lia.
  - intros n. rewrite Hnr, Hind, (pending_release E R step n) by done. lia.
Qed.

(** ** The scheduling discipline both runtimes keep *)

Lemma remove_first_spec (x : string) (l : list string) :
  NoDup l →
  NoDup (remove_first x l) ∧ ∀ y, y ∈ remove_first x l ↔ y ∈ l ∧ y ≠ x.
Proof.
  induction l as [|z l IH]; intros Hnd; simpl.
  - split; [constructor|]. intros y. split; [by intros ?%not_elem_of_nil|].
    by intros [?%not_elem_of_nil _].
  - apply NoDup_cons in Hnd as [Hz Hnd]. destruct (IH Hnd) as [IH1 IH2].
    destruct (decide (z = x)) as [->|Hne].
    + split; [done|]. intros y. rewrite elem_of_cons. split.
      * intros Hy. split; [by right|]. by intros ->.
      * intros [[->|Hy] Hne]; done.
    + split.
      * constructor; [|done]. rewrite IH2. tauto.
      * intros y. rewrite !elem_of_cons, IH2. split.
        -- intros [->|[? ?]]; [split; [by left|done]|split; [by right|done]].
        -- intros [[->|?] ?]; [by left|by right].
Qed.

Section sched_invariant.
Variable E : list (string * string).
Variable known : gset string.
Hypothesis E_known : ∀ n d, (n, d) ∈ E → n ∈ known.

(** [R] holds the steps whose successors were released, [finished] the steps
    in [completed] or in [failed]. *)
Record sched_inv (R finished : gset string) (running : list string)
    (indeg : gmap string Z) (submitted : list string) : Prop := {
  si_indeg : ∀ n, counter indeg n = Z.of_nat (pending E R n);
  si_submitted : NoDup submitted;
  si_ready : ∀ n, n ∈ submitted → pending E R n = 0%nat;
  si_known : ∀ n, n ∈ submitted → n ∈ known;
  si_running : NoDup running;
  si_running_sub : ∀ n, n ∈ running → n ∈ submitted ∧ n ∉ finished;
  si_finished_sub : ∀ n, n ∈ finished → n ∈ submitted;
  si_released : R ⊆ finished
}.

Lemma sched_inv_fail (R finished : gset string) (running : list string)
    (indeg : gmap string Z) (submitted : list string) (step : string) :
  sched_inv R finished running indeg submitted → step ∈ running →
  sched_inv R ({[step]} ∪ finished) (remove_first step running) indeg submitted.
Proof.
  intros [Hi Hs Hr Hk Hrun Hrs Hfs HR] Hstep.
  destruct (remove_first_spec step running Hrun) as [Hnd Hin].
  constructor; try done.
  - intros n [Hn Hne]%Hin. destruct (Hrs n Hn). split; [done|set_solver].
  - intros n [->%elem_of_singleton|Hn]%elem_of_union; [by apply Hrs|].
    by apply Hfs.
  - set_solver.
Qed.

Lemma sched_inv_abort (R finished : gset string) (running : list string)
    (indeg : gmap string Z) (submitted : list string) :
  sched_inv R finished running indeg submitted →
  sched_inv R finished [] indeg submitted.
Proof.
  intros [Hi Hs Hr Hk Hrun Hrs Hfs HR].
  constructor; try done; [constructor|]. by intros n ?%not_elem_of_nil.
Qed.

Lemma sched_inv_release (adj : gmap string (list string))
    (R finished : gset string) (running : list string)
    (indeg indeg' : gmap string Z) (submitted nr nr' : list string)
    (step : string) :
  sched_inv R finished running indeg submitted → step ∈ running →
  default [] (adj !! step) = dependents E step →
  release adj step indeg = (indeg', nr) → nr' ≡ₚ nr →
  sched_inv ({[step]} ∪ R) ({[step]} ∪ finished)
            (remove_first step running ++ nr') indeg' (submitted ++ nr')
  ∧ ∀ n, n ∈ nr → n ∉ {[step]} ∪ finished.
Proof.
  intros Hinv Hstep Hadj Hrel Hperm.
  pose proof (sched_inv_fail _ _ _ _ _ step Hinv Hstep) as Hinv'.
  destruct Hinv as [Hi Hs Hr Hk Hrun Hrs Hfs HR].
  destruct (Hrs step Hstep) as [Hsub Hnf].
  assert (step ∉ R) as HstepR by set_solver.
  destruct (release_spec E adj indeg R step Hadj HstepR Hi)
    as (indeg2 & nr2 & Hrel2 & Hi2 & Hnd2 & Hnr2).
  rewrite Hrel in Hrel2. injection Hrel2 as <- <-.
  destruct Hinv' as [_ _ _ _ Hrun' Hrs' Hfs' _].
  assert (∀ n, n ∈ nr → n ∉ submitted) as Hfresh.
  { intros n [_ Hn]%Hnr2 Hin. by apply Hn, Hr. }
  assert (∀ n, n ∈ nr → n ∈ known) as Hnrk.
  { intros n [H0 Hn]%Hnr2.
    assert (occ n (dependents E step) ≠ 0%nat) as Hocc
      by (rewrite (pending_release E R step n) in Hn by done; lia).
    unfold occ in Hocc.
    destruct (filter (λ x, x = n) (dependents E step)) as [|y l] eqn:Hf;
      [done|].
    assert (y ∈ filter (λ x, x = n) (dependents E step)) as Hy
      by (rewrite Hf; left).
    apply list_elem_of_filter in Hy as [-> Hy].
    apply elem_of_dependents in Hy. by eapply E_known. }
  split.
  - constructor.
    + done.
    + apply NoDup_app. split_and!; [done| |by rewrite Hperm].
      intros n Hn. rewrite Hperm. intros Hn'. by apply (Hfresh n).
    + intros n [Hn|Hn]%elem_of_app.
      * pose proof (pending_mono E R ({[step]} ∪ R) n) as Hm.
        specialize (Hr n Hn). assert (R ⊆ {[step]} ∪ R) by set_solver.
        specialize (Hm ltac:(done)). lia.
      * rewrite Hperm in Hn. by apply Hnr2 in Hn as [? _].
    + intros n [Hn|Hn]%elem_of_app; [by apply Hk|].
      rewrite Hperm in Hn. by apply Hnrk.
    + apply NoDup_app. split_and!; [done| |by rewrite Hperm].
      intros n Hn. rewrite Hperm. intros Hn'.
      apply (Hfresh n Hn'). by apply Hrs'.
    + intros n [Hn|Hn]%elem_of_app.
      * destruct (Hrs' n Hn). split; [|done]. apply elem_of_app. by left.
      * split; [apply elem_of_app; by right|].
        rewrite Hperm in Hn. intros Hf. apply (Hfresh n Hn). by apply Hfs'.
    + intros n Hn. apply elem_of_app. left. by apply Hfs'.
    + set_solver.
  - intros n Hn Hf. apply (Hfresh n Hn). by apply Hfs'.
Qed.

(** What a step that was submitted tells about the steps it depends on. *)
Lemma sched_inv_blocked (R finished : gset string) (running : list string)
    (indeg : gmap string Z) (submitted : list string) (a b : string) :
  sched_inv R finished running indeg submitted →
  a ∉ R → tc (λ n d, (n, d) ∈ E) b a → b ∉ submitted.
Proof.
  intros [Hi Hs Hr Hk Hrun Hrs Hfs HR] Ha Htc.
  induction Htc as [b a Hba|b c a Hbc _ IH].
  - intros Hb. apply Ha. by eapply pending_zero; [apply Hr|].
  - intros Hb. assert (c ∈ R) as Hc by (by eapply pending_zero; [apply Hr|]).
    apply IH; [done|]. apply Hfs. set_solver.
Qed.
End sched_invariant.

(** ** The graph the runtimes build *)

Definition add_edges_of (g : graph_t) (E : list (string * string)) : graph_t :=
  foldl (λ g e, add_edge g e.1 e.2) g E.

Definition empty_graph (K : gset string) : graph_t :=
  (gset_to_gmap [] K, gset_to_gmap 0 K).

Lemma dependents_snoc (E : list (string * string)) (a d d' : string) :
  dependents (E ++ [(a, d)]) d'
  = dependents E d' ++ if decide (d = d') then [a] else [].
Proof.
  unfold dependents. rewrite filter_app, fmap_app. f_equal.
  rewrite filter_cons, filter_nil. simpl. by destruct (decide (d = d')).
Qed.

Lemma pending_snoc (E : list (string * string)) (R : gset string)
    (a d n : string) :
  pending (E ++ [(a, d)]) R n
  = (pending E R n + if decide (a = n ∧ d ∉ R) then 1 else 0)%nat.
Proof.
  unfold pending. rewrite filter_app, length_app. f_equal.
  rewrite filter_cons, filter_nil. simpl.
  by destruct (decide (a = n ∧ d ∉ R)).
Qed.

Lemma add_edges_of_spec (K : gset string) (E : list (string * string)) :
  let g := add_edges_of (empty_graph K) E in
  (∀ d, default [] (g.1 !! d) = dependents E d)
  ∧ (∀ n, default 0 (g.2 !! n) = Z.of_nat (pending E ∅ n))
  ∧ (∀ n, n ∈ K → is_Some (g.2 !! n)).
Proof.
  induction E as [|[a d] E IH] using rev_ind.
  - simpl. split_and!.
    + intros d. rewrite lookup_gset_to_gmap.
      by destruct (decide (d ∈ K)); [rewrite option_guard_True|
                                     rewrite option_guard_False].
    + intros n. rewrite lookup_gset_to_gmap.
      by destruct (decide (n ∈ K)); [rewrite option_guard_True|
                                     rewrite option_guard_False].
    + intros n Hn. rewrite lookup_gset_to_gmap, option_guard_True by done.
      done.
  - unfold add_edges_of in *. rewrite foldl_app. simpl in *.
    destruct IH as (Hadj & Hind & Hdom).
    set (g := foldl (λ g e, add_edge g e.1 e.2) (empty_graph K) E) in *.
    split_and!.
    + intros d'. rewrite dependents_snoc.
      destruct (decide (d = d')) as [->|Hne].
      * by rewrite lookup_insert_eq; simpl; rewrite Hadj.
      * rewrite lookup_insert_ne, app_nil_r by done. apply Hadj.
    + intros n. rewrite pending_snoc.
      destruct (decide (a = n)) as [->|Hne].
      * rewrite lookup_insert_eq; simpl. rewrite Hind.
        rewrite decide_True by set_solver. lia.
      * rewrite lookup_insert_ne by done. rewrite Hind.
        rewrite decide_False by tauto. lia.
    + intros n Hn. destruct (decide (a = n)) as [->|Hne].
      * by rewrite lookup_insert_eq.
      * rewrite lookup_insert_ne by done. by apply Hdom.
Qed.

Lemma vm_add_edges_spec (known : gset string) (n : string)
    (deps : list string) (g : graph_t) :
  match vm.add_edges known n deps g with
  | Return g' => g' = add_edges_of g ((λ d, (n, d)) <$> deps)
                 ∧ ∀ d, d ∈ deps → d ∈ known
  | Raise e => ∃ d, d ∈ deps ∧ (d ∉ known)
               ∧ e = UnknownBytecodeDependency n d
  | OutOfFuel => False
  end.
Proof.
  revert g. induction deps as [|d deps IH]; intros g; simpl.
  - split; [done|]. by intros d ?%not_elem_of_nil.
  - destruct (decide (d ∈ known)) as [Hd|Hd].
    + specialize (IH (add_edge g n d)).
      destruct (vm.add_edges known n deps (add_edge g n d)) as [g'|e|].
      * destruct IH as [-> Hall]. split; [done|].
        intros d' [->|?]%elem_of_cons; [done|by apply Hall].
      * destruct IH as (d' & ? & ? & ->). exists d'.
        split_and!; [by right|done..].
      * done.
    + exists d. split_and!; [by left|done..].
Qed.

Lemma vm_add_steps_spec (known : gset string) (objs : list Step)
    (g : graph_t) :
  match vm.add_steps known objs g with
  | Return g' => g' = add_edges_of g (edges objs)
                 ∧ ∀ n d, (n, d) ∈ edges objs → d ∈ known
  | Raise e => ∃ n d, (n, d) ∈ edges objs ∧ (d ∉ known)
                      ∧ e = UnknownBytecodeDependency n d
  | OutOfFuel => False
  end.
Proof.
  revert g. induction objs as [|s objs IH]; intros g; simpl.
  - split; [done|]. by intros n d ?%not_elem_of_nil.
  - pose proof (vm_add_edges_spec known (name s) (depends_on s) g) as Hs.
    unfold edges. simpl. fold (edges objs).
    destruct (vm.add_edges known (name s) (depends_on s) g) as [g1|e|];
      simpl; [|..|done].
    + destruct Hs as [-> Hall]. specialize (IH (add_edges_of g
        ((λ d, (name s, d)) <$> depends_on s))).
      destruct (vm.add_steps known objs _) as [g'|e|]; [|..|done].
      * destruct IH as [-> Hall']. split.
        -- unfold add_edges_of. by rewrite foldl_app.
        -- intros n d [(d' & [= -> ->] & Hd)%list_elem_of_fmap|?]%elem_of_app;
             [by apply Hall|by eapply Hall'].
      * destruct IH as (n & d & ? & ? & ->). exists n, d.
        split_and!; [|done..]. apply elem_of_app. by right.
    + destruct Hs as (d & Hd & ? & ->). exists (name s), d.
      split_and!; [|done..]. apply elem_of_app. left.
      apply list_elem_of_fmap. eauto.
Qed.

Lemma edges_known (objs : list Step) (n d : string) :
  (n, d) ∈ edges objs → n ∈ (list_to_set (name <$> objs) : gset string).
Proof.
  intros (s & Hs & <- & _)%elem_of_edges. apply elem_of_list_to_set.
  apply list_elem_of_fmap. eauto.
Qed.

(** ** The scheduler of [ParallelVM] *)

Definition vm_on_error (bytecode : json) (n : string) : option string :=
  as_str (dict_get (vm.raw_of bytecode n) "on_error" JNull).

(** The step has an [on_error] handler: the field is a non-empty string. *)
Definition vm_has_handler (bytecode : json) (n : string) : bool :=
  match vm_on_error bytecode n with
  | Some h => bool_decide (h ≠ EmptyString)
  | None => false
  end.

Definition vm_finished (st : vm.state) : gset string :=
  vm.completed st ∪ vm.failed st.

(** The steps whose successors were released: those that succeeded and
    those whose failure a handler took. *)
Definition vm_released (bytecode : json) (st : vm.state) : gset string :=
  vm.completed st ∪ filter (λ n, vm_has_handler bytecode n = true) (vm.failed st).

Definition vm_edges (bytecode : json) : list (string * string) :=
  edges (vm.step_objs bytecode).

Record vm_inv (bytecode : json) (st : vm.state) : Prop := {
  vi_sched : sched_inv (vm_edges bytecode) (vm.steps_set bytecode)
               (vm_released bytecode st) (vm_finished st)
               (vm.running_futures st) (vm.indeg st) (vm.submitted st);
  vi_events : ∀ n, (n, Running) ∈ vm.events st → n ∈ vm.submitted st
}.

(** No abort so far: the flag is down and every failure had a handler. *)
Definition vm_live (bytecode : json) (st : vm.state) : Prop :=
  vm.cancelled st = false
  ∧ ∀ n, n ∈ vm.failed st → vm_has_handler bytecode n = true.

Lemma vm_live_released (bytecode : json) (st : vm.state) :
  vm_live bytecode st → vm_released bytecode st = vm_finished st.
Proof.
  intros [_ H]. unfold vm_released, vm_finished. apply set_eq. intros n.
  rewrite !elem_of_union, elem_of_filter. split; [tauto|].
  intros [?|?]; [by left|right]. split; [by apply H|done].
Qed.

Lemma vm_submit_all (st : vm.state) (l : list string) :
  foldl (λ st n, vm.submit n st) st l
  = vm.mkState (vm.completed st) (vm.failed st) (vm.running_futures st ++ l)
               (vm.cancelled st) (vm.indeg st) (vm.events st)
               (vm.notifications_log st) (vm.submitted st ++ l).
Proof.
  revert st. induction l as [|n l IH]; intros st; simpl.
  - rewrite !app_nil_r. by destruct st.
  - rewrite IH. simpl. by rewrite <- !app_assoc.
Qed.

Lemma vm_submit_ready_all (st : vm.state) (l : list string) :
  (∀ n, n ∈ l → n ∉ vm_finished st) →
  foldl vm.submit_ready st l
  = vm.mkState (vm.completed st) (vm.failed st) (vm.running_futures st ++ l)
               (vm.cancelled st) (vm.indeg st) (vm.events st)
               (vm.notifications_log st) (vm.submitted st ++ l).
Proof.
  revert st. induction l as [|n l IH]; intros st Hl; simpl.
  - rewrite !app_nil_r. by destruct st.
  - unfold vm.submit_ready at 2. rewrite decide_False.
    + rewrite IH; simpl; [by rewrite <- !app_assoc|].
      intros x Hx. apply Hl. by right.
    + intros H. apply (Hl n); [by left|]. unfold vm_finished. set_solver.
Qed.

Lemma vm_has_handler_cases (bytecode : json) (step : string) :
  (vm_has_handler bytecode step = true
   ∧ ∃ h, vm_on_error bytecode step = Some h ∧ h ≠ EmptyString)
  ∨ (vm_has_handler bytecode step = false
     ∧ (vm_on_error bytecode step = None
        ∨ vm_on_error bytecode step = Some EmptyString)).
Proof.
  unfold vm_has_handler. destruct (vm_on_error bytecode step) as [h|].
  - destruct (decide (h = EmptyString)) as [->|Hne].
    + right. split; [done|by right].
    + left. split; [by apply bool_decide_eq_true|eauto].
  - right. split; [done|by left].
Qed.

Definition adj_correct (E : list (string * string))
    (adj : gmap string (list string)) : Prop :=
  ∀ d, default [] (adj !! d) = dependents E d.

Lemma vm_execute_step_events (env : vm.environment) (bytecode : json)
    (cancelled : bool) (step : string) :
  ∃ (ok : bool) (calls : nat),
    vm._execute_step env bytecode cancelled step
    = (ok, calls, [(step, Running); (step, if ok then Succeeded else Failed)]).
Proof.
  unfold vm._execute_step.
  match goal with
  | |- context [attempt_loop ?a ?b ?c ?d] =>
      destruct (attempt_loop a b c d) as [ok calls]
  end.
  by exists ok, calls.
Qed.

(** The state after the successors of [step] are released and submitted. *)
Lemma vm_release_successors_spec (bytecode : json)
    (adj : gmap string (list string)) (step : string)
    (R finished : gset string) (running submitted : list string)
    (s1 : vm.state) :
  adj_correct (vm_edges bytecode) adj →
  sched_inv (vm_edges bytecode) (vm.steps_set bytecode) R finished running
            (vm.indeg s1) submitted →
  step ∈ running →
  vm.running_futures s1 = remove_first step running →
  vm.submitted s1 = submitted →
  vm_finished s1 = {[step]} ∪ finished →
  ∃ indeg' nr,
    release adj step (vm.indeg s1) = (indeg', nr)
    ∧ vm.release_successors adj step s1
      = vm.mkState (vm.completed s1) (vm.failed s1)
                   (remove_first step running ++ sort nr) (vm.cancelled s1)
                   indeg' (vm.events s1 ++ ((λ n, (n, Queued)) <$> nr))
                   (vm.notifications_log s1) (submitted ++ sort nr)
    ∧ sched_inv (vm_edges bytecode) (vm.steps_set bytecode)
                ({[step]} ∪ R) ({[step]} ∪ finished)
                (remove_first step running ++ sort nr) indeg'
                (submitted ++ sort nr).
Proof.
  intros Hadj Hinv Hstep Hrun Hsub Hfin.
  destruct (release adj step (vm.indeg s1)) as [indeg' nr] eqn:Hrel.
  exists indeg', nr. split; [done|].
  destruct (sched_inv_release (vm_edges bytecode) (vm.steps_set bytecode)
              (edges_known _) adj R finished running (vm.indeg s1) indeg'
              submitted nr (sort nr) step Hinv Hstep (Hadj step) Hrel)
    as [Hinv' Hfresh]; [apply merge_sort_Permutation|].
  split; [|done].
  unfold vm.release_successors. rewrite Hrel.
  rewrite vm_submit_ready_all; simpl; [by rewrite Hrun, Hsub|].
  intros n Hn. unfold sort in Hn. rewrite merge_sort_Permutation in Hn.
  intros Hf. apply (Hfresh n Hn). by rewrite <- Hfin.
Qed.

Lemma elem_of_queued (nr : list string) (n : string) :
  (n, Running) ∉ (λ n, (n, Queued)) <$> nr.
Proof. by intros (? & [=] & _)%list_elem_of_fmap. Qed.

(** The state [execute] leaves behind after an abort on [a]. *)
Definition vm_aborted (bytecode : json) (a : string) (st : vm.state) : Prop :=
  vm_inv bytecode st ∧ vm.running_futures st = []
  ∧ vm.cancelled st = true ∧ a ∈ vm.failed st ∧ (a ∉ vm.completed st)
  ∧ vm_has_handler bytecode a = false
  ∧ ∀ n, n ∈ vm.failed st → vm_has_handler bytecode n = false → n = a.

Lemma vm_inv_intro (bytecode : json) (st : vm.state) (R F : gset string) :
  vm_released bytecode st = R → vm_finished st = F →
  sched_inv (vm_edges bytecode) (vm.steps_set bytecode) R F
            (vm.running_futures st) (vm.indeg st) (vm.submitted st) →
  (∀ n, (n, Running) ∈ vm.events st → n ∈ vm.submitted st) →
  vm_inv bytecode st.
Proof. intros <- <- ??. by constructor. Qed.

Lemma vm_handle_completion_spec (env : vm.environment) (bytecode : json)
    (adj : gmap string (list string)) (tick : nat) (step : string)
    (st : vm.state) :
  adj_correct (vm_edges bytecode) adj →
  vm_inv bytecode st → vm_live bytecode st → step ∈ vm.running_futures st →
  match vm.handle_completion env bytecode adj tick step st with
  | inr st' =>
      vm_inv bytecode st' ∧ vm_live bytecode st'
      ∧ vm_finished st' = {[step]} ∪ vm_finished st
      ∧ ∀ n, n ∈ vm.running_futures st → n ≠ step → n ∈ vm.running_futures st'
  | inl st' => vm_aborted bytecode step st'
  end.
Proof.
  intros Hadj [Hsched Hev] Hlive Hstep.
  pose proof (vm_live_released bytecode st Hlive) as HR.
  destruct Hlive as [Hcan Hfailed]. rewrite HR in Hsched.
  destruct (si_running_sub _ _ _ _ _ _ _ Hsched step Hstep) as [Hsub Hnf].
  destruct (remove_first_spec step (vm.running_futures st)
              (si_running _ _ _ _ _ _ _ Hsched)) as [_ Hrf].
  unfold vm.handle_completion. cbn [vm.cancelled].
  destruct (vm_execute_step_events env bytecode (vm.cancelled st) step)
    as (ok & calls & ->).
  cbn [vm.completed vm.failed vm.running_futures vm.cancelled vm.indeg
       vm.events vm.notifications_log vm.submitted].
  assert (∀ n x, (n, Running) ∈ vm.events st ++ [(step, Running); (step, x)] →
                 n ∈ vm.submitted st) as Hev'.
  { intros n x [?|Hn]%elem_of_app; [by apply Hev|].
    apply elem_of_cons in Hn as [[= ->]|Hn]; [done|].
    apply list_elem_of_singleton in Hn. injection Hn as -> _. done. }
  destruct ok.
  - (* success *)
    match goal with |- context [vm.release_successors adj step ?s] =>
      destruct (vm_release_successors_spec bytecode adj step (vm_finished st)
                  (vm_finished st) (vm.running_futures st) (vm.submitted st)
                  s Hadj Hsched Hstep eq_refl eq_refl)
        as (indeg' & nr & Hrel & -> & Hinv')
    end.
    { unfold vm_finished. simpl. set_solver. }
    split_and!.
    + apply (vm_inv_intro _ _ ({[step]} ∪ vm_finished st)
                          ({[step]} ∪ vm_finished st)); simpl.
      * rewrite vm_live_released; [unfold vm_finished; simpl; set_solver|].
        split; [done|]. simpl. done.
      * unfold vm_finished. simpl. set_solver.
      * done.
      * intros n [Hn|Hn]%elem_of_app; [|by apply elem_of_queued in Hn].
        apply elem_of_app. left. by eapply Hev'.
    + split; simpl; done.
    + unfold vm_finished. simpl. set_solver.
    + simpl. intros n Hn Hne. apply elem_of_app. left. by apply Hrf.
  - (* failure *)
    fold (vm_on_error bytecode step).
    destruct (vm_has_handler_cases bytecode step)
      as [[Hh (h & -> & Hne)]|[Hh Hoe]].
    + rewrite decide_False by done.
      match goal with |- context [vm.release_successors adj step ?s] =>
        destruct (vm_release_successors_spec bytecode adj step (vm_finished st)
                    (vm_finished st) (vm.running_futures st) (vm.submitted st)
                    s Hadj Hsched Hstep eq_refl eq_refl)
          as (indeg' & nr & Hrel & -> & Hinv')
      end.
      { unfold vm_finished. simpl. set_solver. }
      assert (∀ n, n ∈ {[step]} ∪ vm.failed st →
                   vm_has_handler bytecode n = true) as Hfailed'.
      { intros n [->%elem_of_singleton|?]%elem_of_union; [done|].
        by apply Hfailed. }
      split_and!.
      * apply (vm_inv_intro _ _ ({[step]} ∪ vm_finished st)
                            ({[step]} ∪ vm_finished st)); simpl.
        -- rewrite vm_live_released;
             [unfold vm_finished; simpl; set_solver|].
           split; simpl; done.
        -- unfold vm_finished. simpl. set_solver.
        -- done.
        -- intros n [Hn|Hn]%elem_of_app; [|by apply elem_of_queued in Hn].
           apply elem_of_app. left. by eapply Hev'.
      * split; simpl; done.
      * unfold vm_finished. simpl. set_solver.
      * simpl. intros n Hn Hn'. apply elem_of_app. left. by apply Hrf.
    + assert (vm_inv bytecode
                (vm.mkState (vm.completed st) ({[step]} ∪ vm.failed st) [] true
                   (vm.indeg st)
                   (vm.events st ++ [(step, Running); (step, Failed)])
                   (vm.notifications_log st) (vm.submitted st))) as Hinv'.
      { apply (vm_inv_intro _ _ (vm_finished st) ({[step]} ∪ vm_finished st));
          simpl; [| |eapply sched_inv_abort, sched_inv_fail;
                      [apply edges_known|done|done]
                  |intros n Hn; by eapply Hev'].
        - unfold vm_released, vm_finished. simpl. apply set_eq. intros n.
          rewrite !elem_of_union, elem_of_filter, elem_of_union,
            elem_of_singleton.
          split.
          + intros [?|[Hn [->|?]]]; [by left|congruence|by right].
          + intros [?|?]; [by left|right]. split; [by apply Hfailed|by right].
        - unfold vm_finished. simpl. set_solver. }
      assert (∀ n, n ∈ {[step]} ∪ vm.failed st →
                   vm_has_handler bytecode n = false → n = step) as Honly.
      { intros n [->%elem_of_singleton|Hn]%elem_of_union Hf; [done|].
        apply Hfailed in Hn. congruence. }
      assert (step ∉ vm.completed st) as Hnc
        by (unfold vm_finished in Hnf; set_solver).
      destruct Hoe as [->| ->]; [|rewrite decide_True by done];
        (split_and!; simpl; [done|done|done|set_solver|done|done|done]).
Qed.

Lemma delete_NoDup_spec (l : list string) (i : nat) (x : string) :
  NoDup l → l !! i = Some x →
  NoDup (delete i l) ∧ length l = S (length (delete i l))
  ∧ ∀ y, y ∈ delete i l ↔ y ∈ l ∧ y ≠ x.
Proof.
  intros Hnd Hi. rewrite delete_take_drop.
  pose proof (take_drop_middle l i x Hi) as Hl.
  remember (take i l) as t eqn:Ht0. remember (drop (S i) l) as d eqn:Hd0.
  clear Ht0 Hd0 Hi. subst l.
  apply NoDup_app in Hnd as (Ht & Hdisj & [Hx Hd]%NoDup_cons).
  split_and!.
  - apply NoDup_app. split_and!; [done| |done].
    intros y Hy Hy'. apply (Hdisj y Hy). by right.
  - rewrite !length_app. simpl. lia.
  - intros y. rewrite !elem_of_app, elem_of_cons. split.
    + intros [Hy|Hy].
      * split; [by left|]. intros ->. apply (Hdisj x Hy). by left.
      * split; [by right; right|]. by intros ->.
    + intros [[?|[?|?]] ?]; [by left|done|by right].
Qed.

Lemma size_add_fresh (x : string) (X : gset string) :
  x ∉ X → size ({[x]} ∪ X) = S (size X).
Proof.
  intros Hx. rewrite size_union by set_solver. by rewrite size_singleton.
Qed.

Lemma vm_for_done_spec (env : vm.environment) (bytecode : json)
    (adj : gmap string (list string)) :
  adj_correct (vm_edges bytecode) adj →
  ∀ n tick snapshot st,
    vm_inv bytecode st → vm_live bytecode st → NoDup snapshot →
    (∀ x, x ∈ snapshot → x ∈ vm.running_futures st) →
    n = length snapshot →
    match vm.for_done env bytecode adj n tick snapshot st with
    | (None, st', _) =>
        vm_inv bytecode st' ∧ vm_live bytecode st'
        ∧ size (vm_finished st') = (size (vm_finished st) + n)%nat
    | (Some x, st', _) => ∃ a, x = vm.Aborted a ∧ vm_aborted bytecode a st'
    end.
Proof.
  intros Hadj. induction n as [|n IH]; intros tick snapshot st Hinv Hlive Hnd
    Hsnap Hlen; simpl.
  - split_and!; [done..|lia].
  - set (i := (vm.as_completed env tick snapshot `mod` length snapshot)%nat).
    assert (i < length snapshot)%nat as Hi
      by (apply Nat.mod_upper_bound; lia).
    destruct (lookup_lt_is_Some_2 snapshot i Hi) as [step Hstep].
    rewrite Hstep.
    assert (step ∈ vm.running_futures st) as Hrun
      by (apply Hsnap; by eapply list_elem_of_lookup_2).
    pose proof (vm_handle_completion_spec env bytecode adj tick step st
                  Hadj Hinv Hlive Hrun) as Hh.
    destruct (vm.handle_completion env bytecode adj tick step st)
      as [st'|st'].
    + exists step. split; [done|]. done.
    + destruct Hh as (Hinv' & Hlive' & Hfin & Hkeep).
      destruct (delete_NoDup_spec snapshot i step Hnd Hstep)
        as (Hnd' & Hlen' & Hin').
      specialize (IH (S tick) (delete i snapshot) st' Hinv' Hlive' Hnd').
      destruct (vm.for_done env bytecode adj n (S tick) (delete i snapshot) st')
        as [[[x|] st''] tick''].
      * apply IH; [|lia]. intros x' [Hx' Hne]%Hin'. apply Hkeep; [|done].
        by apply Hsnap.
      * destruct IH as (? & ? & Hsize); [|lia|].
        { intros x' [Hx' Hne]%Hin'. apply Hkeep; [|done]. by apply Hsnap. }
        split_and!; [done..|]. rewrite Hsize, Hfin.
        rewrite size_add_fresh; [lia|].
        apply (si_running_sub _ _ _ _ _ _ _ (vi_sched _ _ Hinv) step Hrun).
Qed.

(** What [execute] guarantees at each of the exits of its main loop. *)
Definition vm_outcome (env : vm.environment) (bytecode : json) (x : vm.exit)
    (st : vm.state) : Prop :=
  vm_inv bytecode st ∧ vm.running_futures st = []
  ∧ match x with
    | vm.Aborted a => vm_aborted bytecode a st
    | vm.CancelDetected =>
        vm_live bytecode st
        ∧ ∃ ev tick, vm.cancel_event env = Some ev
                     ∧ vm.is_set_in_scheduler ev tick = true
    | vm.FinishedSuccessfully => vm_live bytecode st ∧ vm.failed st = ∅
    | vm.FinishedWithFailures => vm_live bytecode st ∧ vm.failed st ≠ ∅
    | vm.BadGraph _ | vm.NoReadySteps => False
    end.

Lemma vm_finished_bound (bytecode : json) (st : vm.state) :
  vm_inv bytecode st →
  (size (vm_finished st) ≤ size (vm.steps_set bytecode))%nat
  ∧ (vm.running_futures st ≠ [] →
     (size (vm_finished st) < size (vm.steps_set bytecode))%nat).
Proof.
  intros [Hs _].
  assert (vm_finished st ⊆ vm.steps_set bytecode) as Hsub.
  { intros n Hn. eapply si_known; [done|]. by eapply si_finished_sub. }
  split; [by apply subseteq_size|].
  intros Hne. destruct (vm.running_futures st) as [|n l] eqn:Hrun; [done|].
  destruct (si_running_sub _ _ _ _ _ _ _ Hs n) as [Hn Hnf]; [by left|].
  apply subset_size. split; [done|]. intros Hsup. apply Hnf, Hsup.
  by eapply si_known.
Qed.

Lemma vm_while_running_done (env : vm.environment) (bytecode : json)
    (adj : gmap string (list string)) (fuel tick : nat) (st : vm.state) :
  vm.running_futures st = [] →
  vm.while_running env bytecode adj fuel tick st
  = Some (if decide (vm.failed st = ∅) then vm.FinishedSuccessfully
          else vm.FinishedWithFailures, st).
Proof. intros H. destruct fuel; simpl; by rewrite H. Qed.

Lemma vm_while_running_step (env : vm.environment) (bytecode : json)
    (adj : gmap string (list string)) (fuel tick : nat) (st : vm.state) :
  vm.running_futures st ≠ [] →
  vm.while_running env bytecode adj (S fuel) tick st
  = match vm.for_done env bytecode adj (length (vm.running_futures st)) tick
            (vm.running_futures st) st with
    | (Some x, st', _) => Some (x, st')
    | (None, st', tick') =>
        if vm.cancel_requested env tick' st' then
          Some (vm.CancelDetected,
                vm.mkState (vm.completed st') (vm.failed st') []
                           (vm.cancelled st') (vm.indeg st') (vm.events st')
                           (vm.notifications_log st') (vm.submitted st'))
        else vm.while_running env bytecode adj fuel tick' st'
    end.
Proof.
  intros H. cbn [vm.while_running].
  destruct (vm.running_futures st) as [|n l]; [done|]. reflexivity.
Qed.

Lemma vm_while_running_spec (env : vm.environment) (bytecode : json)
    (adj : gmap string (list string)) :
  adj_correct (vm_edges bytecode) adj →
  ∀ fuel tick st,
    vm_inv bytecode st → vm_live bytecode st →
    (size (vm.steps_set bytecode) ≤ size (vm_finished st) + fuel)%nat →
    ∃ x st', vm.while_running env bytecode adj fuel tick st = Some (x, st')
             ∧ vm_outcome env bytecode x st'.
Proof.
  intros Hadj. induction fuel as [|fuel IH]; intros tick st Hinv Hlive Hfuel;
    destruct (vm_finished_bound bytecode st Hinv) as [Hle Hlt];
    (destruct (decide (vm.running_futures st = [])) as [Hrun|Hrun];
     [rewrite vm_while_running_done by done; eexists _, _; split; [done|];
      destruct (decide (vm.failed st = ∅)); (split_and!; done)|]).
  - specialize (Hlt Hrun). lia.
  - rewrite vm_while_running_step by done.
    pose proof (vm_for_done_spec env bytecode adj Hadj
                  (length (vm.running_futures st)) tick
                  (vm.running_futures st) st Hinv Hlive
                  (si_running _ _ _ _ _ _ _ (vi_sched _ _ Hinv))
                  (λ x H, H) eq_refl) as Hfor.
    destruct (vm.for_done env bytecode adj (length (vm.running_futures st))
                tick (vm.running_futures st) st) as [[[x|] st'] tick'].
    + destruct Hfor as (a & -> & Hab). eexists _, _. split; [done|].
      split_and!; [apply Hab..|done].
    + destruct Hfor as (Hinv' & Hlive' & Hsize).
      destruct (vm.cancel_requested env tick' st') eqn:Hcr.
      * eexists _, _. split; [done|]. destruct Hinv' as [Hs He].
        split_and!; [|done|done|].
        -- constructor; [|done]. by eapply sched_inv_abort.
        -- unfold vm.cancel_requested in Hcr. destruct Hlive' as [Hc _].
           rewrite Hc, orb_false_r in Hcr.
           destruct (vm.cancel_event env) as [ev|]; [eauto|done].
      * apply IH; [done..|]. rewrite Hsize.
        destruct (vm.running_futures st); [done|]. simpl. lia.
Qed.

Lemma vm_build_graph_spec (bytecode : json) :
  match vm._build_graph bytecode with
  | Return (adj, indeg) =>
      adj_correct (vm_edges bytecode) adj
      ∧ (∀ n, counter indeg n = Z.of_nat (pending (vm_edges bytecode) ∅ n))
      ∧ (∀ n, n ∈ vm.steps_set bytecode → is_Some (indeg !! n))
  | Raise e =>
      ∃ n d, depends (vm.step_objs bytecode) n d
             ∧ (d ∉ vm.steps_set bytecode)
             ∧ e = UnknownBytecodeDependency n d
  | OutOfFuel => False
  end.
Proof.
  unfold vm._build_graph.
  pose proof (vm_add_steps_spec (vm.steps_set bytecode)
                (vm.step_objs bytecode)
                (gset_to_gmap [] (vm.steps_set bytecode),
                 gset_to_gmap 0 (vm.steps_set bytecode))) as H.
  destruct (vm.add_steps _ _ _) as [[adj indeg]|e|]; [|..|done].
  - destruct H as [Hg _].
    destruct (add_edges_of_spec (vm.steps_set bytecode)
                (edges (vm.step_objs bytecode))) as (Hadj & Hind & Hdom).
    unfold empty_graph in *. rewrite <- Hg in Hadj, Hind, Hdom. simpl in *.
    split_and!; done.
  - destruct H as (n & d & Hin%elem_of_edges & ? & ->). by exists n, d.
Qed.

Lemma vm_execute_spec (env : vm.environment) (bytecode : json) :
  ∃ x st,
    vm.execute env bytecode = Some (x, st)
    ∧ match x with
      | vm.BadGraph e =>
          st = vm.initial_state ∅
          ∧ ∃ n d, depends (vm.step_objs bytecode) n d
                   ∧ (d ∉ vm.steps_set bytecode)
                   ∧ e = UnknownBytecodeDependency n d
      | vm.NoReadySteps =>
          vm.steps_set bytecode ≠ ∅ ∧ vm.submitted st = []
          ∧ vm.failed st = ∅ ∧ vm.cancelled st = false
      | _ => vm_outcome env bytecode x st
      end.
Proof.
  unfold vm.execute. pose proof (vm_build_graph_spec bytecode) as Hg.
  destruct (vm._build_graph bytecode) as [[adj indeg]|e|];
    [|eexists _, _; split; [done|]; by split|done].
  destruct Hg as (Hadj & Hind & Hdom).
  set (ready := filter (λ n, indeg !! n = Some 0)
                       (elements (vm.steps_set bytecode))).
  destruct (bool_decide (ready = [] ∧ vm.steps_set bytecode ≠ ∅)) eqn:Hnr.
  - apply bool_decide_eq_true in Hnr as [_ Hne]. eexists _, _.
    split; [done|]. by simpl.
  - rewrite vm_submit_all.
    set (s0 := vm.mkState _ _ _ _ _ _ _ _).
    assert (s0 = vm.mkState ∅ ∅ (sort ready) false indeg
                   ((λ n, (n, Queued)) <$> ready) EmptyString (sort ready))
      as -> by reflexivity.
    assert (sort ready ≡ₚ ready) as Hperm by apply merge_sort_Permutation.
    assert (NoDup (sort ready)) as Hnd.
    { rewrite Hperm. apply NoDup_filter, NoDup_elements. }
    assert (∀ n, n ∈ sort ready →
                 n ∈ vm.steps_set bytecode
                 ∧ pending (vm_edges bytecode) ∅ n = 0%nat) as Hready.
    { intros n. rewrite Hperm. unfold ready.
      intros [Hz Hn]%list_elem_of_filter. apply elem_of_elements in Hn.
      split; [done|]. specialize (Hind n). unfold counter in Hind.
      rewrite Hz in Hind. simpl in Hind. lia. }
    match goal with
    | |- context [vm.while_running env bytecode adj ?f ?t ?s] =>
        destruct (vm_while_running_spec env bytecode adj Hadj f t s)
          as (x & st' & Hrun & Hout)
    end.
    + apply (vm_inv_intro _ _ ∅ ∅); simpl.
      * unfold vm_released. simpl. set_solver.
      * unfold vm_finished. simpl. set_solver.
      * constructor.
        -- done.
        -- done.
        -- intros n Hn. by apply Hready.
        -- intros n Hn. by apply Hready.
        -- done.
        -- intros n Hn. split; [done|]. apply not_elem_of_empty.
        -- intros n ?%not_elem_of_empty. done.
        -- done.
      * intros n Hn. by apply elem_of_queued in Hn.
    + split; simpl; [done|]. by intros n ?%not_elem_of_empty.
    + unfold vm_finished. simpl. lia.
    + exists x, st'. split; [done|].
      destruct x; try done; by destruct Hout as (_ & _ & ?).
Qed.

(** ** The scheduler of [ParallelRuntime] *)

Definition rt_deps (ir : list json) (k : string) : list string :=
  as_names (dict_get (runtime_parallel.instr_of_name ir k) "depends_on"
                     (JList [])).

(** The steps as the graph builder of the runtime sees them: one per key of
    [name_to_instr], with the dependencies of the instruction kept there. *)
Definition rt_objs (ir : list json) : list Step :=
  (λ k, mkStep k None None 0 (rt_deps ir k) None)
    <$> runtime_parallel.instr_keys ir.

Definition rt_edges (ir : list json) : list (string * string) :=
  edges (rt_objs ir).

Definition rt_has_handler (ir : list json) (n : string) : bool :=
  match as_str (dict_get (runtime_parallel.instr_of_name ir n) "on_error"
                         JNull) with
  | Some h => bool_decide (h ≠ EmptyString)
  | None => false
  end.

Definition rt_finished (st : runtime_parallel.state) : gset string :=
  runtime_parallel.completed st ∪ runtime_parallel.failed st.

Definition rt_inv (ir : list json) (st : runtime_parallel.state) : Prop :=
  sched_inv (rt_edges ir) (runtime_parallel.steps ir)
            (runtime_parallel.completed st) (rt_finished st)
            (runtime_parallel.running_futures st) (runtime_parallel.indeg st)
            (runtime_parallel.submitted st).

Definition rt_live (ir : list json) (st : runtime_parallel.state) : Prop :=
  runtime_parallel.cancelled st = false
  ∧ ∀ n, n ∈ runtime_parallel.failed st → rt_has_handler ir n = true.

Definition rt_aborted (ir : list json) (a : string)
    (st : runtime_parallel.state) : Prop :=
  rt_inv ir st ∧ runtime_parallel.running_futures st = []
  ∧ runtime_parallel.cancelled st = true ∧ a ∈ runtime_parallel.failed st
  ∧ (a ∉ runtime_parallel.completed st)
  ∧ rt_has_handler ir a = false
  ∧ ∀ n, n ∈ runtime_parallel.failed st → rt_has_handler ir n = false → n = a.

Lemma name_to_instr_snoc (ir : list json) (instr : json) :
  runtime_parallel.name_to_instr (ir ++ [instr])
  = <[runtime_parallel.instr_name instr := instr]>
      (runtime_parallel.name_to_instr ir).
Proof. unfold runtime_parallel.name_to_instr. by rewrite foldl_app. Qed.

Lemma elem_of_rt_steps (ir : list json) (n : string) :
  n ∈ runtime_parallel.steps ir ↔ n ∈ runtime_parallel.instr_name <$> ir.
Proof.
  unfold runtime_parallel.steps.
  induction ir as [|instr ir IH] using rev_ind.
  - unfold runtime_parallel.name_to_instr. simpl. rewrite dom_empty_L.
    set_solver.
  - rewrite name_to_instr_snoc, dom_insert_L, fmap_app, elem_of_app,
      elem_of_union, IH, elem_of_singleton. simpl.
    rewrite list_elem_of_singleton. naive_solver.
Qed.

Lemma elem_of_instr_keys (ir : list json) (n : string) :
  n ∈ runtime_parallel.instr_keys ir ↔ n ∈ runtime_parallel.steps ir.
Proof.
  rewrite elem_of_rt_steps. unfold runtime_parallel.instr_keys.
  destruct (first_occurrences_spec ∅ (runtime_parallel.instr_name <$> ir))
    as [_ ->]. set_solver.
Qed.

Lemma rt_edges_known (ir : list json) (n d : string) :
  (n, d) ∈ rt_edges ir → n ∈ runtime_parallel.steps ir.
Proof.
  intros (s & Hs & <- & _)%elem_of_edges.
  apply list_elem_of_fmap in Hs as (k & -> & Hk). simpl.
  by apply elem_of_instr_keys.
Qed.

Lemma add_edges_of_app (g : graph_t) (E1 E2 : list (string * string)) :
  add_edges_of g (E1 ++ E2) = add_edges_of (add_edges_of g E1) E2.
Proof. unfold add_edges_of. by rewrite foldl_app. Qed.

Lemma add_edges_of_deps (g : graph_t) (n : string) (deps : list string) :
  foldl (λ g dep, add_edge g n dep) g deps
  = add_edges_of g ((λ d, (n, d)) <$> deps).
Proof.
  revert g. induction deps as [|d deps IH]; intros g; simpl; [done|].
  by rewrite IH.
Qed.

Lemma rt_build_graph_edges (ir : list json) :
  runtime_parallel.build_graph ir
  = add_edges_of (empty_graph (runtime_parallel.steps ir)) (rt_edges ir).
Proof.
  unfold runtime_parallel.build_graph, rt_edges, rt_objs, empty_graph.
  generalize (gset_to_gmap ([] : list string) (runtime_parallel.steps ir),
              gset_to_gmap 0 (runtime_parallel.steps ir)).
  induction (runtime_parallel.instr_keys ir) as [|k ks IH]; intros g;
    simpl; [done|].
  rewrite IH. unfold edges. simpl. rewrite add_edges_of_app.
  f_equal. apply add_edges_of_deps.
Qed.

Lemma rt_build_graph_spec (ir : list json) :
  let '(adj, indeg) := runtime_parallel.build_graph ir in
  adj_correct (rt_edges ir) adj
  ∧ (∀ n, counter indeg n = Z.of_nat (pending (rt_edges ir) ∅ n)).
Proof.
  rewrite rt_build_graph_edges.
  destruct (add_edges_of_spec (runtime_parallel.steps ir) (rt_edges ir))
    as (Hadj & Hind & _).
  destruct (add_edges_of _ _) as [adj indeg]. done.
Qed.

Lemma rt_submit_all (st : runtime_parallel.state) (l : list string) :
  foldl (λ st n, runtime_parallel.submit n st) st l
  = runtime_parallel.mkState
      (runtime_parallel.completed st) (runtime_parallel.failed st)
      (runtime_parallel.running_futures st ++ l)
      (runtime_parallel.cancelled st) (runtime_parallel.indeg st)
      (runtime_parallel.submitted st ++ l).
Proof.
  revert st. induction l as [|n l IH]; intros st; simpl.
  - rewrite !app_nil_r. by destruct st.
  - rewrite IH. simpl. by rewrite <- !app_assoc.
Qed.

Lemma rt_submit_ready_all (st : runtime_parallel.state) (l : list string) :
  (∀ n, n ∈ l → n ∉ rt_finished st) →
  foldl runtime_parallel.submit_ready st l
  = runtime_parallel.mkState
      (runtime_parallel.completed st) (runtime_parallel.failed st)
      (runtime_parallel.running_futures st ++ l)
      (runtime_parallel.cancelled st) (runtime_parallel.indeg st)
      (runtime_parallel.submitted st ++ l).
Proof.
  revert st. induction l as [|n l IH]; intros st Hl; simpl.
  - rewrite !app_nil_r. by destruct st.
  - unfold runtime_parallel.submit_ready at 2. rewrite decide_False.
    + rewrite IH; simpl; [by rewrite <- !app_assoc|].
      intros x Hx. apply Hl. by right.
    + intros H. apply (Hl n); [by left|]. unfold rt_finished. set_solver.
Qed.

Lemma rt_handle_completion_spec (env : runtime_parallel.environment)
    (ir : list json) (adj : gmap string (list string)) (step : string)
    (st : runtime_parallel.state) :
  adj_correct (rt_edges ir) adj →
  rt_inv ir st → rt_live ir st → step ∈ runtime_parallel.running_futures st →
  match runtime_parallel.handle_completion env ir adj step st with
  | inr st' =>
      rt_inv ir st' ∧ rt_live ir st'
      ∧ rt_finished st' = {[step]} ∪ rt_finished st
      ∧ ∀ n, n ∈ runtime_parallel.running_futures st → n ≠ step →
             n ∈ runtime_parallel.running_futures st'
  | inl st' => rt_aborted ir step st'
  end.
Proof.
  intros Hadj Hinv [Hcan Hfailed] Hstep. unfold rt_inv in Hinv.
  destruct (si_running_sub _ _ _ _ _ _ _ Hinv step Hstep) as [Hsub Hnf].
  destruct (remove_first_spec step (runtime_parallel.running_futures st)
              (si_running _ _ _ _ _ _ _ Hinv)) as [_ Hrf].
  pose proof (sched_inv_fail _ _ (rt_edges_known ir) _ _ _ _ _ step Hinv Hstep)
    as Hfail.
  unfold runtime_parallel.handle_completion.
  cbn [runtime_parallel.cancelled].
  destruct (runtime_parallel._execute_step env ir
              (runtime_parallel.cancelled st) step) as [[|] calls];
    cbn [runtime_parallel.completed runtime_parallel.failed
         runtime_parallel.running_futures runtime_parallel.cancelled
         runtime_parallel.indeg runtime_parallel.submitted].
  - (* success *)
    unfold runtime_parallel.release_successors.
    cbn [runtime_parallel.completed runtime_parallel.failed
         runtime_parallel.running_futures runtime_parallel.cancelled
         runtime_parallel.indeg runtime_parallel.submitted].
    destruct (release adj step (runtime_parallel.indeg st))
      as [indeg' nr] eqn:Hrel.
    destruct (sched_inv_release (rt_edges ir) (runtime_parallel.steps ir)
                (rt_edges_known ir) adj _ _ _ _ indeg' _ nr nr step
                Hinv Hstep (Hadj step) Hrel) as [Hinv' Hfresh]; [done|].
    rewrite rt_submit_ready_all.
    + cbn [runtime_parallel.completed runtime_parallel.failed
           runtime_parallel.running_futures runtime_parallel.cancelled
           runtime_parallel.indeg runtime_parallel.submitted].
      split_and!.
      * unfold rt_inv, rt_finished; simpl.
        replace ({[step]} ∪ runtime_parallel.completed st
                 ∪ runtime_parallel.failed st)
          with ({[step]} ∪ rt_finished st)
          by (unfold rt_finished; set_solver). done.
      * split; simpl; done.
      * unfold rt_finished; simpl. set_solver.
      * simpl. intros n Hn Hne. apply elem_of_app. left. by apply Hrf.
    + intros n Hn Hf. apply (Hfresh n Hn). unfold rt_finished in *.
      simpl in Hf. set_solver.
  - (* failure *)
    assert (∀ F, rt_finished
                   (runtime_parallel.mkState (runtime_parallel.completed st)
                      ({[step]} ∪ runtime_parallel.failed st) F
                      (runtime_parallel.cancelled st)
                      (runtime_parallel.indeg st)
                      (runtime_parallel.submitted st))
                 = {[step]} ∪ rt_finished st) as Hfin
      by (intros F; unfold rt_finished; simpl; set_solver).
    assert (rt_has_handler ir step = false →
            rt_aborted ir step
              (runtime_parallel.mkState (runtime_parallel.completed st)
                 ({[step]} ∪ runtime_parallel.failed st) [] true
                 (runtime_parallel.indeg st) (runtime_parallel.submitted st)))
      as Habort.
    { intros Hh. split_and!; simpl;
        [|done|done|set_solver|unfold rt_finished in Hnf; set_solver|done|].
      - unfold rt_inv; simpl.
        replace (rt_finished _) with ({[step]} ∪ rt_finished st)
          by (unfold rt_finished; simpl; set_solver).
        by eapply sched_inv_abort.
      - intros n [->%elem_of_singleton|Hn]%elem_of_union Hf; [done|].
        apply Hfailed in Hn. congruence. }
    unfold rt_has_handler in Habort.
    destruct (as_str (dict_get (runtime_parallel.instr_of_name ir step)
                               "on_error" JNull)) as [h|] eqn:Hoe.
    + destruct (decide (h = EmptyString)) as [->|Hne].
      * by apply Habort.
      * split_and!.
        -- unfold rt_inv. rewrite Hfin. done.
        -- split; simpl; [done|].
           intros n [->%elem_of_singleton|?]%elem_of_union; [|by apply Hfailed].
           unfold rt_has_handler. rewrite Hoe. by apply bool_decide_eq_true.
        -- apply Hfin.
        -- simpl. intros n Hn Hn'. by apply Hrf.
    + by apply Habort.
Qed.

Lemma rt_for_done_spec (env : runtime_parallel.environment) (ir : list json)
    (adj : gmap string (list string)) :
  adj_correct (rt_edges ir) adj →
  ∀ n tick snapshot st,
    rt_inv ir st → rt_live ir st → NoDup snapshot →
    (∀ x, x ∈ snapshot → x ∈ runtime_parallel.running_futures st) →
    n = length snapshot →
    match runtime_parallel.for_done env ir adj n tick snapshot st with
    | (None, st', _) =>
        rt_inv ir st' ∧ rt_live ir st'
        ∧ size (rt_finished st') = (size (rt_finished st) + n)%nat
    | (Some x, st', _) =>
        ∃ a, x = runtime_parallel.Aborted a ∧ rt_aborted ir a st'
    end.
Proof.
  intros Hadj. induction n as [|n IH]; intros tick snapshot st Hinv Hlive Hnd
    Hsnap Hlen; simpl.
  - split_and!; [done..|lia].
  - set (i := (runtime_parallel.as_completed env tick snapshot
               `mod` length snapshot)%nat).
    assert (i < length snapshot)%nat as Hi
      by (apply Nat.mod_upper_bound; lia).
    destruct (lookup_lt_is_Some_2 snapshot i Hi) as [step Hstep].
    rewrite Hstep.
    assert (step ∈ runtime_parallel.running_futures st) as Hrun
      by (apply Hsnap; by eapply list_elem_of_lookup_2).
    pose proof (rt_handle_completion_spec env ir adj step st
                  Hadj Hinv Hlive Hrun) as Hh.
    destruct (runtime_parallel.handle_completion env ir adj step st)
      as [st'|st'].
    + exists step. split; [done|]. done.
    + destruct Hh as (Hinv' & Hlive' & Hfin & Hkeep).
      destruct (delete_NoDup_spec snapshot i step Hnd Hstep)
        as (Hnd' & Hlen' & Hin').
      specialize (IH (S tick) (delete i snapshot) st' Hinv' Hlive' Hnd').
      destruct (runtime_parallel.for_done env ir adj n (S tick)
                  (delete i snapshot) st') as [[[x|] st''] tick''].
      * apply IH; [|lia]. intros x' [Hx' Hne]%Hin'. apply Hkeep; [|done].
        by apply Hsnap.
      * destruct IH as (? & ? & Hsize); [|lia|].
        { intros x' [Hx' Hne]%Hin'. apply Hkeep; [|done]. by apply Hsnap. }
        split_and!; [done..|]. rewrite Hsize, Hfin.
        rewrite size_add_fresh; [lia|].
        apply (si_running_sub _ _ _ _ _ _ _ Hinv step Hrun).
Qed.

Definition rt_outcome (ir : list json) (x : runtime_parallel.exit)
    (st : runtime_parallel.state) : Prop :=
  rt_inv ir st ∧ runtime_parallel.running_futures st = []
  ∧ match x with
    | runtime_parallel.Aborted a => rt_aborted ir a st
    | runtime_parallel.FinishedSuccessfully =>
        rt_live ir st ∧ runtime_parallel.failed st = ∅
    | runtime_parallel.FinishedWithFailures =>
        rt_live ir st ∧ runtime_parallel.failed st ≠ ∅
    | runtime_parallel.NoReadySteps => False
    end.

Lemma rt_finished_bound (ir : list json) (st : runtime_parallel.state) :
  rt_inv ir st →
  (size (rt_finished st) ≤ size (runtime_parallel.steps ir))%nat
  ∧ (runtime_parallel.running_futures st ≠ [] →
     (size (rt_finished st) < size (runtime_parallel.steps ir))%nat).
Proof.
  intros Hs. unfold rt_inv in Hs.
  assert (rt_finished st ⊆ runtime_parallel.steps ir) as Hsub.
  { intros n Hn. eapply si_known; [done|]. by eapply si_finished_sub. }
  split; [by apply subseteq_size|].
  intros Hne.
  destruct (runtime_parallel.running_futures st) as [|n l] eqn:Hrun; [done|].
  destruct (si_running_sub _ _ _ _ _ _ _ Hs n) as [Hn Hnf]; [by left|].
  apply subset_size. split; [done|]. intros Hsup. apply Hnf, Hsup.
  by eapply si_known.
Qed.

Lemma rt_while_running_done (env : runtime_parallel.environment)
    (ir : list json) (adj : gmap string (list string)) (fuel tick : nat)
    (st : runtime_parallel.state) :
  runtime_parallel.running_futures st = [] →
  runtime_parallel.while_running env ir adj fuel tick st
  = Some (if decide (runtime_parallel.failed st = ∅)
          then runtime_parallel.FinishedSuccessfully
          else runtime_parallel.FinishedWithFailures, st).
Proof. intros H. destruct fuel; simpl; by rewrite H. Qed.

Lemma rt_while_running_step (env : runtime_parallel.environment)
    (ir : list json) (adj : gmap string (list string)) (fuel tick : nat)
    (st : runtime_parallel.state) :
  runtime_parallel.running_futures st ≠ [] →
  runtime_parallel.while_running env ir adj (S fuel) tick st
  = match runtime_parallel.for_done env ir adj
            (length (runtime_parallel.running_futures st)) tick
            (runtime_parallel.running_futures st) st with
    | (Some x, st', _) => Some (x, st')
    | (None, st', tick') =>
        runtime_parallel.while_running env ir adj fuel tick' st'
    end.
Proof.
  intros H. cbn [runtime_parallel.while_running].
  destruct (runtime_parallel.running_futures st) as [|n l]; [done|].
  reflexivity.
Qed.

Lemma rt_while_running_spec (env : runtime_parallel.environment)
    (ir : list json) (adj : gmap string (list string)) :
  adj_correct (rt_edges ir) adj →
  ∀ fuel tick st,
    rt_inv ir st → rt_live ir st →
    (size (runtime_parallel.steps ir) ≤ size (rt_finished st) + fuel)%nat →
    ∃ x st', runtime_parallel.while_running env ir adj fuel tick st
             = Some (x, st')
             ∧ rt_outcome ir x st'.
Proof.
  intros Hadj. induction fuel as [|fuel IH]; intros tick st Hinv Hlive Hfuel;
    destruct (rt_finished_bound ir st Hinv) as [Hle Hlt];
    (destruct (decide (runtime_parallel.running_futures st = []))
       as [Hrun|Hrun];
     [rewrite rt_while_running_done by done; eexists _, _; split; [done|];
      destruct (decide (runtime_parallel.failed st = ∅));
      (split_and!; done)|]).
  - specialize (Hlt Hrun). lia.
  - rewrite rt_while_running_step by done.
    pose proof (rt_for_done_spec env ir adj Hadj
                  (length (runtime_parallel.running_futures st)) tick
                  (runtime_parallel.running_futures st) st Hinv Hlive
                  (si_running _ _ _ _ _ _ _ Hinv)
                  (λ x H, H) eq_refl) as Hfor.
    destruct (runtime_parallel.for_done env ir adj
                (length (runtime_parallel.running_futures st))
                tick (runtime_parallel.running_futures st) st)
      as [[[x|] st'] tick'].
    + destruct Hfor as (a & -> & Hab). eexists _, _. split; [done|].
      split_and!; [apply Hab..|done].
    + destruct Hfor as (Hinv' & Hlive' & Hsize).
      apply IH; [done..|]. rewrite Hsize.
      destruct (runtime_parallel.running_futures st); [done|]. simpl. lia.
Qed.

Lemma rt_execute_spec (env : runtime_parallel.environment) (ir : list json) :
  ∃ x st,
    runtime_parallel.execute env ir = Some (x, st)
    ∧ match x with
      | runtime_parallel.NoReadySteps =>
          runtime_parallel.steps ir ≠ ∅ ∧ runtime_parallel.submitted st = []
          ∧ runtime_parallel.failed st = ∅
          ∧ runtime_parallel.cancelled st = false
      | _ => rt_outcome ir x st
      end.
Proof.
  unfold runtime_parallel.execute.
  pose proof (rt_build_graph_spec ir) as Hg.
  destruct (runtime_parallel.build_graph ir) as [adj indeg].
  destruct Hg as [Hadj Hind].
  set (ready := filter (λ n, indeg !! n = Some 0)
                       (elements (runtime_parallel.steps ir))).
  destruct (bool_decide (ready = [] ∧ runtime_parallel.steps ir ≠ ∅)) eqn:Hnr.
  - apply bool_decide_eq_true in Hnr as [_ Hne]. eexists _, _.
    split; [done|]. by simpl.
  - rewrite rt_submit_all.
    set (s0 := runtime_parallel.mkState _ _ _ _ _ _).
    assert (s0 = runtime_parallel.mkState ∅ ∅ ready false indeg ready)
      as -> by reflexivity.
    assert (NoDup ready) as Hnd by apply NoDup_filter, NoDup_elements.
    assert (∀ n, n ∈ ready →
                 n ∈ runtime_parallel.steps ir
                 ∧ pending (rt_edges ir) ∅ n = 0%nat) as Hready.
    { intros n. unfold ready.
      intros [Hz Hn]%list_elem_of_filter. apply elem_of_elements in Hn.
      split; [done|]. specialize (Hind n). unfold counter in Hind.
      rewrite Hz in Hind. simpl in Hind. lia. }
    match goal with
    | |- context [runtime_parallel.while_running env ir adj ?f ?t ?s] =>
        destruct (rt_while_running_spec env ir adj Hadj f t s)
          as (x & st' & Hrun & Hout)
    end.
    + unfold rt_inv, rt_finished. simpl.
      replace (∅ ∪ ∅ : gset string) with (∅ : gset string) by set_solver.
      constructor.
      * done.
      * done.
      * intros n Hn. by apply Hready.
      * intros n Hn. by apply Hready.
      * done.
      * intros n Hn. split; [done|]. apply not_elem_of_empty.
      * intros n ?%not_elem_of_empty. done.
      * done.
    + split; simpl; [done|]. by intros n ?%not_elem_of_empty.
    + unfold rt_finished. simpl. lia.
    + exists x, st'. split; [done|].
      destruct x; try done; by destruct Hout as (_ & _ & ?).
Qed.

(** ** Unhandled failures *)

Lemma tc_mono {A} (R1 R2 : relation A) (x y : A) :
  (∀ a b, R1 a b → R2 a b) → tc R1 x y → tc R2 x y.
Proof.
  intros H Htc. induction Htc as [x y Hxy|x y z Hxy _ IH].
  - by apply tc_once, H.
  - eapply tc_l; [by apply H|done].
Qed.

Lemma vm_abort_transition (env : vm.environment) (bytecode : json)
    (adj : gmap string (list string)) (tick : nat) (step : string)
    (st : vm.state) :
  (vm._execute_step env bytecode (vm.cancelled st) step).1.1 = false →
  vm_has_handler bytecode step = false →
  ∃ st', vm.handle_completion env bytecode adj tick step st = inl st'
         ∧ vm.failed st' = {[step]} ∪ vm.failed st
         ∧ vm.completed st' = vm.completed st
         ∧ vm.cancelled st' = true
         ∧ vm.running_futures st' = []
         ∧ vm.submitted st' = vm.submitted st
         ∧ vm.events st'
           = vm.events st ++ [(step, Running); (step, Failed)].
Proof.
  intros Hok Hh. unfold vm.handle_completion. cbn [vm.cancelled].
  destruct (vm_execute_step_events env bytecode (vm.cancelled st) step)
    as (ok & calls & Heq).
  rewrite Heq in Hok |- *. simpl in Hok. subst ok.
  fold (vm_on_error bytecode step).
  destruct (vm_has_handler_cases bytecode step)
    as [[Hh' _]|[_ [-> | ->]]]; [congruence| |rewrite decide_True by done];
    eexists; (split; [done|]); simpl; done.
Qed.

Lemma rt_abort_transition (env : runtime_parallel.environment)
    (ir : list json) (adj : gmap string (list string)) (step : string)
    (st : runtime_parallel.state) :
  (runtime_parallel._execute_step env ir (runtime_parallel.cancelled st)
     step).1 = false →
  rt_has_handler ir step = false →
  ∃ st', runtime_parallel.handle_completion env ir adj step st = inl st'
         ∧ runtime_parallel.failed st' = {[step]} ∪ runtime_parallel.failed st
         ∧ runtime_parallel.completed st' = runtime_parallel.completed st
         ∧ runtime_parallel.cancelled st' = true
         ∧ runtime_parallel.running_futures st' = []
         ∧ runtime_parallel.submitted st' = runtime_parallel.submitted st.
Proof.
  intros Hok Hh. unfold runtime_parallel.handle_completion.
  cbn [runtime_parallel.cancelled].
  destruct (runtime_parallel._execute_step env ir
              (runtime_parallel.cancelled st) step) as [ok calls].
  simpl in Hok. subst ok. unfold rt_has_handler in Hh.
  destruct (as_str (dict_get (runtime_parallel.instr_of_name ir step)
                             "on_error" JNull)) as [h|].
  - destruct (decide (h = EmptyString)) as [->|Hne].
    + eexists. split; [done|]. simpl. done.
    + by apply bool_decide_eq_false in Hh.
  - eexists. split; [done|]. simpl. done.
Qed.

Definition step_with (n cmd : string) (deps : list string)
    (handler : option string) : Step :=
  mkStep n (Some cmd) None 0 deps handler.

(** Scenario 6 of the specification: [a] fails and has no handler, [b]
    depends on [a]. *)
Definition unhandled_bytecode : json :=
  bytecode_document "w"
    [ instr_of (step_with "a" "false" [] None);
      instr_of (step_with "b" "true" ["a"] None) ] [].

(** An environment in which the command of [a] fails and every other
    command succeeds, and no cancel event is given. *)
Definition a_fails_env : vm.environment :=
  vm.mkEnv (λ step _ _ _, negb (String.eqb step "a")) None (λ _ _, 0%nat)
           (λ _, "2024-01-01 00:00:00"%string).

(** ** Progress

    The invariant above says that only steps whose dependencies were
    released are submitted.  The converse holds as long as the loop does not
    abort: every step whose dependencies were released is submitted, and
    every submitted step is finished or running. *)

Section sched_progress.
Variable E : list (string * string).
Variable known : gset string.

Record sched_live (R finished : gset string) (running submitted : list string)
  : Prop := {
  sl_ready : ∀ n, n ∈ known → pending E R n = 0%nat → n ∈ submitted;
  sl_submitted : ∀ n, n ∈ submitted → n ∈ finished ∨ n ∈ running
}.

Lemma sched_live_fail (R finished : gset string)
    (running submitted : list string) (step : string) :
  NoDup running →
  sched_live R finished running submitted →
  sched_live R ({[step]} ∪ finished) (remove_first step running) submitted.
Proof.
  intros Hnd [Hr Hs].
  destruct (remove_first_spec step running Hnd) as [_ Hin].
  constructor; [done|]. intros n Hn.
  destruct (decide (n = step)) as [->|Hne]; [left; set_solver|].
  destruct (Hs n Hn); [left; set_solver|right; by apply Hin].
Qed.

Lemma sched_live_release (adj : gmap string (list string))
    (R finished : gset string) (running : list string)
    (indeg indeg' : gmap string Z) (submitted nr nr' : list string)
    (step : string) :
  NoDup running → step ∉ R →
  (∀ n, counter indeg n = Z.of_nat (pending E R n)) →
  sched_live R finished running submitted →
  default [] (adj !! step) = dependents E step →
  release adj step indeg = (indeg', nr) → nr' ≡ₚ nr →
  sched_live ({[step]} ∪ R) ({[step]} ∪ finished)
             (remove_first step running ++ nr') (submitted ++ nr').
Proof.
  intros Hnd HstepR Hi Hlive Hadj Hrel Hperm.
  destruct (release_spec E adj indeg R step Hadj HstepR Hi)
    as (indeg2 & nr2 & Hrel2 & _ & _ & Hnr2).
  rewrite Hrel in Hrel2. injection Hrel2 as <- <-.
  destruct (sched_live_fail R finished running submitted step Hnd Hlive)
    as [_ Hs].
  destruct Hlive as [Hr _].
  constructor.
  - intros n Hk H0. apply elem_of_app.
    destruct (decide (pending E R n = 0%nat)) as [Hz|Hnz];
      [left; by apply Hr|right].
    rewrite Hperm. by apply Hnr2.
  - intros n [Hn|Hn]%elem_of_app.
    + destruct (Hs n Hn); [by left|right; apply elem_of_app; by left].
    + right. apply elem_of_app. by right.
Qed.

(** When nothing runs any more and every finished step was released, an
    acyclic graph has no step left. *)
Lemma sched_live_all (F : gset string) (submitted : list string) :
  (∀ n d, (n, d) ∈ E → d ∈ known) →
  (∀ n, ¬ tc (λ n d, (n, d) ∈ E) n n) →
  sched_live F F [] submitted →
  ∀ n, n ∈ known → n ∈ F.
Proof.
  intros Hknown Hacyc [Hr Hs] n0 Hn0.
  destruct (decide (n0 ∈ F)) as [|Hn0F]; [done|]. exfalso.
  destruct (no_sink_cycle (λ n d, (n, d) ∈ E) (elements (known ∖ F)) n0)
    as [z Hz]; [set_solver| |by apply (Hacyc z)].
  intros x [Hx HxF]%elem_of_elements%elem_of_difference.
  assert (pending E F x ≠ 0%nat) as Hp.
  { intros H0. destruct (Hs x (Hr x Hx H0)) as [?|Hrun]; [done|].
    by apply not_elem_of_nil in Hrun. }
  unfold pending in Hp.
  destruct (filter (λ e, e.1 = x ∧ e.2 ∉ F) E) as [|[a d] l] eqn:Hf; [done|].
  assert ((a, d) ∈ filter (λ e, e.1 = x ∧ e.2 ∉ F) E) as Hin
    by (rewrite Hf; left).
  apply list_elem_of_filter in Hin as [[Ha Hd] Hin]. simpl in Ha, Hd.
  subst a. exists d. split; [|done].
  apply elem_of_elements, elem_of_difference. split; [|done].
  by eapply Hknown.
Qed.
End sched_progress.

(** *** Progress of [ParallelVM] *)

Definition vm_progress (bytecode : json) (st : vm.state) : Prop :=
  sched_live (vm_edges bytecode) (vm.steps_set bytecode) (vm_finished st)
             (vm_finished st) (vm.running_futures st) (vm.submitted st).

Lemma vm_release_successors_progress (bytecode : json)
    (adj : gmap string (list string)) (step : string)
    (finished : gset string) (running submitted : list string)
    (s1 : vm.state) :
  adj_correct (vm_edges bytecode) adj →
  sched_inv (vm_edges bytecode) (vm.steps_set bytecode) finished finished
            running (vm.indeg s1) submitted →
  sched_live (vm_edges bytecode) (vm.steps_set bytecode) finished finished
             running submitted →
  step ∈ running →
  vm.running_futures s1 = remove_first step running →
  vm.submitted s1 = submitted →
  vm_finished s1 = {[step]} ∪ finished →
  vm_progress bytecode (vm.release_successors adj step s1).
Proof.
  intros Hadj Hinv Hlive Hstep Hrun Hsub Hfin.
  destruct (vm_release_successors_spec bytecode adj step finished finished
              running submitted s1 Hadj Hinv Hstep Hrun Hsub Hfin)
    as (indeg' & nr & Hrel & -> & _).
  unfold vm_progress, vm_finished. cbn [vm.completed vm.failed
    vm.running_futures vm.submitted].
  fold (vm_finished s1). rewrite Hfin.
  eapply sched_live_release; [by eapply si_running| |by eapply si_indeg|done
                             |apply Hadj|done|apply merge_sort_Permutation].
  by apply (si_running_sub _ _ _ _ _ _ _ Hinv step Hstep).
Qed.

Lemma vm_handle_completion_progress (env : vm.environment) (bytecode : json)
    (adj : gmap string (list string)) (tick : nat) (step : string)
    (st st' : vm.state) :
  adj_correct (vm_edges bytecode) adj →
  vm_inv bytecode st → vm_live bytecode st → step ∈ vm.running_futures st →
  vm_progress bytecode st →
  vm.handle_completion env bytecode adj tick step st = inr st' →
  vm_progress bytecode st'.
Proof.
  intros Hadj [Hsched _] Hlive Hstep Hprog.
  rewrite (vm_live_released bytecode st Hlive) in Hsched.
  unfold vm.handle_completion. cbn [vm.cancelled].
  destruct (vm_execute_step_events env bytecode (vm.cancelled st) step)
    as (ok & calls & ->).
  cbn [vm.completed vm.failed vm.running_futures vm.cancelled vm.indeg
       vm.events vm.notifications_log vm.submitted].
  destruct ok.
  - intros [= <-].
    eapply vm_release_successors_progress; try done.
    unfold vm_finished. simpl. set_solver.
  - fold (vm_on_error bytecode step).
    destruct (vm_on_error bytecode step) as [h|]; [|done].
    destruct (decide (h = EmptyString)); [done|]. intros [= <-].
    eapply vm_release_successors_progress; try done.
    unfold vm_finished. simpl. set_solver.
Qed.

Lemma vm_for_done_progress (env : vm.environment) (bytecode : json)
    (adj : gmap string (list string)) :
  adj_correct (vm_edges bytecode) adj →
  ∀ n tick snapshot st st' tick',
    vm_inv bytecode st → vm_live bytecode st → vm_progress bytecode st →
    NoDup snapshot →
    (∀ x, x ∈ snapshot → x ∈ vm.running_futures st) →
    n = length snapshot →
    vm.for_done env bytecode adj n tick snapshot st = (None, st', tick') →
    vm_progress bytecode st'.
Proof.
  intros Hadj. induction n as [|n IH];
    intros tick snapshot st st' tick' Hinv Hlive Hprog Hnd Hsnap Hlen; simpl.
  - by intros [= <- _].
  - set (i := (vm.as_completed env tick snapshot `mod` length snapshot)%nat).
    assert (i < length snapshot)%nat as Hi
      by (apply Nat.mod_upper_bound; lia).
    destruct (lookup_lt_is_Some_2 snapshot i Hi) as [step Hstep].
    rewrite Hstep.
    assert (step ∈ vm.running_futures st) as Hrun
      by (apply Hsnap; by eapply list_elem_of_lookup_2).
    pose proof (vm_handle_completion_spec env bytecode adj tick step st
                  Hadj Hinv Hlive Hrun) as Hh.
    destruct (vm.handle_completion env bytecode adj tick step st)
      as [s|s] eqn:Hhc; [done|].
    destruct Hh as (Hinv' & Hlive' & _ & Hkeep).
    destruct (delete_NoDup_spec snapshot i step Hnd Hstep)
      as (Hnd' & Hlen' & Hin').
    intros Hfd.
    apply (IH (S tick) (delete i snapshot) s st' tick');
      [done|done| |done| |lia|done].
    { exact (vm_handle_completion_progress env bytecode adj tick step st s
               Hadj Hinv Hlive Hrun Hprog Hhc). }
    intros x' [Hx' Hne]%Hin'. apply Hkeep; [|done]. by apply Hsnap.
Qed.

Lemma vm_while_running_progress (env : vm.environment) (bytecode : json)
    (adj : gmap string (list string)) :
  adj_correct (vm_edges bytecode) adj →
  ∀ fuel tick st x st',
    vm_inv bytecode st → vm_live bytecode st → vm_progress bytecode st →
    vm.while_running env bytecode adj fuel tick st = Some (x, st') →
    x = vm.FinishedSuccessfully ∨ x = vm.FinishedWithFailures →
    vm_progress bytecode st'.
Proof.
  intros Hadj. induction fuel as [|fuel IH];
    intros tick st x st' Hinv Hlive Hprog;
    (destruct (decide (vm.running_futures st = [])) as [Hrun|Hrun];
     [rewrite vm_while_running_done by done; by intros [= _ <-]|]).
  - cbn [vm.while_running]. by destruct (vm.running_futures st).
  - rewrite vm_while_running_step by done.
    pose proof (vm_for_done_spec env bytecode adj Hadj
                  (length (vm.running_futures st)) tick
                  (vm.running_futures st) st Hinv Hlive
                  (si_running _ _ _ _ _ _ _ (vi_sched _ _ Hinv))
                  (λ x H, H) eq_refl) as Hfor.
    pose proof (vm_for_done_progress env bytecode adj Hadj
                  (length (vm.running_futures st)) tick
                  (vm.running_futures st) st) as Hfp.
    destruct (vm.for_done env bytecode adj (length (vm.running_futures st))
                tick (vm.running_futures st) st) as [[[y|] s] tick''].
    + destruct Hfor as (a & -> & _). intros [= <- _] [?|?]; done.
    + destruct Hfor as (Hinv' & Hlive' & _).
      destruct (vm.cancel_requested env tick'' s).
      * intros [= <- _] [?|?]; done.
      * apply IH; try done.
        eapply Hfp; try done.
        by eapply si_running, vi_sched.
Qed.

Lemma vm_build_graph_known (bytecode : json) (g : graph_t) :
  vm._build_graph bytecode = Return g →
  ∀ n d, (n, d) ∈ vm_edges bytecode → d ∈ vm.steps_set bytecode.
Proof.
  unfold vm._build_graph.
  pose proof (vm_add_steps_spec (vm.steps_set bytecode)
                (vm.step_objs bytecode)
                (gset_to_gmap [] (vm.steps_set bytecode),
                 gset_to_gmap 0 (vm.steps_set bytecode))) as H.
  destruct (vm.add_steps _ _ _) as [g'|e|]; [|done..].
  intros _. apply H.
Qed.

(** The state in which the main loop of [execute] starts. *)
Lemma vm_start_spec (bytecode : json) (adj : gmap string (list string))
    (indeg : gmap string Z) :
  vm._build_graph bytecode = Return (adj, indeg) →
  let ready := filter (λ n, indeg !! n = Some 0)
                      (elements (vm.steps_set bytecode)) in
  let s0 := vm.mkState ∅ ∅ (sort ready) false indeg
              ((λ n, (n, Queued)) <$> ready) EmptyString (sort ready) in
  vm_inv bytecode s0 ∧ vm_live bytecode s0 ∧ vm_progress bytecode s0.
Proof.
  intros Hgeq ready s0. pose proof (vm_build_graph_spec bytecode) as Hg.
  rewrite Hgeq in Hg. destruct Hg as (Hadj & Hind & Hdom).
  assert (sort ready ≡ₚ ready) as Hperm by apply merge_sort_Permutation.
  assert (NoDup (sort ready)) as Hnd.
  { rewrite Hperm. apply NoDup_filter, NoDup_elements. }
  assert (∀ n, n ∈ sort ready →
               n ∈ vm.steps_set bytecode
               ∧ pending (vm_edges bytecode) ∅ n = 0%nat) as Hready.
  { intros n. rewrite Hperm. unfold ready.
    intros [Hz Hn]%list_elem_of_filter. apply elem_of_elements in Hn.
    split; [done|]. specialize (Hind n). unfold counter in Hind.
    rewrite Hz in Hind. simpl in Hind. lia. }
  split_and!.
  - apply (vm_inv_intro _ _ ∅ ∅); simpl.
    + unfold vm_released. simpl. set_solver.
    + unfold vm_finished. simpl. set_solver.
    + constructor.
      * done.
      * done.
      * intros n Hn. by apply Hready.
      * intros n Hn. by apply Hready.
      * done.
      * intros n Hn. split; [done|]. apply not_elem_of_empty.
      * intros n ?%not_elem_of_empty. done.
      * done.
    + intros n Hn. by apply elem_of_queued in Hn.
  - split; simpl; [done|]. by intros n ?%not_elem_of_empty.
  - unfold vm_progress, vm_finished. simpl.
    assert ((∅ ∪ ∅ : gset string) = ∅) as -> by set_solver.
    constructor.
    + intros n Hn H0. rewrite Hperm. unfold ready.
      apply list_elem_of_filter. split; [|by apply elem_of_elements].
      destruct (Hdom n Hn) as [z Hz]. specialize (Hind n).
      unfold counter in Hind. rewrite Hz in Hind. simpl in Hind.
      rewrite Hz. f_equal. lia.
    + intros n Hn. by right.
Qed.

(** At both exits after the loop every step whose dependencies finished has
    finished itself, so on an acyclic graph every step has been run. *)
Lemma vm_execute_progress (env : vm.environment) (bytecode : json)
    (x : vm.exit) (st : vm.state) :
  vm.execute env bytecode = Some (x, st) →
  x = vm.FinishedSuccessfully ∨ x = vm.FinishedWithFailures →
  vm_progress bytecode st
  ∧ (acyclic (vm.step_objs bytecode) →
     vm_finished st = vm.steps_set bytecode).
Proof.
  intros Hex Hx.
  destruct (vm_execute_spec env bytecode) as (x' & st'' & Hex' & Hout).
  rewrite Hex in Hex'. injection Hex' as <- <-.
  assert (vm_inv bytecode st ∧ vm.running_futures st = [])
    as [Hinv' Hnil]
    by (destruct Hx as [-> | ->]; destruct Hout as (? & ? & _); done).
  unfold vm.execute in Hex.
  destruct (vm._build_graph bytecode) as [[adj indeg]|e|] eqn:Hgeq;
    [|destruct Hx; congruence..].
  destruct (vm_start_spec bytecode adj indeg Hgeq) as (Hinv & Hlive & Hprog).
  pose proof (vm_build_graph_spec bytecode) as Hg. rewrite Hgeq in Hg.
  destruct Hg as (Hadj & _).
  cbv zeta in Hex.
  destruct (bool_decide _) in Hex; [destruct Hx; congruence|].
  rewrite vm_submit_all in Hex.
  match type of Hex with
  | vm.while_running _ _ _ _ _ ?s = _ => set (s0 := s) in Hex
  end.
  assert (vm_progress bytecode st) as Hp
    by (eapply (vm_while_running_progress env bytecode adj Hadj _ _ s0);
        done).
  split; [done|]. intros Hacyc.
  apply set_eq. intros n. split.
  - intros Hn. eapply si_known; [apply Hinv'|].
    by eapply si_finished_sub; [apply Hinv'|].
  - apply (sched_live_all (vm_edges bytecode) (vm.steps_set bytecode)
             (vm_finished st) (vm.submitted st)).
    + by eapply vm_build_graph_known.
    + intros m Hm. apply (Hacyc m). eapply tc_mono; [|done].
      intros a b. by apply elem_of_edges.
    + unfold vm_progress in Hp. by rewrite Hnil in Hp.
Qed.

(** *** Progress of [ParallelRuntime]

    Here only the success of a step releases its successors. *)

Definition rt_progress (ir : list json) (st : runtime_parallel.state) : Prop :=
  sched_live (rt_edges ir) (runtime_parallel.steps ir)
             (runtime_parallel.completed st) (rt_finished st)
             (runtime_parallel.running_futures st)
             (runtime_parallel.submitted st).

Lemma rt_handle_completion_progress (env : runtime_parallel.environment)
    (ir : list json) (adj : gmap string (list string)) (step : string)
    (st st' : runtime_parallel.state) :
  adj_correct (rt_edges ir) adj →
  rt_inv ir st → step ∈ runtime_parallel.running_futures st →
  rt_progress ir st →
  runtime_parallel.handle_completion env ir adj step st = inr st' →
  rt_progress ir st'.
Proof.
  intros Hadj Hinv Hstep Hprog. unfold rt_inv in Hinv.
  unfold rt_progress in Hprog.
  destruct (si_running_sub _ _ _ _ _ _ _ Hinv step Hstep) as [Hsub Hnf].
  pose proof (si_running _ _ _ _ _ _ _ Hinv) as Hnd.
  assert (step ∉ runtime_parallel.completed st) as HnR
    by (unfold rt_finished in Hnf; set_solver).
  unfold runtime_parallel.handle_completion.
  cbn [runtime_parallel.cancelled].
  destruct (runtime_parallel._execute_step env ir
              (runtime_parallel.cancelled st) step) as [[|] calls];
    cbn [runtime_parallel.completed runtime_parallel.failed
         runtime_parallel.running_futures runtime_parallel.cancelled
         runtime_parallel.indeg runtime_parallel.submitted].
  - unfold runtime_parallel.release_successors.
    cbn [runtime_parallel.completed runtime_parallel.failed
         runtime_parallel.running_futures runtime_parallel.cancelled
         runtime_parallel.indeg runtime_parallel.submitted].
    destruct (release adj step (runtime_parallel.indeg st))
      as [indeg' nr] eqn:Hrel.
    destruct (sched_inv_release (rt_edges ir) (runtime_parallel.steps ir)
                (rt_edges_known ir) adj _ _ _ _ indeg' _ nr nr step
                Hinv Hstep (Hadj step) Hrel) as [_ Hfresh]; [done|].
    rewrite rt_submit_ready_all.
    + intros [= <-]. unfold rt_progress, rt_finished. simpl.
      replace ({[step]} ∪ runtime_parallel.completed st
               ∪ runtime_parallel.failed st)
        with ({[step]} ∪ rt_finished st)
        by (unfold rt_finished; set_solver).
      eapply sched_live_release;
        [done|done|by eapply si_indeg|done|apply Hadj|done|done].
    + intros n Hn Hf. apply (Hfresh n Hn). unfold rt_finished in *.
      simpl in Hf. set_solver.
  - destruct (as_str (dict_get (runtime_parallel.instr_of_name ir step)
                               "on_error" JNull)) as [h|]; [|done].
    destruct (decide (h = EmptyString)); [done|]. intros [= <-].
    unfold rt_progress, rt_finished. simpl.
    replace (runtime_parallel.completed st
             ∪ ({[step]} ∪ runtime_parallel.failed st))
      with ({[step]} ∪ rt_finished st)
      by (unfold rt_finished; set_solver).
    by apply sched_live_fail.
Qed.

Lemma rt_for_done_progress (env : runtime_parallel.environment)
    (ir : list json) (adj : gmap string (list string)) :
  adj_correct (rt_edges ir) adj →
  ∀ n tick snapshot st st' tick',
    rt_inv ir st → rt_live ir st → rt_progress ir st → NoDup snapshot →
    (∀ x, x ∈ snapshot → x ∈ runtime_parallel.running_futures st) →
    n = length snapshot →
    runtime_parallel.for_done env ir adj n tick snapshot st
    = (None, st', tick') →
    rt_progress ir st'.
Proof.
  intros Hadj. induction n as [|n IH];
    intros tick snapshot st st' tick' Hinv Hlive Hprog Hnd Hsnap Hlen; simpl.
  - by intros [= <- _].
  - set (i := (runtime_parallel.as_completed env tick snapshot
               `mod` length snapshot)%nat).
    assert (i < length snapshot)%nat as Hi
      by (apply Nat.mod_upper_bound; lia).
    destruct (lookup_lt_is_Some_2 snapshot i Hi) as [step Hstep].
    rewrite Hstep.
    assert (step ∈ runtime_parallel.running_futures st) as Hrun
      by (apply Hsnap; by eapply list_elem_of_lookup_2).
    pose proof (rt_handle_completion_spec env ir adj step st
                  Hadj Hinv Hlive Hrun) as Hh.
    destruct (runtime_parallel.handle_completion env ir adj step st)
      as [s|s] eqn:Hhc; [done|].
    destruct Hh as (Hinv' & Hlive' & _ & Hkeep).
    destruct (delete_NoDup_spec snapshot i step Hnd Hstep)
      as (Hnd' & Hlen' & Hin').
    intros Hfd.
    apply (IH (S tick) (delete i snapshot) s st' tick');
      [done|done| |done| |lia|done].
    { exact (rt_handle_completion_progress env ir adj step st s
               Hadj Hinv Hrun Hprog Hhc). }
    intros x' [Hx' Hne]%Hin'. apply Hkeep; [|done]. by apply Hsnap.
Qed.

Lemma rt_while_running_progress (env : runtime_parallel.environment)
    (ir : list json) (adj : gmap string (list string)) :
  adj_correct (rt_edges ir) adj →
  ∀ fuel tick st x st',
    rt_inv ir st → rt_live ir st → rt_progress ir st →
    runtime_parallel.while_running env ir adj fuel tick st = Some (x, st') →
    x = runtime_parallel.FinishedSuccessfully
    ∨ x = runtime_parallel.FinishedWithFailures →
    rt_progress ir st'.
Proof.
  intros Hadj. induction fuel as [|fuel IH];
    intros tick st x st' Hinv Hlive Hprog;
    (destruct (decide (runtime_parallel.running_futures st = []))
       as [Hrun|Hrun];
     [rewrite rt_while_running_done by done; by intros [= _ <-]|]).
  - cbn [runtime_parallel.while_running].
    by destruct (runtime_parallel.running_futures st).
  - rewrite rt_while_running_step by done.
    pose proof (rt_for_done_spec env ir adj Hadj
                  (length (runtime_parallel.running_futures st)) tick
                  (runtime_parallel.running_futures st) st Hinv Hlive
                  (si_running _ _ _ _ _ _ _ Hinv)
                  (λ x H, H) eq_refl) as Hfor.
    pose proof (rt_for_done_progress env ir adj Hadj
                  (length (runtime_parallel.running_futures st)) tick
                  (runtime_parallel.running_futures st) st) as Hfp.
    destruct (runtime_parallel.for_done env ir adj
                (length (runtime_parallel.running_futures st))
                tick (runtime_parallel.running_futures st) st)
      as [[[y|] s] tick''].
    + destruct Hfor as (a & -> & _). intros [= <- _] [?|?]; done.
    + destruct Hfor as (Hinv' & Hlive' & _).
      apply IH; try done.
      eapply Hfp; try done.
      by eapply si_running.
Qed.

Lemma rt_build_graph_dom (ir : list json) (n : string) :
  n ∈ runtime_parallel.steps ir →
  is_Some ((runtime_parallel.build_graph ir).2 !! n).
Proof.
  rewrite rt_build_graph_edges.
  destruct (add_edges_of_spec (runtime_parallel.steps ir) (rt_edges ir))
    as (_ & _ & Hdom).
  apply Hdom.
Qed.

(** At both exits after the loop of [ParallelRuntime.execute] every step
    whose dependencies succeeded has finished; a run without failures on an
    acyclic graph without unknown dependencies has completed every step. *)
Lemma rt_execute_progress (env : runtime_parallel.environment)
    (ir : list json) (x : runtime_parallel.exit)
    (st : runtime_parallel.state) :
  runtime_parallel.execute env ir = Some (x, st) →
  x = runtime_parallel.FinishedSuccessfully
  ∨ x = runtime_parallel.FinishedWithFailures →
  rt_progress ir st
  ∧ (x = runtime_parallel.FinishedSuccessfully →
     acyclic (rt_objs ir) →
     (∀ n d, depends (rt_objs ir) n d → d ∈ runtime_parallel.steps ir) →
     runtime_parallel.completed st = runtime_parallel.steps ir).
Proof.
  intros Hex Hx.
  destruct (rt_execute_spec env ir) as (x' & st'' & Hex' & Hout).
  rewrite Hex in Hex'. injection Hex' as <- <-.
  assert (rt_inv ir st ∧ runtime_parallel.running_futures st = [])
    as [Hinv' Hnil]
    by (destruct Hx as [-> | ->]; destruct Hout as (? & ? & _); done).
  unfold runtime_parallel.execute in Hex.
  pose proof (rt_build_graph_spec ir) as Hg.
  pose proof (rt_build_graph_dom ir) as Hdom.
  destruct (runtime_parallel.build_graph ir) as [adj indeg].
  destruct Hg as [Hadj Hind]. simpl in Hdom. cbv zeta in Hex.
  destruct (bool_decide _) in Hex; [destruct Hx; congruence|].
  rewrite rt_submit_all in Hex.
  set (ready := filter (λ n, indeg !! n = Some 0)
                       (elements (runtime_parallel.steps ir))) in Hex.
  match type of Hex with
  | runtime_parallel.while_running _ _ _ _ _ ?s = _ => set (s0 := s) in Hex
  end.
  assert (s0 = runtime_parallel.mkState ∅ ∅ ready false indeg ready)
    as Hs0 by reflexivity.
  assert (NoDup ready) as Hnd by apply NoDup_filter, NoDup_elements.
  assert (∀ n, n ∈ ready →
               n ∈ runtime_parallel.steps ir
               ∧ pending (rt_edges ir) ∅ n = 0%nat) as Hready.
  { intros n. unfold ready.
    intros [Hz Hn]%list_elem_of_filter. apply elem_of_elements in Hn.
    split; [done|]. specialize (Hind n). unfold counter in Hind.
    rewrite Hz in Hind. simpl in Hind. lia. }
  assert (rt_inv ir s0) as Hinv0.
  { rewrite Hs0. unfold rt_inv, rt_finished. simpl.
    replace (∅ ∪ ∅ : gset string) with (∅ : gset string) by set_solver.
    constructor; [done|done|intros n Hn; by apply Hready
                 |intros n Hn; by apply Hready|done| | |done].
    - intros n Hn. split; [done|]. apply not_elem_of_empty.
    - intros n ?%not_elem_of_empty. done. }
  assert (rt_live ir s0) as Hlive0.
  { rewrite Hs0. split; simpl; [done|]. by intros n ?%not_elem_of_empty. }
  assert (rt_progress ir s0) as Hprog0.
  { rewrite Hs0. unfold rt_progress, rt_finished. simpl.
    replace (∅ ∪ ∅ : gset string) with (∅ : gset string) by set_solver.
    constructor.
    - intros n Hn H0. unfold ready.
      apply list_elem_of_filter. split; [|by apply elem_of_elements].
      destruct (Hdom n Hn) as [z Hz]. specialize (Hind n).
      unfold counter in Hind. rewrite Hz in Hind. simpl in Hind.
      rewrite Hz. f_equal. lia.
    - intros n Hn. by right. }
  assert (rt_progress ir st) as Hp
    by (eapply (rt_while_running_progress env ir adj Hadj _ _ s0); done).
  split; [done|]. intros -> Hacyc Hknown.
  destruct Hout as (_ & _ & _ & Hfailed).
  unfold rt_progress, rt_finished in Hp. rewrite Hnil, Hfailed in Hp.
  replace (runtime_parallel.completed st ∪ ∅)
    with (runtime_parallel.completed st) in Hp by set_solver.
  apply set_eq. intros n. split.
  - intros Hn. eapply si_known; [apply Hinv'|].
    eapply si_finished_sub; [apply Hinv'|]. unfold rt_finished. set_solver.
  - apply (sched_live_all (rt_edges ir) (runtime_parallel.steps ir)
             (runtime_parallel.completed st) (runtime_parallel.submitted st));
      [|
      |done].
    + intros m d Hmd. apply (Hknown m d). by apply elem_of_edges.
    + intros m Hm. apply (Hacyc m). eapply tc_mono; [|done].
      intros a b. by apply elem_of_edges.
Qed.

(** ** Handled failures *)

(** Scenario 5 of the specification: [a] fails and names the handler
    [notify_ops], [b] depends on [a]. *)
Definition handled_ir : list json :=
  [ instr_of (step_with "a" "false" [] (Some "notify_ops"));
    instr_of (step_with "b" "true" ["a"] None) ].

Definition handled_bytecode (notifies : list json) : json :=
  bytecode_document "w" handled_ir notifies.


Lemma vm_submit_ready_fields (t : vm.state) (l : list string) :
  vm.failed (foldl vm.submit_ready t l) = vm.failed t
  ∧ vm.completed (foldl vm.submit_ready t l) = vm.completed t
  ∧ vm.cancelled (foldl vm.submit_ready t l) = vm.cancelled t
  ∧ vm.notifications_log (foldl vm.submit_ready t l) = vm.notifications_log t.
Proof.
  revert t. induction l as [|n l IH]; intros t; simpl; [done|].
  destruct (IH (vm.submit_ready t n)) as (-> & -> & -> & ->).
  unfold vm.submit_ready. destruct (decide _); done.
Qed.


(** *** Runs depend on the environment only through what they ask of it *)










(** The state in which the run of scenario 5 ends. *)
Definition handled_final (env : vm.environment) (notifies : list json)
  : vm.state :=
  vm.mkState {["b"%string]} {["a"%string]} [] false
    (<["b"%string := 0]> (<["a"%string := 0]> ∅))
    [("a", Queued); ("a", Running); ("a", Failed);
     ("b", Queued); ("b", Running); ("b", Succeeded)]%string
    (vm._emit_notify (handled_bytecode notifies) (vm.strftime env 0)
       "notify_ops" (Some "a"%string) EmptyString)
    ["a"; "b"]%string.


Lemma pending_all_released (E : list (string * string)) (R : gset string)
    (n : string) :
  (∀ d, (n, d) ∈ E → d ∈ R) → pending E R n = 0%nat.
Proof.
  intros H. unfold pending.
  destruct (filter (λ e, e.1 = n ∧ e.2 ∉ R) E) as [|[a d] l] eqn:Hf; [done|].
  assert ((a, d) ∈ filter (λ e, e.1 = n ∧ e.2 ∉ R) E) as Hin
    by (rewrite Hf; left).
  apply list_elem_of_filter in Hin as [[Ha Hd] Hin]. simpl in Ha, Hd.
  subst a. by apply H in Hin.
Qed.

(** When [execute] leaves after its loop, every failure had a handler and
    every step whose dependencies have all finished has finished too. *)
Lemma vm_finish_closed (env : vm.environment) (bytecode : json)
    (x : vm.exit) (st : vm.state) :
  vm.execute env bytecode = Some (x, st) →
  x = vm.FinishedSuccessfully ∨ x = vm.FinishedWithFailures →
  vm.cancelled st = false
  ∧ (∀ n, n ∈ vm.failed st → vm_has_handler bytecode n = true)
  ∧ ∀ n, n ∈ vm.steps_set bytecode →
         (∀ d, depends (vm.step_objs bytecode) n d →
               d ∈ vm.completed st ∪ vm.failed st) →
         n ∈ vm.completed st ∪ vm.failed st.
Proof.
  intros Hex Hx.
  destruct (vm_execute_progress env bytecode x st Hex Hx) as [[Hr Hs] _].
  destruct (vm_execute_spec env bytecode) as (x' & st'' & Hex' & Hout).
  rewrite Hex in Hex'. injection Hex' as <- <-.
  assert (vm.running_futures st = [] ∧ vm_live bytecode st)
    as [Hnil [Hc Hh]]
    by (destruct Hx as [-> | ->]; destruct Hout as (? & ? & ? & _); done).
  split_and!; [done..|]. intros n Hn Hdeps.
  destruct (Hs n) as [?|Hrun]; [|done|].
  - apply Hr; [done|]. apply pending_all_released. intros d Hd.
    by apply Hdeps, elem_of_edges.
  - rewrite Hnil in Hrun. by apply not_elem_of_nil in Hrun.
Qed.



(** ** The results of [execute] *)




(** ** The round trip through a bytecode file *)

(** A document that a Python [dict] can hold: no object has two fields of
    the same name. *)
Fixpoint json_wf (v : json) : bool :=
  match v with
  | JList l => forallb json_wf l
  | JObj fields =>
      bool_decide (NoDup fields.*1)
      && forallb (λ kv, match kv with (_, x) => json_wf x end) fields
  | _ => true
  end.

Section bytecode_file.
(** The content of a file, and [json.dump] and [json.load] of the Python
    library, which the runtime takes as given: a document that was dumped
    loads as the same document. *)
Variable file : Type.
Variable json_dump : json → file.
Variable json_load : file → option json.
Hypothesis json_load_dump :
  ∀ v, json_wf v = true → json_load (json_dump v) = Some v.

(** [emit_bytecode]: the content of the file at [out_path]. *)
Definition emit_bytecode (workflow_name : string) (ir : list json)
    (notifies : list json) : file :=
  json_dump (bytecode_document workflow_name ir notifies).

(** [load_bytecode]: [None] when [json.load] raises. *)
Definition load_bytecode (f : file) : option json := json_load f.

(** [do_emit_bytecode] of [cli.py]. *)
Definition do_emit_bytecode (w : Workflow) : outcome file :=
  semantic_check w ;;
  Return (emit_bytecode (workflow_name w) (workflow_to_ir w)
                        (notify_dict <$> notifies w)).
End bytecode_file.

Lemma forallb_fmap_true {A B} (f : B → bool) (g : A → B) (l : list A) :
  (∀ x, f (g x) = true) → forallb f (g <$> l) = true.
Proof.
  intros H. induction l as [|x l IH]; [done|].
  cbn [fmap list_fmap forallb]. rewrite H. exact IH.
Qed.

Lemma json_wf_obj_intro (fields : list (string * json)) :
  NoDup fields.*1 → (∀ k v, (k, v) ∈ fields → json_wf v = true) →
  json_wf (JObj fields) = true.
Proof.
  intros Hnd Hall. cbn [json_wf]. apply andb_true_intro. split.
  - by apply bool_decide_eq_true.
  - clear Hnd. induction fields as [|[k v] fields IH]; [done|].
    cbn [forallb]. rewrite (Hall k v) by (by left).
    apply IH. intros k' v' Hin. apply (Hall k' v'). by right.
Qed.

Lemma json_wf_of_opt_str (o : option string) : json_wf (of_opt_str o) = true.
Proof. by destruct o. Qed.

Lemma json_wf_names (l : list string) : forallb json_wf (JStr <$> l) = true.
Proof. by induction l. Qed.

Lemma json_wf_instr_of (s : Step) : json_wf (instr_of s) = true.
Proof.
  unfold instr_of. cbn [json_wf forallb fmap list_fmap fst].
  rewrite !json_wf_of_opt_str, json_wf_names. reflexivity.
Qed.

Lemma json_wf_notify_dict (n : Notify) : json_wf (notify_dict n) = true.
Proof.
  unfold notify_dict. cbn [json_wf forallb fmap list_fmap fst].
  rewrite !json_wf_of_opt_str. reflexivity.
Qed.

Lemma json_wf_document (w : Workflow) :
  json_wf (bytecode_document (workflow_name w) (workflow_to_ir w)
                             (notify_dict <$> notifies w)) = true.
Proof.
  assert (forallb json_wf (workflow_to_ir w) = true) as Hir
    by apply forallb_fmap_true, json_wf_instr_of.
  assert (forallb json_wf (notify_dict <$> notifies w) = true) as Hn
    by apply forallb_fmap_true, json_wf_notify_dict.
  apply json_wf_obj_intro.
  - unfold bytecode_document.
    destruct (notify_dict <$> notifies w); apply (bool_decide_unpack _);
      vm_compute; exact I.
  - intros k v Hin. unfold bytecode_document in Hin.
    destruct (notify_dict <$> notifies w) as [|n l]; simpl in Hin;
      repeat (apply elem_of_cons in Hin as [[= -> ->]|Hin]);
      try done; by apply not_elem_of_nil in Hin.
Qed.

Lemma as_names_of_names (l : list string) : as_names (JList (JStr <$> l)) = l.
Proof.
  unfold as_names. cbn [as_list]. induction l as [|x l IH]; [done|].
  simpl. f_equal. exact IH.
Qed.

Lemma as_str_of_opt_str (o : option string) : as_str (of_opt_str o) = o.
Proof. by destruct o. Qed.

(** The [Step] the VM builds of an instruction is the step the instruction
    was made of. *)
Lemma step_of_raw_instr_of (s : Step) : vm.step_of_raw (instr_of s) = s.
Proof.
  destruct s as [n r t k deps h]. unfold vm.step_of_raw. f_equal.
  - exact (as_str_of_opt_str r).
  - exact (as_str_of_opt_str t).
  - exact (as_names_of_names deps).
  - exact (as_str_of_opt_str h).
Qed.

Lemma steps_raw_document (workflow_name : string) (ir notifies : list json) :
  vm.steps_raw (bytecode_document workflow_name ir notifies) = ir.
Proof. reflexivity. Qed.

Lemma step_objs_document (w : Workflow) (notifies : list json) :
  vm.step_objs (bytecode_document (workflow_name w) (workflow_to_ir w) notifies)
  = steps w.
Proof.
  unfold vm.step_objs. rewrite steps_raw_document. unfold workflow_to_ir.
  rewrite <- list_fmap_compose. rewrite <- (list_fmap_id (steps w)) at 2.
  apply list_fmap_ext. intros i s _. apply step_of_raw_instr_of.
Qed.

Lemma vm_add_steps_known (known : gset string) (objs : list Step)
    (g : graph_t) :
  (∀ n d, (n, d) ∈ edges objs → d ∈ known) →
  vm.add_steps known objs g = Return (add_edges_of g (edges objs)).
Proof.
  intros Hk. pose proof (vm_add_steps_spec known objs g) as H.
  destruct (vm.add_steps known objs g) as [g'|e|]; [|..|done].
  - by destruct H as [-> _].
  - destruct H as (n & d & Hin & Hd & _). by apply Hk in Hin.
Qed.

Lemma check_missing_loop_inv (names : gset string) (steps : list Step) :
  check_missing_loop names steps = Return () →
  ∀ s d, s ∈ steps → d ∈ depends_on s → d ∈ names.
Proof.
  induction steps as [|s steps IH]; simpl; [set_solver|].
  destruct (first_missing names (depends_on s)) eqn:Hfm; [done|].
  intros H s' d [->|Hs']%elem_of_cons; [|by apply IH].
  by apply first_missing_None.
Qed.

(** A workflow that passes the analyzer has unique step names and no missing
    dependency. *)
Lemma semantic_check_inv (w : Workflow) (order : list string) :
  semantic_check w = Return order →
  unique_names (steps w) ∧ resolved (steps w).
Proof.
  rewrite semantic_check_unfold.
  destruct (check_duplicates (steps w)) as [[]|e|] eqn:Hdup; [|done..].
  destruct (check_missing_dependencies (steps w)) as [[]|e|] eqn:Hmiss;
    [|done..].
  intros _. split.
  - destruct (decide (unique_names (steps w))) as [|Hn]; [done|].
    destruct (check_duplicates_raise _ Hn) as [n Hr]. congruence.
  - intros s d Hs Hd.
    pose proof (check_missing_loop_inv _ _ Hmiss s d Hs Hd) as H.
    by apply elem_of_list_to_set in H.
Qed.

Lemma instr_name_instr_of (s : Step) :
  runtime_parallel.instr_name (instr_of s) = name s.
Proof. reflexivity. Qed.

Lemma name_to_instr_unique (l : list Step) (s : Step) :
  NoDup (name <$> l) → s ∈ l →
  runtime_parallel.name_to_instr (instr_of <$> l) !! name s
  = Some (instr_of s).
Proof.
  induction l as [|s' l IH] using rev_ind; intros Hnd Hs;
    [by apply not_elem_of_nil in Hs|].
  rewrite fmap_app in Hnd. rewrite fmap_app. simpl.
  rewrite name_to_instr_snoc.
  rewrite instr_name_instr_of.
  apply NoDup_app in Hnd as (Hnd & Hdisj & _).
  apply elem_of_app in Hs as [Hs|Hs%list_elem_of_singleton].
  - rewrite lookup_insert_ne; [by apply IH|].
    intros Heq. apply (Hdisj (name s)); [|rewrite <- Heq; simpl; by left].
    apply list_elem_of_fmap. eauto.
  - subst s'. by simplify_map_eq.
Qed.

Lemma edges_cons (s : Step) (l : list Step) :
  edges (s :: l) = ((λ d, (name s, d)) <$> depends_on s) ++ edges l.
Proof. reflexivity. Qed.

(** The graph [ParallelRuntime] builds of the instruction list of a workflow
    with unique names has the edges of the steps. *)
Lemma rt_edges_workflow (w : Workflow) :
  unique_names (steps w) →
  runtime_parallel.steps (workflow_to_ir w) = list_to_set (name <$> steps w)
  ∧ rt_edges (workflow_to_ir w) = edges (steps w).
Proof.
  intros Hun. unfold workflow_to_ir.
  assert (runtime_parallel.instr_name <$> (instr_of <$> steps w)
          = name <$> steps w) as Hnames.
  { rewrite <- list_fmap_compose. apply list_fmap_ext. by intros i s _. }
  split.
  - apply set_eq. intros n. rewrite elem_of_rt_steps, Hnames.
    by rewrite elem_of_list_to_set.
  - unfold rt_edges, rt_objs, runtime_parallel.instr_keys. rewrite Hnames.
    rewrite first_occurrences_NoDup by (done || set_solver).
    assert (∀ l, (∀ s, s ∈ l → s ∈ steps w) →
              edges ((λ k, mkStep k None None 0
                             (rt_deps (instr_of <$> steps w) k) None)
                     <$> (name <$> l))
              = edges l) as H.
    { induction l as [|s l IH]; intros Hl; [done|].
      rewrite !fmap_cons, !edges_cons, IH
        by (intros s' Hs'; apply Hl; by right).
      cbn [name depends_on]. f_equal.
      unfold rt_deps, runtime_parallel.instr_of_name.
      rewrite name_to_instr_unique by (done || apply Hl; by left).
      f_equal. exact (as_names_of_names (depends_on s)). }
    by apply H.
Qed.

(** C7.  For a workflow that the analyzer accepts, take the instruction list
    [workflow_to_ir] makes of it and the file [emit_bytecode] writes of it,
    with the notifiers as [cli.py] passes them.  Provided [json.load] gives
    back the document [json.dump] was given, [load_bytecode] of that file
    succeeds; the step list of the loaded bytecode is the instruction list
    that was serialized; the steps the VM makes of it, with its defaults for
    missing fields, are the steps of the workflow; and [_build_graph] of the
    loaded bytecode succeeds with the adjacency and the counters that
    [ParallelRuntime] derives from the instruction list itself, which are
    those of the dependencies of the steps. *)
Theorem bytecode_round_trip (file : Type) (json_dump : json → file)
    (json_load : file → option json) (w : Workflow) (order : list string) :
  (∀ v, json_wf v = true → json_load (json_dump v) = Some v) →
  semantic_check w = Return order →
  ∃ bytecode,
    load_bytecode file json_load
      (emit_bytecode file json_dump (workflow_name w) (workflow_to_ir w)
                     (notify_dict <$> notifies w))
    = Some bytecode
    ∧ do_emit_bytecode file json_dump w
      = Return (emit_bytecode file json_dump (workflow_name w)
                  (workflow_to_ir w) (notify_dict <$> notifies w))
    ∧ vm.steps_raw bytecode = workflow_to_ir w
    ∧ vm.step_objs bytecode = steps w
    ∧ vm._build_graph bytecode
      = Return (runtime_parallel.build_graph (workflow_to_ir w))
    ∧ runtime_parallel.build_graph (workflow_to_ir w)
      = add_edges_of (empty_graph (list_to_set (name <$> steps w)))
                     (edges (steps w)).
Proof.
  intros Hcodec Hcheck.
  destruct (semantic_check_inv w order Hcheck) as [Hun Hres].
  destruct (rt_edges_workflow w Hun) as [Hsteps Hedges].
  exists (bytecode_document (workflow_name w) (workflow_to_ir w)
            (notify_dict <$> notifies w)).
  assert (runtime_parallel.build_graph (workflow_to_ir w)
          = add_edges_of (empty_graph (list_to_set (name <$> steps w)))
                         (edges (steps w))) as Hrt
    by (by rewrite rt_build_graph_edges, Hsteps, Hedges).
  split_and!.
  - unfold load_bytecode, emit_bytecode. apply Hcodec, json_wf_document.
  - unfold do_emit_bytecode. by rewrite Hcheck.
  - apply steps_raw_document.
  - apply step_objs_document.
  - unfold vm._build_graph, vm.steps_set. rewrite step_objs_document, Hrt.
    apply vm_add_steps_known.
    intros n d (s & Hs & _ & Hd)%elem_of_edges.
    apply elem_of_list_to_set. by eapply Hres.
  - done.
Qed.

Lemma bytecode_round_trip_witness :
  ∃ bytecode,
    load_bytecode json Some
      (emit_bytecode json id "w"
         (workflow_to_ir (mkWorkflow "w" [] [] linear_steps [])) [])
    = Some bytecode
    ∧ vm.step_objs bytecode = linear_steps.
Proof.
  destruct (bytecode_round_trip json id Some
              (mkWorkflow "w" [] [] linear_steps []) ["a"; "b"]%string)
    as (bytecode & Hload & _ & _ & Hobjs & _).
  - done.
  - vm_compute. reflexivity.
  - exists bytecode. split; done.
Defined.

(** * Further properties of the analyzer *)

(** ** [check_duplicates] *)

Lemma check_duplicates_loop_spec (names : gset string) (steps : list Step)
    (n : string) :
  check_duplicates_loop names steps = Raise (DuplicateStepName n)
  ↔ ∃ pre s post,
      steps = pre ++ s :: post ∧ name s = n
      ∧ NoDup (name <$> pre) ∧ (∀ x, x ∈ pre → name x ∉ names)
      ∧ (n ∈ names ∨ n ∈ name <$> pre).
Proof.
  revert names. induction steps as [|s steps IH]; intros names; simpl.
  - split; [done|]. intros (pre & s & post & Heq & _).
    by destruct pre.
  - destruct (decide (name s ∈ names)) as [Hs|Hs].
    + split.
      * intros [= <-]. exists [], s, steps.
        split_and!; [done|done|constructor|set_solver|by left].
      * intros (pre & s' & post & Heq & <- & Hnd & Hdisj & Hin).
        destruct pre as [|x pre]; simpl in Heq.
        -- by injection Heq as <- _.
        -- injection Heq as <- _. exfalso. apply (Hdisj s); [by left|done].
    + rewrite IH. split.
      * intros (pre & s' & post & -> & <- & Hnd & Hdisj & Hin).
        exists (s :: pre), s', post. split_and!; [done|done| | |].
        -- rewrite fmap_cons. constructor; [|done].
           intros (x & Heq & Hx)%list_elem_of_fmap.
           apply (Hdisj x Hx). rewrite <- Heq. set_solver.
        -- intros x [->|Hx]%elem_of_cons; [done|].
           specialize (Hdisj x Hx). set_solver.
        -- rewrite fmap_cons. set_solver.
      * intros (pre & s' & post & Heq & <- & Hnd & Hdisj & Hin).
        destruct pre as [|x pre]; simpl in Heq.
        -- injection Heq as <- _. exfalso. set_solver.
        -- injection Heq as <- ->. rewrite fmap_cons in Hnd, Hin.
           apply NoDup_cons in Hnd as [Hx Hnd].
           exists pre, s', post. split_and!; [done|done|done| |].
           ++ intros y Hy [Heq%elem_of_singleton|Hn]%elem_of_union.
              ** apply Hx. rewrite <- Heq. apply list_elem_of_fmap. eauto.
              ** apply (Hdisj y); [by right|done].
           ++ destruct Hin as [Hin|[Hin|Hin]%elem_of_cons];
                [set_solver|left; set_solver|by right].
Qed.

Lemma check_duplicates_cases (steps : list Step) :
  check_duplicates steps = Return ()
  ∨ ∃ n, check_duplicates steps = Raise (DuplicateStepName n).
Proof.
  destruct (decide (unique_names steps)) as [H|H];
    [left; by apply check_duplicates_ok
    |right; by apply check_duplicates_raise].
Qed.

(** X1.  [check_duplicates] accepts exactly the step lists without a repeated
    name; otherwise the error names the first step, in the order of the
    list, whose name was already used by an earlier step. *)
Theorem check_duplicates_first_repeat (steps : list Step) :
  (check_duplicates steps = Return () ↔ unique_names steps)
  ∧ (∀ n, check_duplicates steps = Raise (DuplicateStepName n)
          ↔ ∃ pre s post,
              steps = pre ++ s :: post ∧ name s = n
              ∧ NoDup (name <$> pre) ∧ n ∈ name <$> pre)
  ∧ (check_duplicates steps = Return ()
     ∨ ∃ n, check_duplicates steps = Raise (DuplicateStepName n)).
Proof.
  pose proof (check_duplicates_cases steps) as Hor.
  split_and!; [|
              |done].
  - split; [|apply check_duplicates_ok].
    intros Hret. destruct (decide (unique_names steps)) as [|H]; [done|].
    destruct (check_duplicates_raise steps H) as [n Hn]. congruence.
  - intros n. unfold check_duplicates. rewrite check_duplicates_loop_spec.
    split.
    + intros (pre & s & post & ? & ? & ? & _ & [?|?]); [set_solver|].
      by exists pre, s, post.
    + intros (pre & s & post & ? & ? & ? & ?). exists pre, s, post.
      split_and!; [done..|set_solver|by right].
Qed.

(** ** [check_missing_dependencies] *)

Lemma first_missing_Some (names : gset string) (deps : list string)
    (d : string) :
  first_missing names deps = Some d
  ↔ ∃ dpre dpost, deps = dpre ++ d :: dpost
                  ∧ (∀ x, x ∈ dpre → x ∈ names) ∧ (d ∉ names).
Proof.
  induction deps as [|x deps IH]; simpl.
  - split; [done|]. intros (dpre & dpost & Heq & _). by destruct dpre.
  - destruct (decide (x ∈ names)) as [Hx|Hx].
    + rewrite IH. split.
      * intros (dpre & dpost & -> & Hall & Hd). exists (x :: dpre), dpost.
        split_and!; [done| |done].
        intros y [->|?]%elem_of_cons; [done|by apply Hall].
      * intros (dpre & dpost & Heq & Hall & Hd).
        destruct dpre as [|y dpre]; simpl in Heq.
        -- injection Heq as -> _. done.
        -- injection Heq as -> ->. exists dpre, dpost.
           split_and!; [done| |done]. intros z Hz. apply Hall. by right.
    + split.
      * intros [= <-]. exists [], deps. split_and!; [done| |done].
        by intros y ?%not_elem_of_nil.
      * intros (dpre & dpost & Heq & Hall & Hd).
        destruct dpre as [|y dpre]; simpl in Heq.
        -- by injection Heq as -> _.
        -- injection Heq as -> _. exfalso. apply Hx, Hall. by left.
Qed.

Lemma check_missing_loop_spec (names : gset string) (steps : list Step)
    (n d : string) :
  check_missing_loop names steps = Raise (MissingDependency n d)
  ↔ ∃ pre s post dpre dpost,
      steps = pre ++ s :: post ∧ name s = n
      ∧ (∀ x y, x ∈ pre → y ∈ depends_on x → y ∈ names)
      ∧ depends_on s = dpre ++ d :: dpost
      ∧ (∀ y, y ∈ dpre → y ∈ names) ∧ (d ∉ names).
Proof.
  induction steps as [|s steps IH]; simpl.
  - split; [done|]. intros (pre & s & post & ? & ? & Heq & _).
    by destruct pre.
  - destruct (first_missing names (depends_on s)) as [d'|] eqn:Hfm.
    + pose proof Hfm as Hfm'.
      apply first_missing_Some in Hfm' as (dpre & dpost & Hdeps & Hall & Hd).
      split.
      * intros [= <- <-]. exists [], s, steps, dpre, dpost.
        split_and!; try done. by intros x y ?%not_elem_of_nil.
      * intros (pre & s' & post & dpre' & dpost' & Heq & <- & Hpre & Hdeps'
                & Hall' & Hd').
        destruct pre as [|x pre]; simpl in Heq.
        -- injection Heq as <- _. f_equal. f_equal.
           assert (first_missing names (depends_on s) = Some d) as Hfm2
             by (apply first_missing_Some; eauto).
           congruence.
        -- injection Heq as <- _. exfalso.
           apply Hd, (Hpre s d'); [by left|]. rewrite Hdeps. set_solver.
    + rewrite IH. rewrite first_missing_None in Hfm. split.
      * intros (pre & s' & post & dpre & dpost & -> & <- & Hpre & Hdeps
                & Hall & Hd).
        exists (s :: pre), s', post, dpre, dpost.
        split_and!; try done.
        intros x y [->|Hx]%elem_of_cons Hy; [by apply Hfm|by eapply Hpre].
      * intros (pre & s' & post & dpre & dpost & Heq & <- & Hpre & Hdeps
                & Hall & Hd).
        destruct pre as [|x pre]; simpl in Heq.
        -- injection Heq as <- _. exfalso. apply Hd, Hfm. rewrite Hdeps.
           set_solver.
        -- injection Heq as <- ->. exists pre, s', post, dpre, dpost.
           split_and!; try done. intros y z Hy. apply Hpre. by right.
Qed.

(** Every dependency of a step of [pre] names a step of [steps]. *)
Definition resolved_in (steps pre : list Step) : Prop :=
  ∀ x y, x ∈ pre → y ∈ depends_on x → y ∈ name <$> steps.

(** X2.  [check_missing_dependencies] accepts exactly the step lists in which
    every dependency names a step of the list; otherwise the error names the
    first step, in the order of the list, that has such a dependency, and
    the first such dependency of that step. *)
Theorem check_missing_dependencies_first (steps : list Step) :
  (check_missing_dependencies steps = Return () ↔ resolved steps)
  ∧ (∀ n d, check_missing_dependencies steps = Raise (MissingDependency n d)
            ↔ ∃ pre s post dpre dpost,
                steps = pre ++ s :: post ∧ name s = n
                ∧ resolved_in steps pre
                ∧ depends_on s = dpre ++ d :: dpost
                ∧ (∀ y, y ∈ dpre → y ∈ name <$> steps)
                ∧ (d ∉ name <$> steps)).
Proof.
  split.
  - split; [|apply check_missing_dependencies_ok].
    intros H s d Hs Hd.
    pose proof (check_missing_loop_inv _ _ H s d Hs Hd) as Hin.
    by apply elem_of_list_to_set in Hin.
  - intros n d. unfold check_missing_dependencies.
    rewrite check_missing_loop_spec. unfold resolved_in.
    split; intros (pre & s & post & dpre & dpost & ? & ? & Hpre & ? & Hall
                   & Hd);
      exists pre, s, post, dpre, dpost; (split_and!; try done).
    + intros x y Hx Hy. specialize (Hpre x y Hx Hy).
      by apply elem_of_list_to_set in Hpre.
    + intros y Hy. specialize (Hall y Hy). by apply elem_of_list_to_set in Hall.
    + by rewrite elem_of_list_to_set in Hd.
    + intros x y Hx Hy. apply elem_of_list_to_set. by eapply Hpre.
    + intros y Hy. apply elem_of_list_to_set. by apply Hall.
    + by rewrite elem_of_list_to_set.
Qed.

(** ** [detect_cycle] and [build_dag] on arbitrary step lists *)

(** The order Kahn's algorithm emits has the length of the step list only
    when the names are unique and every dependency names a step. *)
Lemma kahn_full_length (steps : list Step) (o : list string) :
  canonical (graph_of steps) o → length o = length steps →
  unique_names steps ∧ resolved steps.
Proof.
  intros Hcan Hlen.
  assert (o ⊆+ graph_keys steps) as Hsub.
  { apply NoDup_submseteq; [by eapply canonical_NoDup|].
    intros x Hx. eapply elem_of_graph_keys, canonical_in_graph; done. }
  pose proof (submseteq_length _ _ Hsub) as Hle.
  pose proof (graph_keys_length steps) as Hle'.
  assert (unique_names steps) as Hun.
  { unfold unique_names.
    assert (graph_keys steps ⊆+ name <$> steps) as Hk.
    { apply NoDup_submseteq; [apply graph_keys_NoDup|].
      intros x. rewrite elem_of_graph_keys. apply graph_of_is_Some. }
    rewrite <- (submseteq_length_Permutation _ _ Hk);
      [apply graph_keys_NoDup|rewrite length_fmap; lia]. }
  split; [done|]. intros s d Hs Hd.
  assert (name s ∈ o) as Hso.
  { apply (canonical_length steps o Hun Hcan); [done|].
    apply list_elem_of_fmap. eauto. }
  apply list_elem_of_split in Hso as (pre & post & ->).
  destruct (Hcan pre (name s) post eq_refl) as [(_ & ds & Hds & Hsub') _].
  rewrite graph_of_lookup_unique in Hds by done. injection Hds as <-.
  assert (d ∈ pre) as Hdpre by set_solver.
  apply graph_of_is_Some. eapply canonical_in_graph; [done|].
  set_solver.
Qed.

Lemma detect_cycle_cases (steps : list Step) :
  (detect_cycle steps = Return ()
   ↔ unique_names steps ∧ resolved steps ∧ acyclic steps)
  ∧ (detect_cycle steps = Return ()
     ∨ detect_cycle steps = Raise CycleDetected)
  ∧ ((∃ o, build_dag steps = Return o) ↔ detect_cycle steps = Return ())
  ∧ ((∃ o, build_dag steps = Return o)
     ∨ build_dag steps = Raise CycleBuildingDag).
Proof.
  destruct (kahn_spec steps) as (o & Hk & Hcan & Hex).
  unfold detect_cycle, build_dag. rewrite Hk.
  destruct (decide (length o ≠ length steps)) as [Hne|Heq%dec_stable].
  - split_and!; [|by right| |by right].
    + split; [done|]. intros (Hun & Hres & Hacyc). exfalso. apply Hne.
      apply canonical_length; [done..|]. by apply kahn_complete.
    + split; [by intros [? ?]|done].
  - split_and!; [|by left| |left; eauto].
    + split; [intros _|done].
      destruct (kahn_full_length steps o Hcan Heq) as [Hun Hres].
      split_and!; [done..|]. apply (kahn_sound steps o); [done..|].
      by apply canonical_length.
    + split; [done|eauto].
Qed.

(** X3.  Called on any step list, [detect_cycle] returns normally exactly
    when the names are unique, every dependency names a step and the
    dependencies are acyclic; in every other case it raises its cycle error,
    also when a repeated name or a missing dependency, not a cycle, is what
    is wrong.  [build_dag] returns an order in exactly the same cases. *)
Theorem detect_cycle_accepts (steps : list Step) :
  (detect_cycle steps = Return ()
   ↔ unique_names steps ∧ resolved steps ∧ acyclic steps)
  ∧ (detect_cycle steps = Return ()
     ∨ detect_cycle steps = Raise CycleDetected)
  ∧ ((∃ o, build_dag steps = Return o) ↔ detect_cycle steps = Return ())
  ∧ ((∃ o, build_dag steps = Return o)
     ∨ build_dag steps = Raise CycleBuildingDag).
Proof. apply detect_cycle_cases. Qed.

(** ** What [semantic_check] returns *)

Lemma check_banned_commands_cases (steps : list Step) :
  check_banned_commands steps = Return ()
  ∨ ∃ n pat, check_banned_commands steps = Raise (BannedPattern n pat).
Proof.
  induction steps as [|s l IH]; [by left|].
  rewrite check_banned_commands_cons.
  destruct (run s) as [cmd|]; [|done].
  destruct (decide (cmd = EmptyString)); [done|].
  destruct (first_banned BANNED_PATTERNS cmd); [right; eauto|done].
Qed.

Lemma check_missing_dependencies_cases (steps : list Step) :
  check_missing_dependencies steps = Return ()
  ∨ ∃ s d, check_missing_dependencies steps = Raise (MissingDependency s d).
Proof.
  unfold check_missing_dependencies.
  generalize (list_to_set (name <$> steps) : gset string). intros names.
  induction steps as [|s l IH]; simpl; [by left|].
  destruct (first_missing names (depends_on s)); [right; eauto|done].
Qed.


Lemma semantic_check_facts (w : Workflow) :
  (∀ o, semantic_check w = Return o →
        unique_names (steps w) ∧ resolved (steps w) ∧ acyclic (steps w)
        ∧ (∀ s, s ∈ steps w → ¬ banned_step s)
        ∧ o ≡ₚ name <$> steps w
        ∧ ∀ n d, depends (steps w) n d → before o d n)
  ∧ semantic_check w ≠ Raise CycleBuildingDag
  ∧ semantic_check w ≠ OutOfFuel.
Proof.
  rewrite semantic_check_unfold.
  destruct (detect_cycle_cases (steps w)) as (Hdc & Hdc' & Hbd & Hbd').
  destruct (check_duplicates_cases (steps w)) as [Hcd|[n Hcd]];
    rewrite Hcd; simpl; [|split_and!; done].
  destruct (check_missing_dependencies_cases (steps w))
    as [Hmiss|(s & d & Hmiss)]; rewrite Hmiss; simpl; [|split_and!; done].
  destruct Hdc' as [Hret|Hraise]; [|rewrite Hraise; simpl; split_and!; done].
  rewrite Hret. simpl.
  destruct (proj1 Hdc Hret) as (Hun & Hres & Hacyc).
  destruct (proj2 Hbd Hret) as [o Ho].
  destruct (check_banned_commands_cases (steps w)) as [Hb|(n & pat & Hb)];
    [|rewrite Hb; simpl; split_and!; done].
  rewrite Hb, Ho. simpl. split_and!; [|done..].
  intros o' [= <-].
  destruct (kahn_spec (steps w)) as (o' & Hk & Hcan & Hex).
  assert (o' = o) as ->.
  { unfold build_dag in Ho. rewrite Hk in Ho.
    destruct (decide _) in Ho; congruence. }
  assert (∀ m, m ∈ name <$> steps w → m ∈ o) as Hall
    by (by apply kahn_complete).
  split_and!; [done..| | |].
  - intros s Hs Hbs.
    destruct (check_banned_commands_raise (steps w)) as (n & pat & Hr);
      [eauto|congruence].
  - apply NoDup_Permutation; [by eapply canonical_NoDup|done|].
    intros m. split; [|by apply Hall].
    intros Hm. eapply graph_of_is_Some, canonical_in_graph; done.
  - intros n d Hdep. apply (canonical_before (steps w)); [done..| |done].
    destruct Hdep as (s & Hs & <- & _). apply Hall.
    apply list_elem_of_fmap. eauto.
Qed.

(** X4.  When [semantic_check] returns an order, the workflow has unique
    step names, no missing dependency, no cycle and no banned command; the
    order lists every step name once, each after all of its dependencies.
    The check inside [build_dag] never fires there: [semantic_check] never
    raises the error of [build_dag], and its model never runs out of
    fuel. *)
Theorem semantic_check_returns (w : Workflow) :
  (∀ o, semantic_check w = Return o →
        unique_names (steps w) ∧ resolved (steps w) ∧ acyclic (steps w)
        ∧ (∀ s, s ∈ steps w → ¬ banned_step s)
        ∧ o ≡ₚ name <$> steps w
        ∧ ∀ n d, depends (steps w) n d → before o d n)
  ∧ semantic_check w ≠ Raise CycleBuildingDag
  ∧ semantic_check w ≠ OutOfFuel.
Proof. apply semantic_check_facts. Qed.

Lemma semantic_check_returns_witness :
  ["a"; "b"]%string ≡ₚ name <$> linear_steps.
Proof.
  destruct (semantic_check_returns (mkWorkflow "w" [] [] linear_steps []))
    as (H & _).
  destruct (H ["a"; "b"]%string) as (_ & _ & _ & _ & Hp & _);
    [vm_compute; reflexivity|exact Hp].
Defined.

(** * Further properties of the schedulers *)

(** ** The order of submissions and of status reports *)

(** [x] occurs before [y] in [l]. *)
Definition precedes {A} (l : list A) (x y : A) : Prop :=
  ∃ i j, l !! i = Some x ∧ l !! j = Some y ∧ (i < j)%nat.

Lemma precedes_app_l {A} (l k : list A) (x y : A) :
  precedes l x y → precedes (l ++ k) x y.
Proof.
  intros (i & j & Hi & Hj & Hij). exists i, j.
  split_and!; [by apply lookup_app_l_Some..|done].
Qed.

Lemma precedes_app {A} (l k : list A) (x y : A) :
  x ∈ l → y ∈ k → precedes (l ++ k) x y.
Proof.
  intros (i & Hi)%list_elem_of_lookup (j & Hj)%list_elem_of_lookup.
  exists i, (length l + j)%nat. split_and!.
  - by apply lookup_app_l_Some.
  - rewrite lookup_app_r by lia. by replace (length l + j - length l)%nat
      with j by lia.
  - apply lookup_lt_Some in Hi. lia.
Qed.

Lemma precedes_elem_of {A} (l : list A) (x y : A) :
  precedes l x y → x ∈ l ∧ y ∈ l.
Proof.
  intros (i & j & Hi & Hj & _). split; by eapply list_elem_of_lookup_2.
Qed.

Lemma precedes_trans {A} (l : list A) (x y z : A) :
  NoDup l → precedes l x y → precedes l y z → precedes l x z.
Proof.
  intros Hnd (i & j & Hi & Hj & Hij) (j' & k & Hj' & Hk & Hjk).
  assert (j = j') as <- by (by eapply NoDup_lookup).
  exists i, k. split_and!; [done..|lia].
Qed.

Lemma precedes_irrefl {A} (l : list A) (x : A) :
  NoDup l → ¬ precedes l x x.
Proof.
  intros Hnd (i & j & Hi & Hj & Hij).
  assert (i = j) by (by eapply NoDup_lookup). lia.
Qed.

Section sched_history.
Variable E : list (string * string).

(** What a scheduler keeps about the past: no step both succeeded and
    failed, and every submitted step was submitted after each of its
    dependencies. *)
Record sched_hist (completed failed : gset string) (submitted : list string)
  : Prop := {
  sh_disjoint : ∀ n, n ∈ completed → n ∉ failed;
  sh_order : ∀ n d, n ∈ submitted → (n, d) ∈ E → precedes submitted d n
}.

Lemma sched_hist_finish (completed failed : gset string)
    (submitted nr : list string) (step : string) (ok : bool) :
  sched_hist completed failed submitted →
  step ∉ completed ∪ failed →
  (∀ n d, n ∈ nr → (n, d) ∈ E → d ∈ submitted) →
  sched_hist (if ok then {[step]} ∪ completed else completed)
             (if ok then failed else {[step]} ∪ failed)
             (submitted ++ nr).
Proof.
  intros [Hd Ho] Hstep Hnr. constructor.
  - intros n. destruct ok.
    + intros [->%elem_of_singleton|Hn]%elem_of_union; [set_solver|].
      by apply Hd.
    + intros Hn [->%elem_of_singleton|Hf]%elem_of_union; [set_solver|].
      by apply (Hd n).
  - intros n d [Hn|Hn]%elem_of_app Hnd.
    + by apply precedes_app_l, Ho.
    + apply precedes_app; [by eapply Hnr|done].
Qed.

(** A step on a dependency cycle is never submitted. *)
Lemma sched_hist_cycle (completed failed : gset string)
    (submitted : list string) (n : string) :
  NoDup submitted → sched_hist completed failed submitted →
  tc (λ n d, (n, d) ∈ E) n n → n ∉ submitted.
Proof.
  intros Hnd [_ Ho] Htc Hn.
  assert (∀ x y, tc (λ n d, (n, d) ∈ E) x y → x ∈ submitted →
                 precedes submitted y x) as H.
  { intros x y Hxy. induction Hxy as [x y Hxy|x y z Hxy _ IH]; intros Hx.
    - by apply Ho.
    - pose proof (Ho x y Hx Hxy) as Hyx.
      eapply precedes_trans; [done| |done]. apply IH.
      by apply precedes_elem_of in Hyx as [? _]. }
  by eapply precedes_irrefl, H.
Qed.
End sched_history.

(** *** The status reports of [ParallelVM] *)

(** The reports about step [n], oldest first. *)
Definition reports_of (n : string) (events : list (string * status))
  : list (string * status) :=
  filter (λ e, e.1 = n) events.

Lemma reports_of_app (n : string) (l k : list (string * status)) :
  reports_of n (l ++ k) = reports_of n l ++ reports_of n k.
Proof. apply filter_app. Qed.

Lemma reports_of_queued (n : string) (nr : list string) :
  NoDup nr →
  reports_of n ((λ m, (m, Queued)) <$> nr)
  = if decide (n ∈ nr) then [(n, Queued)] else [].
Proof.
  unfold reports_of. induction nr as [|m nr IH]; intros Hnd; [done|].
  apply NoDup_cons in Hnd as [Hm Hnd]. rewrite fmap_cons, filter_cons.
  cbn [fst]. rewrite IH by done.
  destruct (decide (m = n)) as [->|Hne].
  - rewrite decide_False by done. rewrite decide_True by (by left). done.
  - destruct (decide (n ∈ nr)) as [Hin|Hin].
    + rewrite decide_True by (by right). done.
    + rewrite decide_False; [done|].
      intros [->|?]%elem_of_cons; done.
Qed.

Lemma reports_of_worker (n step : string) (x : status) :
  reports_of n [(step, Running); (step, x)]
  = if decide (step = n) then [(step, Running); (step, x)] else [].
Proof.
  unfold reports_of. rewrite !filter_cons, filter_nil. cbn [fst].
  by destruct (decide (step = n)).
Qed.

Lemma elem_of_reports_of (n : string) (e : string * status)
    (events : list (string * status)) :
  e ∈ reports_of n events ↔ e ∈ events ∧ e.1 = n.
Proof. unfold reports_of. rewrite list_elem_of_filter. tauto. Qed.

Definition terminal (completed : gset string) (n : string) : status :=
  if decide (n ∈ completed) then Succeeded else Failed.

Section vm_reports.
Variable E : list (string * string).

(** Every finished step has its three reports, a submitted step that has
    not finished has been reported queued, other steps have no report, and a
    step was reported queued only after the last report of each of its
    dependencies. *)
Record reports_inv (completed failed : gset string) (submitted : list string)
    (events : list (string * status)) : Prop := {
  ri_done : ∀ n, n ∈ completed ∪ failed →
      reports_of n events
      = [(n, Queued); (n, Running); (n, terminal completed n)];
  ri_wait : ∀ n, n ∈ submitted → n ∉ completed ∪ failed →
      reports_of n events = [(n, Queued)];
  ri_none : ∀ n, n ∉ submitted → reports_of n events = [];
  ri_dep : ∀ n d, (n, Queued) ∈ events → (n, d) ∈ E →
      precedes events (d, terminal completed d) (n, Queued)
}.

Lemma reports_inv_finish (completed failed : gset string)
    (submitted nr nr' : list string) (events : list (string * status))
    (step : string) (ok : bool) :
  reports_inv completed failed submitted events →
  (∀ n, n ∈ completed ∪ failed → n ∈ submitted) →
  step ∈ submitted → step ∉ completed ∪ failed →
  NoDup nr → (∀ n, n ∈ nr → n ∉ submitted) → nr' ≡ₚ nr →
  (∀ n d, n ∈ nr → (n, d) ∈ E → d ∈ {[step]} ∪ (completed ∪ failed)) →
  reports_inv (if ok then {[step]} ∪ completed else completed)
              (if ok then failed else {[step]} ∪ failed)
              (submitted ++ nr')
              ((events ++ [(step, Running);
                           (step, if ok then Succeeded else Failed)])
               ++ ((λ n, (n, Queued)) <$> nr)).
Proof.
  intros [Hdone Hwait Hnone Hdep] Hfs Hstep Hnf Hnd Hfresh Hperm Hdeps.
  set (completed' := if ok then {[step]} ∪ completed else completed).
  set (failed' := if ok then failed else {[step]} ∪ failed).
  assert (completed' ∪ failed' = {[step]} ∪ (completed ∪ failed)) as Hfin
    by (unfold completed', failed'; destruct ok; set_solver).
  assert (terminal completed' step = if ok then Succeeded else Failed) as Hts.
  { unfold terminal, completed'. destruct ok.
    - rewrite decide_True by set_solver. done.
    - rewrite decide_False by set_solver. done. }
  assert (∀ n, n ≠ step → terminal completed' n = terminal completed n)
    as Htn.
  { intros n Hne. unfold terminal, completed'. destruct ok; [|done].
    destruct (decide (n ∈ completed)).
    - rewrite decide_True by set_solver. done.
    - rewrite decide_False by set_solver. done. }
  assert (step ∉ nr) as Hsnr by (intros H; by apply (Hfresh step)).
  assert (∀ n, reports_of n
                 ((events ++ [(step, Running);
                              (step, if ok then Succeeded else Failed)])
                  ++ ((λ n, (n, Queued)) <$> nr))
               = reports_of n events
                 ++ (if decide (step = n)
                     then [(step, Running);
                           (step, if ok then Succeeded else Failed)]
                     else [])
                 ++ (if decide (n ∈ nr) then [(n, Queued)] else []))
    as Hrep.
  { intros n. rewrite !reports_of_app, reports_of_worker,
      reports_of_queued by done. by rewrite <- app_assoc. }
  constructor.
  - intros n. rewrite Hfin, Hrep.
    intros [->%elem_of_singleton|Hn]%elem_of_union.
    + rewrite Hwait by done. rewrite decide_True by done.
      rewrite decide_False by done. rewrite Hts. done.
    + assert (n ≠ step) as Hne by (intros ->; done).
      rewrite Hdone by done. rewrite decide_False by done.
      rewrite decide_False by (intros H; apply (Hfresh n H); by apply Hfs).
      rewrite Htn by done. by rewrite !app_nil_r.
  - intros n Hin. rewrite Hfin, Hrep. intros Hnf'.
    assert (n ≠ step) as Hne by set_solver.
    rewrite decide_False by done.
    apply elem_of_app in Hin as [Hin|Hin].
    + rewrite Hwait by set_solver.
      rewrite decide_False by (intros H; by apply (Hfresh n H)). done.
    + rewrite Hperm in Hin. rewrite Hnone by (by apply Hfresh).
      rewrite decide_True by done. done.
  - intros n Hin. rewrite Hrep.
    assert ((n ∉ submitted) ∧ (n ∉ nr)) as [Hns Hnn].
    { split; intros H; apply Hin, elem_of_app; [by left|right].
      by rewrite Hperm. }
    rewrite Hnone by done.
    rewrite decide_False by (intros <-; done).
    rewrite decide_False by done. done.
  - intros n d Hq Hnd'.
    assert (∀ m, m ∈ completed ∪ failed →
                 (m, terminal completed' m) ∈ events) as Hterm.
    { intros m Hm. assert (m ≠ step) as Hne by (intros ->; done).
      rewrite Htn by done.
      assert ((m, terminal completed m) ∈ reports_of m events) as H
        by (rewrite Hdone by done; set_solver).
      by apply elem_of_reports_of in H as [H _]. }
    apply elem_of_app in Hq as [[Hq|Hq]%elem_of_app|Hq].
    + do 2 apply precedes_app_l.
      assert (n ∈ submitted) as Hns.
      { destruct (decide (n ∈ submitted)) as [|Hns]; [done|].
        assert ((n, Queued) ∈ reports_of n events) as H
          by (by apply elem_of_reports_of).
        rewrite Hnone in H by done. by apply not_elem_of_nil in H. }
      assert (precedes events (d, terminal completed d) (n, Queued)) as Hp
        by (by apply Hdep).
      destruct (decide (d = step)) as [->|Hne]; [|by rewrite Htn].
      exfalso. apply precedes_elem_of in Hp as [Hp _].
      assert ((step, terminal completed step) ∈ reports_of step events) as H
        by (by apply elem_of_reports_of).
      rewrite Hwait in H by done.
      apply list_elem_of_singleton in H. unfold terminal in H.
      by destruct (decide (step ∈ completed)).
    + exfalso. apply elem_of_cons in Hq as [[=]|Hq].
      apply list_elem_of_singleton in Hq. by destruct ok.
    + apply list_elem_of_fmap in Hq as (m & [= <-] & Hm).
      apply precedes_app; [|apply list_elem_of_fmap; eauto].
      specialize (Hdeps n d Hm Hnd').
      apply elem_of_union in Hdeps as [->%elem_of_singleton|Hd].
      * rewrite Hts. apply elem_of_app. right. set_solver.
      * apply elem_of_app. left. by apply Hterm.
Qed.
End vm_reports.

(** *** The history of a run of [ParallelVM] *)

Definition vm_hist (bytecode : json) (st : vm.state) : Prop :=
  sched_hist (vm_edges bytecode) (vm.completed st) (vm.failed st)
             (vm.submitted st)
  ∧ reports_inv (vm_edges bytecode) (vm.completed st) (vm.failed st)
                (vm.submitted st) (vm.events st).

Lemma vm_finish_hist (bytecode : json) (adj : gmap string (list string))
    (step : string) (st : vm.state) (ok : bool) (nr : list string)
    (indeg' : gmap string Z) :
  adj_correct (vm_edges bytecode) adj →
  sched_inv (vm_edges bytecode) (vm.steps_set bytecode) (vm_finished st)
            (vm_finished st) (vm.running_futures st) (vm.indeg st)
            (vm.submitted st) →
  step ∈ vm.running_futures st → vm_hist bytecode st →
  nr = [] ∨ release adj step (vm.indeg st) = (indeg', nr) →
  sched_hist (vm_edges bytecode)
    (if ok then {[step]} ∪ vm.completed st else vm.completed st)
    (if ok then vm.failed st else {[step]} ∪ vm.failed st)
    (vm.submitted st ++ sort nr)
  ∧ reports_inv (vm_edges bytecode)
      (if ok then {[step]} ∪ vm.completed st else vm.completed st)
      (if ok then vm.failed st else {[step]} ∪ vm.failed st)
      (vm.submitted st ++ sort nr)
      ((vm.events st ++ [(step, Running);
                         (step, if ok then Succeeded else Failed)])
       ++ ((λ n, (n, Queued)) <$> nr)).
Proof.
  intros Hadj Hinv Hstep [Hh Hr] Hnr.
  destruct (si_running_sub _ _ _ _ _ _ _ Hinv step Hstep) as [Hsub Hnf].
  unfold vm_finished in *.
  assert (NoDup nr ∧ (∀ n, n ∈ nr → n ∉ vm.submitted st)
          ∧ ∀ n d, n ∈ nr → (n, d) ∈ vm_edges bytecode →
                   d ∈ {[step]} ∪ (vm.completed st ∪ vm.failed st))
    as (Hnd & Hfresh & Hdeps).
  { destruct Hnr as [->|Hrel].
    - split_and!; [constructor|by intros n ?%not_elem_of_nil
                  |by intros n d ?%not_elem_of_nil].
    - destruct (release_spec (vm_edges bytecode) adj (vm.indeg st)
                  (vm.completed st ∪ vm.failed st) step (Hadj step) Hnf
                  (si_indeg _ _ _ _ _ _ _ Hinv))
        as (indeg2 & nr2 & Hrel2 & _ & Hnd & Hnr2).
      rewrite Hrel in Hrel2. injection Hrel2 as <- <-.
      split_and!; [done| |].
      + intros n [_ Hn]%Hnr2 Hin. apply Hn.
        by apply (si_ready _ _ _ _ _ _ _ Hinv).
      + intros n d [H0 _]%Hnr2 Hd. by eapply pending_zero. }
  assert (sort nr ≡ₚ nr) as Hperm by apply merge_sort_Permutation.
  split.
  - apply sched_hist_finish; [done|done|].
    intros n d Hn Hd. rewrite Hperm in Hn.
    specialize (Hdeps n d Hn Hd).
    apply elem_of_union in Hdeps as [->%elem_of_singleton|Hd']; [done|].
    by apply (si_finished_sub _ _ _ _ _ _ _ Hinv).
  - apply reports_inv_finish; try done.
    apply (si_finished_sub _ _ _ _ _ _ _ Hinv).
Qed.

Lemma vm_handle_completion_hist (env : vm.environment) (bytecode : json)
    (adj : gmap string (list string)) (tick : nat) (step : string)
    (st : vm.state) :
  adj_correct (vm_edges bytecode) adj →
  vm_inv bytecode st → vm_live bytecode st → step ∈ vm.running_futures st →
  vm_hist bytecode st →
  match vm.handle_completion env bytecode adj tick step st with
  | inr st' | inl st' => vm_hist bytecode st'
  end.
Proof.
  intros Hadj [Hsched _] Hlive Hstep Hhist.
  rewrite (vm_live_released bytecode st Hlive) in Hsched.
  unfold vm.handle_completion. cbn [vm.cancelled].
  destruct (vm_execute_step_events env bytecode (vm.cancelled st) step)
    as (ok & calls & ->).
  cbn [vm.completed vm.failed vm.running_futures vm.cancelled vm.indeg
       vm.events vm.notifications_log vm.submitted].
  assert (∀ s1, vm.running_futures s1
                = remove_first step (vm.running_futures st) →
            vm.indeg s1 = vm.indeg st →
            vm.submitted s1 = vm.submitted st →
            vm.events s1
            = vm.events st ++ [(step, Running);
                               (step, if ok then Succeeded else Failed)] →
            vm.completed s1
            = (if ok then {[step]} ∪ vm.completed st else vm.completed st) →
            vm.failed s1
            = (if ok then vm.failed st else {[step]} ∪ vm.failed st) →
            vm_hist bytecode (vm.release_successors adj step s1)) as Hrel.
  { intros s1 Hrun Hind Hsub Hev Hc Hf.
    destruct (vm_release_successors_spec bytecode adj step (vm_finished st)
                (vm_finished st) (vm.running_futures st) (vm.submitted st)
                s1 Hadj) as (indeg' & nr & Hr & -> & _); try done.
    { by rewrite Hind. }
    { unfold vm_finished. rewrite Hc, Hf. destruct ok; set_solver. }
    unfold vm_hist. cbn [vm.completed vm.failed vm.submitted vm.events].
    rewrite Hc, Hf, Hev. rewrite Hind in Hr.
    eapply vm_finish_hist; eauto. }
  assert (vm_hist bytecode
            (vm.mkState (vm.completed st) ({[step]} ∪ vm.failed st) [] true
               (vm.indeg st)
               (vm.events st ++ [(step, Running); (step, Failed)])
               (vm.notifications_log st) (vm.submitted st))) as Habort.
  { unfold vm_hist. cbn [vm.completed vm.failed vm.submitted vm.events].
    destruct (vm_finish_hist bytecode adj step st false [] ∅ Hadj Hsched
                Hstep Hhist) as [H1 H2]; [by left|].
    cbn [fmap list_fmap] in H2.
    change (sort []) with (@nil string) in H1, H2.
    rewrite app_nil_r in H1. rewrite !app_nil_r in H2. done. }
  destruct ok.
  - by apply Hrel.
  - destruct (as_str (dict_get (vm.raw_of bytecode step) "on_error" JNull))
      as [h|]; [|done].
    destruct (decide (h = EmptyString)); [done|]. by apply Hrel.
Qed.

Lemma vm_for_done_hist (env : vm.environment) (bytecode : json)
    (adj : gmap string (list string)) :
  adj_correct (vm_edges bytecode) adj →
  ∀ n tick snapshot st,
    vm_inv bytecode st → vm_live bytecode st → vm_hist bytecode st →
    NoDup snapshot →
    (∀ x, x ∈ snapshot → x ∈ vm.running_futures st) →
    n = length snapshot →
    vm_hist bytecode (vm.for_done env bytecode adj n tick snapshot st).1.2.
Proof.
  intros Hadj. induction n as [|n IH];
    intros tick snapshot st Hinv Hlive Hhist Hnd Hsnap Hlen; simpl; [done|].
  set (i := (vm.as_completed env tick snapshot `mod` length snapshot)%nat).
  assert (i < length snapshot)%nat as Hi
    by (apply Nat.mod_upper_bound; lia).
  destruct (lookup_lt_is_Some_2 snapshot i Hi) as [step Hstep].
  rewrite Hstep.
  assert (step ∈ vm.running_futures st) as Hrun
    by (apply Hsnap; by eapply list_elem_of_lookup_2).
  pose proof (vm_handle_completion_spec env bytecode adj tick step st
                Hadj Hinv Hlive Hrun) as Hh.
  pose proof (vm_handle_completion_hist env bytecode adj tick step st
                Hadj Hinv Hlive Hrun Hhist) as Hh'.
  destruct (vm.handle_completion env bytecode adj tick step st)
    as [s|s]; [done|].
  destruct Hh as (Hinv' & Hlive' & _ & Hkeep).
  destruct (delete_NoDup_spec snapshot i step Hnd Hstep)
    as (Hnd' & Hlen' & Hin').
  apply IH; [done..| |lia].
  intros x' [Hx' Hne]%Hin'. apply Hkeep; [|done]. by apply Hsnap.
Qed.

Lemma vm_while_running_hist (env : vm.environment) (bytecode : json)
    (adj : gmap string (list string)) :
  adj_correct (vm_edges bytecode) adj →
  ∀ fuel tick st x st',
    vm_inv bytecode st → vm_live bytecode st → vm_hist bytecode st →
    vm.while_running env bytecode adj fuel tick st = Some (x, st') →
    vm_hist bytecode st'.
Proof.
  intros Hadj. induction fuel as [|fuel IH];
    intros tick st x st' Hinv Hlive Hhist;
    (destruct (decide (vm.running_futures st = [])) as [Hrun|Hrun];
     [rewrite vm_while_running_done by done; by intros [= _ <-]|]).
  - cbn [vm.while_running]. by destruct (vm.running_futures st).
  - rewrite vm_while_running_step by done.
    pose proof (vm_for_done_spec env bytecode adj Hadj
                  (length (vm.running_futures st)) tick
                  (vm.running_futures st) st Hinv Hlive
                  (si_running _ _ _ _ _ _ _ (vi_sched _ _ Hinv))
                  (λ x H, H) eq_refl) as Hfor.
    pose proof (vm_for_done_hist env bytecode adj Hadj
                  (length (vm.running_futures st)) tick
                  (vm.running_futures st) st Hinv Hlive Hhist
                  (si_running _ _ _ _ _ _ _ (vi_sched _ _ Hinv))
                  (λ x H, H) eq_refl) as Hfh.
    destruct (vm.for_done env bytecode adj (length (vm.running_futures st))
                tick (vm.running_futures st) st) as [[[y|] s] tick''];
      simpl in Hfh.
    + by intros [= _ <-].
    + destruct Hfor as (Hinv' & Hlive' & _).
      destruct (vm.cancel_requested env tick'' s).
      * by intros [= _ <-].
      * by apply IH.
Qed.

Lemma vm_start_hist (bytecode : json) (adj : gmap string (list string))
    (indeg : gmap string Z) :
  vm._build_graph bytecode = Return (adj, indeg) →
  let ready := filter (λ n, indeg !! n = Some 0)
                      (elements (vm.steps_set bytecode)) in
  ∀ running,
    vm_hist bytecode
      (vm.mkState ∅ ∅ running false indeg
         ((λ n, (n, Queued)) <$> ready) EmptyString (sort ready)).
Proof.
  intros Hgeq ready running.
  pose proof (vm_build_graph_spec bytecode) as Hg.
  rewrite Hgeq in Hg. destruct Hg as (Hadj & Hind & Hdom).
  assert (sort ready ≡ₚ ready) as Hperm by apply merge_sort_Permutation.
  assert (NoDup ready) as Hnd by apply NoDup_filter, NoDup_elements.
  assert (∀ n d, n ∈ ready → (n, d) ∈ vm_edges bytecode → False) as Hnone.
  { intros n d [Hz _]%list_elem_of_filter Hd.
    assert (pending (vm_edges bytecode) ∅ n = 0%nat) as H0.
    { specialize (Hind n). unfold counter in Hind. rewrite Hz in Hind.
      simpl in Hind. lia. }
    pose proof (pending_zero _ _ _ _ H0 Hd) as Hin.
    by apply not_elem_of_empty in Hin. }
  split; cbn [vm.completed vm.failed vm.submitted vm.events].
  - constructor; [set_solver|].
    intros n d Hn Hd. rewrite Hperm in Hn. by destruct (Hnone n d).
  - constructor.
    + intros n Hn. set_solver.
    + intros n Hn _. rewrite Hperm in Hn. rewrite reports_of_queued by done.
      by rewrite decide_True.
    + intros n Hn. rewrite Hperm in Hn. rewrite reports_of_queued by done.
      by rewrite decide_False.
    + intros n d (m & [= <-] & Hm)%list_elem_of_fmap Hd.
      by destruct (Hnone n d).
Qed.

(** The history invariant holds in the state [execute] ends in, whatever the
    exit. *)
Lemma vm_execute_hist (env : vm.environment) (bytecode : json)
    (x : vm.exit) (st : vm.state) :
  vm.execute env bytecode = Some (x, st) → vm_hist bytecode st.
Proof.
  unfold vm.execute.
  destruct (vm._build_graph bytecode) as [[adj indeg]|e|] eqn:Hgeq;
    [| |done].
  2:{ intros [= _ <-]. split; constructor; simpl; try set_solver;
        by intros n d ?%not_elem_of_nil. }
  destruct (vm_start_spec bytecode adj indeg Hgeq) as (Hinv & Hlive & _).
  pose proof (vm_start_hist bytecode adj indeg Hgeq) as Hh.
  pose proof (vm_build_graph_spec bytecode) as Hg. rewrite Hgeq in Hg.
  destruct Hg as (Hadj & _).
  cbv zeta in *.
  destruct (bool_decide _) eqn:Hbd.
  - intros [= _ <-]. apply bool_decide_eq_true in Hbd as [Hr _].
    specialize (Hh []). rewrite Hr in Hh |- *. exact Hh.
  - rewrite vm_submit_all. intros Hrun.
    eapply (vm_while_running_hist env bytecode adj Hadj); [| | |exact Hrun].
    + exact Hinv.
    + exact Hlive.
    + apply Hh.
Qed.

(** In the state [execute] ends in, nothing was submitted or the scheduling
    invariant holds, and the history invariant holds. *)
Lemma vm_execute_inv (env : vm.environment) (bytecode : json) :
  ∃ x st, vm.execute env bytecode = Some (x, st)
          ∧ (vm.submitted st = [] ∨ vm_inv bytecode st)
          ∧ vm_hist bytecode st.
Proof.
  destruct (vm_execute_spec env bytecode) as (x & st & Hex & Hout).
  exists x, st. split; [done|]. split; [|by eapply vm_execute_hist].
  destruct x; try (right; by destruct Hout as (? & _)).
  - destruct Hout as [-> _]. by left.
  - destruct Hout as (_ & ? & _). by left.
Qed.

(** X5.  In every run of [ParallelVM.execute], whatever its exit: no step is
    handed to the pool twice; only steps of the bytecode are; a step is
    handed over after each of its dependencies was, and each of these has by
    then succeeded or failed with a handler; a step on a dependency cycle,
    which the VM does not reject, is never run. *)
Theorem vm_submission_order (env : vm.environment) (bytecode : json) :
  ∃ x st,
    vm.execute env bytecode = Some (x, st)
    ∧ NoDup (vm.submitted st)
    ∧ (∀ n, n ∈ vm.submitted st → n ∈ vm.steps_set bytecode)
    ∧ (∀ n d, n ∈ vm.submitted st → depends (vm.step_objs bytecode) n d →
              precedes (vm.submitted st) d n
              ∧ (d ∈ vm.completed st
                 ∨ (d ∈ vm.failed st ∧ vm_has_handler bytecode d = true)))
    ∧ (∀ n, tc (depends (vm.step_objs bytecode)) n n →
            n ∉ vm.submitted st).
Proof.
  destruct (vm_execute_inv env bytecode) as (x & st & Hex & Hinv & Hh & _).
  exists x, st. split; [done|].
  destruct Hinv as [Hnil|[Hs _]].
  - rewrite Hnil. split_and!; [constructor|set_solver..].
  - split_and!.
    + by eapply si_submitted.
    + by eapply si_known.
    + intros n d Hn Hd%elem_of_edges. split; [by apply (sh_order _ _ _ _ Hh)|].
      pose proof (pending_zero _ _ _ _
                    (si_ready _ _ _ _ _ _ _ Hs n Hn) Hd) as HR.
      unfold vm_released in HR.
      apply elem_of_union in HR as [?|[? ?]%elem_of_filter]; [by left|].
      by right.
    + intros n Hn. eapply sched_hist_cycle; [by eapply si_submitted|done|].
      eapply tc_mono; [|done]. intros a b. by apply elem_of_edges.
Qed.

(** *** The history of a run of [ParallelRuntime] *)

Definition rt_hist (ir : list json) (st : runtime_parallel.state) : Prop :=
  sched_hist (rt_edges ir) (runtime_parallel.completed st)
             (runtime_parallel.failed st) (runtime_parallel.submitted st).

Lemma rt_handle_completion_hist (env : runtime_parallel.environment)
    (ir : list json) (adj : gmap string (list string)) (step : string)
    (st : runtime_parallel.state) :
  adj_correct (rt_edges ir) adj →
  rt_inv ir st → step ∈ runtime_parallel.running_futures st →
  rt_hist ir st →
  match runtime_parallel.handle_completion env ir adj step st with
  | inr st' | inl st' => rt_hist ir st'
  end.
Proof.
  intros Hadj Hinv Hstep Hhist. unfold rt_inv in Hinv.
  destruct (si_running_sub _ _ _ _ _ _ _ Hinv step Hstep) as [Hsub Hnf].
  unfold rt_finished in Hnf.
  assert (step ∉ runtime_parallel.completed st) as HnR by set_solver.
  pose proof (sched_hist_finish (rt_edges ir) _ _ _ [] step false Hhist Hnf)
    as Hfail.
  rewrite app_nil_r in Hfail.
  specialize (Hfail ltac:(by intros n d ?%not_elem_of_nil)).
  unfold runtime_parallel.handle_completion.
  cbn [runtime_parallel.cancelled].
  destruct (runtime_parallel._execute_step env ir
              (runtime_parallel.cancelled st) step) as [[|] calls];
    cbn [runtime_parallel.completed runtime_parallel.failed
         runtime_parallel.running_futures runtime_parallel.cancelled
         runtime_parallel.indeg runtime_parallel.submitted].
  - unfold runtime_parallel.release_successors.
    cbn [runtime_parallel.completed runtime_parallel.failed
         runtime_parallel.running_futures runtime_parallel.cancelled
         runtime_parallel.indeg runtime_parallel.submitted].
    destruct (release adj step (runtime_parallel.indeg st))
      as [indeg' nr] eqn:Hrel.
    destruct (sched_inv_release (rt_edges ir) (runtime_parallel.steps ir)
                (rt_edges_known ir) adj _ _ _ _ indeg' _ nr nr step
                Hinv Hstep (Hadj step) Hrel) as [_ Hfresh]; [done|].
    destruct (release_spec (rt_edges ir) adj (runtime_parallel.indeg st)
                (runtime_parallel.completed st) step (Hadj step) HnR
                (si_indeg _ _ _ _ _ _ _ Hinv))
      as (indeg2 & nr2 & Hrel2 & _ & _ & Hnr2).
    rewrite Hrel in Hrel2. injection Hrel2 as <- <-.
    rewrite rt_submit_ready_all.
    + unfold rt_hist. simpl.
      apply (sched_hist_finish (rt_edges ir) _ _ _ nr step true Hhist Hnf).
      intros n d [H0 _]%Hnr2 Hd.
      pose proof (pending_zero _ _ _ _ H0 Hd) as HR.
      apply elem_of_union in HR as [->%elem_of_singleton|HR]; [done|].
      apply (si_finished_sub _ _ _ _ _ _ _ Hinv). unfold rt_finished.
      set_solver.
    + intros n Hn Hf. apply (Hfresh n Hn). unfold rt_finished in *.
      simpl in Hf. set_solver.
  - destruct (as_str (dict_get (runtime_parallel.instr_of_name ir step)
                               "on_error" JNull)) as [h|]; [|done].
    destruct (decide (h = EmptyString)); done.
Qed.

Lemma rt_for_done_hist (env : runtime_parallel.environment)
    (ir : list json) (adj : gmap string (list string)) :
  adj_correct (rt_edges ir) adj →
  ∀ n tick snapshot st,
    rt_inv ir st → rt_live ir st → rt_hist ir st → NoDup snapshot →
    (∀ x, x ∈ snapshot → x ∈ runtime_parallel.running_futures st) →
    n = length snapshot →
    rt_hist ir
      (runtime_parallel.for_done env ir adj n tick snapshot st).1.2.
Proof.
  intros Hadj. induction n as [|n IH];
    intros tick snapshot st Hinv Hlive Hhist Hnd Hsnap Hlen; simpl; [done|].
  set (i := (runtime_parallel.as_completed env tick snapshot
             `mod` length snapshot)%nat).
  assert (i < length snapshot)%nat as Hi
    by (apply Nat.mod_upper_bound; lia).
  destruct (lookup_lt_is_Some_2 snapshot i Hi) as [step Hstep].
  rewrite Hstep.
  assert (step ∈ runtime_parallel.running_futures st) as Hrun
    by (apply Hsnap; by eapply list_elem_of_lookup_2).
  pose proof (rt_handle_completion_spec env ir adj step st
                Hadj Hinv Hlive Hrun) as Hh.
  pose proof (rt_handle_completion_hist env ir adj step st
                Hadj Hinv Hrun Hhist) as Hh'.
  destruct (runtime_parallel.handle_completion env ir adj step st)
    as [s|s]; [done|].
  destruct Hh as (Hinv' & Hlive' & _ & Hkeep).
  destruct (delete_NoDup_spec snapshot i step Hnd Hstep)
    as (Hnd' & Hlen' & Hin').
  apply IH; [done..| |lia].
  intros x' [Hx' Hne]%Hin'. apply Hkeep; [|done]. by apply Hsnap.
Qed.

Lemma rt_while_running_hist (env : runtime_parallel.environment)
    (ir : list json) (adj : gmap string (list string)) :
  adj_correct (rt_edges ir) adj →
  ∀ fuel tick st x st',
    rt_inv ir st → rt_live ir st → rt_hist ir st →
    runtime_parallel.while_running env ir adj fuel tick st = Some (x, st') →
    rt_hist ir st'.
Proof.
  intros Hadj. induction fuel as [|fuel IH];
    intros tick st x st' Hinv Hlive Hhist;
    (destruct (decide (runtime_parallel.running_futures st = []))
       as [Hrun|Hrun];
     [rewrite rt_while_running_done by done; by intros [= _ <-]|]).
  - cbn [runtime_parallel.while_running].
    by destruct (runtime_parallel.running_futures st).
  - rewrite rt_while_running_step by done.
    pose proof (rt_for_done_spec env ir adj Hadj
                  (length (runtime_parallel.running_futures st)) tick
                  (runtime_parallel.running_futures st) st Hinv Hlive
                  (si_running _ _ _ _ _ _ _ Hinv)
                  (λ x H, H) eq_refl) as Hfor.
    pose proof (rt_for_done_hist env ir adj Hadj
                  (length (runtime_parallel.running_futures st)) tick
                  (runtime_parallel.running_futures st) st Hinv Hlive Hhist
                  (si_running _ _ _ _ _ _ _ Hinv)
                  (λ x H, H) eq_refl) as Hfh.
    destruct (runtime_parallel.for_done env ir adj
                (length (runtime_parallel.running_futures st))
                tick (runtime_parallel.running_futures st) st)
      as [[[y|] s] tick'']; simpl in Hfh.
    + by intros [= _ <-].
    + destruct Hfor as (Hinv' & Hlive' & _). by apply IH.
Qed.

Lemma rt_execute_hist (env : runtime_parallel.environment) (ir : list json)
    (x : runtime_parallel.exit) (st : runtime_parallel.state) :
  runtime_parallel.execute env ir = Some (x, st) → rt_hist ir st.
Proof.
  unfold runtime_parallel.execute.
  pose proof (rt_build_graph_spec ir) as Hg.
  destruct (runtime_parallel.build_graph ir) as [adj indeg].
  destruct Hg as [Hadj Hind]. cbv zeta.
  set (ready := filter (λ n, indeg !! n = Some 0)
                       (elements (runtime_parallel.steps ir))).
  assert (∀ n d, n ∈ ready → (n, d) ∈ rt_edges ir → False) as Hnone.
  { intros n d [Hz _]%list_elem_of_filter Hd.
    assert (pending (rt_edges ir) ∅ n = 0%nat) as H0.
    { specialize (Hind n). unfold counter in Hind. rewrite Hz in Hind.
      simpl in Hind. lia. }
    pose proof (pending_zero _ _ _ _ H0 Hd) as Hin.
    by apply not_elem_of_empty in Hin. }
  assert (NoDup ready) as Hnd by apply NoDup_filter, NoDup_elements.
  assert (∀ n, n ∈ ready →
               n ∈ runtime_parallel.steps ir
               ∧ pending (rt_edges ir) ∅ n = 0%nat) as Hready.
  { intros n. unfold ready.
    intros [Hz Hn]%list_elem_of_filter. apply elem_of_elements in Hn.
    split; [done|]. specialize (Hind n). unfold counter in Hind.
    rewrite Hz in Hind. simpl in Hind. lia. }
  destruct (bool_decide _).
  - intros [= _ <-]. constructor; simpl; [set_solver|].
    by intros n d ?%not_elem_of_nil.
  - rewrite rt_submit_all.
    set (s0 := runtime_parallel.mkState _ _ _ _ _ _).
    assert (s0 = runtime_parallel.mkState ∅ ∅ ready false indeg ready)
      as -> by reflexivity.
    intros Hrun.
    eapply (rt_while_running_hist env ir adj Hadj); [| | |exact Hrun].
    + unfold rt_inv, rt_finished. simpl.
      replace (∅ ∪ ∅ : gset string) with (∅ : gset string) by set_solver.
      constructor; [done|done|intros n Hn; by apply Hready
                   |intros n Hn; by apply Hready|done| | |done].
      * intros n Hn. split; [done|]. apply not_elem_of_empty.
      * intros n ?%not_elem_of_empty. done.
    + split; simpl; [done|]. by intros n ?%not_elem_of_empty.
    + constructor; simpl; [set_solver|].
      intros n d Hn Hd. by destruct (Hnone n d).
Qed.

(** X8.  In every run of [ParallelRuntime.execute], whatever its exit: no
    step is handed to the pool twice; a step is handed over after each of
    its dependencies was, and each of these has by then succeeded; so a step
    that depends, directly or not, on a step that failed is never run, even
    when the failed step names an [on_error] handler; and a step on a
    dependency cycle is never run. *)
Theorem rt_submission_order (env : runtime_parallel.environment)
    (ir : list json) :
  ∃ x st,
    runtime_parallel.execute env ir = Some (x, st)
    ∧ NoDup (runtime_parallel.submitted st)
    ∧ (∀ n, n ∈ runtime_parallel.submitted st →
            n ∈ runtime_parallel.steps ir)
    ∧ (∀ n d, n ∈ runtime_parallel.submitted st →
              depends (rt_objs ir) n d →
              precedes (runtime_parallel.submitted st) d n
              ∧ d ∈ runtime_parallel.completed st)
    ∧ (∀ n a, a ∈ runtime_parallel.failed st →
              tc (depends (rt_objs ir)) n a →
              n ∉ runtime_parallel.submitted st)
    ∧ (∀ n, tc (depends (rt_objs ir)) n n →
            n ∉ runtime_parallel.submitted st).
Proof.
  destruct (rt_execute_spec env ir) as (x & st & Hex & Hout).
  pose proof (rt_execute_hist env ir x st Hex) as Hh.
  exists x, st. split; [done|].
  assert (runtime_parallel.submitted st = [] ∨ rt_inv ir st) as [Hnil|Hinv].
  { destruct x; try (right; by destruct Hout as (? & _)).
    left. by destruct Hout as (_ & ? & _). }
  - rewrite Hnil. split_and!; [constructor|set_solver..].
  - unfold rt_inv in Hinv. split_and!.
    + by eapply si_submitted.
    + by eapply si_known.
    + intros n d Hn Hd%elem_of_edges.
      split; [by apply (sh_order _ _ _ _ Hh)|].
      by apply (pending_zero _ _ _ _ (si_ready _ _ _ _ _ _ _ Hinv n Hn) Hd).
    + intros n a Ha Htc.
      eapply (sched_inv_blocked (rt_edges ir) (runtime_parallel.steps ir)
                (rt_edges_known ir)); [done| |].
      * intros Hc. by apply (sh_disjoint _ _ _ _ Hh a).
      * eapply tc_mono; [|done]. intros u v. by apply elem_of_edges.
    + intros n Hn. eapply sched_hist_cycle; [by eapply si_submitted|done|].
      eapply tc_mono; [|done]. intros a b. by apply elem_of_edges.
Qed.

(** * The sequential runtime ([flowrun/runtime.py])

    [Runtime] runs the instructions of a list one after the other.  The
    fields of an instruction are read at the types the instruction list
    gives them, as in the other runtimes; what [print] writes is left out. *)

Module runtime.

Inductive step_state := PENDING | OK | FAILED.

(** The exceptions [Runtime] can raise on a list that [json] describes:
    [KeyError] of [instr[key]] on a dict without that key, and [TypeError]
    of [instr[key]] on a value that is no dict and of a step name that
    cannot be a key of [self.state]. *)
Inductive error := KeyError (key : string) | TypeError.

Record environment := mkEnv {
  (** the result of [run_cmd_sandbox] for the instruction at a position of
      the list, its command and timeout, at an attempt *)
  run_cmd_sandbox : nat → string → option Z → nat → bool
}.

(** [instr[key]]. *)
Definition item (instr : json) (key : string) : error + json :=
  match instr with
  | JObj fields =>
      match assoc key fields with
      | Some v => inr v
      | None => inl (KeyError key)
      end
  | _ => inl TypeError
  end.

(** The values that can be keys of a dict, and when two of them are the
    same key: [True] and [1] are, and so are [False] and [0]. *)
Definition hashable (v : json) : bool :=
  match v with JList _ | JObj _ => false | _ => true end.

Definition key_num (v : json) : option Z :=
  match v with
  | JInt z => Some z
  | JBool b => Some (if b then 1 else 0)
  | _ => None
  end.

Definition key_eqb (a b : json) : bool :=
  match a, b with
  | JNull, JNull => true
  | JStr s, JStr t => String.eqb s t
  | _, _ =>
      match key_num a, key_num b with
      | Some x, Some y => Z.eqb x y
      | _, _ => false
      end
  end.

(** [self.state], a dict in insertion order. *)
Definition state_t : Type := list (json * step_state).

(** [d[k] = v]: the value of an existing key is replaced where it stands,
    a new key goes to the end. *)
Fixpoint dict_set (d : state_t) (k : json) (v : step_state) : state_t :=
  match d with
  | [] => [(k, v)]
  | (k', v') :: d' =>
      if key_eqb k' k then (k', v) :: d' else (k', v') :: dict_set d' k v
  end.

Fixpoint state_get (d : state_t) (k : json) : option step_state :=
  match d with
  | [] => None
  | (k', v') :: d' => if key_eqb k' k then Some v' else state_get d' k
  end.

(** [__init__]: [{instr["step"]: "PENDING" for instr in ir}]. *)
Fixpoint __init__ (ir : list json) (state : state_t) : error + state_t :=
  match ir with
  | [] => inr state
  | instr :: rest =>
      match item instr "step" with
      | inl e => inl e
      | inr step =>
          if hashable step then __init__ rest (dict_set state step PENDING)
          else inl TypeError
      end
  end.

(** [execute] from the instruction at position [pos] on.  The result is the
    value returned, [self.state], and for each instruction that was run its
    position and the number of times the sandbox was invoked for it. *)
Fixpoint execute (env : environment) (pos : nat) (ir : list json)
    (state : state_t) (trace : list (nat * nat))
  : error + (bool * state_t * list (nat * nat)) :=
  match ir with
  | [] => inr (true, state, trace)
  | instr :: rest =>
      match item instr "step" with
      | inl e => inl e
      | inr step =>
          match item instr "cmd" with
          | inl e => inl e
          | inr cmd_raw =>
              let cmd := default EmptyString (as_str cmd_raw) in
              let timeout :=
                _parse_timeout (as_str (dict_get instr "timeout" JNull)) in
              let retries := as_int (dict_get instr "retries" (JInt 0)) in
              let '(ok, calls) :=
                attempt_loop (λ _, false)
                             (run_cmd_sandbox env pos cmd timeout)
                             (range_len retries) 0 in
              if hashable step then
                let state := dict_set state step (if ok then OK else FAILED) in
                let trace := trace ++ [(pos, calls)] in
                if ok then execute env (S pos) rest state trace
                else inr (false, state, trace)
              else inl TypeError
          end
      end
  end.

(** [Runtime(ir).execute()]. *)
Definition run (env : environment) (ir : list json)
  : error + (bool * state_t * list (nat * nat)) :=
  match __init__ ir [] with
  | inl e => inl e
  | inr state => execute env 0 ir state []
  end.

End runtime.

(** ** Properties of the sequential runtime *)

Lemma attempt_loop_fail_bounded (sandbox : nat → bool) (todo attempt : nat) :
  (∀ j, (j < todo)%nat → sandbox (attempt + j)%nat = false) →
  attempt_loop (λ _, false) sandbox todo attempt = (false, todo).
Proof.
  revert attempt. induction todo as [|todo IH]; intros attempt H; [done|].
  simpl. pose proof (H 0%nat) as H0. rewrite Nat.add_0_r in H0.
  rewrite H0 by lia. rewrite IH; [done|].
  intros j Hj. replace (S attempt + j)%nat with (attempt + S j)%nat by lia.
  apply H. lia.
Qed.

(** The retry loop without cancellation: it succeeds at the first attempt at
    which the sandbox does, or fails after all the attempts. *)
Lemma attempt_loop_cases (sandbox : nat → bool) (todo attempt : nat) :
  (∃ a, (a < todo)%nat ∧ sandbox (attempt + a)%nat = true
        ∧ (∀ j, (j < a)%nat → sandbox (attempt + j)%nat = false)
        ∧ attempt_loop (λ _, false) sandbox todo attempt = (true, S a))
  ∨ ((∀ j, (j < todo)%nat → sandbox (attempt + j)%nat = false)
     ∧ attempt_loop (λ _, false) sandbox todo attempt = (false, todo)).
Proof.
  revert attempt. induction todo as [|todo IH]; intros attempt.
  - right. split; [lia|done].
  - simpl. destruct (sandbox attempt) eqn:Hs.
    + left. exists 0%nat. rewrite Nat.add_0_r. split_and!; [lia|done|lia|done].
    + destruct (IH (S attempt)) as [(a & Ha & Hok & Hbefore & ->)
                                   |[Hall ->]].
      * left. exists (S a). split_and!; [lia| | |done].
        -- by replace (attempt + S a)%nat with (S attempt + a)%nat by lia.
        -- intros [|j] Hj; [by rewrite Nat.add_0_r|].
           replace (attempt + S j)%nat with (S attempt + j)%nat by lia.
           apply Hbefore. lia.
      * right. split; [|done]. intros [|j] Hj; [by rewrite Nat.add_0_r|].
        replace (attempt + S j)%nat with (S attempt + j)%nat by lia.
        apply Hall. lia.
Qed.

(** The answers of the sandbox for the step [s] run at position [i], and
    whether one of the attempts [s] is allowed succeeds. *)
Definition seq_sandbox (env : runtime.environment) (i : nat) (s : Step)
  : nat → bool :=
  runtime.run_cmd_sandbox env i (default EmptyString (run s))
                          (_parse_timeout (timeout s)).

Definition seq_succeeds (env : runtime.environment) (i : nat) (s : Step)
  : Prop :=
  ∃ a, (a < range_len (retries s))%nat ∧ seq_sandbox env i s a = true.

Lemma seq_succeeds_cases (env : runtime.environment) (i : nat) (s : Step) :
  (seq_succeeds env i s
   ∧ ∃ a, attempt_loop (λ _, false) (seq_sandbox env i s)
                       (range_len (retries s)) 0 = (true, S a))
  ∨ (¬ seq_succeeds env i s
     ∧ attempt_loop (λ _, false) (seq_sandbox env i s)
                    (range_len (retries s)) 0
       = (false, range_len (retries s))).
Proof.
  destruct (attempt_loop_cases (seq_sandbox env i s)
              (range_len (retries s)) 0)
    as [(a & Ha & Hok & _ & Heq)|[Hall Heq]].
  - left. split; [by exists a|by exists a].
  - right. split; [|done]. intros (a & Ha & Hok).
    specialize (Hall a Ha). cbn [Nat.add] in Hall. congruence.
Qed.

(** What [execute] does with the instruction made of a step. *)
Lemma runtime_execute_cons (env : runtime.environment) (pos : nat) (s : Step)
    (rest : list json) (state : runtime.state_t) (trace : list (nat * nat)) :
  runtime.execute env pos (instr_of s :: rest) state trace
  = let '(ok, calls) :=
      attempt_loop (λ _, false) (seq_sandbox env pos s)
                   (range_len (retries s)) 0 in
    let state := runtime.dict_set state (JStr (name s))
                   (if ok then runtime.OK else runtime.FAILED) in
    let trace := trace ++ [(pos, calls)] in
    if ok then runtime.execute env (S pos) rest state trace
    else inr (false, state, trace).
Proof.
  destruct s as [n r t k deps h]. cbn [runtime.execute].
  change (runtime.item (instr_of (mkStep n r t k deps h)) "step")
    with (inr (JStr n) : runtime.error + json).
  change (runtime.item (instr_of (mkStep n r t k deps h)) "cmd")
    with (inr (of_opt_str r) : runtime.error + json).
  cbv iota beta.
  change (dict_get (instr_of (mkStep n r t k deps h)) "timeout" JNull)
    with (of_opt_str t).
  change (dict_get (instr_of (mkStep n r t k deps h)) "retries" (JInt 0))
    with (JInt k).
  rewrite !as_str_of_opt_str. reflexivity.
Qed.

Definition set_all (v : runtime.step_state) (state : runtime.state_t)
    (l : list Step) : runtime.state_t :=
  foldl (λ st s, runtime.dict_set st (JStr (name s)) v) state l.

Lemma runtime_init_ir (l : list Step) (state : runtime.state_t) :
  runtime.__init__ (instr_of <$> l) state
  = inr (set_all runtime.PENDING state l).
Proof.
  revert state. induction l as [|s l IH]; intros state; [done|].
  rewrite fmap_cons. cbn [runtime.__init__].
  change (runtime.item (instr_of s) "step")
    with (inr (JStr (name s)) : runtime.error + json).
  cbv iota beta. cbn [runtime.hashable]. by rewrite IH.
Qed.

Lemma runtime_execute_all (env : runtime.environment) (l : list Step) :
  ∀ pos state trace,
    (∀ i s, l !! i = Some s → seq_succeeds env (pos + i) s) →
    ∃ trace',
      runtime.execute env pos (instr_of <$> l) state trace
      = inr (true, set_all runtime.OK state l, trace')
      ∧ trace'.*1 = trace.*1 ++ seq pos (length l).
Proof.
  induction l as [|s l IH]; intros pos state trace Hall.
  - exists trace. split; [done|]. by rewrite app_nil_r.
  - rewrite fmap_cons, runtime_execute_cons.
    destruct (seq_succeeds_cases env pos s) as [[_ [a ->]]|[Hn _]];
      cbv beta iota zeta.
    + destruct (IH (S pos)
                  (runtime.dict_set state (JStr (name s)) runtime.OK)
                  (trace ++ [(pos, S a)])) as (trace' & -> & Htr).
      { intros i s' Hi. replace (S pos + i)%nat with (pos + S i)%nat by lia.
        by apply Hall. }
      exists trace'. split; [done|]. rewrite Htr, fmap_app. simpl.
      by rewrite <- app_assoc.
    + exfalso. apply Hn. specialize (Hall 0%nat s eq_refl).
      by rewrite Nat.add_0_r in Hall.
Qed.

Lemma runtime_execute_fail (env : runtime.environment) (pre : list Step)
    (s : Step) (post : list Step) :
  ∀ pos state trace,
    (∀ i s', pre !! i = Some s' → seq_succeeds env (pos + i) s') →
    ¬ seq_succeeds env (pos + length pre) s →
    ∃ trace',
      runtime.execute env pos (instr_of <$> (pre ++ s :: post)) state trace
      = inr (false,
             runtime.dict_set (set_all runtime.OK state pre)
                              (JStr (name s)) runtime.FAILED,
             trace' ++ [((pos + length pre)%nat, range_len (retries s))])
      ∧ trace'.*1 = trace.*1 ++ seq pos (length pre).
Proof.
  induction pre as [|s' pre IH]; intros pos state trace Hall Hfail.
  - rewrite app_nil_l, fmap_cons, runtime_execute_cons.
    cbn [length set_all foldl] in Hfail |- *.
    rewrite Nat.add_0_r in Hfail. rewrite Nat.add_0_r.
    destruct (seq_succeeds_cases env pos s) as [[Hs _]|[_ ->]]; [done|].
    cbv beta iota zeta. exists trace. split; [done|]. by rewrite app_nil_r.
  - rewrite <- app_comm_cons, fmap_cons, runtime_execute_cons.
    destruct (seq_succeeds_cases env pos s') as [[_ [a ->]]|[Hn _]];
      cbv beta iota zeta.
    + destruct (IH (S pos)
                  (runtime.dict_set state (JStr (name s')) runtime.OK)
                  (trace ++ [(pos, S a)])) as (trace' & Heq & Htr).
      { intros i s'' Hi. replace (S pos + i)%nat with (pos + S i)%nat by lia.
        by apply Hall. }
      { by replace (S pos + length pre)%nat
          with (pos + length (s' :: pre))%nat by (simpl; lia). }
      exists trace'. split.
      * rewrite Heq. simpl.
        by replace (S (pos + length pre))%nat
          with (pos + S (length pre))%nat by lia.
      * rewrite Htr, fmap_app. simpl. by rewrite <- app_assoc.
    + exfalso. apply Hn. specialize (Hall 0%nat s' eq_refl).
      by rewrite Nat.add_0_r in Hall.
Qed.

(** Where a list of steps fails first, if it does. *)
Lemma first_failure (env : runtime.environment) (l : list Step) (pos : nat) :
  (∀ i s, l !! i = Some s → seq_succeeds env (pos + i) s)
  ∨ ∃ pre s post,
      l = pre ++ s :: post
      ∧ (∀ i s', pre !! i = Some s' → seq_succeeds env (pos + i) s')
      ∧ ¬ seq_succeeds env (pos + length pre) s.
Proof.
  revert pos. induction l as [|s l IH]; intros pos.
  - left. by intros i s [=].
  - destruct (seq_succeeds_cases env pos s) as [[Hs _]|[Hn _]].
    + destruct (IH (S pos)) as [Hall|(pre & s' & post & -> & Hpre & Hf)].
      * left. intros [|i] s'; simpl.
        -- intros [= <-]. by rewrite Nat.add_0_r.
        -- intros Hi. replace (pos + S i)%nat with (S pos + i)%nat by lia.
           by apply Hall.
      * right. exists (s :: pre), s', post. split_and!; [done| |].
        -- intros [|i] s''; simpl.
           ++ intros [= <-]. by rewrite Nat.add_0_r.
           ++ intros Hi. replace (pos + S i)%nat with (S pos + i)%nat by lia.
              by apply Hpre.
        -- simpl. by replace (pos + S (length pre))%nat
             with (S pos + length pre)%nat by lia.
    + right. exists [], s, l. split_and!; [done|by intros i s' [=]|].
      simpl. by rewrite Nat.add_0_r.
Qed.

(** Reading [self.state] at a step name. *)
Lemma state_get_set (d : runtime.state_t) (k k' : string)
    (v : runtime.step_state) :
  runtime.state_get (runtime.dict_set d (JStr k) v) (JStr k')
  = if decide (k = k') then Some v else runtime.state_get d (JStr k').
Proof.
  induction d as [|[k0 v0] d IH]; simpl.
  - destruct (String.eqb_spec k k'); by destruct (decide (k = k')).
  - destruct (runtime.key_eqb k0 (JStr k)) eqn:Hk0; simpl.
    + assert (k0 = JStr k) as ->.
      { destruct k0; simpl in Hk0; try done.
        by apply String.eqb_eq in Hk0 as ->. }
      simpl. destruct (String.eqb_spec k k'); by destruct (decide (k = k')).
    + destruct (runtime.key_eqb k0 (JStr k')) eqn:Hk0'; [|done].
      assert (k0 = JStr k') as ->.
      { destruct k0; simpl in Hk0'; try done.
        by apply String.eqb_eq in Hk0' as ->. }
      simpl in Hk0. apply String.eqb_neq in Hk0.
      by rewrite decide_False by done.
Qed.

Lemma state_get_set_all (v : runtime.step_state) (l : list Step)
    (d : runtime.state_t) (k : string) :
  runtime.state_get (set_all v d l) (JStr k)
  = if decide (k ∈ name <$> l) then Some v
    else runtime.state_get d (JStr k).
Proof.
  revert d. induction l as [|s l IH] using rev_ind; intros d.
  - destruct (decide (k ∈ name <$> [])) as [H|]; [|done].
    by apply not_elem_of_nil in H.
  - unfold set_all. rewrite foldl_app. simpl. fold (set_all v d l).
    rewrite state_get_set, IH, fmap_app. simpl.
    destruct (decide (name s = k)) as [<-|Hne].
    + rewrite decide_True; [done|]. apply elem_of_app. right. by left.
    + destruct (decide (k ∈ name <$> l)) as [Hin|Hin].
      * rewrite decide_True; [done|]. apply elem_of_app. by left.
      * rewrite decide_False; [done|]. rewrite elem_of_app.
        intros [?|?%list_elem_of_singleton]; done.
Qed.

(** X9.  [Runtime.execute] on the instruction list made of a list of steps
    never raises.  It returns [True] exactly when every step succeeds at
    one of its [retries + 1] attempts, and then every step was run, in the
    order of the list, and is [OK].  Otherwise it stops at the first step
    that fails all its attempts, after exactly [retries + 1] invocations of
    the sandbox for it, whether or not the step names an [on_error] handler:
    that step is [FAILED], the steps before it are [OK], the steps after it
    were not run and stay [PENDING], and the value returned is [False]. *)
Theorem runtime_stops_at_first_failure (env : runtime.environment)
    (steps : list Step) :
  (∃ b state trace,
     runtime.run env (instr_of <$> steps) = inr (b, state, trace)
     ∧ (b = true ↔ ∀ i s, steps !! i = Some s → seq_succeeds env i s))
  ∧ ((∀ i s, steps !! i = Some s → seq_succeeds env i s) →
     ∃ state trace,
       runtime.run env (instr_of <$> steps) = inr (true, state, trace)
       ∧ trace.*1 = seq 0 (length steps)
       ∧ ∀ s, s ∈ steps →
              runtime.state_get state (JStr (name s)) = Some runtime.OK)
  ∧ (∀ pre s post,
       steps = pre ++ s :: post →
       (∀ i s', pre !! i = Some s' → seq_succeeds env i s') →
       ¬ seq_succeeds env (length pre) s →
       ∃ state trace,
         runtime.run env (instr_of <$> steps) = inr (false, state, trace)
         ∧ trace.*1 = seq 0 (S (length pre))
         ∧ last trace = Some (length pre, range_len (retries s))
         ∧ runtime.state_get state (JStr (name s)) = Some runtime.FAILED
         ∧ (∀ s', s' ∈ pre → name s' ≠ name s →
                  runtime.state_get state (JStr (name s'))
                  = Some runtime.OK)
         ∧ (∀ s', s' ∈ post → name s' ≠ name s →
                  name s' ∉ name <$> pre →
                  runtime.state_get state (JStr (name s'))
                  = Some runtime.PENDING)).
Proof.
  assert ((∀ i s, steps !! i = Some s → seq_succeeds env i s) →
          ∃ state trace,
            runtime.run env (instr_of <$> steps) = inr (true, state, trace)
            ∧ trace.*1 = seq 0 (length steps)
            ∧ ∀ s, s ∈ steps →
                   runtime.state_get state (JStr (name s))
                   = Some runtime.OK) as Hok.
  { intros Hall. unfold runtime.run. rewrite runtime_init_ir.
    destruct (runtime_execute_all env steps 0
                (set_all runtime.PENDING [] steps) [])
      as (trace & -> & Htr); [done|].
    eexists _, trace. split_and!; [done|done|].
    intros s Hs. rewrite state_get_set_all. rewrite decide_True; [done|].
    apply list_elem_of_fmap. eauto. }
  assert (∀ pre s post,
            steps = pre ++ s :: post →
            (∀ i s', pre !! i = Some s' → seq_succeeds env i s') →
            ¬ seq_succeeds env (length pre) s →
            ∃ state trace,
              runtime.run env (instr_of <$> steps) = inr (false, state, trace)
              ∧ trace.*1 = seq 0 (S (length pre))
              ∧ last trace = Some (length pre, range_len (retries s))
              ∧ runtime.state_get state (JStr (name s))
                = Some runtime.FAILED
              ∧ (∀ s', s' ∈ pre → name s' ≠ name s →
                       runtime.state_get state (JStr (name s'))
                       = Some runtime.OK)
              ∧ (∀ s', s' ∈ post → name s' ≠ name s →
                       name s' ∉ name <$> pre →
                       runtime.state_get state (JStr (name s'))
                       = Some runtime.PENDING)) as Hfail.
  { intros pre s post -> Hpre Hf. unfold runtime.run.
    rewrite runtime_init_ir.
    destruct (runtime_execute_fail env pre s post 0
                (set_all runtime.PENDING [] (pre ++ s :: post)) [])
      as (trace & -> & Htr); [done|done|].
    eexists _, _. split_and!; [done| | | | |].
    - rewrite fmap_app, Htr, seq_S. reflexivity.
    - by rewrite last_snoc.
    - rewrite state_get_set. by rewrite decide_True.
    - intros s' Hs' Hne. rewrite state_get_set, decide_False by done.
      rewrite state_get_set_all, decide_True; [done|].
      apply list_elem_of_fmap. eauto.
    - intros s' Hs' Hne Hnpre. rewrite state_get_set, decide_False by done.
      rewrite state_get_set_all, decide_False by done.
      rewrite state_get_set_all, decide_True; [done|].
      apply list_elem_of_fmap. exists s'. split; [done|].
      apply elem_of_app. right. by right. }
  split_and!; [|done..].
  destruct (first_failure env steps 0) as [Hall|(pre & s & post & Heq & Hp & Hf)].
  - destruct (Hok Hall) as (state & trace & Hrun & _).
    exists true, state, trace. split; [done|]. by split.
  - destruct (Hfail pre s post Heq Hp Hf) as (state & trace & Hrun & _).
    exists false, state, trace. split; [done|]. split; [done|].
    intros Hall. exfalso. apply Hf. apply Hall. rewrite Heq.
    by rewrite list_lookup_middle.
Qed.

Definition always_true_env : runtime.environment :=
  runtime.mkEnv (λ _ _ _ _, true).

Lemma runtime_stops_at_first_failure_witness :
  ∃ state trace,
    runtime.run always_true_env (instr_of <$> linear_steps)
    = inr (true, state, trace)
    ∧ trace.*1 = [0; 1]%nat.
Proof.
  destruct (runtime_stops_at_first_failure always_true_env linear_steps)
    as (_ & H & _).
  destruct H as (state & trace & Hrun & Htr & _).
  - intros i s Hi. exists 0%nat. split; [|done].
    unfold linear_steps in Hi.
    destruct i as [|[|i]]; simpl in Hi; [| |done];
      injection Hi as <-; vm_compute; lia.
  - by exists state, trace.
Defined.

Lemma runtime_init_prefix (l : list Step) (rest : list json)
    (state : runtime.state_t) :
  runtime.__init__ ((instr_of <$> l) ++ rest) state
  = runtime.__init__ rest (set_all runtime.PENDING state l).
Proof.
  revert state. induction l as [|s l IH]; intros state; [done|].
  rewrite fmap_cons, <- app_comm_cons. cbn [runtime.__init__].
  change (runtime.item (instr_of s) "step")
    with (inr (JStr (name s)) : runtime.error + json).
  cbv iota beta. cbn [runtime.hashable]. by rewrite IH.
Qed.

Lemma runtime_execute_prefix (env : runtime.environment) (l : list Step)
    (rest : list json) :
  ∀ pos state trace,
    (∀ i s, l !! i = Some s → seq_succeeds env (pos + i) s) →
    ∃ trace',
      runtime.execute env pos ((instr_of <$> l) ++ rest) state trace
      = runtime.execute env (pos + length l) rest
                        (set_all runtime.OK state l) trace'
      ∧ trace'.*1 = trace.*1 ++ seq pos (length l).
Proof.
  induction l as [|s l IH]; intros pos state trace Hall.
  - exists trace. rewrite Nat.add_0_r. split; [done|]. by rewrite app_nil_r.
  - rewrite fmap_cons, <- app_comm_cons, runtime_execute_cons.
    destruct (seq_succeeds_cases env pos s) as [[_ [a ->]]|[Hn _]];
      cbv beta iota zeta.
    + destruct (IH (S pos)
                  (runtime.dict_set state (JStr (name s)) runtime.OK)
                  (trace ++ [(pos, S a)])) as (trace' & -> & Htr).
      { intros i s' Hi. replace (S pos + i)%nat with (pos + S i)%nat by lia.
        by apply Hall. }
      exists trace'. split.
      * by replace (S pos + length l)%nat
          with (pos + length (s :: l))%nat by (simpl; lia).
      * rewrite Htr, fmap_app. simpl. by rewrite <- app_assoc.
    + exfalso. apply Hn. specialize (Hall 0%nat s eq_refl).
      by rewrite Nat.add_0_r in Hall.
Qed.

(** X10.  An instruction that is a dict without the key [step] makes
    [Runtime(ir)] raise [KeyError] before any instruction is run.  An
    instruction that has a step name but no key [cmd] makes [execute] raise
    [KeyError] when it gets there, after the instructions before it were run
    and succeeded. *)
Theorem runtime_missing_key (env : runtime.environment) (pre : list Step)
    (fields : list (string * json)) :
  (∀ post,
     assoc "step" fields = None →
     runtime.run env ((instr_of <$> pre) ++ JObj fields :: post)
     = inl (runtime.KeyError "step"))
  ∧ (∀ post n,
       assoc "step" fields = Some (JStr n) → assoc "cmd" fields = None →
       (∀ i s, pre !! i = Some s → seq_succeeds env i s) →
       runtime.run env ((instr_of <$> pre) ++ JObj fields
                        :: (instr_of <$> post))
       = inl (runtime.KeyError "cmd")).
Proof.
  split.
  - intros post Hstep. unfold runtime.run. rewrite runtime_init_prefix.
    cbn [runtime.__init__ runtime.item]. by rewrite Hstep.
  - intros post n Hstep Hcmd Hall. unfold runtime.run.
    rewrite runtime_init_prefix. cbn [runtime.__init__ runtime.item].
    rewrite Hstep. cbn [runtime.hashable].
    rewrite runtime_init_ir.
    destruct (runtime_execute_prefix env pre
                (JObj fields :: (instr_of <$> post)) 0
                (set_all runtime.PENDING
                   (runtime.dict_set (set_all runtime.PENDING [] pre)
                                     (JStr n) runtime.PENDING) post) [])
      as (trace & -> & _); [done|].
    cbn [runtime.execute runtime.item]. by rewrite Hstep, Hcmd.
Qed.

Lemma runtime_missing_key_witness :
  runtime.run always_true_env [JObj [("cmd", JStr "true")]%string]
  = inl (runtime.KeyError "step").
Proof.
  destruct (runtime_missing_key always_true_env []
              [("cmd", JStr "true")]%string) as [H _].
  apply (H []). reflexivity.
Defined.

(** * The command line ([cli.py]) *)

Module cli.

(** What can stop [do_run]: an error of the analyzer, a missing name in
    [name_to_instr[n]], an exception of the runtime; [Fuel] stands for the
    model of the analyzer running out of fuel, which does not happen. *)
Inductive error :=
| Semantic (e : SemanticError)
| KeyError (key : string)
| Runtime (e : runtime.error)
| Fuel.

(** [[name_to_instr[n] for n in order]]. *)
Fixpoint ordered_ir (name_to_instr : gmap string json) (order : list string)
  : error + list json :=
  match order with
  | [] => inr []
  | n :: order' =>
      match name_to_instr !! n with
      | None => inl (KeyError n)
      | Some instr =>
          match ordered_ir name_to_instr order' with
          | inl e => inl e
          | inr rest => inr (instr :: rest)
          end
      end
  end.

(** What [do_run] prints at its end. *)
Definition verdict (ok : bool) : string :=
  if ok then "Workflow completed" else "Workflow failed".

(** [do_run]: the result is the line printed at the end, with the state and
    the trace of the runtime. *)
Definition do_run (env : runtime.environment) (w : Workflow)
  : error + (string * runtime.state_t * list (nat * nat)) :=
  match semantic_check w with
  | Raise e => inl (Semantic e)
  | OutOfFuel => inl Fuel
  | Return order =>
      let ir := workflow_to_ir w in
      let name_to_instr := runtime_parallel.name_to_instr ir in
      match ordered_ir name_to_instr order with
      | inl e => inl e
      | inr ordered =>
          match runtime.run env ordered with
          | inl e => inl (Runtime e)
          | inr (ok, state, trace) => inr (verdict ok, state, trace)
          end
      end
  end.

End cli.

(** The steps of [steps] in the order of their names in [order]. *)
Lemma ordered_ir_steps (steps : list Step) (order : list string) :
  unique_names steps → (∀ n, n ∈ order → n ∈ name <$> steps) →
  ∃ sorted,
    name <$> sorted = order ∧ (∀ s, s ∈ sorted → s ∈ steps)
    ∧ cli.ordered_ir (runtime_parallel.name_to_instr (instr_of <$> steps))
                     order
      = inr (instr_of <$> sorted).
Proof.
  intros Hun. induction order as [|n order IH]; intros Hin.
  - exists []. split_and!; [done|by intros s ?%not_elem_of_nil|done].
  - destruct IH as (sorted & Hnames & Hsub & Heq);
      [intros m Hm; apply Hin; by right|].
    assert (n ∈ name <$> steps) as (s & -> & Hs)%list_elem_of_fmap
      by (apply Hin; by left).
    exists (s :: sorted). split_and!.
    + by rewrite fmap_cons, Hnames.
    + intros s' [->|?]%elem_of_cons; [done|by apply Hsub].
    + cbn [cli.ordered_ir]. rewrite name_to_instr_unique by done.
      by rewrite Heq.
Qed.

Lemma unique_names_inj (steps : list Step) (s s' : Step) :
  unique_names steps → s ∈ steps → s' ∈ steps → name s = name s' → s = s'.
Proof.
  unfold unique_names. intros Hnd (i & Hi)%list_elem_of_lookup
    (j & Hj)%list_elem_of_lookup Heq.
  assert (i = j) as ->.
  { eapply NoDup_lookup; [done| |]; rewrite list_lookup_fmap.
    - by rewrite Hi.
    - rewrite Hj. simpl. by rewrite Heq. }
  congruence.
Qed.

(** What the analyzer's order gives [do_run] and [do_transpile]: the
    instructions of the workflow, each once, every one after those of its
    dependencies. *)
Lemma ordered_ir_spec (w : Workflow) (order : list string) :
  semantic_check w = Return order →
  ∃ sorted,
    name <$> sorted = order ∧ sorted ≡ₚ steps w
    ∧ cli.ordered_ir (runtime_parallel.name_to_instr (workflow_to_ir w))
                     order
      = inr (instr_of <$> sorted)
    ∧ ∀ j s d, sorted !! j = Some s → d ∈ depends_on s →
               ∃ i s', (i < j)%nat ∧ sorted !! i = Some s' ∧ name s' = d.
Proof.
  intros Hcheck.
  destruct (semantic_check_facts w) as (Hf & _).
  destruct (Hf order Hcheck) as (Hun & Hres & Hacyc & _ & Hperm & Hbefore).
  destruct (ordered_ir_steps (steps w) order Hun) as (sorted & Hn & Hsub & Heq).
  { intros n Hn. by rewrite <- Hperm. }
  assert (NoDup order) as Hndo by (by rewrite Hperm).
  exists sorted. split_and!; [done| |done|].
  - assert (NoDup sorted) as Hnds.
    { apply (NoDup_fmap_1 name). by rewrite Hn. }
    apply NoDup_Permutation; [done|by eapply NoDup_fmap_1|].
    intros s. split; [by apply Hsub|]. intros Hs.
    assert (name s ∈ order) as Ho.
    { rewrite Hperm. apply list_elem_of_fmap. eauto. }
    rewrite <- Hn in Ho. apply list_elem_of_fmap in Ho as (s' & Heq' & Hs').
    by rewrite (unique_names_inj (steps w) s s' Hun Hs (Hsub s' Hs') Heq').
  - intros j s d Hj Hd.
    assert (depends (steps w) (name s) d) as Hdep.
    { exists s. split_and!; [|done..]. apply Hsub.
      by eapply list_elem_of_lookup_2. }
    destruct (Hbefore _ _ Hdep) as (i & j' & Hi & Hj' & Hij).
    assert (order !! j = Some (name s)) as Hoj
      by (rewrite <- Hn, list_lookup_fmap, Hj; done).
    assert (j' = j) as -> by (by eapply NoDup_lookup).
    rewrite <- Hn, list_lookup_fmap in Hi.
    destruct (sorted !! i) as [s'|] eqn:Hsi; [|done].
    injection Hi as Hi. by exists i, s'.
Qed.

(** X11.  For a workflow the analyzer accepts, [do_run] hands the
    sequential runtime the instructions of the workflow in the analyzer's
    order: each step once, every step after its dependencies.  The run
    raises nothing; it prints [Workflow completed] exactly when every step
    succeeds at one of its attempts; and whenever a step is run, each of its
    dependencies was run before it and is [OK]. *)
Theorem do_run_in_dependency_order (env : runtime.environment)
    (w : Workflow) (order : list string) :
  semantic_check w = Return order →
  ∃ sorted msg state trace,
    name <$> sorted = order ∧ sorted ≡ₚ steps w
    ∧ cli.ordered_ir (runtime_parallel.name_to_instr (workflow_to_ir w))
                     order
      = inr (instr_of <$> sorted)
    ∧ cli.do_run env w = inr (msg, state, trace)
    ∧ (msg = "Workflow completed"%string
       ↔ ∀ i s, sorted !! i = Some s → seq_succeeds env i s)
    ∧ (msg = "Workflow completed"%string ∨ msg = "Workflow failed"%string)
    ∧ ∀ j s d, j ∈ trace.*1 → sorted !! j = Some s → d ∈ depends_on s →
               ∃ i, (i < j)%nat ∧ i ∈ trace.*1
                    ∧ (name <$> sorted) !! i = Some d
                    ∧ runtime.state_get state (JStr d) = Some runtime.OK.
Proof.
  intros Hcheck.
  destruct (ordered_ir_spec w order Hcheck)
    as (sorted & Hn & Hperm & Heq & Htopo).
  destruct (semantic_check_facts w) as (Hf & _).
  destruct (Hf order Hcheck) as (Hun & _).
  assert (unique_names sorted) as Huns.
  { unfold unique_names in *. by rewrite Hperm. }
  unfold cli.do_run. rewrite Hcheck. cbv zeta. rewrite Heq.
  unfold runtime.run. rewrite runtime_init_ir.
  destruct (first_failure env sorted 0)
    as [Hall|(pre & s & post & Hsplit & Hpre & Hfail)].
  - destruct (runtime_execute_all env sorted 0
                (set_all runtime.PENDING [] sorted) [])
      as (trace & -> & Htr); [done|].
    eexists sorted, _, _, trace.
    split_and!; [done|done|done|done|by split|by left|].
    intros j s d Hj Hs Hd.
    destruct (Htopo j s d Hs Hd) as (i & s' & Hij & Hi & <-).
    exists i. split_and!; [done| | |].
    + rewrite Htr. simpl. apply elem_of_seq. apply lookup_lt_Some in Hs. lia.
    + by rewrite list_lookup_fmap, Hi.
    + rewrite state_get_set_all, decide_True; [done|].
      apply list_elem_of_fmap. exists s'. split; [done|].
      by eapply list_elem_of_lookup_2.
  - destruct (runtime_execute_fail env pre s post 0
                (set_all runtime.PENDING [] sorted) [])
      as (trace & Hrun & Htr); [done|done|].
    rewrite <- Hsplit in Hrun. rewrite Hrun.
    eexists sorted, _, _, _.
    split_and!; [done|done|done|done| |by right|].
    + split; [done|]. intros Hall. exfalso. apply Hfail, Hall.
      rewrite Hsplit. by rewrite list_lookup_middle.
    + intros j s0 d Hj Hs0 Hd.
      destruct (Htopo j s0 d Hs0 Hd) as (i & s' & Hij & Hi & <-).
      rewrite fmap_app, Htr in Hj |- *. simpl in Hj.
      assert (j ≤ length pre)%nat as Hjle.
      { apply elem_of_app in Hj as [Hj%elem_of_seq|Hj%list_elem_of_singleton];
          lia. }
      assert (pre !! i = Some s') as Hpi.
      { rewrite Hsplit in Hi. by rewrite lookup_app_l in Hi by lia. }
      exists i. split_and!; [done| | |].
      * apply elem_of_app. left. simpl. apply elem_of_seq. lia.
      * by rewrite list_lookup_fmap, Hi.
      * assert (name s' ≠ name s) as Hne.
        { intros Hee.
          assert (s' = s) as ->.
          { apply (unique_names_inj sorted); [done| | |done].
            - by eapply list_elem_of_lookup_2.
            - rewrite Hsplit. apply elem_of_app. right. by left. }
          assert (i = length pre); [|lia].
          apply NoDup_fmap_1 in Huns.
          eapply NoDup_lookup; [done|done|].
          rewrite Hsplit. by rewrite list_lookup_middle. }
        rewrite state_get_set, decide_False by done.
        rewrite state_get_set_all, decide_True; [done|].
        apply list_elem_of_fmap. exists s'. split; [done|].
        by eapply list_elem_of_lookup_2.
Qed.

Lemma do_run_in_dependency_order_witness :
  ∃ state trace,
    cli.do_run always_true_env (mkWorkflow "w" [] [] linear_steps [])
    = inr ("Workflow completed"%string, state, trace).
Proof.
  destruct (do_run_in_dependency_order always_true_env
              (mkWorkflow "w" [] [] linear_steps []) ["a"; "b"]%string)
    as (sorted & msg & state & trace & _ & _ & _ & Hrun & _);
    [vm_compute; reflexivity|].
  exists state, trace.
  assert (cli.do_run always_true_env (mkWorkflow "w" [] [] linear_steps [])
          = inr ("Workflow completed"%string,
                 [(JStr "a", runtime.OK); (JStr "b", runtime.OK)]%string,
                 [(0, 1); (1, 1)]%nat)) as Hc by (vm_compute; reflexivity).
  rewrite Hc in Hrun. injection Hrun as <- <- <-. exact Hc.
Defined.

(** * Further properties of the bytecode VM *)

(** ** [_build_graph] *)

Lemma vm_add_edges_raise (known : gset string) (n : string)
    (deps : list string) (g : graph_t) (e : SemanticError) :
  vm.add_edges known n deps g = Raise e
  ↔ ∃ dpre d dpost,
      deps = dpre ++ d :: dpost ∧ (∀ x, x ∈ dpre → x ∈ known)
      ∧ (d ∉ known) ∧ e = UnknownBytecodeDependency n d.
Proof.
  revert g. induction deps as [|x deps IH]; intros g; simpl.
  - split; [done|]. intros (dpre & d & dpost & Heq & _). by destruct dpre.
  - destruct (decide (x ∈ known)) as [Hx|Hx].
    + rewrite IH. split.
      * intros (dpre & d & dpost & -> & Hall & Hd & ->).
        exists (x :: dpre), d, dpost. split_and!; [done| |done..].
        intros y [->|?]%elem_of_cons; [done|by apply Hall].
      * intros (dpre & d & dpost & Heq & Hall & Hd & ->).
        destruct dpre as [|y dpre]; simpl in Heq.
        -- injection Heq as -> _. done.
        -- injection Heq as -> ->. exists dpre, d, dpost.
           split_and!; [done| |done..]. intros z Hz. apply Hall. by right.
    + split.
      * intros [= <-]. exists [], x, deps.
        split_and!; [done| |done..]. by intros y ?%not_elem_of_nil.
      * intros (dpre & d & dpost & Heq & Hall & Hd & ->).
        destruct dpre as [|y dpre]; simpl in Heq.
        -- by injection Heq as -> _.
        -- injection Heq as -> _. exfalso. apply Hx, Hall. by left.
Qed.

Lemma vm_add_steps_raise (known : gset string) (objs : list Step)
    (g : graph_t) (e : SemanticError) :
  vm.add_steps known objs g = Raise e
  ↔ ∃ pre s post dpre d dpost,
      objs = pre ++ s :: post
      ∧ (∀ x y, x ∈ pre → y ∈ depends_on x → y ∈ known)
      ∧ depends_on s = dpre ++ d :: dpost
      ∧ (∀ y, y ∈ dpre → y ∈ known) ∧ (d ∉ known)
      ∧ e = UnknownBytecodeDependency (name s) d.
Proof.
  revert g. induction objs as [|s objs IH]; intros g; simpl.
  - split; [done|]. intros (pre & s & post & ? & ? & ? & Heq & _).
    by destruct pre.
  - destruct (vm.add_edges known (name s) (depends_on s) g) as [g1|e1|]
      eqn:Hedges; simpl.
    + pose proof (vm_add_edges_spec known (name s) (depends_on s) g) as Hs.
      rewrite Hedges in Hs. destruct Hs as [_ Hall]. rewrite IH. split.
      * intros (pre & s' & post & dpre & d & dpost & -> & Hpre & Hd & Hdp
                & Hn & ->).
        exists (s :: pre), s', post, dpre, d, dpost.
        split_and!; try done.
        intros x y [->|Hx]%elem_of_cons Hy; [by apply Hall|by eapply Hpre].
      * intros (pre & s' & post & dpre & d & dpost & Heq & Hpre & Hd & Hdp
                & Hn & ->).
        destruct pre as [|x pre]; simpl in Heq.
        -- injection Heq as <- _. exfalso. apply Hn, Hall. rewrite Hd.
           set_solver.
        -- injection Heq as <- ->. exists pre, s', post, dpre, d, dpost.
           split_and!; try done. intros y z Hy. apply Hpre. by right.
    + pose proof (proj1 (vm_add_edges_raise known (name s) (depends_on s) g
                           e1) Hedges)
        as (dpre & d & dpost & Hd & Hdp & Hn & ->).
      split.
      * intros [= <-]. exists [], s, objs, dpre, d, dpost.
        split_and!; try done. by intros x y ?%not_elem_of_nil.
      * intros (pre & s' & post & dpre' & d' & dpost' & Heq & Hpre & Hd'
                & Hdp' & Hn' & ->).
        destruct pre as [|x pre]; simpl in Heq.
        -- injection Heq as <- _. f_equal.
           assert (vm.add_edges known (name s) (depends_on s) g
                   = Raise (UnknownBytecodeDependency (name s) d')) as H2
             by (apply vm_add_edges_raise; exists dpre', d', dpost'; done).
           congruence.
        -- injection Heq as <- _. exfalso.
           apply Hn, (Hpre s d); [by left|]. rewrite Hd. set_solver.
    + exfalso. pose proof (vm_add_edges_spec known (name s) (depends_on s) g)
        as Hs. by rewrite Hedges in Hs.
Qed.

(** The number of dependencies [n] lists, repetitions counted. *)
Definition dependency_count (objs : list Step) (n : string) : nat :=
  length (filter (λ e, e.1 = n) (edges objs)).

Lemma pending_empty (E : list (string * string)) (n : string) :
  pending E ∅ n = length (filter (λ e, e.1 = n) E).
Proof.
  unfold pending. f_equal. apply list_filter_iff. intros [a d]. simpl.
  set_solver.
Qed.

Lemma vm_build_graph_cases (bytecode : json) :
  ((∃ g, vm._build_graph bytecode = Return g)
   ↔ ∀ n d, depends (vm.step_objs bytecode) n d → d ∈ vm.steps_set bytecode)
  ∧ (∀ adj indeg,
       vm._build_graph bytecode = Return (adj, indeg) →
       (∀ d, default [] (adj !! d)
             = (filter (λ e, e.2 = d) (edges (vm.step_objs bytecode))).*1)
       ∧ (∀ n, counter indeg n
               = Z.of_nat (dependency_count (vm.step_objs bytecode) n))
       ∧ (∀ n, n ∈ vm.steps_set bytecode → is_Some (indeg !! n)))
  ∧ (∀ e, vm._build_graph bytecode = Raise e
          ↔ ∃ pre s post dpre d dpost,
              vm.step_objs bytecode = pre ++ s :: post
              ∧ (∀ x y, x ∈ pre → y ∈ depends_on x →
                        y ∈ vm.steps_set bytecode)
              ∧ depends_on s = dpre ++ d :: dpost
              ∧ (∀ y, y ∈ dpre → y ∈ vm.steps_set bytecode)
              ∧ (d ∉ vm.steps_set bytecode)
              ∧ e = UnknownBytecodeDependency (name s) d).
Proof.
  split_and!.
  - split.
    + intros [g Hg] n d Hd%elem_of_edges.
      exact (vm_build_graph_known bytecode g Hg n d Hd).
    + intros Hall. unfold vm._build_graph.
      rewrite vm_add_steps_known; [eauto|].
      intros n d Hd. apply (Hall n d). by apply elem_of_edges.
  - intros adj indeg Hg. pose proof (vm_build_graph_spec bytecode) as Hs.
    rewrite Hg in Hs. destruct Hs as (Hadj & Hind & Hdom).
    split_and!; [apply Hadj| |done].
    intros n. rewrite Hind. unfold vm_edges. by rewrite pending_empty.
  - intros e. unfold vm._build_graph. apply vm_add_steps_raise.
Qed.

(** X12.  [_build_graph] of the VM succeeds exactly when every dependency of
    every bytecode step names a bytecode step; it then gives every step the
    list of the steps that depend on it, in the order of the bytecode, and
    as counter the number of dependencies the step lists, a dependency
    listed twice counting twice.  Otherwise the error names the first step,
    in the order of the bytecode, with an unknown dependency and the first
    such dependency of it.  Cycles are not looked for. *)
Theorem vm_build_graph_result (bytecode : json) :
  ((∃ g, vm._build_graph bytecode = Return g)
   ↔ ∀ n d, depends (vm.step_objs bytecode) n d → d ∈ vm.steps_set bytecode)
  ∧ (∀ adj indeg,
       vm._build_graph bytecode = Return (adj, indeg) →
       (∀ d, default [] (adj !! d)
             = (filter (λ e, e.2 = d) (edges (vm.step_objs bytecode))).*1)
       ∧ (∀ n, counter indeg n
               = Z.of_nat (dependency_count (vm.step_objs bytecode) n))
       ∧ (∀ n, n ∈ vm.steps_set bytecode → is_Some (indeg !! n)))
  ∧ (∀ e, vm._build_graph bytecode = Raise e
          ↔ ∃ pre s post dpre d dpost,
              vm.step_objs bytecode = pre ++ s :: post
              ∧ (∀ x y, x ∈ pre → y ∈ depends_on x →
                        y ∈ vm.steps_set bytecode)
              ∧ depends_on s = dpre ++ d :: dpost
              ∧ (∀ y, y ∈ dpre → y ∈ vm.steps_set bytecode)
              ∧ (d ∉ vm.steps_set bytecode)
              ∧ e = UnknownBytecodeDependency (name s) d).
Proof. apply vm_build_graph_cases. Qed.

Lemma vm_build_graph_result_witness :
  default [] ((<["a"%string := ["b"%string]]>
                 (<["b"%string := []]> ∅)
               : gmap string (list string)) !! "a"%string)
  = (filter (λ e, e.2 = "a"%string)
            (edges (vm.step_objs (handled_bytecode [])))).*1.
Proof.
  destruct (vm_build_graph_result (handled_bytecode [])) as (_ & H & _).
  destruct (H (<["a"%string := ["b"%string]]> (<["b"%string := []]> ∅))
              (<["b"%string := 1]> (<["a"%string := 0]> ∅))) as (Ha & _);
    [vm_compute; reflexivity|exact (Ha "a"%string)].
Defined.

(** ** Runs in which nothing is ready *)




(** * The tree transformer ([flowc/transformer.py]) *)

Module transformer.

Definition single_quote : ascii := ascii_of_nat 39.
Definition double_quote : ascii := ascii_of_nat 34.

Definition is_quote (c : ascii) : bool :=
  Ascii.eqb c single_quote || Ascii.eqb c double_quote.

(** [STRING]: [s[1:-1]] when [s] has at least two characters, begins and
    ends with the same character, and that character is a quote. *)
Definition STRING (tok : string) : string :=
  match chars tok with
  | c :: rest =>
      match last rest with
      | Some c' =>
          if Ascii.eqb c c' && is_quote c
          then string_of_list_ascii (removelast rest)
          else tok
      | None => tok
      end
  | [] => tok
  end.

(** The tuples the methods [run], [timeout], [retries], [depends_on], [when]
    and [on_error] return, with the values their terminals are converted
    to; [Other] is any item that is no such tuple. *)
Inductive body_item :=
| Run (cmd : string)
| Timeout (duration : string)
| Retries (n : Z)
| DependsOn (dep : string)
| When (cond : string)
| OnError (handler : string)
| Other.

(** The body of the loop of [step]. *)
Definition set_field (s : Step) (b : body_item) : Step :=
  match b with
  | Run cmd =>
      mkStep (name s) (Some cmd) (timeout s) (retries s) (depends_on s)
             (on_error s)
  | Timeout d =>
      mkStep (name s) (run s) (Some d) (retries s) (depends_on s)
             (on_error s)
  | Retries n =>
      mkStep (name s) (run s) (timeout s) n (depends_on s) (on_error s)
  | DependsOn d =>
      mkStep (name s) (run s) (timeout s) (retries s) (depends_on s ++ [d])
             (on_error s)
  | OnError h =>
      mkStep (name s) (run s) (timeout s) (retries s) (depends_on s)
             (Some h)
  | When _ | Other => s
  end.

(** [step]: [items[0]] is the name, the rest is the body. *)
Definition step (step_name : string) (body : list body_item) : Step :=
  foldl set_field (mkStep step_name None None 0 [] None) body.

End transformer.

(** ** Properties of the transformer *)

(** X14.  [STRING] strips one pair of quotes and nothing else: a token made
    of a quote character, any text and the same quote character again gives
    that text unchanged, whatever quotes or backslashes it contains; every
    other token, such as one that begins and ends with different quote
    characters or one of a single quote character, is returned as it is. *)
Theorem STRING_strips_one_pair (tok : string) :
  (∀ q body, transformer.is_quote q = true →
             chars tok = q :: body ++ [q] →
             transformer.STRING tok = string_of_list_ascii body)
  ∧ ((∀ q body, transformer.is_quote q = true →
                chars tok ≠ q :: body ++ [q]) →
     transformer.STRING tok = tok).
Proof.
  unfold transformer.STRING. split.
  - intros q body Hq ->. rewrite last_snoc, Ascii.eqb_refl, Hq. simpl.
    by rewrite removelast_last.
  - intros Hno. destruct (chars tok) as [|c rest] eqn:Hc; [done|].
    destruct (last rest) as [c'|] eqn:Hl; [|done].
    destruct (Ascii.eqb_spec c c') as [<-|]; [|done]. simpl.
    destruct (transformer.is_quote c) eqn:Hq; [|done].
    exfalso. apply (Hno c (removelast rest) Hq). f_equal.
    destruct rest as [|x rest] using rev_ind; [done|].
    rewrite last_snoc in Hl. injection Hl as ->.
    by rewrite removelast_last.
Qed.

Lemma STRING_strips_one_pair_witness :
  transformer.STRING "'echo hi'" = "echo hi"%string.
Proof.
  destruct (STRING_strips_one_pair "'echo hi'") as [H _].
  apply (H transformer.single_quote (chars "echo hi")); reflexivity.
Defined.

Definition last_of {A} (f : transformer.body_item → option A)
    (body : list transformer.body_item) : option A :=
  last (omap f body).

Lemma omap_snoc {A B} (f : A → option B) (l : list A) (x : A) :
  omap f (l ++ [x]) = omap f l ++ match f x with Some y => [y] | None => [] end.
Proof. rewrite omap_app. f_equal. Qed.

(** The items [step] passes over. *)
Definition ignored (b : transformer.body_item) : bool :=
  match b with transformer.When _ | transformer.Other => true | _ => false end.

(** X15.  The step that [step] builds has the name given; its dependencies
    are the [depends_on] items of the body in the order written, repetitions
    kept; its command, timeout, retries and handler are those of the last
    item of their kind, and the defaults [None], [None], [0], [None] when
    there is none; [when] items and other items change nothing. *)
Theorem step_fields (step_name : string)
    (body : list transformer.body_item) :
  let s := transformer.step step_name body in
  name s = step_name
  ∧ depends_on s
    = omap (λ b, match b with transformer.DependsOn d => Some d
                         | _ => None end) body
  ∧ run s
    = last_of (λ b, match b with transformer.Run c => Some c
                            | _ => None end) body
  ∧ timeout s
    = last_of (λ b, match b with transformer.Timeout d => Some d
                            | _ => None end) body
  ∧ retries s
    = default 0 (last_of (λ b, match b with transformer.Retries n => Some n
                                       | _ => None end) body)
  ∧ on_error s
    = last_of (λ b, match b with transformer.OnError h => Some h
                            | _ => None end) body
  ∧ transformer.step step_name (filter (λ b, ignored b = false) body) = s.
Proof.
  cbv zeta. unfold transformer.step, last_of.
  induction body as [|b body IH] using rev_ind.
  - split_and!; done.
  - destruct IH as (Hn & Hd & Hr & Ht & Hk & Hh & Hw).
    rewrite foldl_app. cbn [foldl]. rewrite !omap_snoc.
    split_and!.
    1-6: destruct b; cbn [transformer.set_field name run timeout retries
                          depends_on on_error];
      rewrite ?app_nil_r, ?last_snoc, ?Hd; done.
    rewrite filter_app, foldl_app, Hw.
    destruct b;
      first [rewrite filter_cons_True by done
            |rewrite filter_cons_False by done];
      rewrite filter_nil; done.
Qed.

(** * Rendering ([flowc/visualize.py], [do_visualize] of [cli.py]) *)

Module visualize.

(** [s.endswith(suffix)]. *)
Definition endswith (s suffix : string) : bool :=
  bool_decide (chars suffix `suffix_of` chars s).

(** [s[:-k]] for a positive [k]. *)
Definition drop_end (k : nat) (s : string) : string :=
  string_of_list_ascii (take (length (chars s) - k) (chars s)).

(** [render_workflow_to_file].  [dot_render filename format] tells whether
    graphviz's [dot.render(filename)] returns for the format set on the
    graph; [None] stands for the exception it raises otherwise.  The
    drawing is the library's; the result is the path the function returns. *)
Definition render_workflow_to_file (dot_render : string → string → bool)
    (out_path format : string) : option string :=
  let out_path :=
    if endswith out_path ("." +:+ format)
    then drop_end (length (chars format) + 1) out_path
    else out_path in
  if dot_render out_path format
  then Some (out_path +:+ "." +:+ format)
  else None.

End visualize.

(** [do_visualize]: the path printed after [Rendered:]; the format is left
    at its default. *)
Definition do_visualize (dot_render : string → string → bool)
    (w : Workflow) (outpath : string) : outcome (option string) :=
  semantic_check w ;;
  Return (visualize.render_workflow_to_file dot_render outpath "png").

Lemma string_of_chars (s : string) : string_of_list_ascii (chars s) = s.
Proof. apply string_of_list_ascii_of_string. Qed.

Lemma chars_inj (a b : string) : chars a = chars b → a = b.
Proof.
  intros H. rewrite <- (string_of_chars a), <- (string_of_chars b).
  by rewrite H.
Qed.

Lemma drop_end_app (p e : string) :
  visualize.drop_end (length (chars e)) (p +:+ e) = p.
Proof.
  unfold visualize.drop_end. rewrite chars_app, length_app.
  replace (length (chars p) + length (chars e) - length (chars e))%nat
    with (length (chars p)) by lia.
  rewrite take_app_length. apply string_of_chars.
Qed.

Lemma endswith_app (p e : string) : visualize.endswith (p +:+ e) e = true.
Proof.
  unfold visualize.endswith. apply bool_decide_eq_true.
  rewrite chars_app. by apply suffix_app_r.
Qed.

Lemma endswith_inv (s e : string) :
  visualize.endswith s e = true → ∃ p, s = p +:+ e.
Proof.
  unfold visualize.endswith. intros [k Hk]%bool_decide_eq_true.
  exists (string_of_list_ascii k). apply chars_inj.
  by rewrite chars_app, list_ascii_of_string_of_list_ascii.
Qed.

Lemma render_with_extension dot_render (p format : string) :
  visualize.render_workflow_to_file dot_render (p +:+ "." +:+ format) format
  = if dot_render p format then Some (p +:+ "." +:+ format) else None.
Proof.
  unfold visualize.render_workflow_to_file.
  rewrite (endswith_app p ("." +:+ format)).
  replace (length (chars format) + 1)%nat
    with (length (chars ("." +:+ format)))
    by (rewrite chars_app, length_app; simpl; lia).
  by rewrite (drop_end_app p ("." +:+ format)).
Qed.

(** X16.  When [render_workflow_to_file] returns, graphviz was given a file
    name without the extension and the result is that name, a dot and the
    format: the path passed in when it already ends so, the path with the
    extension added otherwise; rendering to the returned path gives the
    same path again.  [do_visualize] leaves the format at [png], so for a
    checked workflow and the path [out.svg] it renders [out.svg.png]. *)
Theorem render_path_extension dot_render (out_path format r : string) :
  visualize.render_workflow_to_file dot_render out_path format = Some r →
  (∃ base, dot_render base format = true
           ∧ r = base +:+ "." +:+ format
           ∧ (visualize.endswith out_path ("." +:+ format) = false →
              base = out_path))
  ∧ (visualize.endswith out_path ("." +:+ format) = true → r = out_path)
  ∧ visualize.render_workflow_to_file dot_render r format = Some r
  ∧ (∀ w order p,
       semantic_check w = Return order →
       dot_render (p +:+ ".svg") "png" = true →
       do_visualize dot_render w (p +:+ ".svg")
       = Return (Some (p +:+ ".svg.png"))).
Proof.
  intros Hr.
  assert (∃ base, dot_render base format = true
                  ∧ r = base +:+ "." +:+ format
                  ∧ (visualize.endswith out_path ("." +:+ format) = false →
                     base = out_path)
                  ∧ (visualize.endswith out_path ("." +:+ format) = true →
                     out_path = base +:+ "." +:+ format))
    as (base & Hb & -> & Hf & Ht).
  { destruct (visualize.endswith out_path ("." +:+ format)) eqn:He.
    - destruct (endswith_inv _ _ He) as [q ->].
      rewrite render_with_extension in Hr.
      destruct (dot_render q format) eqn:Hq; [|done].
      injection Hr as <-. by exists q.
    - unfold visualize.render_workflow_to_file in Hr. rewrite He in Hr.
      destruct (dot_render out_path format) eqn:Hq; [|done].
      injection Hr as <-. by exists out_path. }
  split_and!.
  - by exists base.
  - intros He. by rewrite (Ht He).
  - by rewrite render_with_extension, Hb.
  - intros w order p Hcheck Hp. unfold do_visualize. rewrite Hcheck.
    unfold visualize.render_workflow_to_file.
    assert (visualize.endswith (p +:+ ".svg") ("." +:+ "png") = false) as ->.
    { apply bool_decide_eq_false. intros [k Hk]. rewrite chars_app in Hk.
      apply app_inj_2 in Hk as [_ Hk]; [|done]. discriminate Hk. }
    rewrite Hp. simpl. do 2 f_equal. apply chars_inj. rewrite !chars_app.
    by rewrite <- app_assoc.
Qed.

Lemma render_path_extension_witness :
  visualize.render_workflow_to_file (λ _ _, true) "dag.png" "png"
  = Some "dag.png"%string
  ∧ visualize.render_workflow_to_file (λ _ _, true) "dag" "png"
    = Some "dag.png"%string.
Proof.
  assert (visualize.render_workflow_to_file (λ _ _, true) "dag" "png"
          = Some "dag.png"%string) as H by reflexivity.
  split; [|exact H].
  exact (proj1 (proj2 (proj2 (render_path_extension _ _ _ _ H)))).
Defined.

(** * Runs of the schedulers, read from their input

    The theorems of this part speak of the result of [execute] in terms of
    the bytecode and of what the sandbox answers. *)

(** ** What the compiler emits has the format of the bytecode *)

Lemma typed_instr_of (s : Step) : typed_step (instr_of s) = true.
Proof.
  destruct s as [n c t r d e]. unfold instr_of, typed_step. cbn.
  destruct c, t, e; cbn; rewrite ?andb_true_r;
    by apply forallb_fmap_true.
Qed.

Lemma typed_workflow_to_ir (w : Workflow) : typed_ir (workflow_to_ir w) = true.
Proof. apply forallb_fmap_true, typed_instr_of. Qed.

Lemma typed_bytecode_document (workflow_name : string) (ss : list Step)
    (ns : list Notify) :
  typed_bytecode
    (bytecode_document workflow_name (instr_of <$> ss) (notify_dict <$> ns))
  = true.
Proof.
  assert (∀ n, typed_notify (notify_dict n) = true) as Hn.
  { intros [n e s b]. unfold notify_dict, typed_notify. cbn.
    by destruct e, s, b. }
  pose proof (forallb_fmap_true typed_step instr_of ss typed_instr_of) as Hs.
  pose proof (forallb_fmap_true typed_notify notify_dict ns Hn) as Hns.
  unfold bytecode_document, typed_bytecode.
  match goal with |- context [(?hd ++ ?tl)%list] =>
    assert (assoc "steps" (hd ++ tl) = Some (JList (instr_of <$> ss))) as ->
      by reflexivity;
    assert (assoc "notifies" (hd ++ tl) = assoc "notifies" tl) as ->
      by reflexivity
  end.
  unfold typed_ir. rewrite Hs. destruct ns as [|n ns]; [done|].
  cbn [fmap list_fmap andb] in Hns |- *.
  match goal with |- context [assoc ?k [(?k', ?v)]] =>
    change (assoc k [(k', v)]) with (Some v)
  end.
  exact Hns.
Qed.

(** ** Invariants of a run of [ParallelVM]

    A property of the state that every handled completion keeps, and that
    does not depend on the running futures, holds when [execute] leaves its
    loop, whatever the exit. *)

Definition vm_with_running (running : list string) (st : vm.state)
  : vm.state :=
  vm.mkState (vm.completed st) (vm.failed st) running (vm.cancelled st)
             (vm.indeg st) (vm.events st) (vm.notifications_log st)
             (vm.submitted st).

Section vm_run_invariant.
Variable env : vm.environment.
Variable bytecode : json.
Variable P : vm.state → Prop.
Hypothesis P_step : ∀ adj tick step st,
  adj_correct (vm_edges bytecode) adj →
  vm_inv bytecode st → vm_live bytecode st →
  step ∈ vm.running_futures st → P st →
  match vm.handle_completion env bytecode adj tick step st with
  | inr st' | inl st' => P st'
  end.
Hypothesis P_running : ∀ running st, P st → P (vm_with_running running st).

Lemma vm_for_done_keeps (adj : gmap string (list string)) :
  adj_correct (vm_edges bytecode) adj →
  ∀ n tick snapshot st,
    vm_inv bytecode st → vm_live bytecode st → P st → NoDup snapshot →
    (∀ x, x ∈ snapshot → x ∈ vm.running_futures st) →
    n = length snapshot →
    P (vm.for_done env bytecode adj n tick snapshot st).1.2.
Proof.
  intros Hadj. induction n as [|n IH];
    intros tick snapshot st Hinv Hlive HP Hnd Hsnap Hlen; simpl; [done|].
  set (i := (vm.as_completed env tick snapshot `mod` length snapshot)%nat).
  assert (i < length snapshot)%nat as Hi
    by (apply Nat.mod_upper_bound; lia).
  destruct (lookup_lt_is_Some_2 snapshot i Hi) as [step Hstep].
  rewrite Hstep.
  assert (step ∈ vm.running_futures st) as Hrun
    by (apply Hsnap; by eapply list_elem_of_lookup_2).
  pose proof (vm_handle_completion_spec env bytecode adj tick step st
                Hadj Hinv Hlive Hrun) as Hh.
  pose proof (P_step adj tick step st Hadj Hinv Hlive Hrun HP) as Hh'.
  destruct (vm.handle_completion env bytecode adj tick step st)
    as [s|s]; [done|].
  destruct Hh as (Hinv' & Hlive' & _ & Hkeep).
  destruct (delete_NoDup_spec snapshot i step Hnd Hstep)
    as (Hnd' & Hlen' & Hin').
  apply IH; [done..| |lia].
  intros x' [Hx' Hne]%Hin'. apply Hkeep; [|done]. by apply Hsnap.
Qed.

Lemma vm_while_running_keeps (adj : gmap string (list string)) :
  adj_correct (vm_edges bytecode) adj →
  ∀ fuel tick st x st',
    vm_inv bytecode st → vm_live bytecode st → P st →
    vm.while_running env bytecode adj fuel tick st = Some (x, st') →
    P st'.
Proof.
  intros Hadj. induction fuel as [|fuel IH];
    intros tick st x st' Hinv Hlive HP;
    (destruct (decide (vm.running_futures st = [])) as [Hrun|Hrun];
     [rewrite vm_while_running_done by done; by intros [= _ <-]|]).
  - cbn [vm.while_running]. by destruct (vm.running_futures st).
  - rewrite vm_while_running_step by done.
    pose proof (vm_for_done_spec env bytecode adj Hadj
                  (length (vm.running_futures st)) tick
                  (vm.running_futures st) st Hinv Hlive
                  (si_running _ _ _ _ _ _ _ (vi_sched _ _ Hinv))
                  (λ x H, H) eq_refl) as Hfor.
    pose proof (vm_for_done_keeps adj Hadj
                  (length (vm.running_futures st)) tick
                  (vm.running_futures st) st Hinv Hlive HP
                  (si_running _ _ _ _ _ _ _ (vi_sched _ _ Hinv))
                  (λ x H, H) eq_refl) as Hfh.
    destruct (vm.for_done env bytecode adj (length (vm.running_futures st))
                tick (vm.running_futures st) st) as [[[y|] s] tick''];
      simpl in Hfh.
    + by intros [= _ <-].
    + destruct Hfor as (Hinv' & Hlive' & _).
      destruct (vm.cancel_requested env tick'' s).
      * intros [= _ <-]. by apply (P_running [] s).
      * by apply IH.
Qed.

Lemma vm_execute_keeps (x : vm.exit) (st : vm.state) :
  (∀ indeg, P (vm.initial_state indeg)) →
  (∀ adj indeg,
     vm._build_graph bytecode = Return (adj, indeg) →
     let ready := filter (λ n, indeg !! n = Some 0)
                         (elements (vm.steps_set bytecode)) in
     P (vm.mkState ∅ ∅ (sort ready) false indeg
                   ((λ n, (n, Queued)) <$> ready) EmptyString (sort ready))) →
  vm.execute env bytecode = Some (x, st) → P st.
Proof.
  intros Hinit Hstart. unfold vm.execute.
  destruct (vm._build_graph bytecode) as [[adj indeg]|e|] eqn:Hgeq;
    [|by intros [= _ <-]|done].
  destruct (vm_start_spec bytecode adj indeg Hgeq) as (Hinv & Hlive & _).
  specialize (Hstart adj indeg eq_refl).
  pose proof (vm_build_graph_spec bytecode) as Hg. rewrite Hgeq in Hg.
  destruct Hg as (Hadj & _).
  cbv zeta in *.
  destruct (bool_decide _) eqn:Hbd.
  - intros [= _ <-]. apply bool_decide_eq_true in Hbd as [-> _].
    apply Hinit.
  - rewrite vm_submit_all. intros Hrun.
    eapply (vm_while_running_keeps adj Hadj); [| | |exact Hrun]; done.
Qed.
End vm_run_invariant.

(** What a handled completion leaves alone. *)
Lemma vm_release_successors_fields (adj : gmap string (list string))
    (step : string) (s : vm.state) :
  vm.failed (vm.release_successors adj step s) = vm.failed s
  ∧ vm.completed (vm.release_successors adj step s) = vm.completed s
  ∧ vm.cancelled (vm.release_successors adj step s) = vm.cancelled s
  ∧ vm.notifications_log (vm.release_successors adj step s)
    = vm.notifications_log s.
Proof.
  unfold vm.release_successors.
  destruct (release adj step (vm.indeg s)) as [indeg' nr].
  by destruct (vm_submit_ready_fields
                 (vm.mkState (vm.completed s) (vm.failed s)
                    (vm.running_futures s) (vm.cancelled s) indeg'
                    (vm.events s ++ ((λ n, (n, Queued)) <$> nr))
                    (vm.notifications_log s) (vm.submitted s))
                 (sort nr)) as (-> & -> & -> & ->).
Qed.

(** The value the future of a step gives when no abort is signalled. *)
Definition vm_worker_ok (env : vm.environment) (bytecode : json)
    (n : string) : bool :=
  (vm._execute_step env bytecode false n).1.1.

(** How a handled completion changes the sets and the log, by the value of
    the future and the handler of the step. *)
Lemma vm_handle_completion_cases (env : vm.environment) (bytecode : json)
    (adj : gmap string (list string)) (tick : nat) (step : string)
    (st : vm.state) :
  vm.cancelled st = false →
  match vm.handle_completion env bytecode adj tick step st with
  | inr st' =>
      vm.cancelled st' = false
      ∧ ((vm_worker_ok env bytecode step = true
          ∧ vm.completed st' = {[step]} ∪ vm.completed st
          ∧ vm.failed st' = vm.failed st
          ∧ vm.notifications_log st' = vm.notifications_log st)
         ∨ (vm_worker_ok env bytecode step = false
            ∧ vm_has_handler bytecode step = true
            ∧ vm.completed st' = vm.completed st
            ∧ vm.failed st' = {[step]} ∪ vm.failed st
            ∧ vm.notifications_log st'
              = vm._emit_notify bytecode (vm.strftime env tick)
                  (default EmptyString (vm_on_error bytecode step))
                  (Some step) (vm.notifications_log st)))
  | inl st' =>
      vm_worker_ok env bytecode step = false
      ∧ vm_has_handler bytecode step = false
      ∧ vm.completed st' = vm.completed st
      ∧ vm.failed st' = {[step]} ∪ vm.failed st
      ∧ vm.notifications_log st' = vm.notifications_log st
      ∧ vm.submitted st' = vm.submitted st
      ∧ vm.cancelled st' = true
  end.
Proof.
  intros Hcan. unfold vm.handle_completion, vm_worker_ok.
  cbn [vm.cancelled]. rewrite Hcan.
  destruct (vm_execute_step_events env bytecode false step)
    as (ok & calls & ->).
  cbn [vm.completed vm.failed vm.running_futures vm.cancelled vm.indeg
       vm.events vm.notifications_log vm.submitted fst].
  destruct ok.
  - match goal with |- context [vm.release_successors adj step ?s] =>
      destruct (vm_release_successors_fields adj step s)
        as (-> & -> & -> & ->)
    end.
    split; [done|]. left. done.
  - fold (vm_on_error bytecode step).
    destruct (vm_has_handler_cases bytecode step)
      as [[Hh (h & Hoe & Hne)]|[Hh [Hoe|Hoe]]]; rewrite Hoe.
    + rewrite decide_False by done.
      match goal with |- context [vm.release_successors adj step ?s] =>
        destruct (vm_release_successors_fields adj step s)
          as (-> & -> & -> & ->)
      end.
      split; [done|]. right. done.
    + done.
    + rewrite decide_True by done. done.
Qed.

(** The sets record what the workers returned. *)
Definition vm_results (env : vm.environment) (bytecode : json)
    (st : vm.state) : Prop :=
  (∀ n, n ∈ vm.completed st → vm_worker_ok env bytecode n = true)
  ∧ (∀ n, n ∈ vm.failed st → vm_worker_ok env bytecode n = false).

Lemma vm_execute_results (env : vm.environment) (bytecode : json)
    (x : vm.exit) (st : vm.state) :
  vm.execute env bytecode = Some (x, st) → vm_results env bytecode st.
Proof.
  apply (vm_execute_keeps env bytecode (vm_results env bytecode)).
  - intros adj tick step s _ _ [Hcan _] _ [Hc Hf].
    pose proof (vm_handle_completion_cases env bytecode adj tick step s Hcan)
      as Hcases.
    unfold vm_results.
    destruct (vm.handle_completion env bytecode adj tick step s) as [s'|s'].
    + destruct Hcases as (Hok & _ & -> & -> & _). split; [done|].
      intros n [->%elem_of_singleton|?]%elem_of_union; [done|by apply Hf].
    + destruct Hcases as [_ [(Hok & -> & -> & _)|(Hok & _ & -> & -> & _)]].
      * split; [|done].
        intros n [->%elem_of_singleton|?]%elem_of_union; [done|by apply Hc].
      * split; [done|].
        intros n [->%elem_of_singleton|?]%elem_of_union; [done|by apply Hf].
  - intros running s Hs. exact Hs.
  - intros indeg. split; intros n ?%not_elem_of_empty; done.
  - intros adj indeg _ ready. split; intros n ?%not_elem_of_empty; done.
Qed.

(** *** What the worker returns, from what the sandbox answers *)

Lemma attempt_loop_true (stop sandbox : nat → bool) (todo attempt calls : nat) :
  attempt_loop stop sandbox todo attempt = (true, calls) →
  ∃ i, (i < todo)%nat ∧ calls = S i
       ∧ sandbox (attempt + i)%nat = true
       ∧ (∀ j, (j < i)%nat → sandbox (attempt + j)%nat = false)
       ∧ ∀ j, (j ≤ i)%nat → stop (attempt + j)%nat = false.
Proof.
  revert attempt calls. induction todo as [|todo IH]; intros attempt calls;
    simpl; [done|].
  destruct (stop attempt) eqn:Hst; [done|].
  destruct (sandbox attempt) eqn:Hsb.
  - intros [= <-]. exists 0%nat. rewrite Nat.add_0_r.
    split_and!; [lia|done|done|lia|].
    intros j Hj. by replace j with 0%nat by lia; rewrite Nat.add_0_r.
  - destruct (attempt_loop stop sandbox todo (S attempt)) as [ok c] eqn:Hl.
    intros [= -> <-].
    destruct (IH (S attempt) c Hl) as (i & Hi & -> & Hs & Hf & Hn).
    exists (S i). split_and!; [lia|done| | |].
    + by replace (attempt + S i)%nat with (S attempt + i)%nat by lia.
    + intros [|j] Hj; [by rewrite Nat.add_0_r|].
      replace (attempt + S j)%nat with (S attempt + j)%nat by lia.
      apply Hf. lia.
    + intros [|j] Hj; [by rewrite Nat.add_0_r|].
      replace (attempt + S j)%nat with (S attempt + j)%nat by lia.
      apply Hn. lia.
Qed.

(** A worker that returns [True] has seen its command succeed at one of its
    [retries + 1] attempts, after it failed at the attempts before. *)
Lemma vm_worker_ok_true (env : vm.environment) (bytecode : json)
    (cancelled : bool) (n : string) :
  (vm._execute_step env bytecode cancelled n).1.1 = true →
  ∃ i, Z.of_nat i ≤ vm_retries bytecode n
       ∧ vm_sandbox env bytecode n i = true
       ∧ ∀ j, (j < i)%nat → vm_sandbox env bytecode n j = false.
Proof.
  unfold vm._execute_step. fold (vm_retries bytecode n).
  change (vm.run_cmd_sandbox env n _ _) with (vm_sandbox env bytecode n).
  match goal with
  | |- context [attempt_loop ?a ?b ?c ?d] =>
      destruct (attempt_loop a b c d) as [ok calls] eqn:Hl
  end.
  simpl. intros ->.
  destruct (attempt_loop_true _ _ _ _ _ Hl) as (i & Hi & _ & Hs & Hf & _).
  exists i. unfold range_len in Hi. split_and!; [lia|done|done].
Qed.

Lemma vm_worker_fails (env : vm.environment) (bytecode : json)
    (cancelled : bool) (n : string) :
  (∀ i, vm_sandbox env bytecode n i = false) →
  (vm._execute_step env bytecode cancelled n).1.1 = false.
Proof.
  intros Hall.
  destruct ((vm._execute_step env bytecode cancelled n).1.1) eqn:Hok; [|done].
  destruct (vm_worker_ok_true env bytecode cancelled n Hok) as (i & _ & Hs & _).
  by rewrite Hall in Hs.
Qed.

(** *** The notifications a run dispatches *)





(** *** What one pass over the futures finishes *)

Lemma vm_handle_completion_grows (env : vm.environment) (bytecode : json)
    (adj : gmap string (list string)) (tick : nat) (step : string)
    (st : vm.state) (F : gset string) :
  vm.cancelled st = false → F ⊆ vm_finished st →
  match vm.handle_completion env bytecode adj tick step st with
  | inr st' | inl st' => F ⊆ vm_finished st'
  end.
Proof.
  intros Hcan HF.
  pose proof (vm_handle_completion_cases env bytecode adj tick step st Hcan)
    as Hcases.
  unfold vm_finished in *.
  destruct (vm.handle_completion env bytecode adj tick step st) as [s'|s'].
  - destruct Hcases as (_ & _ & -> & -> & _). set_solver.
  - destruct Hcases as [_ [(_ & -> & -> & _)|(_ & _ & -> & -> & _)]];
      set_solver.
Qed.

Lemma vm_finished_step_mono (env : vm.environment) (bytecode : json)
    (m : string) :
  ∀ adj tick step st,
    adj_correct (vm_edges bytecode) adj →
    vm_inv bytecode st → vm_live bytecode st →
    step ∈ vm.running_futures st → m ∈ vm_finished st →
    match vm.handle_completion env bytecode adj tick step st with
    | inr st' | inl st' => m ∈ vm_finished st'
    end.
Proof.
  intros adj tick step st _ _ [Hcan _] _ Hm.
  pose proof (vm_handle_completion_grows env bytecode adj tick step st
                {[m]} Hcan) as Hg.
  destruct (vm.handle_completion env bytecode adj tick step st); set_solver.
Qed.

Lemma vm_for_done_all (env : vm.environment) (bytecode : json)
    (adj : gmap string (list string)) :
  adj_correct (vm_edges bytecode) adj →
  ∀ n tick snapshot st,
    vm_inv bytecode st → vm_live bytecode st → NoDup snapshot →
    (∀ x, x ∈ snapshot → x ∈ vm.running_futures st) →
    n = length snapshot →
    match vm.for_done env bytecode adj n tick snapshot st with
    | (None, st', _) => ∀ x, x ∈ snapshot → x ∈ vm_finished st'
    | (Some _, _, _) => True
    end.
Proof.
  intros Hadj. induction n as [|n IH];
    intros tick snapshot st Hinv Hlive Hnd Hsnap Hlen; simpl.
  - destruct snapshot; [|done]. by intros x ?%not_elem_of_nil.
  - set (i := (vm.as_completed env tick snapshot `mod` length snapshot)%nat).
    assert (i < length snapshot)%nat as Hi
      by (apply Nat.mod_upper_bound; lia).
    destruct (lookup_lt_is_Some_2 snapshot i Hi) as [step Hstep].
    rewrite Hstep.
    assert (step ∈ vm.running_futures st) as Hrun
      by (apply Hsnap; by eapply list_elem_of_lookup_2).
    pose proof (vm_handle_completion_spec env bytecode adj tick step st
                  Hadj Hinv Hlive Hrun) as Hh.
    destruct (vm.handle_completion env bytecode adj tick step st)
      as [s|s]; [done|].
    destruct Hh as (Hinv' & Hlive' & Hfin & Hkeep).
    destruct (delete_NoDup_spec snapshot i step Hnd Hstep)
      as (Hnd' & Hlen' & Hin').
    assert (∀ x', x' ∈ delete i snapshot → x' ∈ vm.running_futures s)
      as Hsnap'.
    { intros x' [Hx' Hne]%Hin'. apply Hkeep; [|done]. by apply Hsnap. }
    specialize (IH (S tick) (delete i snapshot) s Hinv' Hlive' Hnd' Hsnap'
                  ltac:(lia)).
    assert (step ∈ vm_finished s) as Hs by (rewrite Hfin; set_solver).
    pose proof (vm_for_done_keeps env bytecode (λ t, step ∈ vm_finished t)
                  (vm_finished_step_mono env bytecode step) adj Hadj n
                  (S tick) (delete i snapshot) s Hinv' Hlive' Hs Hnd' Hsnap'
                  ltac:(lia)) as Hmono.
    destruct (vm.for_done env bytecode adj n (S tick) (delete i snapshot) s)
      as [[[y|] s'] tick'']; [done|].
    simpl in Hmono. intros x' Hx'.
    destruct (decide (x' = step)) as [->|Hne]; [done|].
    apply IH, Hin'. done.
Qed.

(** Unless the run aborts, every future that is running when the loop is
    entered has been handled when [execute] leaves. *)
Lemma vm_while_running_all (env : vm.environment) (bytecode : json)
    (adj : gmap string (list string)) :
  adj_correct (vm_edges bytecode) adj →
  ∀ fuel tick st x st',
    vm_inv bytecode st → vm_live bytecode st →
    vm.while_running env bytecode adj fuel tick st = Some (x, st') →
    (∃ a, x = vm.Aborted a)
    ∨ ∀ n, n ∈ vm.running_futures st → n ∈ vm_finished st'.
Proof.
  intros Hadj fuel tick st x st' Hinv Hlive.
  destruct (decide (vm.running_futures st = [])) as [Hrun|Hrun].
  { intros _. right. rewrite Hrun. by intros n ?%not_elem_of_nil. }
  destruct fuel as [|fuel].
  { cbn [vm.while_running]. by destruct (vm.running_futures st). }
  rewrite vm_while_running_step by done.
  pose proof (vm_for_done_spec env bytecode adj Hadj
                (length (vm.running_futures st)) tick
                (vm.running_futures st) st Hinv Hlive
                (si_running _ _ _ _ _ _ _ (vi_sched _ _ Hinv))
                (λ x H, H) eq_refl) as Hfor.
  pose proof (vm_for_done_all env bytecode adj Hadj
                (length (vm.running_futures st)) tick
                (vm.running_futures st) st Hinv Hlive
                (si_running _ _ _ _ _ _ _ (vi_sched _ _ Hinv))
                (λ x H, H) eq_refl) as Hall.
  destruct (vm.for_done env bytecode adj (length (vm.running_futures st))
              tick (vm.running_futures st) st) as [[[y|] s] tick''].
  - destruct Hfor as (a & -> & _). intros [= <- _]. left. by exists a.
  - destruct Hfor as (Hinv' & Hlive' & _).
    destruct (vm.cancel_requested env tick'' s).
    + intros [= _ <-]. right. exact Hall.
    + intros Hrest. right. intros n Hn.
      apply (vm_while_running_keeps env bytecode (λ t, n ∈ vm_finished t)
               (vm_finished_step_mono env bytecode n) (λ _ _ H, H) adj Hadj
               fuel tick'' s x st' Hinv' Hlive' (Hall n Hn) Hrest).
Qed.

(** *** Steps that were handed to the pool *)

(** A step that was handed to the pool has been handled when [execute]
    leaves, unless it leaves at the abort or at the cancel exit. *)
Lemma vm_submitted_finished (env : vm.environment) (bytecode : json)
    (x : vm.exit) (st : vm.state) (a : string) :
  vm.execute env bytecode = Some (x, st) → a ∈ vm.submitted st →
  a ∈ vm_finished st ∨ (∃ a', x = vm.Aborted a') ∨ x = vm.CancelDetected.
Proof.
  intros Hex Ha.
  destruct (vm_execute_spec env bytecode) as (x' & st' & Hex' & Hout).
  rewrite Hex in Hex'. injection Hex' as <- <-.
  destruct x as [e| |a'| | |].
  - destruct Hout as [-> _]. by apply not_elem_of_nil in Ha.
  - destruct Hout as (_ & Hs & _). rewrite Hs in Ha.
    by apply not_elem_of_nil in Ha.
  - right. left. by exists a'.
  - right. by right.
  - left. destruct (vm_execute_progress env bytecode _ st Hex) as [[_ Hs] _];
      [by right|].
    destruct Hout as (_ & Hnil & _). rewrite Hnil in Hs.
    destruct (Hs a Ha) as [?|Hn]; [done|]. by apply not_elem_of_nil in Hn.
  - left. destruct (vm_execute_progress env bytecode _ st Hex) as [[_ Hs] _];
      [by left|].
    destruct Hout as (_ & Hnil & _). rewrite Hnil in Hs.
    destruct (Hs a Ha) as [?|Hn]; [done|]. by apply not_elem_of_nil in Hn.
Qed.

(** A step without dependencies has been handled when [execute] leaves,
    unless it leaves at the abort exit: the futures of these steps are in
    the first batch the loop goes through, and the cancel event is looked at
    after a batch only. *)
Lemma vm_initial_finished (env : vm.environment) (bytecode : json)
    (x : vm.exit) (st : vm.state) (a : string) :
  vm.execute env bytecode = Some (x, st) →
  (∀ n d, depends (vm.step_objs bytecode) n d → d ∈ vm.steps_set bytecode) →
  a ∈ vm.steps_set bytecode →
  (∀ d, ¬ depends (vm.step_objs bytecode) a d) →
  a ∈ vm_finished st ∨ ∃ a', x = vm.Aborted a'.
Proof.
  intros Hex Hknown Ha Hnodep. unfold vm.execute in Hex.
  pose proof (vm_build_graph_spec bytecode) as Hg.
  destruct (vm._build_graph bytecode) as [[adj indeg]|e|] eqn:Hgeq; [| |done].
  2:{ destruct Hg as (n & d & Hd & Hnd & _). destruct (Hnd (Hknown n d Hd)). }
  destruct Hg as (Hadj & Hind & Hdom).
  destruct (vm_start_spec bytecode adj indeg Hgeq) as (Hinv & Hlive & _).
  cbv zeta in *.
  set (ready := filter (λ n, indeg !! n = Some 0)
                       (elements (vm.steps_set bytecode))) in *.
  assert (a ∈ ready) as Hready.
  { apply list_elem_of_filter. split; [|by apply elem_of_elements].
    destruct (Hdom a Ha) as [z Hz]. specialize (Hind a).
    unfold counter in Hind. rewrite Hz in Hind. simpl in Hind.
    rewrite (pending_all_released (vm_edges bytecode) ∅ a) in Hind.
    - rewrite Hz. f_equal. lia.
    - intros d Hd%elem_of_edges. destruct (Hnodep d Hd). }
  destruct (bool_decide _) eqn:Hbd.
  { apply bool_decide_eq_true in Hbd as [Hr _]. rewrite Hr in Hready.
    by apply not_elem_of_nil in Hready. }
  rewrite vm_submit_all in Hex.
  destruct (vm_while_running_all env bytecode adj Hadj _ _ _ _ _ Hinv Hlive
              Hex) as [?|Hall]; [by right|].
  left. apply Hall. simpl. unfold sort.
  by rewrite merge_sort_Permutation.
Qed.

(** A step whose command fails at every attempt and that was handled is in
    [failed]; when it has no handler, [execute] has left at the abort exit
    for this very step. *)
Lemma vm_failing_finished (env : vm.environment) (bytecode : json)
    (x : vm.exit) (st : vm.state) (a : string) :
  vm.execute env bytecode = Some (x, st) →
  (∀ i, vm_sandbox env bytecode a i = false) → a ∈ vm_finished st →
  a ∈ vm.failed st
  ∧ (vm_has_handler bytecode a = false → x = vm.Aborted a).
Proof.
  intros Hex Hfail Ha.
  destruct (vm_execute_results env bytecode x st Hex) as [Hc _].
  assert (a ∈ vm.failed st) as Hf.
  { unfold vm_finished in Ha. apply elem_of_union in Ha as [Ha|?]; [|done].
    apply Hc in Ha. unfold vm_worker_ok in Ha.
    by rewrite (vm_worker_fails env bytecode false a Hfail) in Ha. }
  split; [done|]. intros Hh.
  destruct (vm_execute_spec env bytecode) as (x' & st' & Hex' & Hout).
  rewrite Hex in Hex'. injection Hex' as <- <-.
  destruct x as [e| |a'| | |].
  - destruct Hout as [-> _]. by apply not_elem_of_empty in Hf.
  - destruct Hout as (_ & _ & He & _). rewrite He in Hf.
    by apply not_elem_of_empty in Hf.
  - destruct Hout as (_ & _ & _ & _ & _ & _ & _ & _ & Honly).
    by rewrite (Honly a Hf Hh).
  - destruct Hout as (_ & _ & [_ Hl] & _). apply Hl in Hf. congruence.
  - destruct Hout as (_ & _ & [_ Hl] & _). apply Hl in Hf. congruence.
  - destruct Hout as (_ & _ & [_ Hl] & _). apply Hl in Hf. congruence.
Qed.

(** ** Invariants of a run of [ParallelRuntime] *)

Section rt_run_invariant.
Variable env : runtime_parallel.environment.
Variable ir : list json.
Variable P : runtime_parallel.state → Prop.
Hypothesis P_step : ∀ adj step st,
  adj_correct (rt_edges ir) adj →
  rt_inv ir st → rt_live ir st →
  step ∈ runtime_parallel.running_futures st → P st →
  match runtime_parallel.handle_completion env ir adj step st with
  | inr st' | inl st' => P st'
  end.

Lemma rt_for_done_keeps (adj : gmap string (list string)) :
  adj_correct (rt_edges ir) adj →
  ∀ n tick snapshot st,
    rt_inv ir st → rt_live ir st → P st → NoDup snapshot →
    (∀ x, x ∈ snapshot → x ∈ runtime_parallel.running_futures st) →
    n = length snapshot →
    P (runtime_parallel.for_done env ir adj n tick snapshot st).1.2.
Proof.
  intros Hadj. induction n as [|n IH];
    intros tick snapshot st Hinv Hlive HP Hnd Hsnap Hlen; simpl; [done|].
  set (i := (runtime_parallel.as_completed env tick snapshot
               `mod` length snapshot)%nat).
  assert (i < length snapshot)%nat as Hi
    by (apply Nat.mod_upper_bound; lia).
  destruct (lookup_lt_is_Some_2 snapshot i Hi) as [step Hstep].
  rewrite Hstep.
  assert (step ∈ runtime_parallel.running_futures st) as Hrun
    by (apply Hsnap; by eapply list_elem_of_lookup_2).
  pose proof (rt_handle_completion_spec env ir adj step st
                Hadj Hinv Hlive Hrun) as Hh.
  pose proof (P_step adj step st Hadj Hinv Hlive Hrun HP) as Hh'.
  destruct (runtime_parallel.handle_completion env ir adj step st)
    as [s|s]; [done|].
  destruct Hh as (Hinv' & Hlive' & _ & Hkeep).
  destruct (delete_NoDup_spec snapshot i step Hnd Hstep)
    as (Hnd' & Hlen' & Hin').
  apply IH; [done..| |lia].
  intros x' [Hx' Hne]%Hin'. apply Hkeep; [|done]. by apply Hsnap.
Qed.

Lemma rt_while_running_keeps (adj : gmap string (list string)) :
  adj_correct (rt_edges ir) adj →
  ∀ fuel tick st x st',
    rt_inv ir st → rt_live ir st → P st →
    runtime_parallel.while_running env ir adj fuel tick st = Some (x, st') →
    P st'.
Proof.
  intros Hadj. induction fuel as [|fuel IH];
    intros tick st x st' Hinv Hlive HP;
    (destruct (decide (runtime_parallel.running_futures st = []))
       as [Hrun|Hrun];
     [rewrite rt_while_running_done by done; by intros [= _ <-]|]).
  - cbn [runtime_parallel.while_running].
    by destruct (runtime_parallel.running_futures st).
  - rewrite rt_while_running_step by done.
    pose proof (rt_for_done_spec env ir adj Hadj
                  (length (runtime_parallel.running_futures st)) tick
                  (runtime_parallel.running_futures st) st Hinv Hlive
                  (si_running _ _ _ _ _ _ _ Hinv)
                  (λ x H, H) eq_refl) as Hfor.
    pose proof (rt_for_done_keeps adj Hadj
                  (length (runtime_parallel.running_futures st)) tick
                  (runtime_parallel.running_futures st) st Hinv Hlive HP
                  (si_running _ _ _ _ _ _ _ Hinv)
                  (λ x H, H) eq_refl) as Hfh.
    destruct (runtime_parallel.for_done env ir adj
                (length (runtime_parallel.running_futures st))
                tick (runtime_parallel.running_futures st) st)
      as [[[y|] s] tick'']; simpl in Hfh.
    + by intros [= _ <-].
    + destruct Hfor as (Hinv' & Hlive' & _). by apply IH.
Qed.
End rt_run_invariant.

(** The state in which the main loop of [ParallelRuntime.execute] starts. *)
Lemma rt_start_spec (ir : list json) :
  let '(adj, indeg) := runtime_parallel.build_graph ir in
  let ready := filter (λ n, indeg !! n = Some 0)
                      (elements (runtime_parallel.steps ir)) in
  let s0 := runtime_parallel.mkState ∅ ∅ ready false indeg ready in
  adj_correct (rt_edges ir) adj ∧ rt_inv ir s0 ∧ rt_live ir s0
  ∧ ∀ n, n ∈ runtime_parallel.steps ir →
         (∀ d, (n, d) ∉ rt_edges ir) → n ∈ ready.
Proof.
  pose proof (rt_build_graph_spec ir) as Hg.
  pose proof (rt_build_graph_dom ir) as Hdom.
  destruct (runtime_parallel.build_graph ir) as [adj indeg].
  destruct Hg as [Hadj Hind]. simpl in Hdom. cbv zeta.
  set (ready := filter (λ n, indeg !! n = Some 0)
                       (elements (runtime_parallel.steps ir))).
  assert (NoDup ready) as Hnd by apply NoDup_filter, NoDup_elements.
  assert (∀ n, n ∈ ready →
               n ∈ runtime_parallel.steps ir
               ∧ pending (rt_edges ir) ∅ n = 0%nat) as Hready.
  { intros n. unfold ready.
    intros [Hz Hn]%list_elem_of_filter. apply elem_of_elements in Hn.
    split; [done|]. specialize (Hind n). unfold counter in Hind.
    rewrite Hz in Hind. simpl in Hind. lia. }
  split_and!; [done| | |].
  - unfold rt_inv, rt_finished. simpl.
    replace (∅ ∪ ∅ : gset string) with (∅ : gset string) by set_solver.
    constructor; [done|done|intros n Hn; by apply Hready
                 |intros n Hn; by apply Hready|done| | |done].
    + intros n Hn. split; [done|]. apply not_elem_of_empty.
    + intros n ?%not_elem_of_empty. done.
  - split; simpl; [done|]. by intros n ?%not_elem_of_empty.
  - intros n Hn Hnone. apply list_elem_of_filter.
    split; [|by apply elem_of_elements].
    destruct (Hdom n Hn) as [z Hz]. specialize (Hind n).
    unfold counter in Hind. rewrite Hz in Hind. simpl in Hind.
    rewrite (pending_all_released (rt_edges ir) ∅ n) in Hind.
    + rewrite Hz. f_equal. lia.
    + intros d Hd. destruct (Hnone d Hd).
Qed.

Lemma rt_execute_keeps (env : runtime_parallel.environment) (ir : list json)
    (P : runtime_parallel.state → Prop) (x : runtime_parallel.exit)
    (st : runtime_parallel.state) :
  (∀ adj step st,
     adj_correct (rt_edges ir) adj → rt_inv ir st → rt_live ir st →
     step ∈ runtime_parallel.running_futures st → P st →
     match runtime_parallel.handle_completion env ir adj step st with
     | inr st' | inl st' => P st'
     end) →
  (∀ indeg running submitted,
     P (runtime_parallel.mkState ∅ ∅ running false indeg submitted)) →
  runtime_parallel.execute env ir = Some (x, st) → P st.
Proof.
  intros Hstep Hinit. unfold runtime_parallel.execute.
  pose proof (rt_start_spec ir) as Hs.
  destruct (runtime_parallel.build_graph ir) as [adj indeg].
  cbv zeta in *. destruct Hs as (Hadj & Hinv & Hlive & _).
  destruct (bool_decide _).
  - intros [= _ <-]. apply Hinit.
  - rewrite rt_submit_all. intros Hrun.
    eapply (rt_while_running_keeps env ir P Hstep adj Hadj);
      [| | |exact Hrun]; [exact Hinv|exact Hlive|apply Hinit].
Qed.

Definition rt_worker_ok (env : runtime_parallel.environment) (ir : list json)
    (n : string) : bool :=
  (runtime_parallel._execute_step env ir false n).1.

Lemma rt_submit_ready_fields (l : list string) (s : runtime_parallel.state) :
  runtime_parallel.completed (foldl runtime_parallel.submit_ready s l)
  = runtime_parallel.completed s
  ∧ runtime_parallel.failed (foldl runtime_parallel.submit_ready s l)
    = runtime_parallel.failed s
  ∧ ∀ n, n ∈ runtime_parallel.submitted s →
         n ∈ runtime_parallel.submitted
               (foldl runtime_parallel.submit_ready s l).
Proof.
  revert s. induction l as [|n l IH]; intros s; simpl; [done|].
  destruct (IH (runtime_parallel.submit_ready s n)) as (-> & -> & Hsub).
  unfold runtime_parallel.submit_ready in *.
  destruct (decide _); [done|]. split_and!; [done..|].
  intros m Hm. apply Hsub. simpl. apply elem_of_app. by left.
Qed.

Lemma rt_handle_completion_cases (env : runtime_parallel.environment)
    (ir : list json) (adj : gmap string (list string)) (step : string)
    (st : runtime_parallel.state) :
  runtime_parallel.cancelled st = false →
  match runtime_parallel.handle_completion env ir adj step st with
  | inr st' =>
      (∀ n, n ∈ runtime_parallel.submitted st →
            n ∈ runtime_parallel.submitted st')
      ∧ ((rt_worker_ok env ir step = true
          ∧ runtime_parallel.completed st'
            = {[step]} ∪ runtime_parallel.completed st
          ∧ runtime_parallel.failed st' = runtime_parallel.failed st)
         ∨ (rt_worker_ok env ir step = false
            ∧ rt_has_handler ir step = true
            ∧ runtime_parallel.completed st' = runtime_parallel.completed st
            ∧ runtime_parallel.failed st'
              = {[step]} ∪ runtime_parallel.failed st
            ∧ runtime_parallel.submitted st' = runtime_parallel.submitted st
            ∧ runtime_parallel.indeg st' = runtime_parallel.indeg st))
  | inl st' =>
      rt_worker_ok env ir step = false
      ∧ rt_has_handler ir step = false
      ∧ runtime_parallel.completed st' = runtime_parallel.completed st
      ∧ runtime_parallel.failed st' = {[step]} ∪ runtime_parallel.failed st
      ∧ runtime_parallel.submitted st' = runtime_parallel.submitted st
  end.
Proof.
  intros Hcan. unfold runtime_parallel.handle_completion, rt_worker_ok.
  cbn [runtime_parallel.cancelled]. rewrite Hcan.
  destruct (runtime_parallel._execute_step env ir false step) as [ok calls].
  cbn [fst]. destruct ok.
  - unfold runtime_parallel.release_successors.
    destruct (release adj step _) as [indeg' nr].
    match goal with |- context [foldl runtime_parallel.submit_ready ?s nr] =>
      destruct (rt_submit_ready_fields nr s) as (-> & -> & Hsub)
    end.
    split; [exact Hsub|]. left. done.
  - unfold rt_has_handler.
    destruct (as_str (dict_get (runtime_parallel.instr_of_name ir step)
                               "on_error" JNull)) as [h|]; [|done].
    destruct (decide (h = EmptyString)) as [->|Hne]; [done|].
    split; [done|]. right.
    split_and!; [done|by apply bool_decide_eq_true|done..].
Qed.

(** The sets record what the workers returned. *)
Definition rt_results (env : runtime_parallel.environment) (ir : list json)
    (st : runtime_parallel.state) : Prop :=
  (∀ n, n ∈ runtime_parallel.completed st → rt_worker_ok env ir n = true)
  ∧ (∀ n, n ∈ runtime_parallel.failed st → rt_worker_ok env ir n = false).

Lemma rt_execute_results (env : runtime_parallel.environment)
    (ir : list json) (x : runtime_parallel.exit)
    (st : runtime_parallel.state) :
  runtime_parallel.execute env ir = Some (x, st) → rt_results env ir st.
Proof.
  apply (rt_execute_keeps env ir (rt_results env ir)).
  - intros adj step s _ _ [Hcan _] _ [Hc Hf].
    pose proof (rt_handle_completion_cases env ir adj step s Hcan) as Hcases.
    unfold rt_results.
    destruct (runtime_parallel.handle_completion env ir adj step s)
      as [s'|s'].
    + destruct Hcases as (Hok & _ & -> & -> & _). split; [done|].
      intros n [->%elem_of_singleton|?]%elem_of_union; [done|by apply Hf].
    + destruct Hcases as [_ [(Hok & -> & ->)|(Hok & _ & -> & -> & _)]].
      * split; [|done].
        intros n [->%elem_of_singleton|?]%elem_of_union; [done|by apply Hc].
      * split; [done|].
        intros n [->%elem_of_singleton|?]%elem_of_union; [done|by apply Hf].
  - intros indeg running submitted.
    split; intros n ?%not_elem_of_empty; done.
Qed.

Lemma rt_worker_ok_true (env : runtime_parallel.environment) (ir : list json)
    (cancelled : bool) (n : string) :
  (runtime_parallel._execute_step env ir cancelled n).1 = true →
  ∃ i, Z.of_nat i ≤ rt_retries ir n
       ∧ rt_sandbox env ir n i = true
       ∧ ∀ j, (j < i)%nat → rt_sandbox env ir n j = false.
Proof.
  unfold runtime_parallel._execute_step. fold (rt_retries ir n).
  change (runtime_parallel.run_cmd_sandbox env n _ _)
    with (rt_sandbox env ir n).
  match goal with
  | |- context [attempt_loop ?a ?b ?c ?d] =>
      destruct (attempt_loop a b c d) as [ok calls] eqn:Hl
  end.
  simpl. intros ->.
  destruct (attempt_loop_true _ _ _ _ _ Hl) as (i & Hi & _ & Hs & Hf & _).
  exists i. unfold range_len in Hi. split_and!; [lia|done|done].
Qed.

Lemma rt_worker_fails (env : runtime_parallel.environment) (ir : list json)
    (cancelled : bool) (n : string) :
  (∀ i, rt_sandbox env ir n i = false) →
  (runtime_parallel._execute_step env ir cancelled n).1 = false.
Proof.
  intros Hall.
  destruct ((runtime_parallel._execute_step env ir cancelled n).1) eqn:Hok;
    [|done].
  destruct (rt_worker_ok_true env ir cancelled n Hok) as (i & _ & Hs & _).
  by rewrite Hall in Hs.
Qed.

(** A step that was handed to the pool has been handled when [execute]
    leaves, unless it leaves at the abort exit. *)
Lemma rt_submitted_finished (env : runtime_parallel.environment)
    (ir : list json) (x : runtime_parallel.exit)
    (st : runtime_parallel.state) (a : string) :
  runtime_parallel.execute env ir = Some (x, st) →
  a ∈ runtime_parallel.submitted st →
  a ∈ rt_finished st ∨ ∃ a', x = runtime_parallel.Aborted a'.
Proof.
  intros Hex Ha.
  destruct (rt_execute_spec env ir) as (x' & st' & Hex' & Hout).
  rewrite Hex in Hex'. injection Hex' as <- <-.
  destruct x as [|a'| |].
  - destruct Hout as (_ & Hs & _). rewrite Hs in Ha.
    by apply not_elem_of_nil in Ha.
  - right. by exists a'.
  - left. destruct (rt_execute_progress env ir _ st Hex) as [[_ Hs] _];
      [by right|].
    destruct Hout as (_ & Hnil & _). rewrite Hnil in Hs.
    destruct (Hs a Ha) as [?|Hn]; [done|]. by apply not_elem_of_nil in Hn.
  - left. destruct (rt_execute_progress env ir _ st Hex) as [[_ Hs] _];
      [by left|].
    destruct Hout as (_ & Hnil & _). rewrite Hnil in Hs.
    destruct (Hs a Ha) as [?|Hn]; [done|]. by apply not_elem_of_nil in Hn.
Qed.

(** The steps without dependencies are handed to the pool at the start. *)
Lemma rt_initial_submitted (env : runtime_parallel.environment)
    (ir : list json) (x : runtime_parallel.exit)
    (st : runtime_parallel.state) (a : string) :
  runtime_parallel.execute env ir = Some (x, st) →
  a ∈ runtime_parallel.steps ir → (∀ d, ¬ depends (rt_objs ir) a d) →
  a ∈ runtime_parallel.submitted st.
Proof.
  intros Hex Ha Hnodep. revert Hex. unfold runtime_parallel.execute.
  pose proof (rt_start_spec ir) as Hs.
  destruct (runtime_parallel.build_graph ir) as [adj indeg].
  cbv zeta in *. destruct Hs as (Hadj & Hinv & Hlive & Hready).
  assert (a ∈ filter (λ n, indeg !! n = Some 0)
                     (elements (runtime_parallel.steps ir))) as Hin.
  { apply Hready; [done|]. intros d Hd%elem_of_edges. by apply (Hnodep d). }
  destruct (bool_decide _) eqn:Hbd.
  { apply bool_decide_eq_true in Hbd as [Hr _]. rewrite Hr in Hin.
    by apply not_elem_of_nil in Hin. }
  rewrite rt_submit_all. intros Hrun.
  apply (rt_while_running_keeps env ir
           (λ t, a ∈ runtime_parallel.submitted t)) in Hrun; try done.
  intros adj' step s Hadj' Hinv' Hlive' Hstep Hsub.
  pose proof (rt_handle_completion_cases env ir adj' step s (proj1 Hlive'))
    as Hcases.
  destruct (runtime_parallel.handle_completion env ir adj' step s)
    as [s'|s'].
  - destruct Hcases as (_ & _ & _ & _ & ->). done.
  - destruct Hcases as [Hmono _]. by apply Hmono.
Qed.

(** A step whose command fails at every attempt and that was handled is in
    [failed]; when it has no handler, [execute] has left at the abort exit
    for this very step. *)
Lemma rt_failing_finished (env : runtime_parallel.environment)
    (ir : list json) (x : runtime_parallel.exit)
    (st : runtime_parallel.state) (a : string) :
  runtime_parallel.execute env ir = Some (x, st) →
  (∀ i, rt_sandbox env ir a i = false) → a ∈ rt_finished st →
  a ∈ runtime_parallel.failed st
  ∧ (rt_has_handler ir a = false → x = runtime_parallel.Aborted a).
Proof.
  intros Hex Hfail Ha.
  destruct (rt_execute_results env ir x st Hex) as [Hc _].
  assert (a ∈ runtime_parallel.failed st) as Hf.
  { unfold rt_finished in Ha. apply elem_of_union in Ha as [Ha|?]; [|done].
    apply Hc in Ha. unfold rt_worker_ok in Ha.
    by rewrite (rt_worker_fails env ir false a Hfail) in Ha. }
  split; [done|]. intros Hh.
  destruct (rt_execute_spec env ir) as (x' & st' & Hex' & Hout).
  rewrite Hex in Hex'. injection Hex' as <- <-.
  destruct x as [|a'| |].
  - destruct Hout as (_ & _ & He & _). rewrite He in Hf.
    by apply not_elem_of_empty in Hf.
  - destruct Hout as (_ & _ & _ & _ & _ & _ & _ & _ & Honly).
    by rewrite (Honly a Hf Hh).
  - destruct Hout as (_ & _ & [_ Hl] & _). apply Hl in Hf. congruence.
  - destruct Hout as (_ & _ & [_ Hl] & _). apply Hl in Hf. congruence.
Qed.

(** ** Unhandled failures, run by run *)

(** Two steps without dependencies and without handler. *)
Definition two_failing_ir : list json :=
  [ instr_of (step_with "a" "false" [] None);
    instr_of (step_with "c" "false" [] None) ].

Definition two_failing_bytecode : json :=
  bytecode_document "w" two_failing_ir [].

(** An environment in which every command fails. *)
Definition all_fail_env : vm.environment :=
  vm.mkEnv (λ _ _ _ _, false) None (λ _ _, 0%nat)
           (λ _, "2024-01-01 00:00:00"%string).

Definition rt_all_fail_env : runtime_parallel.environment :=
  runtime_parallel.mkEnv (λ _ _ _ _, false) (λ _ _, 0%nat).

(** C3, as stated, fails when two steps without handler fail: the scheduler
    leaves at the abort for the one whose future it handles first and never
    marks the other one, which was handed to the pool and whose command
    fails at every attempt as well. *)
Lemma unhandled_failure_unmarked :
  (∃ st, vm.execute all_fail_env two_failing_bytecode
         = Some (vm.Aborted "a", st)
         ∧ "c" ∈ vm.submitted st
         ∧ (∀ i, vm_sandbox all_fail_env two_failing_bytecode "c" i = false)
         ∧ vm_has_handler two_failing_bytecode "c" = false
         ∧ vm.failed st = {["a"%string]})
  ∧ (∃ st, runtime_parallel.execute rt_all_fail_env two_failing_ir
           = Some (runtime_parallel.Aborted "c", st)
           ∧ "a" ∈ runtime_parallel.submitted st
           ∧ (∀ i, rt_sandbox rt_all_fail_env two_failing_ir "a" i = false)
           ∧ rt_has_handler two_failing_ir "a" = false
           ∧ runtime_parallel.failed st = {["c"%string]}).
Proof.
  split.
  - exists (vm.mkState ∅ {["a"%string]} [] true
              (<["c"%string := 0]> (<["a"%string := 0]> ∅))
              [("c", Queued); ("a", Queued); ("a", Running); ("a", Failed)]%string
              EmptyString ["a"; "c"]%string).
    split; [vm_compute; reflexivity|]. split_and!; [|done..].
    simpl. set_solver.
  - exists (runtime_parallel.mkState ∅ {["c"%string]} [] true
              (<["c"%string := 0]> (<["a"%string := 0]> ∅))
              ["c"; "a"]%string).
    split; [vm_compute; reflexivity|]. split_and!; [|done..].
    simpl. set_solver.
Qed.

(** C3, amended.  On bytecode of the format [emit_bytecode] writes, and with
    a sandbox that answers every call, a run of [ParallelVM.execute] leaves
    at its abort exit exactly for the first failure without [on_error]
    handler whose future the scheduler handles: that step [a] was handed to
    the pool, its worker returned failure, it is in [failed] and reported
    failed, the abort flag is up, the running set is empty, [False] is
    returned, no other step without handler is in [failed], and no step
    that depends on [a], directly or through other steps, was handed to the
    pool or reported running.  Such a failure forces the exit: when a step
    that was handed to the pool has a command that fails at every attempt
    and no handler, the run leaves at the abort exit, for this or for
    another step, or at the cancel exit; when the step has no dependency
    the abort exit it is.  Without abort no step without handler is in
    [failed].  The same holds of [ParallelRuntime.execute], which has no
    cancel exit. *)
Theorem unhandled_failure_aborts :
  (∀ (env : vm.environment) (bytecode : json),
     typed_bytecode bytecode = true →
     ∃ x st,
       vm.execute env bytecode = Some (x, st)
       ∧ (∀ a, x = vm.Aborted a →
            a ∈ vm.submitted st
            ∧ vm_worker_ok env bytecode a = false
            ∧ vm_has_handler bytecode a = false
            ∧ a ∈ vm.failed st
            ∧ reports_of a (vm.events st)
              = [(a, Queued); (a, Running); (a, Failed)]
            ∧ vm.cancelled st = true ∧ vm.running_futures st = []
            ∧ vm.return_value x = false
            ∧ (∀ n, n ∈ vm.failed st → vm_has_handler bytecode n = false →
                    n = a)
            ∧ ∀ b, tc (depends (vm.step_objs bytecode)) b a →
                   (b ∉ vm.submitted st) ∧ (b, Running) ∉ vm.events st)
       ∧ (∀ a, a ∈ vm.submitted st →
               (∀ i, vm_sandbox env bytecode a i = false) →
               vm_has_handler bytecode a = false →
               (∃ a', x = vm.Aborted a' ∧ (a ∈ vm.failed st ↔ a' = a))
               ∨ (x = vm.CancelDetected ∧ vm.cancel_event env ≠ None
                  ∧ a ∉ vm.failed st))
       ∧ (∀ a, a ∈ vm.steps_set bytecode →
               (∀ d, ¬ depends (vm.step_objs bytecode) a d) →
               (∀ n d, depends (vm.step_objs bytecode) n d →
                       d ∈ vm.steps_set bytecode) →
               (∀ i, vm_sandbox env bytecode a i = false) →
               vm_has_handler bytecode a = false →
               ∃ a', x = vm.Aborted a')
       ∧ ((∀ a, x ≠ vm.Aborted a) →
          vm.cancelled st = false
          ∧ ∀ n, n ∈ vm.failed st → vm_has_handler bytecode n = true))
  ∧ (∀ (env : runtime_parallel.environment) (ir : list json),
       typed_ir ir = true →
       ∃ x st,
         runtime_parallel.execute env ir = Some (x, st)
         ∧ (∀ a, x = runtime_parallel.Aborted a →
              a ∈ runtime_parallel.submitted st
              ∧ rt_worker_ok env ir a = false
              ∧ rt_has_handler ir a = false
              ∧ a ∈ runtime_parallel.failed st
              ∧ runtime_parallel.cancelled st = true
              ∧ runtime_parallel.running_futures st = []
              ∧ runtime_parallel.return_value x = false
              ∧ (∀ n, n ∈ runtime_parallel.failed st →
                      rt_has_handler ir n = false → n = a)
              ∧ ∀ b, tc (depends (rt_objs ir)) b a →
                     b ∉ runtime_parallel.submitted st)
         ∧ (∀ a, a ∈ runtime_parallel.submitted st →
                 (∀ i, rt_sandbox env ir a i = false) →
                 rt_has_handler ir a = false →
                 ∃ a', x = runtime_parallel.Aborted a'
                       ∧ (a ∈ runtime_parallel.failed st ↔ a' = a))
         ∧ (∀ a, a ∈ runtime_parallel.steps ir →
                 (∀ d, ¬ depends (rt_objs ir) a d) →
                 (∀ i, rt_sandbox env ir a i = false) →
                 rt_has_handler ir a = false →
                 ∃ a', x = runtime_parallel.Aborted a')
         ∧ ((∀ a, x ≠ runtime_parallel.Aborted a) →
            runtime_parallel.cancelled st = false
            ∧ ∀ n, n ∈ runtime_parallel.failed st →
                   rt_has_handler ir n = true)).
Proof.
  split.
  - intros env bytecode _.
    destruct (vm_execute_spec env bytecode) as (x & st & Hex & Hout).
    exists x, st. split; [done|].
    pose proof (vm_execute_results env bytecode x st Hex) as [_ Hres].
    destruct (vm_execute_hist env bytecode x st Hex) as [Hh Hr].
    split_and!.
    + intros a ->.
      destruct Hout as (_ & _ & Hinv & Hrun & Hcan & Ha & Hnc & Hh' & Honly).
      split_and!; [|by apply Hres|done|done| |done|done|done|done|].
      * by eapply si_finished_sub;
          [apply (vi_sched _ _ Hinv)|unfold vm_finished; set_solver].
      * rewrite (ri_done _ _ _ _ _ Hr) by set_solver.
        unfold terminal. by rewrite decide_False.
      * intros b Hb.
        assert (b ∉ vm.submitted st) as Hsub.
        { eapply (sched_inv_blocked _ _ (edges_known _));
            [apply (vi_sched _ _ Hinv)| |].
          - unfold vm_released. rewrite elem_of_union, elem_of_filter.
            intros [Hc|[? _]]; [done|congruence].
          - eapply tc_mono; [|done]. intros ??. by apply elem_of_edges. }
        split; [done|]. intros Hev. apply Hsub. by apply (vi_events _ _ Hinv).
    + intros a Ha Hfail Hh'.
      assert (a ∈ vm.failed st → x = vm.Aborted a) as Hmark.
      { intros Hf. apply (vm_failing_finished env bytecode x st a Hex Hfail);
          [unfold vm_finished; set_solver|done]. }
      destruct (vm_submitted_finished env bytecode x st a Hex Ha)
        as [Hfin|[[a' ->]| ->]].
      * left. exists a.
        destruct (vm_failing_finished env bytecode x st a Hex Hfail Hfin)
          as [Hf Hx]. split; [by apply Hx|done].
      * left. exists a'. split; [done|]. split.
        -- intros Hf. specialize (Hmark Hf). by injection Hmark as ->.
        -- intros ->. by destruct Hout as (_ & _ & _ & _ & _ & ? & _).
      * right. split_and!; [done| |].
        -- destruct Hout as (_ & _ & _ & ev & tick & -> & _). done.
        -- intros Hf. by specialize (Hmark Hf).
    + intros a Ha Hnodep Hknown Hfail Hh'.
      destruct (vm_initial_finished env bytecode x st a Hex Hknown Ha Hnodep)
        as [Hfin|?]; [|done].
      exists a.
      by apply (vm_failing_finished env bytecode x st a Hex Hfail Hfin).
    + intros Hna. destruct x as [e| |a| | |].
      * destruct Hout as [-> _]. split; [done|].
        by intros n ?%not_elem_of_empty.
      * destruct Hout as (_ & _ & Hf & Hc). split; [done|]. rewrite Hf.
        by intros n ?%not_elem_of_empty.
      * by destruct (Hna a).
      * by destruct Hout as (_ & _ & Hl & _).
      * by destruct Hout as (_ & _ & Hl & _).
      * by destruct Hout as (_ & _ & Hl & _).
  - intros env ir _.
    destruct (rt_execute_spec env ir) as (x & st & Hex & Hout).
    exists x, st. split; [done|].
    pose proof (rt_execute_results env ir x st Hex) as [_ Hres].
    split_and!.
    + intros a ->.
      destruct Hout as (_ & _ & Hinv & Hrun & Hcan & Ha & Hnc & Hh' & Honly).
      split_and!; [|by apply Hres|done..|].
      * by eapply si_finished_sub; [apply Hinv|unfold rt_finished; set_solver].
      * intros b Hb.
        eapply (sched_inv_blocked _ _ (rt_edges_known ir)); [apply Hinv|done|].
        eapply tc_mono; [|done]. intros ??. by apply elem_of_edges.
    + intros a Ha Hfail Hh'.
      assert (a ∈ runtime_parallel.failed st → x = runtime_parallel.Aborted a)
        as Hmark.
      { intros Hf. apply (rt_failing_finished env ir x st a Hex Hfail);
          [unfold rt_finished; set_solver|done]. }
      destruct (rt_submitted_finished env ir x st a Hex Ha) as [Hfin|[a' ->]].
      * exists a.
        destruct (rt_failing_finished env ir x st a Hex Hfail Hfin)
          as [Hf Hx]. split; [by apply Hx|done].
      * exists a'. split; [done|]. split.
        -- intros Hf. specialize (Hmark Hf). by injection Hmark as ->.
        -- intros ->. by destruct Hout as (_ & _ & _ & _ & _ & ? & _).
    + intros a Ha Hnodep Hfail Hh'.
      pose proof (rt_initial_submitted env ir x st a Hex Ha Hnodep) as Hsub.
      destruct (rt_submitted_finished env ir x st a Hex Hsub) as [Hfin|?];
        [|done].
      exists a. by apply (rt_failing_finished env ir x st a Hex Hfail Hfin).
    + intros Hna. destruct x as [|a| |].
      * destruct Hout as (_ & _ & Hf & Hc). split; [done|]. rewrite Hf.
        by intros n ?%not_elem_of_empty.
      * by destruct (Hna a).
      * by destruct Hout as (_ & _ & Hl & _).
      * by destruct Hout as (_ & _ & Hl & _).
Qed.

Lemma unhandled_failure_aborts_witness :
  ∃ st, vm.execute a_fails_env unhandled_bytecode = Some (vm.Aborted "a", st)
        ∧ vm.cancelled st = true ∧ vm.running_futures st = []
        ∧ "b" ∉ vm.submitted st.
Proof.
  destruct unhandled_failure_aborts as [H _].
  destruct (H a_fails_env unhandled_bytecode) as (x & st & Hex & Hab & _);
    [reflexivity|].
  assert (vm.execute a_fails_env unhandled_bytecode
          = Some (vm.Aborted "a",
                  vm.mkState ∅ {["a"%string]} [] true
                    (<["b"%string := 1]> (<["a"%string := 0]> ∅))
                    [("a", Queued); ("a", Running); ("a", Failed)]%string
                    EmptyString ["a"%string])) as Hrun
    by (vm_compute; reflexivity).
  rewrite Hrun in Hex. injection Hex as <- <-.
  destruct (Hab "a"%string eq_refl)
    as (_ & _ & _ & _ & _ & Hc & Hr & _ & _ & Hb).
  eexists. split; [done|]. split_and!; [done..|].
  apply Hb. apply tc_once. exists (step_with "b" "true" ["a"] None).
  split_and!; [|done|simpl; set_solver].
  change (step_with "b" "true" ["a"] None
          ∈ [step_with "a" "false" [] None; step_with "b" "true" ["a"] None]).
  apply list_elem_of_further, list_elem_of_here.
Defined.

(** ** Handled failures, run by run *)



(** ** The results of [execute], run by run *)

(** With unique names the dict of the steps gives back each step. *)
Lemma foldl_insert_lookup_unique {A} (key : A → string) (l : list A)
    (m0 : gmap string A) (s : A) :
  NoDup (key <$> l) → s ∈ l →
  foldl (λ m x, <[key x := x]> m) m0 l !! key s = Some s.
Proof.
  revert m0. induction l as [|y l IH] using rev_ind; intros m0 Hnd Hs.
  - by apply not_elem_of_nil in Hs.
  - rewrite foldl_app. simpl. rewrite fmap_app in Hnd.
    apply NoDup_app in Hnd as (Hnd & Hdisj & _).
    apply elem_of_app in Hs as [Hs|Hs%list_elem_of_singleton].
    + rewrite lookup_insert_ne; [by apply IH|].
      intros Heq. apply (Hdisj (key s)).
      * apply list_elem_of_fmap. eauto.
      * rewrite <- Heq. simpl. apply list_elem_of_here.
    + subst y. by rewrite lookup_insert_eq.
Qed.

Lemma vm_raw_of_unique (bytecode : json) (s : json) :
  unique_names (vm.step_objs bytecode) → s ∈ vm.steps_raw bytecode →
  vm.raw_of bytecode (vm.raw_name s) = s.
Proof.
  unfold unique_names, vm.step_objs. rewrite <- list_fmap_compose.
  intros Hnd Hs. unfold vm.raw_of, vm.name_to_raw.
  by rewrite (foldl_insert_lookup_unique vm.raw_name _ ∅ s Hnd Hs).
Qed.







(** ** Status reports, run by run

    The events of the embedding are the reports the scheduler makes itself
    ([queued]) and those of the workers whose futures it has handled; what a
    worker reports whose future is never handled, after an abort or a
    cancel, is not in them.  A worker ends with a terminal report when the
    sandbox answers each of its calls and [retries] is an integer. *)



(** X7.  On bytecode of the format [emit_bytecode] writes whose step names
    are unique and whose dependencies are acyclic, and with a sandbox that
    answers every call: when [execute] leaves after its loop, every step of
    the bytecode was handed to the pool exactly once, under its name the
    worker ran this very step, and the step has its three reports, the last
    of which tells what its worker returned. *)
Theorem vm_runs_every_step_once (env : vm.environment) (bytecode : json)
    (x : vm.exit) (st : vm.state) :
  typed_bytecode bytecode = true →
  unique_names (vm.step_objs bytecode) →
  acyclic (vm.step_objs bytecode) →
  vm.execute env bytecode = Some (x, st) →
  x = vm.FinishedSuccessfully ∨ x = vm.FinishedWithFailures →
  vm.submitted st ≡ₚ vm.raw_name <$> vm.steps_raw bytecode
  ∧ ∀ s, s ∈ vm.steps_raw bytecode →
      vm.raw_of bytecode (vm.raw_name s) = s
      ∧ ∃ t, reports_of (vm.raw_name s) (vm.events st)
             = [(vm.raw_name s, Queued); (vm.raw_name s, Running);
                (vm.raw_name s, t)]
             ∧ ((t = Succeeded ∧ vm.raw_name s ∈ vm.completed st
                 ∧ vm_worker_ok env bytecode (vm.raw_name s) = true)
                ∨ (t = Failed ∧ vm.raw_name s ∈ vm.failed st
                   ∧ vm_worker_ok env bytecode (vm.raw_name s) = false
                   ∧ vm_has_handler bytecode (vm.raw_name s) = true)).
Proof.
  intros _ Hnd Hacyc Hex Hx.
  destruct (vm_execute_progress env bytecode x st Hex Hx) as [_ Hall].
  specialize (Hall Hacyc). unfold vm_finished in Hall.
  destruct (vm_execute_hist env bytecode x st Hex) as [Hh Hr].
  pose proof (vm_execute_results env bytecode x st Hex) as [Hok Hko].
  destruct (vm_finish_closed env bytecode x st Hex Hx) as (_ & Hhandler & _).
  assert (vm_inv bytecode st) as [Hs _].
  { destruct (vm_execute_spec env bytecode) as (x' & st' & Hex' & Hout).
    rewrite Hex in Hex'. injection Hex' as <- <-.
    destruct Hx as [-> | ->]; by destruct Hout as (? & _). }
  assert (name <$> vm.step_objs bytecode
          = vm.raw_name <$> vm.steps_raw bytecode) as Hnames
    by (unfold vm.step_objs; by rewrite <- list_fmap_compose).
  unfold unique_names in Hnd. rewrite Hnames in Hnd.
  split.
  - apply NoDup_Permutation; [by eapply si_submitted|done|].
    intros n. split.
    + intros Hn. rewrite <- Hnames.
      apply (elem_of_list_to_set (C := gset string)).
      by eapply si_known.
    + intros Hn. eapply si_finished_sub; [done|].
      unfold vm_finished. rewrite Hall. apply elem_of_list_to_set.
      by rewrite Hnames.
  - intros s Hs'. split.
    { apply vm_raw_of_unique; [|done]. unfold unique_names.
      by rewrite Hnames. }
    assert (vm.raw_name s ∈ vm.completed st ∪ vm.failed st) as Hin.
    { rewrite Hall. apply elem_of_list_to_set. rewrite Hnames.
      apply list_elem_of_fmap. by exists s. }
    exists (terminal (vm.completed st) (vm.raw_name s)).
    split; [by apply Hr|].
    unfold terminal. destruct (decide _) as [Hc|Hc].
    + left. split_and!; [done..|]. by apply Hok.
    + right. assert (vm.raw_name s ∈ vm.failed st) as Hf by set_solver.
      split_and!; [done..|by apply Hko|by apply Hhandler].
Qed.

Lemma vm_runs_every_step_once_witness :
  ∃ st, vm.execute a_fails_env (handled_bytecode [])
        = Some (vm.FinishedWithFailures, st)
        ∧ vm.submitted st ≡ₚ ["a"; "b"]%string.
Proof.
  exists (handled_final a_fails_env []).
  assert (acyclic (vm.step_objs (handled_bytecode []))) as Hacyc.
  { apply (acyclic_by_rank _
             (λ n, if decide (n = "a"%string) then 0 else 1)%nat).
    intros s d Hs Hd.
    change (s ∈ [step_with "a" "false" [] (Some "notify_ops"%string);
                 step_with "b" "true" ["a"] None]) in Hs.
    repeat (apply elem_of_cons in Hs as [->|Hs]); simpl in Hd.
    - by apply not_elem_of_nil in Hd.
    - apply list_elem_of_singleton in Hd as ->. vm_compute. lia.
    - by apply not_elem_of_nil in Hs. }
  assert (unique_names (vm.step_objs (handled_bytecode []))) as Hnd.
  { change (NoDup ["a"; "b"]%string). apply (bool_decide_unpack _).
    vm_compute. exact I. }
  assert (vm.execute a_fails_env (handled_bytecode [])
          = Some (vm.FinishedWithFailures, handled_final a_fails_env []))
    as Hex by (vm_compute; reflexivity).
  split; [done|].
  apply (vm_runs_every_step_once a_fails_env (handled_bytecode [])
           vm.FinishedWithFailures); [reflexivity|done|done|done|by right].
Defined.
